(** * Layout reconstruction engine: a shallow embedding

    The development follows the source units it verifies:

    - [Types]        the shared schema module with the coordinate transforms
                     ([transformLegacyToGrounding], [transformGroundingToLegacy]);
    - [PdfProcessor] the basic processor (pdf-processor.tsx): native extraction,
                     OCR with its three granularities, channel arbitration and
                     the line clusterer [groupNearbyTextChunks];
    - [Enhanced]     the enhanced processor: words, lines, blocks, semantic
                     regions, the chunk projection [generateTextChunks], the
                     markdown and the extraction result;
    - [SimpleProcessor] the line clusterer of the first processor;
    - [Viewer]       the handlers of the viewer components: chunk selection,
                     zoom, result navigation and results by page.

    [Binary64] holds the vocabulary of the rounding analysis and [Spec] the
    vocabulary of the statements; the properties follow them.

    JavaScript numbers are IEEE-754 binary64 values and are modelled by the
    kernel's primitive floats, so every arithmetic step and every comparison
    rounds and orders exactly as in the source.  Strings are sequences of
    UTF-16 code units.  Arrays are lists.  Awaited calls of collaborators
    (PDF.js, Tesseract) are given by their outcomes. *)

From Stdlib Require Import List Bool Arith NArith ZArith Lia Permutation Sorted.
From Stdlib Require Import String Ascii DecimalString.
From Stdlib Require DecimalNat DecimalFacts.
From Stdlib Require Import Floats Uint63.
From Stdlib Require Import Reals Lra.
Import ListNotations.

Set Warnings "-inexact-float".
Set Implicit Arguments.

(* ================================================================== *)
(** * The JavaScript base layer *)
(* ================================================================== *)

Module JS.

(** ** Numbers *)

Definition number := float.

(** [a < b], [a > b], [a <= b], [a >= b] of the source; each is false as
    soon as one side is NaN. *)
Definition lt (a b : number) : bool := PrimFloat.ltb a b.
Definition gt (a b : number) : bool := PrimFloat.ltb b a.
Definition le (a b : number) : bool := PrimFloat.leb a b.
Definition ge (a b : number) : bool := PrimFloat.leb b a.

(** Truthiness of a number: everything but [0], [-0] and [NaN]. *)
Definition truthy (a : number) : bool :=
  negb (PrimFloat.is_zero a || PrimFloat.is_nan a).

(** An array length or a counter seen as a number. *)
Definition ofNat (n : nat) : number :=
  PrimFloat.of_uint63 (Uint63.of_Z (Z.of_nat n)).

Definition Math_abs (a : number) : number := PrimFloat.abs a.

Definition isNegZero (a : number) : bool :=
  match PrimFloat.classify a with NZero => true | _ => false end.

(** [Math.max(a, b)]: NaN as soon as one argument is NaN, and [+0] above
    [-0]. *)
Definition Math_max (a b : number) : number :=
  if PrimFloat.is_nan a || PrimFloat.is_nan b then nan
  else if PrimFloat.ltb a b then b
  else if PrimFloat.ltb b a then a
  else if isNegZero a then b else a.

Definition Math_min (a b : number) : number :=
  if PrimFloat.is_nan a || PrimFloat.is_nan b then nan
  else if PrimFloat.ltb a b then a
  else if PrimFloat.ltb b a then b
  else if isNegZero a then a else b.

(** [Math.min(...xs)] and [Math.max(...xs)]; on no argument they are
    [+Infinity] and [-Infinity]. *)
Definition Math_min_all (xs : list number) : number :=
  fold_left Math_min xs infinity.
Definition Math_max_all (xs : list number) : number :=
  fold_left Math_max xs neg_infinity.

(** ** Strings: sequences of UTF-16 code units *)

Definition codeunit := N.
Definition jsstring := list codeunit.

(** A literal of the source. *)
Definition str (s : string) : jsstring :=
  map N_of_ascii (list_ascii_of_string s).

(** Template interpolation of a non-negative integer: its decimal digits. *)
Definition ofIndex (n : nat) : jsstring :=
  str (NilZero.string_of_uint (Nat.to_uint n)).

(** The code units [\s] matches, which are also the ones [trim] strips:
    WhiteSpace and LineTerminator of the language specification. *)
Definition isWhiteSpace (c : codeunit) : bool :=
  ((9 <=? c) && (c <=? 13) || (c =? 32) || (c =? 160) || (c =? 5760)
   || (8192 <=? c) && (c <=? 8202) || (c =? 8232) || (c =? 8233)
   || (c =? 8239) || (c =? 8287) || (c =? 12288) || (c =? 65279))%N.

(** [\w]: ASCII letters, digits and the underscore. *)
Definition isWordChar (c : codeunit) : bool :=
  ((48 <=? c) && (c <=? 57) || (65 <=? c) && (c <=? 90)
   || (97 <=? c) && (c <=? 122) || (c =? 95))%N.

Fixpoint trimStart (s : jsstring) : jsstring :=
  match s with
  | [] => []
  | c :: t => if isWhiteSpace c then trimStart t else s
  end.

Definition trimEnd (s : jsstring) : jsstring := rev (trimStart (rev s)).

Definition trim (s : jsstring) : jsstring := trimEnd (trimStart s).

Definition space : codeunit := 32%N.
Definition newline : codeunit := 10%N.

(** [s.replace(/\s+/g, ' ')]: every maximal run of white space becomes one
    space.  [inRun] tells that the previous code unit was white space. *)
Fixpoint replaceWsRuns (inRun : bool) (s : jsstring) : jsstring :=
  match s with
  | [] => []
  | c :: t =>
      if isWhiteSpace c
      then (if inRun then replaceWsRuns true t
            else space :: replaceWsRuns true t)
      else c :: replaceWsRuns false t
  end.

Definition collapseWhiteSpace (s : jsstring) : jsstring :=
  replaceWsRuns false s.

(** [parts.join(sep)]. *)
Fixpoint join (sep : jsstring) (parts : list jsstring) : jsstring :=
  match parts with
  | [] => []
  | [p] => p
  | p :: rest => p ++ sep ++ join sep rest
  end.

(** [s.split(sep)] for a separator of one code unit: the pieces between
    the separators, [['']] for the empty string. *)
Fixpoint split (sep : codeunit) (s : jsstring) : list jsstring :=
  match s with
  | [] => [[]]
  | c :: t =>
      if (c =? sep)%N then [] :: split sep t
      else match split sep t with
           | piece :: pieces => (c :: piece) :: pieces
           | [] => [[c]]
           end
  end.

(** ** Arrays *)

(** The pairs (index, element) a [forEach] callback receives. *)
Definition indexed {A : Type} (xs : list A) : list (nat * A) :=
  combine (seq 0 (List.length xs)) xs.

(** [Array.prototype.sort(comparefn)] is a stable sort; [comparefn a b]
    negative puts [a] first, positive puts [b] first, and a NaN result
    counts as zero.  The model is the stable insertion sort.  When
    [comparefn] is a consistent comparator the result of a stable sort is
    unique, so the model agrees with every engine; for an inconsistent
    comparator the language leaves the order to the implementation and the
    model picks this one.  The properties below that depend on the order
    are stated for a consistent comparator, or for every order of the
    elements. *)
Section Sort.
Variable A : Type.
Variable comparefn : A -> A -> number.

Fixpoint insertSorted (x : A) (sorted : list A) : list A :=
  match sorted with
  | [] => [x]
  | h :: t =>
      if gt (comparefn h x) 0%float then x :: h :: t
      else h :: insertSorted x t
  end.

Definition sort (xs : list A) : list A :=
  fold_left (fun acc x => insertSorted x acc) xs [].
End Sort.

(** ** Exceptions

    A computation either returns a value or throws. *)
Inductive result (A : Type) : Type :=
| Ok (a : A)
| Throw (e : jsstring).
Arguments Ok {A} a.
Arguments Throw {A} e.

Definition bind {A B} (m : result A) (k : A -> result B) : result B :=
  match m with
  | Ok a => k a
  | Throw e => Throw e
  end.

(** [try { body } catch (e) { handler(e) }]. *)
Definition tryCatch {A} (body : result A) (handler : jsstring -> result A)
  : result A :=
  match body with
  | Ok a => Ok a
  | Throw e => handler e
  end.

(** [try { body } finally { cleanup }]: a throwing [cleanup] replaces the
    outcome of [body]. *)
Definition tryFinally {A} (body : result A) (cleanup : result unit)
  : result A :=
  match cleanup with
  | Ok _ => body
  | Throw e => Throw e
  end.

End JS.

Notation "x <- m ;; k" := (JS.bind m (fun x => k))
(at level 61, m at next level, right associativity).

(* ================================================================== *)
(** * The schema module and its coordinate transforms *)
(* ================================================================== *)

Module Types.
Import JS.

(** The four operations the transforms apply to coordinates.  The program
    runs them on binary64 numbers ([floatArith]). *)
Class Arith (T : Type) : Type := {
  add : T -> T -> T;
  sub : T -> T -> T;
  mul : T -> T -> T;
  div : T -> T -> T
}.

#[export] Instance floatArith : Arith number := {|
  add := PrimFloat.add;
  sub := PrimFloat.sub;
  mul := PrimFloat.mul;
  div := PrimFloat.div
|}.

(** [boundingBoxSchema]: normalized box with top-left origin. *)
Module BoundingBox.
Record record : Type := mk {
  x : number;
  y : number;
  width : number;
  height : number
}.
End BoundingBox.
Definition BoundingBox := BoundingBox.record.

(** [wordSchema]. *)
Module Word.
Record record : Type := mk {
  text : jsstring;
  bbox : BoundingBox;
  confidence : number;
  fontFamily : option jsstring;
  fontSize : option number
}.
End Word.
Definition Word := Word.record.

Inductive Alignment : Type := al_left | al_center | al_right | al_justify.

(** [lineSchema]. *)
Module Line.
Record record : Type := mk {
  id : jsstring;
  words : list Word;
  bbox : BoundingBox;
  readingOrder : nat;
  alignment : option Alignment
}.
End Line.
Definition Line := Line.record.

Inductive BlockType : Type :=
| bt_paragraph | bt_heading | bt_list | bt_table | bt_image | bt_line
| bt_footer | bt_header | bt_form_field | bt_signature | bt_logo | bt_caption.

(** [blockSchema]. *)
Module Block.
Record record : Type := mk {
  id : jsstring;
  type : BlockType;
  bbox : BoundingBox;
  lines : list Line;
  confidence : number;
  readingOrder : option nat;
  semanticRole : option jsstring
}.
End Block.
Definition Block := Block.record.

Inductive RegionType : Type :=
| rt_header | rt_footer | rt_main_content | rt_sidebar | rt_navigation
| rt_form | rt_table | rt_figure.

(** An element of [semanticRegions] in [pageSchema]. *)
Module SemanticRegion.
Record record : Type := mk {
  id : jsstring;
  type : RegionType;
  bbox : BoundingBox;
  confidence : number;
  blockIds : list jsstring
}.
End SemanticRegion.
Definition SemanticRegion := SemanticRegion.record.

Module Coverage.
Record record : Type := mk {
  pdfNativeWords : nat;
  ocrWords : nat;
  reconciledWords : nat;
  coveragePercent : number
}.
End Coverage.
Definition Coverage := Coverage.record.

(** [pageSchema]. *)
Module Page.
Record record : Type := mk {
  pageNumber : number;
  width : number;
  height : number;
  words : list Word;
  lines : list Line;
  blocks : list Block;
  coverage : Coverage;
  semanticRegions : list SemanticRegion
}.
End Page.
Definition Page := Page.record.

(** [groundingBoxSchema]: the (l, t, r, b) form. *)
Module GroundingBox.
Record record (T : Type) : Type := mk {
  l : T;
  t : T;
  r : T;
  b : T
}.
End GroundingBox.
Definition GroundingBox := GroundingBox.record.

(** [groundingSchema]. *)
Module Grounding.
Record record (T : Type) : Type := mk {
  page : number;
  box : GroundingBox T
}.
End Grounding.
Definition Grounding := Grounding.record.

Inductive ChunkType : Type :=
| ct_text | ct_table | ct_figure | ct_title | ct_header | ct_footer
| ct_list | ct_caption | ct_form_field.

(** [textChunkSchema]. *)
Module TextChunk.
Record record (T : Type) : Type := mk {
  text : jsstring;
  chunk_id : jsstring;
  chunk_type : ChunkType;
  grounding : list (Grounding T);
  confidence : option number;
  semantic_role : option jsstring
}.
End TextChunk.
Definition TextChunk := TextChunk.record.

Module Geometry.
Record record (T : Type) : Type := mk {
  x : T;
  y : T;
  w : T;
  h : T
}.
End Geometry.
Definition Geometry := Geometry.record.

(** [LegacyTextChunk]. *)
Module LegacyTextChunk.
Record record (T : Type) : Type := mk {
  id : jsstring;
  text : jsstring;
  pageNumber : number;
  geometry : Geometry T
}.
End LegacyTextChunk.
Definition LegacyTextChunk := LegacyTextChunk.record.

Section Transforms.
Context {T : Type} {arith : Arith T}.

Definition transformLegacyToGrounding
  (legacyChunk : LegacyTextChunk T) (pageWidth pageHeight : T) : TextChunk T :=
  let g := LegacyTextChunk.geometry legacyChunk in
  let normalizedBox : GroundingBox T := {|
    GroundingBox.l := div (Geometry.x g) pageWidth;
    GroundingBox.t := div (Geometry.y g) pageHeight;
    GroundingBox.r := div (add (Geometry.x g) (Geometry.w g)) pageWidth;
    GroundingBox.b := div (add (Geometry.y g) (Geometry.h g)) pageHeight
  |} in
  {| TextChunk.chunk_id := LegacyTextChunk.id legacyChunk;
     TextChunk.text := LegacyTextChunk.text legacyChunk;
     TextChunk.chunk_type := ct_text;
     TextChunk.grounding :=
       [ {| Grounding.page :=
              (LegacyTextChunk.pageNumber legacyChunk - 1)%float;
            Grounding.box := normalizedBox |} ];
     TextChunk.confidence := Some 0.8%float;
     TextChunk.semantic_role := None |}.

(** [textChunk.grounding[0]] is [undefined] on an empty array and reading
    [.box] of it throws a TypeError. *)
Definition transformGroundingToLegacy
  (textChunk : TextChunk T) (pageWidth pageHeight : T)
  : result (LegacyTextChunk T) :=
  match TextChunk.grounding textChunk with
  | [] => Throw (str "TypeError: Cannot read properties of undefined")
  | grounding :: _ =>
      let box := Grounding.box grounding in
      Ok {| LegacyTextChunk.id := TextChunk.chunk_id textChunk;
            LegacyTextChunk.text := TextChunk.text textChunk;
            LegacyTextChunk.pageNumber := (Grounding.page grounding + 1)%float;
            LegacyTextChunk.geometry := {|
              Geometry.x := mul (GroundingBox.l box) pageWidth;
              Geometry.y := mul (GroundingBox.t box) pageHeight;
              Geometry.w :=
                mul (sub (GroundingBox.r box) (GroundingBox.l box)) pageWidth;
              Geometry.h :=
                mul (sub (GroundingBox.b box) (GroundingBox.t box)) pageHeight
            |} |}
  end.

End Transforms.

End Types.

(* ================================================================== *)
(** * The basic processor (pdf-processor.tsx) *)
(* ================================================================== *)

Module PdfProcessor.
Import JS.
Local Open Scope float_scope.

(** Boxes of this unit are in percentage units of the page. *)
Module Geometry.
Record record : Type := mk {
  x : number;
  y : number;
  w : number;
  h : number
}.
End Geometry.
Definition Geometry := Geometry.record.

(** The unit's own [TextChunk].  [pageNumber] is the page counter of the
    component, a positive integer. *)
Module TextChunk.
Record record : Type := mk {
  id : jsstring;
  text : jsstring;
  pageNumber : nat;
  geometry : Geometry
}.
End TextChunk.
Definition TextChunk := TextChunk.record.

Module PageData.
Record record : Type := mk {
  pageNumber : nat;
  imageUrl : jsstring;
  textChunks : list TextChunk
}.
End PageData.
Definition PageData := PageData.record.

(** The range test both channels apply to a candidate box. *)
Definition inPageRange (x y w h : number) : bool :=
  ge x 0 && ge y 0 && gt w 0 && gt h 0 && lt x 100 && lt y 100
  && le (x + w) 100 && le (y + h) 100.

(** ** Native channel: the text items of PDF.js *)

(** A PDF.js text item; [transform] is the item's matrix when it has one.
    Reading an index the array does not have gives [undefined], which is NaN
    in arithmetic. *)
Module TextItem.
Record record : Type := mk {
  str : jsstring;
  transform : option (list number);
  width : number;
  height : number
}.
End TextItem.
Definition TextItem := TextItem.record.

Definition at_index (xs : list number) (i : nat) : number := nth i xs nan.

Definition pdfChunkId (pageNum chunkIndex : nat) : jsstring :=
  (JS.str "page-" ++ ofIndex pageNum ++ JS.str "-pdf-" ++ ofIndex chunkIndex)%list.

(** One step of the [forEach] over [textContent.items]; the state is the
    array built so far and [chunkIndex]. *)
Definition pushPdfItem (pageNum : nat) (vpWidth vpHeight : number)
  (st : list TextChunk * nat) (item : TextItem) : list TextChunk * nat :=
  let '(pdfTextChunks, chunkIndex) := st in
  match TextItem.transform item with
  | Some transform =>
      if (0 <? List.length (trim (TextItem.str item)))%nat
         && truthy (TextItem.width item) && truthy (TextItem.height item)
      then
        let x := (at_index transform 4 / vpWidth) * 100 in
        let y := ((vpHeight - at_index transform 5 - TextItem.height item)
                  / vpHeight) * 100 in
        let w := (TextItem.width item / vpWidth) * 100 in
        let h := (TextItem.height item / vpHeight) * 100 in
        if inPageRange x y w h
        then ((pdfTextChunks ++
                [ {| TextChunk.id := pdfChunkId pageNum chunkIndex;
                     TextChunk.text := trim (TextItem.str item);
                     TextChunk.pageNumber := pageNum;
                     TextChunk.geometry :=
                       {| Geometry.x := x; Geometry.y := y;
                          Geometry.w := w; Geometry.h := h |} |} ])%list,
              S chunkIndex)
        else st
      else st
  | None => st
  end.

(** [textContent] may be missing, or have no [items]. *)
Definition extractPdfTextChunks (pageNum : nat) (vpWidth vpHeight : number)
  (items : option (list TextItem)) : list TextChunk :=
  match items with
  | Some items => fst (fold_left (pushPdfItem pageNum vpWidth vpHeight) items ([], 0%nat))
  | None => []
  end.

(** ** OCR channel *)

Module BBox.
Record record : Type := mk {
  x0 : number;
  y0 : number;
  x1 : number;
  y1 : number
}.
End BBox.
Definition BBox := BBox.record.

(** A recognised word or line. *)
Module OcrItem.
Record record : Type := mk {
  text : jsstring;
  confidence : number;
  bbox : option BBox
}.
End OcrItem.
Definition OcrItem := OcrItem.record.

(** [data] of [worker.recognize]; [words] and [lines] are [None] when the
    property is missing or not an array. *)
Module OcrData.
Record record : Type := mk {
  text : jsstring;
  words : option (list OcrItem);
  lines : option (list OcrItem)
}.
End OcrData.
Definition OcrData := OcrData.record.

Module Img.
Record record : Type := mk {
  width : number;
  height : number
}.
End Img.
Definition Img := Img.record.

Definition ocrGeometry (img : Img) (bbox : BBox) : Geometry :=
  {| Geometry.x := (BBox.x0 bbox / Img.width img) * 100;
     Geometry.y := (BBox.y0 bbox / Img.height img) * 100;
     Geometry.w := ((BBox.x1 bbox - BBox.x0 bbox) / Img.width img) * 100;
     Geometry.h := ((BBox.y1 bbox - BBox.y0 bbox) / Img.height img) * 100 |}.

(** The acceptance filter of a word or a line: non-blank text, a confidence
    above 30, a box, and the box inside the page. *)
Definition accepted (img : Img) (item : OcrItem) : bool :=
  (0 <? List.length (trim (OcrItem.text item)))%nat
  && truthy (OcrItem.confidence item) && gt (OcrItem.confidence item) 30
  && match OcrItem.bbox item with
     | Some bbox =>
         let g := ocrGeometry img bbox in
         inPageRange (Geometry.x g) (Geometry.y g) (Geometry.w g) (Geometry.h g)
     | None => false
     end.

Definition ocrWordId (pageNum chunkIndex : nat) : jsstring :=
  (JS.str "page-" ++ ofIndex pageNum ++ JS.str "-ocr-" ++ ofIndex chunkIndex)%list.
Definition ocrLineId (pageNum chunkIndex : nat) : jsstring :=
  (JS.str "page-" ++ ofIndex pageNum ++ JS.str "-ocr-line-" ++ ofIndex chunkIndex)%list.
Definition ocrFullId (pageNum : nat) : jsstring :=
  (JS.str "page-" ++ ofIndex pageNum ++ JS.str "-ocr-full")%list.

(** One step of the [forEach] over words (with [ocrWordId]) or over lines
    (with [ocrLineId]); the state is [textChunks] and [chunkIndex]. *)
Definition pushOcrItem (mkId : nat -> nat -> jsstring) (img : Img)
  (pageNum : nat) (st : list TextChunk * nat) (item : OcrItem)
  : list TextChunk * nat :=
  let '(textChunks, chunkIndex) := st in
  if accepted img item then
    match OcrItem.bbox item with
    | Some bbox =>
        ((textChunks ++
           [ {| TextChunk.id := mkId pageNum chunkIndex;
                TextChunk.text := trim (OcrItem.text item);
                TextChunk.pageNumber := pageNum;
                TextChunk.geometry := ocrGeometry img bbox |} ])%list,
         S chunkIndex)
    | None => st
    end
  else st.

Definition pushOcrItems (mkId : nat -> nat -> jsstring) (img : Img)
  (pageNum : nat) (items : option (list OcrItem))
  (st : list TextChunk * nat) : list TextChunk * nat :=
  match items with
  | Some items => fold_left (pushOcrItem mkId img pageNum) items st
  | None => st
  end.

Definition fullPageChunk (pageNum : nat) (text : jsstring) : TextChunk :=
  {| TextChunk.id := ocrFullId pageNum;
     TextChunk.text := trim text;
     TextChunk.pageNumber := pageNum;
     TextChunk.geometry :=
       {| Geometry.x := 5; Geometry.y := 5; Geometry.w := 90; Geometry.h := 90 |} |}.

(** The part of [performOCR] after the image has loaded: "Process recognized
    text data". *)
Definition recognizedChunks (data : option OcrData) (img : Img) (pageNum : nat)
  : list TextChunk :=
  match data with
  | Some data =>
      if (0 <? List.length (trim (OcrData.text data)))%nat then
        let st0 : list TextChunk * nat := ([], 0%nat) in
        (* Try to use word-level data if available *)
        let st1 := pushOcrItems ocrWordId img pageNum (OcrData.words data) st0 in
        (* If word-level didn't work, try line-level *)
        let st2 :=
          if (List.length (fst st1) =? 0)%nat
          then pushOcrItems ocrLineId img pageNum (OcrData.lines data) st1
          else st1 in
        (* If nothing worked, create a single chunk for the whole page *)
        if (List.length (fst st2) =? 0)%nat
           && (0 <? List.length (trim (OcrData.text data)))%nat
        then (fst st2 ++ [fullPageChunk pageNum (OcrData.text data)])%list
        else fst st2
      else []
  | None => []
  end.

(** What the OCR collaborator does during one call of [performOCR]: the
    outcome of each awaited step. *)
Module OcrRun.
Record record : Type := mk {
  createWorker : result unit;
  setParameters : result unit;
  recognize : result (option OcrData);
  loadImage : result Img;
  terminate : result unit
}.
End OcrRun.
Definition OcrRun := OcrRun.record.

(** [createWorker] is awaited before the [try]; everything up to the
    [return] is inside it, its [catch] returns the empty array, and
    [worker.terminate()] runs in the [finally]. *)
Definition performOCR (run : OcrRun) (pageNum : nat) : result (list TextChunk) :=
  _ <- OcrRun.createWorker run ;;
  tryFinally
    (tryCatch
       (_ <- OcrRun.setParameters run ;;
        data <- OcrRun.recognize run ;;
        img <- OcrRun.loadImage run ;;
        Ok (recognizedChunks data img pageNum))
       (fun _ => Ok []))
    (OcrRun.terminate run).

(** ** Channel arbitration *)

Definition sumTextLength (chunks : list TextChunk) : number :=
  fold_left (fun sum chunk => sum + ofNat (List.length (TextChunk.text chunk)))
            chunks 0.

Definition avgTextLength (chunks : list TextChunk) : number :=
  sumTextLength chunks / ofNat (List.length chunks).

(** [/[^\w\s.,!?;:()-]/.test(s)]. *)
Definition isPlainChar (c : codeunit) : bool :=
  isWordChar c || isWhiteSpace c
  || existsb (N.eqb c) (JS.str ".,!?;:()-").

Definition hasSpecialChar (s : jsstring) : bool :=
  existsb (fun c => negb (isPlainChar c)) s.

(** Determine if we should use OCR based on PDF.js results quality. *)
Definition shouldUseOCR (pdfChunks : list TextChunk) : bool :=
  if (List.length pdfChunks =? 0)%nat then true
  else
    let avgTextLength := avgTextLength pdfChunks in
    let hasLongWords :=
      existsb (fun chunk => (20 <? List.length (TextChunk.text chunk))%nat)
              pdfChunks in
    let hasSpecialChars :=
      existsb (fun chunk => hasSpecialChar (TextChunk.text chunk)) pdfChunks in
    lt avgTextLength 3
    || (negb hasLongWords && (50 <? List.length pdfChunks)%nat)
    || hasSpecialChars.

(** Compare quality of OCR vs PDF.js results. *)
Definition hasHigherQuality (ocrChunks pdfChunks : list TextChunk) : bool :=
  if (List.length ocrChunks =? 0)%nat then false
  else if (List.length pdfChunks =? 0)%nat then true
  else
    let ocrAvgLength := avgTextLength ocrChunks in
    let pdfAvgLength := avgTextLength pdfChunks in
    gt ocrAvgLength (pdfAvgLength * 1.2)
    || gt (ofNat (List.length ocrChunks)) (ofNat (List.length pdfChunks) * 1.5).

(** The guard of [onPageLoadSuccess] that runs OCR. *)
Definition ocrTriggered (pdfTextChunks : list TextChunk) : bool :=
  (List.length pdfTextChunks <? 10)%nat || shouldUseOCR pdfTextChunks.

(** The guard that replaces the native chunks by the OCR chunks. *)
Definition ocrSelected (ocrChunks pdfTextChunks : list TextChunk) : bool :=
  (List.length pdfTextChunks <? List.length ocrChunks)%nat
  || hasHigherQuality ocrChunks pdfTextChunks.

(** ** The line clusterer *)

Definition compareByPosition (a b : TextChunk) : number :=
  let yDiff := Geometry.y (TextChunk.geometry a)
               - Geometry.y (TextChunk.geometry b) in
  if lt (Math_abs yDiff) 0.8
  then Geometry.x (TextChunk.geometry a) - Geometry.x (TextChunk.geometry b)
  else yDiff.

Definition lineThreshold : number := 1.2.
Definition wordThreshold : number := 3.
Definition maxGapThreshold : number := 15.

Definition shouldMerge (lastGroup chunk : TextChunk) : bool :=
  let cg := TextChunk.geometry chunk in
  let lg := TextChunk.geometry lastGroup in
  let verticalDistance := Math_abs (Geometry.y cg - Geometry.y lg) in
  let horizontalDistance := Geometry.x cg - (Geometry.x lg + Geometry.w lg) in
  let onSameLine := lt verticalDistance lineThreshold in
  let closeHorizontally :=
    ge horizontalDistance 0 && lt horizontalDistance wordThreshold in
  let notTooFar := lt horizontalDistance maxGapThreshold in
  let sameFontSize := lt (Math_abs (Geometry.h cg - Geometry.h lg)) 0.5 in
  let reasonableTextLength :=
    ((List.length (TextChunk.text chunk) <? 50)%nat
     && (List.length (TextChunk.text lastGroup) <? 200)%nat) in
  onSameLine && closeHorizontally && notTooFar && sameFontSize
  && reasonableTextLength.

(** The assignments of the merge branch, in the order of the source: the
    second value of [h] is computed from the first. *)
Definition mergeInto (lastGroup chunk : TextChunk) : TextChunk :=
  let cg := TextChunk.geometry chunk in
  let lg := TextChunk.geometry lastGroup in
  let horizontalDistance := Geometry.x cg - (Geometry.x lg + Geometry.w lg) in
  let separator := if gt horizontalDistance 1 then [space] else [] in
  let text := (TextChunk.text lastGroup ++ separator ++ TextChunk.text chunk)%list in
  let w := Geometry.x cg + Geometry.w cg - Geometry.x lg in
  let h1 := Math_max (Geometry.h lg) (Geometry.h cg) in
  let minY := Math_min (Geometry.y lg) (Geometry.y cg) in
  let maxH :=
    Math_max (Geometry.y lg + h1) (Geometry.y cg + Geometry.h cg) - minY in
  {| TextChunk.id := TextChunk.id lastGroup;
     TextChunk.text := text;
     TextChunk.pageNumber := TextChunk.pageNumber lastGroup;
     TextChunk.geometry :=
       {| Geometry.x := Geometry.x lg; Geometry.y := minY;
          Geometry.w := w; Geometry.h := maxH |} |}.

(** One step of the [forEach] for [index > 0].  The state is [grouped], kept
    as the groups before the last one and [lastGroup]. *)
Definition groupStep (st : list TextChunk * TextChunk) (chunk : TextChunk)
  : list TextChunk * TextChunk :=
  let '(closed, lastGroup) := st in
  if shouldMerge lastGroup chunk
  then (closed, mergeInto lastGroup chunk)
  else ((closed ++ [lastGroup])%list, chunk).

Definition groupSorted (sortedChunks : list TextChunk) : list TextChunk :=
  match sortedChunks with
  | [] => []
  | first :: rest =>
      let '(closed, lastGroup) := fold_left groupStep rest ([], first) in
      (closed ++ [lastGroup])%list
  end.

(** The post-processing filter and map. *)
Definition keepGroup (chunk : TextChunk) : bool :=
  let isValidSize :=
    gt (Geometry.w (TextChunk.geometry chunk)) 0.1
    && gt (Geometry.h (TextChunk.geometry chunk)) 0.1 in
  let hasValidText := (0 <? List.length (trim (TextChunk.text chunk)))%nat in
  let notTooLong := (List.length (TextChunk.text chunk) <? 500)%nat in
  isValidSize && hasValidText && notTooLong.

Definition cleanText (chunk : TextChunk) : TextChunk :=
  {| TextChunk.id := TextChunk.id chunk;
     TextChunk.text := trim (collapseWhiteSpace (TextChunk.text chunk));
     TextChunk.pageNumber := TextChunk.pageNumber chunk;
     TextChunk.geometry := TextChunk.geometry chunk |}.

(** Group nearby text chunks.  The groups are copies ([{ ...chunk }]) whose
    [geometry] object is still the one of the chunk they were copied from;
    the merge branch writes to it, which changes the chunk the group started
    from and no other, since every chunk of the processor is built with a
    geometry object of its own.  The values computed are those below. *)
Definition groupNearbyTextChunks (chunks : list TextChunk) : list TextChunk :=
  if (List.length chunks =? 0)%nat then []
  else
    let sortedChunks := sort compareByPosition chunks in
    let grouped := groupSorted sortedChunks in
    map cleanText (filter keepGroup grouped).

(** ** One page *)

(** What the page object and the OCR collaborator do during one call of
    [onPageLoadSuccess]: whether the canvas gives a 2d context, the outcome
    of [page.render], the image of the canvas, the outcome of
    [getTextContent], the viewport at scale 1 and the OCR run.
    [getViewport], [toDataURL] and the progress callback are taken to
    return, and a thrown value is an [Error], given by its message. *)
Module PageRun.
Record record : Type := mk {
  context : bool;
  render : result unit;
  imageUrl : jsstring;
  getTextContent : result (option (list TextItem));
  viewportWidth : number;
  viewportHeight : number;
  ocr : OcrRun
}.
End PageRun.
Definition PageRun := PageRun.record.

(** The chunks kept after arbitration.  A throwing [performOCR] is caught
    and leaves the native chunks. *)
Definition arbitrate (run : OcrRun) (pageNum : nat)
  (pdfTextChunks : list TextChunk) : result (list TextChunk) :=
  if ocrTriggered pdfTextChunks then
    tryCatch
      (ocrChunks <- performOCR run pageNum ;;
       Ok (if ocrSelected ocrChunks pdfTextChunks
           then ocrChunks else pdfTextChunks))
      (fun _ => Ok pdfTextChunks)
  else Ok pdfTextChunks.

(** The body of the outer [try] up to the page record handed to the state
    update.  Progress callbacks only report and are left out. *)
Definition processPage (run : PageRun) (pageNum : nat) : result PageData :=
  _ <- (if PageRun.context run then Ok tt
        else Throw (JS.str "Failed to get canvas context")) ;;
  _ <- PageRun.render run ;;
  textContent <- PageRun.getTextContent run ;;
  let pdfTextChunks :=
    extractPdfTextChunks pageNum (PageRun.viewportWidth run)
                         (PageRun.viewportHeight run) textContent in
  finalTextChunks <- arbitrate (PageRun.ocr run) pageNum pdfTextChunks ;;
  Ok {| PageData.pageNumber := pageNum;
        PageData.imageUrl := PageRun.imageUrl run;
        PageData.textChunks := groupNearbyTextChunks finalTextChunks |}.

(** A page either hands its record on or reports an error through
    [onError].  The [catch] reports the message of the [Error] thrown; for
    a thrown value that is not an [Error] the source reports a fixed text,
    a case no outcome of [PageRun] produces. *)
Inductive PageOutcome : Type :=
| PageDone (pageData : PageData)
| PageError (errorMessage : jsstring).

Definition onPageLoadSuccess (run : PageRun) (pageNum : nat) : PageOutcome :=
  match processPage run pageNum with
  | Ok pageData => PageDone pageData
  | Throw e => PageError e
  end.

End PdfProcessor.

(* ================================================================== *)
(** * The enhanced processor *)
(* ================================================================== *)

Module Enhanced.
Import JS.
Import Types.
Local Open Scope float_scope.

(** A word of the OCR result, in canvas pixels. *)
Module OcrWord.
Record record : Type := mk {
  text : jsstring;
  confidence : number;
  bbox : option PdfProcessor.BBox
}.
End OcrWord.
Definition OcrWord := OcrWord.record.

Module Canvas.
Record record : Type := mk {
  width : number;
  height : number
}.
End Canvas.
Definition Canvas := Canvas.record.

(** ** Words *)

Definition normalizedWord (canvas : Canvas) (ocrWord : OcrWord)
  (bbox : PdfProcessor.BBox) : Word :=
  {| Word.text := OcrWord.text ocrWord;
     Word.bbox :=
       {| BoundingBox.x := PdfProcessor.BBox.x0 bbox / Canvas.width canvas;
          BoundingBox.y := PdfProcessor.BBox.y0 bbox / Canvas.height canvas;
          BoundingBox.width :=
            (PdfProcessor.BBox.x1 bbox - PdfProcessor.BBox.x0 bbox)
            / Canvas.width canvas;
          BoundingBox.height :=
            (PdfProcessor.BBox.y1 bbox - PdfProcessor.BBox.y0 bbox)
            / Canvas.height canvas |};
     Word.confidence := OcrWord.confidence ocrWord / 100;
     Word.fontFamily := Some (JS.str "Arial");
     Word.fontSize := Some 12 |}.

Definition legacyWord (nanoid : jsstring) (pageNumber : number)
  (ocrWord : OcrWord) (bbox : PdfProcessor.BBox) : LegacyTextChunk number :=
  {| LegacyTextChunk.id := nanoid;
     LegacyTextChunk.text := OcrWord.text ocrWord;
     LegacyTextChunk.pageNumber := pageNumber;
     LegacyTextChunk.geometry :=
       {| Geometry.x := PdfProcessor.BBox.x0 bbox;
          Geometry.y := PdfProcessor.BBox.y0 bbox;
          Geometry.w := PdfProcessor.BBox.x1 bbox - PdfProcessor.BBox.x0 bbox;
          Geometry.h := PdfProcessor.BBox.y1 bbox - PdfProcessor.BBox.y0 bbox |} |}.

(** One step of the [forEach] over [data.words].  [nanoid k] is the
    identifier the [k]-th call of [nanoid()] returns. *)
Definition pushWord (nanoid : nat -> jsstring) (canvas : Canvas)
  (pageNumber : number)
  (st : list (LegacyTextChunk number) * list Word) (ocrWord : OcrWord)
  : list (LegacyTextChunk number) * list Word :=
  let '(legacyChunks, words) := st in
  match OcrWord.bbox ocrWord with
  | Some bbox =>
      if (0 <? List.length (trim (OcrWord.text ocrWord)))%nat then
        ((legacyChunks ++
           [legacyWord (nanoid (List.length legacyChunks)) pageNumber ocrWord bbox])%list,
         (words ++ [normalizedWord canvas ocrWord bbox])%list)
      else st
  | None => st
  end.

(** ** Lines *)

Definition compareWords (a b : Word) : number :=
  let yDiff := BoundingBox.y (Word.bbox a) - BoundingBox.y (Word.bbox b) in
  if lt (Math_abs yDiff) 0.01
  then BoundingBox.x (Word.bbox a) - BoundingBox.x (Word.bbox b)
  else yDiff.

(** The loop of [groupWordsIntoLines] from [i = 1]; [currentLine] is kept
    as its words before the last one and its last word. *)
Fixpoint linesLoop (rest : list Word) (lines : list (list Word))
  (currentInit : list Word) (lastWordInLine : Word) : list (list Word) :=
  match rest with
  | [] => (lines ++ [(currentInit ++ [lastWordInLine])])%list
  | currentWord :: rest' =>
      if lt (Math_abs (BoundingBox.y (Word.bbox currentWord)
                       - BoundingBox.y (Word.bbox lastWordInLine))) 0.02
      then linesLoop rest' lines (currentInit ++ [lastWordInLine])%list currentWord
      else linesLoop rest'
                     (lines ++ [(currentInit ++ [lastWordInLine])])%list
                     [] currentWord
  end.

Definition groupWordsIntoLines (words : list Word) : list (list Word) :=
  match sort compareWords words with
  | [] => []
  | first :: rest => linesLoop rest [] [] first
  end.

(** The part of [groupWordsIntoLines] after the sort, on the array
    [sortedWords]. *)
Definition linesOfSorted (sortedWords : list Word) : list (list Word) :=
  match sortedWords with
  | [] => []
  | first :: rest => linesLoop rest [] [] first
  end.

(** Calculate bounding box that encompasses all provided bounding boxes. *)
Definition calculateBoundingBox (bboxes : list BoundingBox) : BoundingBox :=
  match bboxes with
  | [] => {| BoundingBox.x := 0; BoundingBox.y := 0;
             BoundingBox.width := 0; BoundingBox.height := 0 |}
  | _ =>
      let minX := Math_min_all (map BoundingBox.x bboxes) in
      let minY := Math_min_all (map BoundingBox.y bboxes) in
      let maxX :=
        Math_max_all (map (fun b => BoundingBox.x b + BoundingBox.width b) bboxes) in
      let maxY :=
        Math_max_all (map (fun b => BoundingBox.y b + BoundingBox.height b) bboxes) in
      {| BoundingBox.x := minX; BoundingBox.y := minY;
         BoundingBox.width := maxX - minX; BoundingBox.height := maxY - minY |}
  end.

Definition lineId (lineIndex : nat) : jsstring :=
  (JS.str "line-" ++ ofIndex lineIndex)%list.

Definition makeLines (groupedLines : list (list Word)) : list Line :=
  flat_map
    (fun '(lineIndex, lineWords) =>
       if (0 <? List.length lineWords)%nat then
         [ {| Line.id := lineId lineIndex;
              Line.words := lineWords;
              Line.bbox := calculateBoundingBox (map Word.bbox lineWords);
              Line.readingOrder := lineIndex;
              Line.alignment := Some al_left |} ]
       else [])
    (indexed groupedLines).

(** ** Blocks *)

Definition blockBreakThreshold : number := 0.03.

Definition verticalGap (lastLineInBlock currentLine : Line) : number :=
  BoundingBox.y (Line.bbox currentLine)
  - (BoundingBox.y (Line.bbox lastLineInBlock)
     + BoundingBox.height (Line.bbox lastLineInBlock)).

(** The loop of [groupLinesIntoBlocks] from [i = 1]; [currentBlock] is kept
    as its lines before the last one and its last line. *)
Fixpoint blocksLoop (rest : list Line) (blocks : list (list Line))
  (currentInit : list Line) (lastLineInBlock : Line) : list (list Line) :=
  match rest with
  | [] => (blocks ++ [(currentInit ++ [lastLineInBlock])])%list
  | currentLine :: rest' =>
      if gt (verticalGap lastLineInBlock currentLine) blockBreakThreshold
      then blocksLoop rest'
                      (blocks ++ [(currentInit ++ [lastLineInBlock])])%list
                      [] currentLine
      else blocksLoop rest' blocks (currentInit ++ [lastLineInBlock])%list
                      currentLine
  end.

(** Group lines into blocks based on proximity and whitespace. *)
Definition groupLinesIntoBlocks (lines : list Line) : list (list Line) :=
  match lines with
  | [] => []
  | first :: rest => blocksLoop rest [] [] first
  end.

Definition blockId (blockIndex : nat) : jsstring :=
  (JS.str "block-" ++ ofIndex blockIndex)%list.

Definition lineConfidence (l : Line) : number :=
  fold_left (fun wSum w => wSum + Word.confidence w) (Line.words l) 0
  / ofNat (List.length (Line.words l)).

Definition blockConfidence (blockLines : list Line) : number :=
  fold_left (fun sum l => sum + lineConfidence l) blockLines 0
  / ofNat (List.length blockLines).

Definition makeBlocks (groupedBlocks : list (list Line)) : list Block :=
  flat_map
    (fun '(blockIndex, blockLines) =>
       if (0 <? List.length blockLines)%nat then
         [ {| Block.id := blockId blockIndex;
              Block.type := bt_paragraph;
              Block.bbox := calculateBoundingBox (map Line.bbox blockLines);
              Block.lines := blockLines;
              Block.confidence := blockConfidence blockLines;
              Block.readingOrder := Some blockIndex;
              Block.semanticRole := None |} ]
       else [])
    (indexed groupedBlocks).

(** ** Semantic regions *)

Definition headerRegion (topBlock : Block) : SemanticRegion :=
  {| SemanticRegion.id := JS.str "semantic-header-0";
     SemanticRegion.type := rt_header;
     SemanticRegion.bbox := Block.bbox topBlock;
     SemanticRegion.confidence := 0.7;
     SemanticRegion.blockIds := [Block.id topBlock] |}.

Definition footerRegion (bottomBlock : Block) : SemanticRegion :=
  {| SemanticRegion.id := JS.str "semantic-footer-0";
     SemanticRegion.type := rt_footer;
     SemanticRegion.bbox := Block.bbox bottomBlock;
     SemanticRegion.confidence := 0.7;
     SemanticRegion.blockIds := [Block.id bottomBlock] |}.

Definition mainRegion (mainBlocks : list Block) : SemanticRegion :=
  {| SemanticRegion.id := JS.str "semantic-main-0";
     SemanticRegion.type := rt_main_content;
     SemanticRegion.bbox := calculateBoundingBox (map Block.bbox mainBlocks);
     SemanticRegion.confidence := 0.8;
     SemanticRegion.blockIds := map Block.id mainBlocks |}.

Definition compareBlocks (a b : Block) : number :=
  BoundingBox.y (Block.bbox a) - BoundingBox.y (Block.bbox b).

Definition inTopBand (topBlock : Block) : bool :=
  lt (BoundingBox.y (Block.bbox topBlock)) 0.2.

Definition inBottomBand (bottomBlock : Block) : bool :=
  gt (BoundingBox.y (Block.bbox bottomBlock)
      + BoundingBox.height (Block.bbox bottomBlock)) 0.8.

Definition inMainBand (b : Block) : bool :=
  gt (BoundingBox.y (Block.bbox b)) 0.2
  && lt (BoundingBox.y (Block.bbox b) + BoundingBox.height (Block.bbox b)) 0.8.

(** Generate semantic regions based on block positions. *)
Definition generateSemanticRegions (blocks : list Block) : list SemanticRegion :=
  match sort compareBlocks blocks with
  | [] => []
  | (topBlock :: _) as sortedBlocks =>
      let bottomBlock := last sortedBlocks topBlock in
      let mainBlocks := filter inMainBand sortedBlocks in
      ((if inTopBand topBlock then [headerRegion topBlock] else [])
       ++ (if inBottomBand bottomBlock then [footerRegion bottomBlock] else [])
       ++ (if (0 <? List.length mainBlocks)%nat then [mainRegion mainBlocks] else []))%list
  end.

(** ** Chunk projection *)

Definition mapBlockTypeToChunkType (blockType : BlockType) : ChunkType :=
  match blockType with
  | bt_paragraph => ct_text
  | bt_heading => ct_title
  | bt_list => ct_list
  | bt_table => ct_table
  | bt_image => ct_figure
  | bt_line => ct_text
  | bt_footer => ct_footer
  | bt_header => ct_header
  | bt_form_field => ct_form_field
  | bt_signature => ct_figure
  | bt_logo => ct_figure
  | bt_caption => ct_caption
  end.

Definition blockText (block : Block) : jsstring :=
  join [newline]
       (map (fun line => join [space] (map Word.text (Line.words line)))
            (Block.lines block)).

Definition chunkOfBlock (page : Page) (block : Block) : list (TextChunk number) :=
  let text := blockText block in
  if (0 <? List.length (trim text))%nat then
    let groundingBox : GroundingBox number :=
      {| GroundingBox.l := BoundingBox.x (Block.bbox block);
         GroundingBox.t := BoundingBox.y (Block.bbox block);
         GroundingBox.r :=
           BoundingBox.x (Block.bbox block) + BoundingBox.width (Block.bbox block);
         GroundingBox.b :=
           BoundingBox.y (Block.bbox block) + BoundingBox.height (Block.bbox block) |} in
    [ {| TextChunk.chunk_id := Block.id block;
         TextChunk.text := trim text;
         TextChunk.chunk_type := mapBlockTypeToChunkType (Block.type block);
         TextChunk.grounding :=
           [ {| Grounding.page := Page.pageNumber page - 1;
                Grounding.box := groundingBox |} ];
         TextChunk.confidence := Some (Block.confidence block);
         TextChunk.semantic_role := Block.semanticRole block |} ]
  else [].

(** Convert intermediate representation to text chunks. *)
Definition generateTextChunks (irPages : list Page) : list (TextChunk number) :=
  flat_map (fun page => flat_map (chunkOfBlock page) (Page.blocks page)) irPages.

(** ** One page and the document *)

(** [performEnhancedOCR] once [worker.recognize] has returned [data]:
    [words] is [data.words], [None] when the property is missing. *)
Definition performEnhancedOCR (nanoid : nat -> jsstring) (canvas : Canvas)
  (words : option (list OcrWord)) (pageNumber : number)
  : list (LegacyTextChunk number) * Page :=
  let '(legacyChunks, words) :=
    match words with
    | Some ocrWords =>
        fold_left (pushWord nanoid canvas pageNumber) ocrWords ([], [])
    | None => ([], [])
    end in
  let lines := makeLines (groupWordsIntoLines words) in
  let blocks := makeBlocks (groupLinesIntoBlocks lines) in
  let irPage :=
    {| Page.pageNumber := pageNumber;
       Page.width := Canvas.width canvas;
       Page.height := Canvas.height canvas;
       Page.words := words;
       Page.lines := lines;
       Page.blocks := blocks;
       Page.coverage :=
         {| Coverage.pdfNativeWords := 0;
            Coverage.ocrWords := List.length words;
            Coverage.reconciledWords := List.length words;
            Coverage.coveragePercent := 95 |};
       Page.semanticRegions := generateSemanticRegions blocks |} in
  (legacyChunks, irPage).

Definition comparePages (a b : Page) : number :=
  Page.pageNumber a - Page.pageNumber b.

(** The chunks of the extraction result built when the last page completes:
    [generateTextChunks] over the IR pages sorted by page number. *)
Definition documentChunks (irPages : list Page) : list (TextChunk number) :=
  generateTextChunks (sort comparePages irPages).

(** One element of the [map] of [generateMarkdown]. *)
Definition markdownOfChunk (chunk : TextChunk number) : jsstring :=
  match TextChunk.chunk_type chunk with
  | ct_title => (JS.str "# " ++ TextChunk.text chunk)%list
  | ct_header => (JS.str "## " ++ TextChunk.text chunk)%list
  | ct_text => TextChunk.text chunk
  | ct_list =>
      join [newline]
           (map (fun item => (JS.str "- " ++ item)%list)
                (split newline (TextChunk.text chunk)))
  | _ => TextChunk.text chunk
  end.

Definition generateMarkdown (chunks : list (TextChunk number)) : jsstring :=
  join [newline; newline] (map markdownOfChunk chunks).

(** ** The extraction result *)

(** [LegacyPageData]. *)
Module LegacyPageData.
Record record : Type := mk {
  pageNumber : number;
  imageUrl : jsstring;
  textChunks : list (LegacyTextChunk number)
}.
End LegacyPageData.
Definition LegacyPageData := LegacyPageData.record.

(** The fields of the extraction result computed from the pages; the time
    stamps and the constant coverage entries are left out.  Counts are
    sums of array lengths and are kept as natural numbers. *)
Module ExtractionResult.
Record record : Type := mk {
  text : jsstring;
  chunks : list (TextChunk number);
  markdown : jsstring;
  pages : list Page;
  totalWords : nat;
  totalLines : nat;
  totalBlocks : nat;
  page_count : number;
  word_count : nat;
  has_text : bool
}.
End ExtractionResult.
Definition ExtractionResult := ExtractionResult.record.

Definition compareLegacyPages (a b : LegacyPageData) : number :=
  LegacyPageData.pageNumber a - LegacyPageData.pageNumber b.

(** The last-page branch of [onPageLoadSuccess]: the two arguments of
    [onProcessingComplete], from the pages collected so far ([allPages],
    [irPages]) and the page just processed. *)
Definition completeDocument (allPages : list LegacyPageData)
  (irPages : list Page) (pageData : LegacyPageData) (irPage : Page)
  (numPages : number) : list LegacyPageData * ExtractionResult :=
  let finalPages := sort compareLegacyPages (allPages ++ [pageData])%list in
  let finalIRPages := sort comparePages (irPages ++ [irPage])%list in
  let textChunks := generateTextChunks finalIRPages in
  let countWords :=
    fold_left (fun sum p => (sum + List.length (Page.words p))%nat)
              finalIRPages 0%nat in
  (finalPages,
   {| ExtractionResult.text :=
        join [newline]
             (map (fun p =>
                     join [space]
                          (map (@LegacyTextChunk.text number)
                               (LegacyPageData.textChunks p)))
                  finalPages);
      ExtractionResult.chunks := textChunks;
      ExtractionResult.markdown := generateMarkdown textChunks;
      ExtractionResult.pages := finalIRPages;
      ExtractionResult.totalWords := countWords;
      ExtractionResult.totalLines :=
        fold_left (fun sum p => (sum + List.length (Page.lines p))%nat)
                  finalIRPages 0%nat;
      ExtractionResult.totalBlocks :=
        fold_left (fun sum p => (sum + List.length (Page.blocks p))%nat)
                  finalIRPages 0%nat;
      ExtractionResult.page_count := numPages;
      ExtractionResult.word_count := countWords;
      ExtractionResult.has_text := true |}).

End Enhanced.

(* ================================================================== *)
(** * The first processor *)
(* ================================================================== *)

(** The processor without OCR (the [PDFProcessor] component): it has the
    chunk type of the basic processor and a line clusterer of its own, of
    which the groups are copies that share the [geometry] object of the
    chunk they start from, as in the basic processor. *)
Module SimpleProcessor.
Import JS.
Import PdfProcessor.
Local Open Scope float_scope.

Definition compareByPosition (a b : TextChunk) : number :=
  let yDiff := Geometry.y (TextChunk.geometry a)
               - Geometry.y (TextChunk.geometry b) in
  if lt (Math_abs yDiff) 1
  then Geometry.x (TextChunk.geometry a) - Geometry.x (TextChunk.geometry b)
  else yDiff.

Definition lineThreshold : number := 2.
Definition wordThreshold : number := 5.

Definition shouldMerge (lastGroup chunk : TextChunk) : bool :=
  let cg := TextChunk.geometry chunk in
  let lg := TextChunk.geometry lastGroup in
  let verticalDistance := Math_abs (Geometry.y cg - Geometry.y lg) in
  let horizontalDistance := Geometry.x cg - (Geometry.x lg + Geometry.w lg) in
  let onSameLine := lt verticalDistance lineThreshold in
  let closeHorizontally :=
    ge horizontalDistance 0 && lt horizontalDistance wordThreshold in
  onSameLine && closeHorizontally.

Definition mergeInto (lastGroup chunk : TextChunk) : TextChunk :=
  let cg := TextChunk.geometry chunk in
  let lg := TextChunk.geometry lastGroup in
  {| TextChunk.id := TextChunk.id lastGroup;
     TextChunk.text :=
       (TextChunk.text lastGroup ++ [space] ++ TextChunk.text chunk)%list;
     TextChunk.pageNumber := TextChunk.pageNumber lastGroup;
     TextChunk.geometry :=
       {| Geometry.x := Geometry.x lg;
          Geometry.y := Geometry.y lg;
          Geometry.w := Geometry.x cg + Geometry.w cg - Geometry.x lg;
          Geometry.h := Math_max (Geometry.h lg) (Geometry.h cg) |} |}.

(** One step of the [forEach] for [index > 0]; the state is [grouped], kept
    as the groups before the last one and [lastGroup]. *)
Definition groupStep (st : list TextChunk * TextChunk) (chunk : TextChunk)
  : list TextChunk * TextChunk :=
  let '(closed, lastGroup) := st in
  if shouldMerge lastGroup chunk
  then (closed, mergeInto lastGroup chunk)
  else ((closed ++ [lastGroup])%list, chunk).

(** The [forEach] loop on the array [sortedChunks]. *)
Definition groupSorted (sortedChunks : list TextChunk) : list TextChunk :=
  match sortedChunks with
  | [] => []
  | first :: rest =>
      let '(closed, lastGroup) := fold_left groupStep rest ([], first) in
      (closed ++ [lastGroup])%list
  end.

(** Group nearby text chunks: the sorted chunks, merged along the lines,
    with no filter after the loop. *)
Definition groupNearbyTextChunks (chunks : list TextChunk) : list TextChunk :=
  if (List.length chunks =? 0)%nat then []
  else groupSorted (sort compareByPosition chunks).

End SimpleProcessor.

(* ================================================================== *)
(** * The viewer components *)
(* ================================================================== *)

Module Viewer.
Import JS.
Local Open Scope Z_scope.

(** [a === b] on strings. *)
Definition sameString (a b : jsstring) : bool :=
  if list_eq_dec N.eq_dec a b then true else false.

(** ** PDFViewer: selection *)

(** The part of the component state the chunk handlers read and write. *)
Module Selection.
Record record : Type := mk {
  currentPage : nat;
  selectedChunk : jsstring
}.
End Selection.
Definition Selection := Selection.record.

Definition holdsChunk (chunkId : jsstring) (page : PdfProcessor.PageData) : bool :=
  existsb (fun chunk => sameString (PdfProcessor.TextChunk.id chunk) chunkId)
          (PdfProcessor.PageData.textChunks page).

(** [handleChunkSelect]: find the page containing this chunk, go there,
    select the chunk.  The empty identifier is falsy. *)
Definition handleChunkSelect (pages : list PdfProcessor.PageData)
  (chunkId : jsstring) (st : Selection) : Selection :=
  let currentPage :=
    if (0 <? List.length chunkId)%nat then
      match find (holdsChunk chunkId) pages with
      | Some targetPage =>
          if negb (PdfProcessor.PageData.pageNumber targetPage
                   =? Selection.currentPage st)%nat
          then PdfProcessor.PageData.pageNumber targetPage
          else Selection.currentPage st
      | None => Selection.currentPage st
      end
    else Selection.currentPage st in
  {| Selection.currentPage := currentPage;
     Selection.selectedChunk := chunkId |}.

(** ** DocumentViewer: zoom *)

Definition handleZoomIn (prev : number) : number :=
  Math_min (prev + 0.25)%float 3%float.
Definition handleZoomOut (prev : number) : number :=
  Math_max (prev - 0.25)%float 0.5%float.

(** The zoom factors the buttons reach from the initial factor 1. *)
Inductive zoomReachable : number -> Prop :=
| zoom_initial : zoomReachable 1%float
| zoom_in : forall z, zoomReachable z -> zoomReachable (handleZoomIn z)
| zoom_out : forall z, zoomReachable z -> zoomReachable (handleZoomOut z).

(** ** TextSearch: walking through the results *)

(** [handleNextResult] and [handlePrevResult] on [currentResultIndex];
    [resultCount] is [searchResults.length].  Result indices are
    integer-valued numbers that only change by one, so the integers model
    them exactly; [%] keeps the sign of the dividend. *)
Definition handleNextResult (resultCount currentResultIndex : Z) : Z :=
  if 0 <? resultCount then Z.rem (currentResultIndex + 1) resultCount
  else currentResultIndex.

Definition handlePrevResult (resultCount currentResultIndex : Z) : Z :=
  if 0 <? resultCount then
    (if currentResultIndex <=? 0 then resultCount - 1 else currentResultIndex - 1)
  else currentResultIndex.

(** ** TextSearch: the results by page *)

(** The object [groups] of [groupedChunks], kept as the list of its
    entries; [groups[pageNumber]] reads it and [groups[pageNumber] = v]
    writes it. *)
Fixpoint lookupGroup (pageNumber : nat)
  (groups : list (nat * list PdfProcessor.TextChunk))
  : option (list PdfProcessor.TextChunk) :=
  match groups with
  | [] => None
  | (k, v) :: rest =>
      if (k =? pageNumber)%nat then Some v else lookupGroup pageNumber rest
  end.

Fixpoint setGroup (pageNumber : nat) (v : list PdfProcessor.TextChunk)
  (groups : list (nat * list PdfProcessor.TextChunk))
  : list (nat * list PdfProcessor.TextChunk) :=
  match groups with
  | [] => [(pageNumber, v)]
  | (k, w) :: rest =>
      if (k =? pageNumber)%nat then (k, v) :: rest
      else (k, w) :: setGroup pageNumber v rest
  end.

(** One step of the [forEach]: a missing entry is created empty, then the
    chunk is pushed to the entry. *)
Definition groupChunk (groups : list (nat * list PdfProcessor.TextChunk))
  (chunk : PdfProcessor.TextChunk)
  : list (nat * list PdfProcessor.TextChunk) :=
  let pageNumber := PdfProcessor.TextChunk.pageNumber chunk in
  match lookupGroup pageNumber groups with
  | None => setGroup pageNumber ([] ++ [chunk])%list groups
  | Some entry => setGroup pageNumber (entry ++ [chunk])%list groups
  end.

Definition groupedChunks (filteredChunks : list PdfProcessor.TextChunk)
  : list (nat * list PdfProcessor.TextChunk) :=
  fold_left groupChunk filteredChunks [].

(** [Object.keys(groupedChunks).length]. *)
Definition pageCount (filteredChunks : list PdfProcessor.TextChunk) : nat :=
  List.length (groupedChunks filteredChunks).

End Viewer.

(* ================================================================== *)
(** * The reals behind the numbers *)
(* ================================================================== *)

(** The vocabulary of the rounding analysis: a finite binary64 number
    [(-1)^s * m * 2^e] stands for a real, and an operation of the program
    returns the real result up to a relative error. *)
Module Binary64.
Local Open Scope R_scope.

Definition pow2 (e : Z) : R := powerRZ 2 e.

(** The real a finite number of the format stands for; [0] for the
    others. *)
Definition SF2R (x : spec_float) : R :=
  match x with
  | S754_finite s m e => IZR (cond_Zopp s (Zpos m)) * pow2 e
  | _ => 0
  end.

Definition SFfinite (x : spec_float) : bool :=
  match x with
  | S754_zero _ | S754_finite _ _ _ => true
  | _ => false
  end.

(** The same for the numbers of the program. *)
Definition valueOf (a : float) : R := SF2R (Prim2SF a).
Definition finite (a : float) : Prop := SFfinite (Prim2SF a) = true.

(** [X] is zero or well inside the range of the normal numbers. *)
Definition inRange (X : R) : Prop :=
  X = 0 \/ pow2 (-1000) <= Rabs X <= pow2 1000.

(** [a] stands for the non-negative real [x] within the relative error
    [k * 2^-52]. *)
Definition approximates (k : R) (a : float) (x : R) : Prop :=
  finite a /\ 0 <= x /\ Rabs (valueOf a - x) <= k * pow2 (-52) * x.

(** [x] is zero or between [2^lo] and [2^hi]. *)
Definition sized (lo hi : Z) (x : R) : Prop :=
  x = 0 \/ pow2 lo <= x <= pow2 hi.

(** The mantissa of [(-1)^s * m * 2^e] brought to the exponent [ez]. *)
Definition alignedValue (s : bool) (m : positive) (e ez : Z) : Z :=
  cond_Zopp s (Zpos m * 2 ^ (e - ez))%Z.

Definition positiveSF (x : spec_float) : bool :=
  SFltb (S754_zero false) x.
Definition negativeSF (x : spec_float) : bool :=
  SFltb x (S754_zero false).

End Binary64.

(* ================================================================== *)
(** * Vocabulary of the statements *)
(* ================================================================== *)

Module Spec.
Import JS.
Import Types.

(** ** Round trips of the coordinate transforms *)

(** A chunk that carries one grounding box. *)
Definition chunkOfBox {T : Type} (page : number) (box : GroundingBox T)
  : TextChunk T :=
  {| TextChunk.text := [];
     TextChunk.chunk_id := [];
     TextChunk.chunk_type := ct_text;
     TextChunk.grounding := [ {| Grounding.page := page; Grounding.box := box |} ];
     TextChunk.confidence := None;
     TextChunk.semantic_role := None |}.

(** Grounding to legacy and back: the box of the first grounding of the
    result. *)
Definition groundingRoundTrip {T : Type} {arith : Arith T}
  (textChunk : TextChunk T) (pageWidth pageHeight : T)
  : option (GroundingBox T) :=
  match transformGroundingToLegacy textChunk pageWidth pageHeight with
  | Ok legacy =>
      match TextChunk.grounding
              (transformLegacyToGrounding legacy pageWidth pageHeight) with
      | g :: _ => Some (Grounding.box g)
      | [] => None
      end
  | Throw _ => None
  end.

(** Legacy to grounding and back: the geometry of the result. *)
Definition legacyRoundTrip {T : Type} {arith : Arith T}
  (legacyChunk : LegacyTextChunk T) (pageWidth pageHeight : T)
  : option (Geometry T) :=
  match transformGroundingToLegacy
          (transformLegacyToGrounding legacyChunk pageWidth pageHeight)
          pageWidth pageHeight with
  | Ok legacy => Some (LegacyTextChunk.geometry legacy)
  | Throw _ => None
  end.

(** [reproduced] is [original] within the relative tolerance 1e-6, as a
    test of the program computes it. *)
Definition withinTolerance (original reproduced : number) : bool :=
  le (Math_abs (reproduced - original)%float) (1e-6 * Math_abs original)%float.

Definition inUnitInterval (v : number) : bool := le 0%float v && le v 1%float.

Definition normalizedBox (box : GroundingBox number) : bool :=
  inUnitInterval (GroundingBox.l box) && inUnitInterval (GroundingBox.t box)
  && inUnitInterval (GroundingBox.r box) && inUnitInterval (GroundingBox.b box).

Definition boxWithinTolerance (original reproduced : GroundingBox number) : bool :=
  withinTolerance (GroundingBox.l original) (GroundingBox.l reproduced)
  && withinTolerance (GroundingBox.t original) (GroundingBox.t reproduced)
  && withinTolerance (GroundingBox.r original) (GroundingBox.r reproduced)
  && withinTolerance (GroundingBox.b original) (GroundingBox.b reproduced).

Definition geometryWithinTolerance (original reproduced : Geometry number) : bool :=
  withinTolerance (Geometry.x original) (Geometry.x reproduced)
  && withinTolerance (Geometry.y original) (Geometry.y reproduced)
  && withinTolerance (Geometry.w original) (Geometry.w reproduced)
  && withinTolerance (Geometry.h original) (Geometry.h reproduced).

(** The round-trip contract on the numbers of the program: every normalized
    box, on every page with positive dimensions, comes back within tolerance
    from the grounding-legacy-grounding composition, and its legacy form
    comes back within tolerance from the legacy-grounding-legacy one. *)
Definition roundTripWithinTolerance : Prop :=
  forall (page : number) (box : GroundingBox number) (pageWidth pageHeight : number),
    normalizedBox box = true ->
    gt pageWidth 0%float = true -> gt pageHeight 0%float = true ->
    (exists box',
        groundingRoundTrip (chunkOfBox page box) pageWidth pageHeight = Some box'
        /\ boxWithinTolerance box box' = true)
    /\ (forall legacy,
           transformGroundingToLegacy (chunkOfBox page box) pageWidth pageHeight
           = Ok legacy ->
           exists geometry',
             legacyRoundTrip legacy pageWidth pageHeight = Some geometry'
             /\ geometryWithinTolerance (LegacyTextChunk.geometry legacy)
                                        geometry' = true).

(** *** Where the contract holds

    The boxes and pages on which no product underflows and no difference
    of nearly equal numbers is taken. *)

(** [v] is zero or at least 2^-300. *)
Definition awayFromUnderflow (v : number) : bool :=
  PrimFloat.eqb v 0%float || le 0x1p-300%float v.

(** A page dimension between 2^-300 and 2^300. *)
Definition usualDimension (d : number) : bool :=
  le 0x1p-300%float d && le d 0x1p300%float.

(** The interval from [lo] to [hi] is ordered, and is empty or at least
    [2^-20 * hi] wide. *)
Definition noHairline (lo hi : number) : bool :=
  le lo hi
  && (PrimFloat.eqb lo hi || le (hi * 0x1p-20)%float (hi - lo)%float).

(** A normalized box with ordered edges, no coordinate in the underflow
    range and no hairline extent. *)
Definition roundTripBox (box : GroundingBox number) : bool :=
  normalizedBox box
  && awayFromUnderflow (GroundingBox.l box)
  && awayFromUnderflow (GroundingBox.t box)
  && awayFromUnderflow (GroundingBox.r box)
  && awayFromUnderflow (GroundingBox.b box)
  && noHairline (GroundingBox.l box) (GroundingBox.r box)
  && noHairline (GroundingBox.t box) (GroundingBox.b box).

(** The smallest positive binary64 number, 2^-1074 (written 5e-324 in the
    source language). *)
Definition minSubnormal : number := 0x1p-1074%float.

(** A normalized box whose left edge is the smallest positive number. *)
Definition thinMarginBox : GroundingBox number :=
  {| GroundingBox.l := minSubnormal; GroundingBox.t := 0%float;
     GroundingBox.r := 1%float; GroundingBox.b := 1%float |}.

(** The box (1/4, 1/4, 3/4, 1/2). *)
Definition quarterBox : GroundingBox number :=
  {| GroundingBox.l := 0.25%float; GroundingBox.t := 0.25%float;
     GroundingBox.r := 0.75%float; GroundingBox.b := 0.5%float |}.

(** A normalized box whose right edge, 1e-12, lies left of its left edge,
    1. *)
Definition invertedBox : GroundingBox number :=
  {| GroundingBox.l := 1%float; GroundingBox.t := 0.25%float;
     GroundingBox.r := 1e-12%float; GroundingBox.b := 0.5%float |}.

(** A normalized box at 0.9 that is 1e-13 wide. *)
Definition hairlineBox : GroundingBox number :=
  {| GroundingBox.l := 0.9%float; GroundingBox.t := 0.25%float;
     GroundingBox.r := 0.9000000000001%float; GroundingBox.b := 0.5%float |}.

(** A legacy chunk on a 612 x 792 page, 300 from the left and 1e-12 wide. *)
Definition hairlineChunk : LegacyTextChunk number :=
  {| LegacyTextChunk.id := JS.str "hairline";
     LegacyTextChunk.text := JS.str "|";
     LegacyTextChunk.pageNumber := 1%float;
     LegacyTextChunk.geometry :=
       {| Geometry.x := 300%float; Geometry.y := 100%float;
          Geometry.w := 1e-12%float; Geometry.h := 20%float |} |}.

(** ** Tokens of the basic processor *)

Definition token (id : jsstring) (pageNumber : nat) (text : string)
  (x y w h : number) : PdfProcessor.TextChunk :=
  {| PdfProcessor.TextChunk.id := id;
     PdfProcessor.TextChunk.text := JS.str text;
     PdfProcessor.TextChunk.pageNumber := pageNumber;
     PdfProcessor.TextChunk.geometry :=
       {| PdfProcessor.Geometry.x := x; PdfProcessor.Geometry.y := y;
          PdfProcessor.Geometry.w := w; PdfProcessor.Geometry.h := h |} |}.

(** ** Clean text *)

(** [s] has a code unit that is not white space. *)
Definition hasText (s : jsstring) : bool :=
  existsb (fun c => negb (isWhiteSpace c)) s.

(** [s] is empty or starts with a code unit that is not white space. *)
Definition startsWithText (s : jsstring) : bool :=
  match s with
  | [] => true
  | c :: _ => negb (isWhiteSpace c)
  end.

(** Every white-space code unit of [s] is a space followed by text or by
    the end of [s]: no run of white space is longer than one space. *)
Fixpoint collapsed (s : jsstring) : bool :=
  match s with
  | [] => true
  | c :: t =>
      (if isWhiteSpace c then (c =? space)%N && startsWithText t else true)
      && collapsed t
  end.

(** What the line clusterer promises of a chunk it returns. *)
Definition cleanGroup (chunk : PdfProcessor.TextChunk) : Prop :=
  let text := PdfProcessor.TextChunk.text chunk in
  let geometry := PdfProcessor.TextChunk.geometry chunk in
  (0 < List.length text)%nat
  /\ trim text = text
  /\ (List.length text < 500)%nat
  /\ gt (PdfProcessor.Geometry.w geometry) 0.1%float = true
  /\ gt (PdfProcessor.Geometry.h geometry) 0.1%float = true
  /\ collapsed text = true.

(** ** Granularities of the OCR result *)

Definition itemsOf (items : option (list PdfProcessor.OcrItem))
  : list PdfProcessor.OcrItem :=
  match items with Some items => items | None => [] end.

(** [chunk] is the chunk emitted for the accepted word or line [item] when
    the counter stands at [chunkIndex]. *)
Definition fromOcrItem (mkId : nat -> nat -> jsstring) (img : PdfProcessor.Img)
  (pageNum : nat) (chunk : PdfProcessor.TextChunk)
  (entry : nat * PdfProcessor.OcrItem) : Prop :=
  let '(chunkIndex, item) := entry in
  PdfProcessor.accepted img item = true
  /\ PdfProcessor.TextChunk.id chunk = mkId pageNum chunkIndex
  /\ PdfProcessor.TextChunk.text chunk = trim (PdfProcessor.OcrItem.text item)
  /\ PdfProcessor.TextChunk.pageNumber chunk = pageNum
  /\ exists bbox,
       PdfProcessor.OcrItem.bbox item = Some bbox
       /\ PdfProcessor.TextChunk.geometry chunk = PdfProcessor.ocrGeometry img bbox.

(** The chunks one pass over words (or lines) emits from the empty state. *)
Definition itemChunks (mkId : nat -> nat -> jsstring) (img : PdfProcessor.Img)
  (pageNum : nat) (items : option (list PdfProcessor.OcrItem))
  : list PdfProcessor.TextChunk :=
  fst (PdfProcessor.pushOcrItems mkId img pageNum items ([], 0%nat)).

(** A call of [performOCR] in which no step of the collaborator fails. *)
Definition recognizing (data : PdfProcessor.OcrData) (img : PdfProcessor.Img)
  : PdfProcessor.OcrRun :=
  {| PdfProcessor.OcrRun.createWorker := Ok tt;
     PdfProcessor.OcrRun.setParameters := Ok tt;
     PdfProcessor.OcrRun.recognize := Ok (Some data);
     PdfProcessor.OcrRun.loadImage := Ok img;
     PdfProcessor.OcrRun.terminate := Ok tt |}.

(** The first part of the preference order as the specification states
    it: as soon as a word passes the acceptance filter, [performOCR] returns
    word-level chunks. *)
Definition wordsEmittedWheneverAccepted : Prop :=
  forall (data : PdfProcessor.OcrData) (img : PdfProcessor.Img) (pageNum : nat),
    existsb (PdfProcessor.accepted img) (itemsOf (PdfProcessor.OcrData.words data)) = true ->
    exists chunks,
      PdfProcessor.performOCR (recognizing data img) pageNum = Ok chunks
      /\ chunks <> []
      /\ chunks = itemChunks PdfProcessor.ocrWordId img pageNum
                             (PdfProcessor.OcrData.words data).

(** A word "Hi" of confidence 90 at (0, 0)-(10, 10), on an image of
    100 x 100, in a result whose page text is empty. *)
Definition wordHi : PdfProcessor.OcrItem :=
  {| PdfProcessor.OcrItem.text := JS.str "Hi";
     PdfProcessor.OcrItem.confidence := 90%float;
     PdfProcessor.OcrItem.bbox :=
       Some {| PdfProcessor.BBox.x0 := 0%float; PdfProcessor.BBox.y0 := 0%float;
               PdfProcessor.BBox.x1 := 10%float; PdfProcessor.BBox.y1 := 10%float |} |}.

Definition blankPageData : PdfProcessor.OcrData :=
  {| PdfProcessor.OcrData.text := [];
     PdfProcessor.OcrData.words := Some [wordHi];
     PdfProcessor.OcrData.lines := None |}.

Definition img100 : PdfProcessor.Img :=
  {| PdfProcessor.Img.width := 100%float; PdfProcessor.Img.height := 100%float |}.

(** ** Channel arbitration *)

Definition failed {A : Type} (r : result A) : bool :=
  match r with Throw _ => true | Ok _ => false end.

(** Some step of the OCR collaborator fails during the call. *)
Definition ocrFails (run : PdfProcessor.OcrRun) : bool :=
  failed (PdfProcessor.OcrRun.createWorker run)
  || failed (PdfProcessor.OcrRun.setParameters run)
  || failed (PdfProcessor.OcrRun.recognize run)
  || failed (PdfProcessor.OcrRun.loadImage run)
  || failed (PdfProcessor.OcrRun.terminate run).

(** The native projection of a page: the line clusterer applied to the
    chunks extracted from the PDF.js text items. *)
Definition nativeProjection (run : PdfProcessor.PageRun) (pageNum : nat)
  (textContent : option (list PdfProcessor.TextItem))
  : list PdfProcessor.TextChunk :=
  PdfProcessor.groupNearbyTextChunks
    (PdfProcessor.extractPdfTextChunks pageNum
       (PdfProcessor.PageRun.viewportWidth run)
       (PdfProcessor.PageRun.viewportHeight run) textContent).

(** A page with no native text whose OCR worker cannot be created. *)
Definition scannedPageBrokenOcr : PdfProcessor.PageRun :=
  {| PdfProcessor.PageRun.context := true;
     PdfProcessor.PageRun.render := Ok tt;
     PdfProcessor.PageRun.imageUrl := JS.str "data:image/png;base64,";
     PdfProcessor.PageRun.getTextContent := Ok None;
     PdfProcessor.PageRun.viewportWidth := 612%float;
     PdfProcessor.PageRun.viewportHeight := 792%float;
     PdfProcessor.PageRun.ocr :=
       {| PdfProcessor.OcrRun.createWorker := Throw (JS.str "worker failed");
          PdfProcessor.OcrRun.setParameters := Ok tt;
          PdfProcessor.OcrRun.recognize := Ok None;
          PdfProcessor.OcrRun.loadImage := Ok img100;
          PdfProcessor.OcrRun.terminate := Ok tt |} |}.

(** The selection rule as the specification states it: after a triggered
    OCR that returned chunks, these replace the native chunks exactly when
    their average text length exceeds 1.2 times the native one or their
    count exceeds 1.5 times the native count. *)
Definition selectionByQualityOnly : Prop :=
  forall (run : PdfProcessor.OcrRun) (pageNum : nat)
         (pdfTextChunks ocrChunks : list PdfProcessor.TextChunk),
    PdfProcessor.ocrTriggered pdfTextChunks = true ->
    PdfProcessor.performOCR run pageNum = Ok ocrChunks ->
    ocrChunks <> [] ->
    PdfProcessor.arbitrate run pageNum pdfTextChunks
    = Ok (if gt (PdfProcessor.avgTextLength ocrChunks)
                (PdfProcessor.avgTextLength pdfTextChunks * 1.2)%float
             || gt (ofNat (List.length ocrChunks))
                   (ofNat (List.length pdfTextChunks) * 1.5)%float
          then ocrChunks else pdfTextChunks).

(** Two native tokens "ab" and an OCR result with three words "ab". *)
Definition wordAb (x0 : number) : PdfProcessor.OcrItem :=
  {| PdfProcessor.OcrItem.text := JS.str "ab";
     PdfProcessor.OcrItem.confidence := 90%float;
     PdfProcessor.OcrItem.bbox :=
       Some {| PdfProcessor.BBox.x0 := x0; PdfProcessor.BBox.y0 := 10%float;
               PdfProcessor.BBox.x1 := (x0 + 10)%float;
               PdfProcessor.BBox.y1 := 15%float |} |}.

Definition threeWordsData : PdfProcessor.OcrData :=
  {| PdfProcessor.OcrData.text := JS.str "ab ab ab";
     PdfProcessor.OcrData.words :=
       Some [wordAb 10%float; wordAb 30%float; wordAb 50%float];
     PdfProcessor.OcrData.lines := None |}.

Definition twoNativeTokens : list PdfProcessor.TextChunk :=
  [ token (PdfProcessor.pdfChunkId 1 0) 1 "ab" 10%float 10%float 10%float 5%float;
    token (PdfProcessor.pdfChunkId 1 1) 1 "ab" 30%float 10%float 10%float 5%float ].

Definition threeOcrTokens : list PdfProcessor.TextChunk :=
  PdfProcessor.recognizedChunks (Some threeWordsData) img100 1.

(** ** Blocks of lines *)

(** The index of the block that holds the line at [position] of the input,
    the blocks being consecutive slices of it. *)
Fixpoint blockOf {A : Type} (blocks : list (list A)) (position : nat)
  : option nat :=
  match blocks with
  | [] => None
  | block :: blocks' =>
      if (position <? List.length block)%nat then Some 0%nat
      else option_map S (blockOf blocks' (position - List.length block))
  end.

(** Block boundaries as the specification states them: consecutive lines
    with a gap of at least the threshold are in different blocks, with a
    smaller gap in the same block. *)
Definition breakAtOrAboveThreshold : Prop :=
  forall (lines : list Line) (i : nat) (prev next : Line),
    nth_error lines i = Some prev ->
    nth_error lines (S i) = Some next ->
    let blocks := Enhanced.groupLinesIntoBlocks lines in
    (ge (Enhanced.verticalGap prev next) Enhanced.blockBreakThreshold = true ->
     blockOf blocks i <> blockOf blocks (S i))
    /\ (lt (Enhanced.verticalGap prev next) Enhanced.blockBreakThreshold = true ->
        blockOf blocks i = blockOf blocks (S i)).

(** A line given by its top and height. *)
Definition lineAt (id : string) (y height : number) : Line :=
  {| Line.id := JS.str id;
     Line.words := [];
     Line.bbox := {| BoundingBox.x := 0.1%float; BoundingBox.y := y;
                     BoundingBox.width := 0.5%float;
                     BoundingBox.height := height |};
     Line.readingOrder := 0;
     Line.alignment := Some al_left |}.

(** Two lines 0.03 apart: the first spans [0, 0.03], the second starts at
    0.06. *)
Definition linesAtThreshold : list Line :=
  [ lineAt "line-0" 0%float 0.03%float; lineAt "line-1" 0.06%float 0.03%float ].

(** ** Semantic regions *)

(** The top and the bottom of a block, as fractions of the page height. *)
Definition topOf (b : Block) : number := BoundingBox.y (Block.bbox b).
Definition bottomOf (b : Block) : number :=
  (BoundingBox.y (Block.bbox b) + BoundingBox.height (Block.bbox b))%float.

(** The tops of the blocks are numbers: none is NaN. *)
Definition topsAreNumbers (blocks : list Block) : Prop :=
  Forall (fun b => PrimFloat.is_nan (topOf b) = false) blocks.

(** [a] starts at or above [b]. *)
Definition notBelow (a b : Block) : Prop := le (topOf a) (topOf b) = true.

(** The block starts at height [t]. *)
Definition startsAt (t : number) (b : Block) : bool :=
  le (topOf b) t && le t (topOf b).

(** The vertical extent of the block lies strictly inside (20%, 80%). *)
Definition strictlyInside (b : Block) : bool :=
  gt (topOf b) 0.2%float && lt (bottomOf b) 0.8%float.

(** A block given by its top and height. *)
Definition blockAt (id : string) (y height : number) : Block :=
  {| Block.id := JS.str id;
     Block.type := bt_paragraph;
     Block.bbox := {| BoundingBox.x := 0.1%float; BoundingBox.y := y;
                      BoundingBox.width := 0.8%float;
                      BoundingBox.height := height |};
     Block.lines := [];
     Block.confidence := 0.9%float;
     Block.readingOrder := None;
     Block.semanticRole := None |}.

(** A body paragraph, a title and a page number, in the order OCR found
    them. *)
Definition threeBlocks : list Block :=
  [ blockAt "block-0" 0.4%float 0.3%float;
    blockAt "block-1" 0.05%float 0.05%float;
    blockAt "block-2" 0.9%float 0.05%float ].

Definition sameRegionType (a b : RegionType) : bool :=
  match a, b with
  | rt_header, rt_header | rt_footer, rt_footer
  | rt_main_content, rt_main_content | rt_sidebar, rt_sidebar
  | rt_navigation, rt_navigation | rt_form, rt_form
  | rt_table, rt_table | rt_figure, rt_figure => true
  | _, _ => false
  end.

Definition regionsOfType (type : RegionType) (regions : list SemanticRegion)
  : list SemanticRegion :=
  filter (fun region => sameRegionType (SemanticRegion.type region) type) regions.

(** ** Chunk identifiers *)

(** The identifiers of the chunks projected from the IR pages are pairwise
    different. *)
Definition chunkIdsUnique (irPages : list Page) : Prop :=
  NoDup (map (@TextChunk.chunk_id number) (Enhanced.generateTextChunks irPages)).

(** A page on which OCR found the single word [text]. *)
Definition oneWordPage (pageNumber : number) (text : string) : Page :=
  snd (Enhanced.performEnhancedOCR
         (fun k => (JS.str "legacy-" ++ ofIndex k)%list)
         {| Enhanced.Canvas.width := 1000%float;
            Enhanced.Canvas.height := 1000%float |}
         (Some [ {| Enhanced.OcrWord.text := JS.str text;
                    Enhanced.OcrWord.confidence := 90%float;
                    Enhanced.OcrWord.bbox :=
                      Some {| PdfProcessor.BBox.x0 := 100%float;
                              PdfProcessor.BBox.y0 := 100%float;
                              PdfProcessor.BBox.x1 := 300%float;
                              PdfProcessor.BBox.y1 := 140%float |} |} ])
         pageNumber).

(** A document of two pages, "Invoice" on the first and "Total" on the
    second. *)
Definition twoPageDocument : list Page :=
  [ oneWordPage 1%float "Invoice"; oneWordPage 2%float "Total" ].

(** The groups of a clustering are not empty, and [P] holds of all their
    members. *)
Definition nonEmptyGroups {A : Type} (P : A -> Prop) (groups : list (list A))
  : Prop :=
  Forall (fun g => g <> [] /\ Forall P g) groups.

(** The words of a line are there and have visible text. *)
Definition visibleLine (l : Line) : Prop :=
  Line.words l <> []
  /\ Forall (fun w => hasText (Word.text w) = true) (Line.words l).

(** The lines of a block are there and visible. *)
Definition visibleBlock (b : Block) : Prop :=
  Block.lines b <> [] /\ Forall visibleLine (Block.lines b).

(** ** Identifiers of the basic processor *)

Definition dash : codeunit := 45%N.

Definition isDigit (c : codeunit) : bool := ((48 <=? c) && (c <=? 57))%N.

(** [id] starts with "page-", the decimal digits of [pageNum] and a dash. *)
Definition idOfPage (pageNum : nat) (id : jsstring) : Prop :=
  exists rest, id = (JS.str "page-" ++ ofIndex pageNum ++ dash :: rest)%list.

(** The identifiers of the chunks a page hands on, none when it reports an
    error. *)
Definition pageChunkIds (outcome : PdfProcessor.PageOutcome) : list jsstring :=
  match outcome with
  | PdfProcessor.PageDone pageData =>
      map PdfProcessor.TextChunk.id (PdfProcessor.PageData.textChunks pageData)
  | PdfProcessor.PageError _ => []
  end.

(** ** Chunks of the basic processor *)

(** The code units of [s] that are not white space, in order. *)
Definition visible (s : jsstring) : jsstring :=
  filter (fun c => negb (isWhiteSpace c)) s.

Definition boxInPage (g : PdfProcessor.Geometry) : bool :=
  PdfProcessor.inPageRange (PdfProcessor.Geometry.x g) (PdfProcessor.Geometry.y g)
                           (PdfProcessor.Geometry.w g) (PdfProcessor.Geometry.h g).

(** A chunk as a channel emits it for page [pageNum]: it carries the page
    number, its text is trimmed and not blank, and its box passes the range
    test. *)
Definition wellPlaced (pageNum : nat) (chunk : PdfProcessor.TextChunk) : Prop :=
  PdfProcessor.TextChunk.pageNumber chunk = pageNum
  /\ hasText (PdfProcessor.TextChunk.text chunk) = true
  /\ trim (PdfProcessor.TextChunk.text chunk) = PdfProcessor.TextChunk.text chunk
  /\ boxInPage (PdfProcessor.TextChunk.geometry chunk) = true.

(** The array [grouped] of the line clusterer, from the state of its loop:
    the closed groups and the last one. *)
Definition groupsOf (st : list PdfProcessor.TextChunk * PdfProcessor.TextChunk)
  : list PdfProcessor.TextChunk :=
  (fst st ++ [snd st])%list.

(** ** The viewer *)

(** The identifiers of all the chunks of the pages, page after page. *)
Definition allChunkIds (pages : list PdfProcessor.PageData) : list jsstring :=
  flat_map (fun page => map PdfProcessor.TextChunk.id
                            (PdfProcessor.PageData.textChunks page)) pages.

Definition zoomLevels : list number :=
  [0.5; 0.75; 1; 1.25; 1.5; 1.75; 2; 2.25; 2.5; 2.75; 3]%float.

(** Two pages of two tokens each, named as the basic processor names
    them. *)
Definition twoViewerPages : list PdfProcessor.PageData :=
  [ {| PdfProcessor.PageData.pageNumber := 1;
       PdfProcessor.PageData.imageUrl := [];
       PdfProcessor.PageData.textChunks := twoNativeTokens |};
    {| PdfProcessor.PageData.pageNumber := 2;
       PdfProcessor.PageData.imageUrl := [];
       PdfProcessor.PageData.textChunks :=
         [ token (PdfProcessor.pdfChunkId 2 0) 2 "cd" 10%float 10%float 10%float 5%float ] |} ].

(** ** The enhanced pipeline *)

(** The OCR words [performEnhancedOCR] keeps: those with a box and text
    that is not blank. *)
Definition keptWord (ocrWord : Enhanced.OcrWord) : bool :=
  match Enhanced.OcrWord.bbox ocrWord with
  | Some _ => hasText (Enhanced.OcrWord.text ocrWord)
  | None => false
  end.

(** A pixel geometry divided by the canvas dimensions. *)
Definition normalizedGeometry (canvas : Enhanced.Canvas) (g : Geometry number)
  : BoundingBox :=
  {| BoundingBox.x := (Geometry.x g / Enhanced.Canvas.width canvas)%float;
     BoundingBox.y := (Geometry.y g / Enhanced.Canvas.height canvas)%float;
     BoundingBox.width := (Geometry.w g / Enhanced.Canvas.width canvas)%float;
     BoundingBox.height := (Geometry.h g / Enhanced.Canvas.height canvas)%float |}.

(** A legacy chunk and an IR word that describe the same OCR word. *)
Definition sameWord (canvas : Enhanced.Canvas) (pageNumber : number)
  (legacyChunk : LegacyTextChunk number) (word : Word) : Prop :=
  LegacyTextChunk.text legacyChunk = Word.text word
  /\ LegacyTextChunk.pageNumber legacyChunk = pageNumber
  /\ Word.bbox word
     = normalizedGeometry canvas (LegacyTextChunk.geometry legacyChunk).

(** A page as [performEnhancedOCR] builds it. *)
Definition processorPage (page : Page) : Prop :=
  exists nanoid canvas words pageNumber,
    page = snd (Enhanced.performEnhancedOCR nanoid canvas words pageNumber).

(** The clustering loop of the processor over any kind of element:
    [breaks last current] closes the open group before [current]. *)
Fixpoint splitLoop {A : Type} (breaks : A -> A -> bool) (rest : list A)
  (groups : list (list A)) (currentInit : list A) (last : A)
  : list (list A) :=
  match rest with
  | [] => (groups ++ [(currentInit ++ [last])])%list
  | current :: rest' =>
      if breaks last current
      then splitLoop breaks rest' (groups ++ [(currentInit ++ [last])])%list
                     [] current
      else splitLoop breaks rest' groups (currentInit ++ [last])%list current
  end.

(** The test of [groupWordsIntoLines] that keeps a word on the line. *)
Definition onSameLine (lastWordInLine currentWord : Word) : bool :=
  lt (Math_abs (BoundingBox.y (Word.bbox currentWord)
                - BoundingBox.y (Word.bbox lastWordInLine))%float) 0.02%float.

(** The chunk [generateTextChunks] builds from a block of a page. *)
Definition projectedChunk (page : Page) (block : Block) : TextChunk number :=
  {| TextChunk.chunk_id := Block.id block;
     TextChunk.text := trim (Enhanced.blockText block);
     TextChunk.chunk_type := Enhanced.mapBlockTypeToChunkType (Block.type block);
     TextChunk.grounding :=
       [ {| Grounding.page := (Page.pageNumber page - 1)%float;
            Grounding.box :=
              {| GroundingBox.l := BoundingBox.x (Block.bbox block);
                 GroundingBox.t := BoundingBox.y (Block.bbox block);
                 GroundingBox.r :=
                   (BoundingBox.x (Block.bbox block)
                    + BoundingBox.width (Block.bbox block))%float;
                 GroundingBox.b :=
                   (BoundingBox.y (Block.bbox block)
                    + BoundingBox.height (Block.bbox block))%float |} |} ];
     TextChunk.confidence := Some (Block.confidence block);
     TextChunk.semantic_role := Block.semanticRole block |}.

(** The right and the bottom edge of a box, as the projection computes
    them. *)
Definition rightEdge (b : BoundingBox) : number :=
  (BoundingBox.x b + BoundingBox.width b)%float.
Definition bottomEdge (b : BoundingBox) : number :=
  (BoundingBox.y b + BoundingBox.height b)%float.

(** A box given by its left edge and width, on the top band. *)
Definition boxAt (x width : number) : BoundingBox :=
  {| BoundingBox.x := x; BoundingBox.y := 0.1%float;
     BoundingBox.width := width; BoundingBox.height := 0.02%float |}.

(** A legacy page record and an IR page that come from one call of
    [performEnhancedOCR]. *)
Definition samePage (pageData : Enhanced.LegacyPageData) (irPage : Page) : Prop :=
  exists nanoid canvas words pageNumber,
    (Enhanced.LegacyPageData.textChunks pageData, irPage)
    = Enhanced.performEnhancedOCR nanoid canvas words pageNumber.

(** The legacy page record of the page on which OCR found the single word
    [text]. *)
Definition oneWordLegacyPage (pageNumber : number) (text : string)
  : Enhanced.LegacyPageData :=
  {| Enhanced.LegacyPageData.pageNumber := pageNumber;
     Enhanced.LegacyPageData.imageUrl := [];
     Enhanced.LegacyPageData.textChunks :=
       fst (Enhanced.performEnhancedOCR
              (fun k => (JS.str "legacy-" ++ ofIndex k)%list)
              {| Enhanced.Canvas.width := 1000%float;
                 Enhanced.Canvas.height := 1000%float |}
              (Some [ {| Enhanced.OcrWord.text := JS.str text;
                         Enhanced.OcrWord.confidence := 90%float;
                         Enhanced.OcrWord.bbox :=
                           Some {| PdfProcessor.BBox.x0 := 100%float;
                                   PdfProcessor.BBox.y0 := 100%float;
                                   PdfProcessor.BBox.x1 := 300%float;
                                   PdfProcessor.BBox.y1 := 140%float |} |} ])
              pageNumber) |}.

(** The chunks of a list that are on a page, in order. *)
Definition chunksOfPage (pageNumber : nat) (chunks : list PdfProcessor.TextChunk)
  : list PdfProcessor.TextChunk :=
  filter (fun chunk => (PdfProcessor.TextChunk.pageNumber chunk =? pageNumber)%nat)
         chunks.

(** What an entry of the grouping should hold for a page: the chunks of the
    page, and no entry when there is none. *)
Definition entryOfPage (pageNumber : nat) (chunks : list PdfProcessor.TextChunk)
  : option (list PdfProcessor.TextChunk) :=
  match chunksOfPage pageNumber chunks with
  | [] => None
  | entry => Some entry
  end.

(** The run of a page with another OCR collaborator. *)
Definition withOcr (run : PdfProcessor.PageRun) (ocr : PdfProcessor.OcrRun)
  : PdfProcessor.PageRun :=
  {| PdfProcessor.PageRun.context := PdfProcessor.PageRun.context run;
     PdfProcessor.PageRun.render := PdfProcessor.PageRun.render run;
     PdfProcessor.PageRun.imageUrl := PdfProcessor.PageRun.imageUrl run;
     PdfProcessor.PageRun.getTextContent := PdfProcessor.PageRun.getTextContent run;
     PdfProcessor.PageRun.viewportWidth := PdfProcessor.PageRun.viewportWidth run;
     PdfProcessor.PageRun.viewportHeight := PdfProcessor.PageRun.viewportHeight run;
     PdfProcessor.PageRun.ocr := ocr |}.

(** A word given by its text, left edge and top. *)
Definition wordAt (text : string) (x y : number) : Word :=
  {| Word.text := JS.str text;
     Word.bbox := {| BoundingBox.x := x; BoundingBox.y := y;
                     BoundingBox.width := 0.1%float;
                     BoundingBox.height := 0.02%float |};
     Word.confidence := 0.9%float;
     Word.fontFamily := None;
     Word.fontSize := None |}.

End Spec.

(* ================================================================== *)
(** * Properties *)
(* ================================================================== *)

(** ** Order of binary64 numbers *)

Section FloatOrder.

Lemma SFcompare_antisym (x y : spec_float) :
  SFcompare y x = option_map CompOpp (SFcompare x y).
Proof.
  destruct x as [s1| s1 | |s1 m1 e1], y as [s2|s2| |s2 m2 e2]; simpl;
    try reflexivity;
    try (destruct s1; reflexivity);
    try (destruct s2; reflexivity);
    try (destruct s1, s2; reflexivity).
  destruct s1, s2; simpl; try reflexivity;
    rewrite (Z.compare_antisym e1 e2);
    destruct (e1 ?= e2)%Z; simpl; try reflexivity;
    f_equal; change PosDef.Pos.compare_cont with Pos.compare_cont;
    rewrite (ZC4 m2 m1); destruct (Pos.compare_cont Eq m1 m2); reflexivity.
Qed.

(** [a < b] excludes [b < a]. *)
Lemma lt_asym (a b : float) : JS.lt a b = true -> JS.gt a b = false.
Proof.
  unfold JS.lt, JS.gt. rewrite !FloatAxioms.ltb_spec. unfold SFltb.
  rewrite (SFcompare_antisym (Prim2SF a) (Prim2SF b)).
  destruct (SFcompare (Prim2SF a) (Prim2SF b)) as [[]|]; simpl; congruence.
Qed.

(** [a <= b] excludes [a > b]. *)
Lemma le_not_gt (a b : float) : JS.le a b = true -> JS.gt a b = false.
Proof.
  unfold JS.le, JS.gt. rewrite FloatAxioms.ltb_spec, FloatAxioms.leb_spec. unfold SFltb, SFleb.
  rewrite (SFcompare_antisym (Prim2SF a) (Prim2SF b)).
  destruct (SFcompare (Prim2SF a) (Prim2SF b)) as [[]|]; simpl; congruence.
Qed.

End FloatOrder.

(** ** The coordinate transforms *)

Section TransformProperties.
Import JS Types Spec.

(** C10. [transformGroundingToLegacy] reads the first grounding only: on a
    chunk whose grounding array starts with [g], the legacy chunk has the
    page number [g.page + 1] and the geometry computed from [g.box], whatever
    the other groundings are, so the result is the one of the chunk that
    carries [g] alone. *)
Theorem transformGroundingToLegacy_first_grounding_only :
  forall (T : Type) (arith : Arith T)
         (text chunk_id : jsstring) (chunk_type : ChunkType)
         (g : Grounding T) (others : list (Grounding T))
         (confidence : option number) (semantic_role : option jsstring)
         (pageWidth pageHeight : T),
    let textChunk groundings :=
      TextChunk.mk text chunk_id chunk_type groundings confidence semantic_role in
    transformGroundingToLegacy (textChunk (g :: others)) pageWidth pageHeight
    = Ok {| LegacyTextChunk.id := chunk_id;
            LegacyTextChunk.text := text;
            LegacyTextChunk.pageNumber := (Grounding.page g + 1)%float;
            LegacyTextChunk.geometry :=
              {| Geometry.x := mul (GroundingBox.l (Grounding.box g)) pageWidth;
                 Geometry.y := mul (GroundingBox.t (Grounding.box g)) pageHeight;
                 Geometry.w :=
                   mul (sub (GroundingBox.r (Grounding.box g))
                            (GroundingBox.l (Grounding.box g))) pageWidth;
                 Geometry.h :=
                   mul (sub (GroundingBox.b (Grounding.box g))
                            (GroundingBox.t (Grounding.box g))) pageHeight |} |}
    /\ transformGroundingToLegacy (textChunk (g :: others)) pageWidth pageHeight
       = transformGroundingToLegacy (textChunk [g]) pageWidth pageHeight.
Proof.
  intros. split; reflexivity.
Qed.

(** On a page of width 0.5 the product [l * pageWidth] rounds to zero, and
    the left edge comes back as 0. *)
Lemma thinMarginBox_round_trip :
  normalizedBox thinMarginBox = true
  /\ groundingRoundTrip (chunkOfBox 0%float thinMarginBox) 0.5%float 1%float
     = Some {| GroundingBox.l := 0%float; GroundingBox.t := 0%float;
               GroundingBox.r := 1%float; GroundingBox.b := 1%float |}
  /\ withinTolerance minSubnormal 0%float = false.
Proof. vm_compute. repeat split; reflexivity. Qed.

(** The other composition loses precision by cancellation on pages of
    ordinary size: the width 1e-12 of [hairlineChunk] comes back about 1.9%
    larger. *)
Lemma hairlineChunk_round_trip :
  exists geometry',
    legacyRoundTrip hairlineChunk 612%float 792%float = Some geometry'
    /\ Geometry.w geometry' = 1.0191847366058937e-12%float
    /\ withinTolerance 1e-12%float (Geometry.w geometry') = false.
Proof. eexists. vm_compute. repeat split; reflexivity. Qed.

(** A normalized box need not have its edges in order; when the right
    edge is far smaller than the left one, the sum [x + w] cancels and the
    right edge comes back about 0.004% off. *)
Lemma invertedBox_round_trip :
  normalizedBox invertedBox = true
  /\ exists box',
      groundingRoundTrip (chunkOfBox 0%float invertedBox) 612%float 792%float
      = Some box'
      /\ GroundingBox.r box' = 9.9996118865271091e-13%float
      /\ withinTolerance (GroundingBox.r invertedBox) (GroundingBox.r box') = false.
Proof. split; [reflexivity|]. eexists. vm_compute. repeat split; reflexivity. Qed.

(** The legacy form of a hairline box loses its width by cancellation: the
    width 6.12e-11 of [hairlineBox] on a 612 x 792 page comes back about
    0.1% smaller. *)
Lemma hairlineBox_round_trip :
  normalizedBox hairlineBox = true
  /\ exists legacy geometry',
      transformGroundingToLegacy (chunkOfBox 0%float hairlineBox) 612%float 792%float
      = Ok legacy
      /\ legacyRoundTrip legacy 612%float 792%float = Some geometry'
      /\ Geometry.w (LegacyTextChunk.geometry legacy) = 6.1219029845460682e-11%float
      /\ Geometry.w geometry' = 6.1151084196353622e-11%float
      /\ geometryWithinTolerance (LegacyTextChunk.geometry legacy) geometry' = false.
Proof.
  split; [reflexivity|]. eexists. eexists.
  split; [reflexivity|]. vm_compute. repeat split; reflexivity.
Qed.

(** C3, as stated, fails on binary64 numbers: the box [thinMarginBox] on a
    page of width 0.5 and height 1 does not come back within 1e-6. *)
Lemma roundTripWithinTolerance_fails : ~ roundTripWithinTolerance.
Proof.
  intros H.
  destruct (H 0%float thinMarginBox 0.5%float 1%float) as [[box' [E W]] _];
    try reflexivity.
  vm_compute in E. injection E as <-. vm_compute in W. discriminate.
Qed.

End TransformProperties.

(** ** The line clusterer *)

Section LineClusterer.
Import JS PdfProcessor Spec.
Local Open Scope float_scope.

(** C6. The two tokens "Hello" at (10, 10, 20, 5) and "World" at
    (32, 10, 20, 5) come out as the single chunk "Hello World" at
    (10, 10, 42, 5); it keeps the identifier and page of the first token. *)
Theorem groupNearbyTextChunks_hello_world :
  forall (idHello idWorld : jsstring) (pageHello pageWorld : nat),
    groupNearbyTextChunks
      [ token idHello pageHello "Hello" 10 10 20 5;
        token idWorld pageWorld "World" 32 10 20 5 ]
    = [ token idHello pageHello "Hello World" 10 10 42 5 ].
Proof. intros. vm_compute. reflexivity. Qed.

End LineClusterer.

(** ** Strings *)

Section Strings.
Import JS Spec.

Lemma trimStart_length (s : jsstring) :
  (List.length (trimStart s) <= List.length s)%nat.
Proof.
  induction s as [|c t IH]; simpl; [lia|].
  destruct (isWhiteSpace c); simpl; lia.
Qed.

Lemma trimEnd_length (s : jsstring) :
  (List.length (trimEnd s) <= List.length s)%nat.
Proof.
  unfold trimEnd. rewrite length_rev.
  pose proof (trimStart_length (rev s)) as H. rewrite length_rev in H. exact H.
Qed.

Lemma trim_length (s : jsstring) :
  (List.length (trim s) <= List.length s)%nat.
Proof.
  unfold trim. pose proof (trimEnd_length (trimStart s)).
  pose proof (trimStart_length s). lia.
Qed.

Lemma replaceWsRuns_length (inRun : bool) (s : jsstring) :
  (List.length (replaceWsRuns inRun s) <= List.length s)%nat.
Proof.
  revert inRun. induction s as [|c t IH]; intros inRun; simpl; [lia|].
  destruct (isWhiteSpace c).
  - destruct inRun; simpl; specialize (IH true); lia.
  - simpl. specialize (IH false). lia.
Qed.

Lemma hasText_app (a b : jsstring) :
  hasText (a ++ b) = hasText a || hasText b.
Proof. apply existsb_app. Qed.

Lemma hasText_rev (s : jsstring) : hasText (rev s) = hasText s.
Proof.
  induction s as [|c t IH]; [reflexivity|].
  simpl rev. rewrite hasText_app, IH. simpl.
  rewrite orb_false_r. apply orb_comm.
Qed.

Lemma hasText_trimStart (s : jsstring) : hasText (trimStart s) = hasText s.
Proof.
  induction s as [|c t IH]; [reflexivity|]. simpl.
  destruct (isWhiteSpace c) eqn:E; simpl; [exact IH|].
  rewrite E. reflexivity.
Qed.

Lemma trimStart_head (s : jsstring) : startsWithText (trimStart s) = true.
Proof.
  induction s as [|c t IH]; [reflexivity|]. simpl.
  destruct (isWhiteSpace c) eqn:E; [exact IH|]. simpl. rewrite E. reflexivity.
Qed.

Lemma trimStart_fixed (s : jsstring) :
  startsWithText s = true -> trimStart s = s.
Proof.
  destruct s as [|c t]; [reflexivity|]. simpl.
  destruct (isWhiteSpace c); [discriminate|reflexivity].
Qed.

Lemma trimStart_nonempty (s : jsstring) :
  (0 <? List.length (trimStart s))%nat = hasText s.
Proof.
  induction s as [|c t IH]; [reflexivity|]. simpl.
  destruct (isWhiteSpace c); [exact IH|reflexivity].
Qed.

(** [trimStart] removes a prefix made of white space. *)
Lemma trimStart_suffix (s : jsstring) :
  exists pre, s = pre ++ trimStart s.
Proof.
  induction s as [|c t [pre IH]]; [exists []; reflexivity|]. simpl.
  destruct (isWhiteSpace c).
  - exists (c :: pre). simpl. f_equal. exact IH.
  - exists []. reflexivity.
Qed.

(** [trimEnd] removes a suffix. *)
Lemma trimEnd_prefix (s : jsstring) :
  exists post, s = trimEnd s ++ post.
Proof.
  unfold trimEnd. destruct (trimStart_suffix (rev s)) as [pre H].
  exists (rev pre). rewrite <- rev_app_distr, <- H. symmetry. apply rev_involutive.
Qed.

Lemma trim_nonempty (s : jsstring) :
  (0 <? List.length (trim s))%nat = hasText s.
Proof.
  unfold trim, trimEnd. rewrite length_rev, trimStart_nonempty.
  rewrite hasText_rev. apply hasText_trimStart.
Qed.

(** A trimmed string is left alone by [trim]. *)
Lemma trim_idempotent (s : jsstring) : trim (trim s) = trim s.
Proof.
  unfold trim at 2 3. set (u := trimStart s).
  assert (Hu : startsWithText u = true) by apply trimStart_head.
  assert (Hhead : startsWithText (trimEnd u) = true).
  { destruct (trimEnd_prefix u) as [post Hpost].
    destruct (trimEnd u) as [|c t] eqn:E; [reflexivity|].
    rewrite Hpost in Hu. exact Hu. }
  unfold trim. rewrite (trimStart_fixed _ Hhead).
  unfold trimEnd. rewrite rev_involutive.
  rewrite (trimStart_fixed _ (trimStart_head (rev u))). reflexivity.
Qed.

Lemma hasText_replaceWsRuns (inRun : bool) (s : jsstring) :
  hasText (replaceWsRuns inRun s) = hasText s.
Proof.
  revert inRun. induction s as [|c t IH]; intros inRun; [reflexivity|]. simpl.
  destruct (isWhiteSpace c) eqn:E.
  - destruct inRun; simpl; apply IH.
  - simpl. rewrite E. simpl. reflexivity.
Qed.

Lemma replaceWsRuns_collapsed (inRun : bool) (s : jsstring) :
  collapsed (replaceWsRuns inRun s) = true
  /\ (inRun = true -> startsWithText (replaceWsRuns inRun s) = true).
Proof.
  revert inRun. induction s as [|c t IH]; intros inRun; [split; reflexivity|].
  simpl. destruct (isWhiteSpace c) eqn:E.
  - destruct (IH true) as [Hc Hs]. destruct inRun.
    + split; [exact Hc|intros _; exact (Hs eq_refl)].
    + split; [|discriminate]. simpl. rewrite (Hs eq_refl), Hc. reflexivity.
  - destruct (IH false) as [Hc _]. split.
    + simpl. rewrite E. exact Hc.
    + intros _. simpl. rewrite E. reflexivity.
Qed.

Lemma collapsed_app_r (a b : jsstring) :
  collapsed (a ++ b) = true -> collapsed b = true.
Proof.
  induction a as [|c t IH]; simpl; [trivial|].
  intros H. apply andb_true_iff in H. apply IH, H.
Qed.

Lemma collapsed_app_l (a b : jsstring) :
  collapsed (a ++ b) = true -> collapsed a = true.
Proof.
  induction a as [|c t IH]; simpl; [trivial|].
  intros H. apply andb_true_iff in H. destruct H as [H1 H2].
  rewrite (IH H2), andb_true_r.
  destruct (isWhiteSpace c); [|reflexivity].
  apply andb_true_iff in H1. destruct H1 as [H1 H3]. rewrite H1. simpl.
  destruct t; [reflexivity|exact H3].
Qed.

Lemma trim_collapsed (s : jsstring) :
  collapsed s = true -> collapsed (trim s) = true.
Proof.
  intros H. unfold trim.
  destruct (trimStart_suffix s) as [pre Hpre].
  destruct (trimEnd_prefix (trimStart s)) as [post Hpost].
  rewrite Hpre in H. apply collapsed_app_r in H.
  rewrite Hpost in H. apply collapsed_app_l in H. exact H.
Qed.

End Strings.

Section LineClustererOutput.
Import JS PdfProcessor Spec.
Local Open Scope float_scope.

Lemma cleanText_cleanGroup (g : TextChunk) :
  keepGroup g = true -> cleanGroup (cleanText g).
Proof.
  unfold keepGroup, cleanGroup. intros H.
  repeat (apply andb_true_iff in H; destruct H as [H ?]).
  rename H into Hw, H2 into Hh, H1 into Htext, H0 into Hlen.
  cbn [cleanText TextChunk.text TextChunk.geometry].
  rewrite trim_nonempty in Htext.
  assert (Hne : (0 <? List.length (trim (collapseWhiteSpace (TextChunk.text g))))%nat = true).
  { rewrite trim_nonempty. unfold collapseWhiteSpace.
    rewrite hasText_replaceWsRuns. exact Htext. }
  apply Nat.ltb_lt in Hne, Hlen.
  pose proof (trim_length (collapseWhiteSpace (TextChunk.text g))) as L1.
  pose proof (replaceWsRuns_length false (TextChunk.text g)) as L2.
  fold (collapseWhiteSpace (TextChunk.text g)) in L2.
  repeat split; try assumption; try lia.
  - apply trim_idempotent.
  - apply trim_collapsed. apply (replaceWsRuns_collapsed false).
Qed.

(** C9. Every chunk the line clusterer returns has non-empty, trimmed text
    of fewer than 500 code units in which white space only occurs as single
    spaces, and a box wider and higher than 0.1.  The chunks returned are the
    cleaned groups that pass the size and text filter and no others, so a
    group that fails it leaves no trace: the single token "x" of width 0.05
    gives the empty result. *)
Theorem groupNearbyTextChunks_output_clean :
  forall chunks : list TextChunk,
    Forall cleanGroup (groupNearbyTextChunks chunks)
    /\ (forall c,
           In c (groupNearbyTextChunks chunks) <->
           exists g, In g (groupSorted (sort compareByPosition chunks))
                     /\ keepGroup g = true /\ c = cleanText g)
    /\ (forall (id : jsstring) (pageNumber : nat),
           groupNearbyTextChunks [token id pageNumber "x" 10 10 0.05 5] = []).
Proof.
  intros chunks.
  assert (E : groupNearbyTextChunks chunks
              = map cleanText (filter keepGroup
                                 (groupSorted (sort compareByPosition chunks)))).
  { unfold groupNearbyTextChunks. destruct chunks; reflexivity. }
  split; [|split].
  - rewrite E. apply Forall_forall. intros c Hc.
    apply in_map_iff in Hc. destruct Hc as [g [<- Hg]].
    apply filter_In in Hg. apply cleanText_cleanGroup, Hg.
  - intros c. rewrite E, in_map_iff. split.
    + intros [g [<- Hg]]. apply filter_In in Hg. exists g. tauto.
    + intros [g [Hg [Hk ->]]]. exists g. split; [reflexivity|].
      apply filter_In. tauto.
  - intros. vm_compute. reflexivity.
Qed.

End LineClustererOutput.

(** ** The OCR channel *)

Section OcrGranularity.
Import JS PdfProcessor Spec.

Lemma accepted_has_bbox (img : Img) (item : OcrItem) :
  accepted img item = true -> exists bbox, OcrItem.bbox item = Some bbox.
Proof.
  unfold accepted. destruct (OcrItem.bbox item) as [bbox|].
  - intros _. exists bbox. reflexivity.
  - rewrite andb_false_r. discriminate.
Qed.

(** A pass appends one chunk per accepted item, numbered from the counter
    on, and advances the counter by as much. *)
Lemma pushOcrItem_fold (mkId : nat -> nat -> jsstring) (img : Img) (pageNum : nat)
  (items : list OcrItem) :
  forall (textChunks : list TextChunk) (chunkIndex : nat),
  exists emitted,
    fold_left (pushOcrItem mkId img pageNum) items (textChunks, chunkIndex)
    = (textChunks ++ emitted, chunkIndex + List.length emitted)%nat
    /\ Forall2 (fromOcrItem mkId img pageNum) emitted
               (combine (seq chunkIndex (List.length (filter (accepted img) items)))
                        (filter (accepted img) items)).
Proof.
  induction items as [|item items IH]; intros textChunks chunkIndex.
  - exists []. simpl. rewrite app_nil_r, Nat.add_0_r. split; constructor.
  - simpl.
    destruct (accepted img item) eqn:A.
    + destruct (accepted_has_bbox _ _ A) as [bbox Hb]. rewrite Hb.
      destruct (IH (textChunks ++
                     [ {| TextChunk.id := mkId pageNum chunkIndex;
                          TextChunk.text := trim (OcrItem.text item);
                          TextChunk.pageNumber := pageNum;
                          TextChunk.geometry := ocrGeometry img bbox |} ])
                   (S chunkIndex)) as [emitted [E F]].
      eexists (_ :: emitted). split.
      * rewrite E, <- app_assoc. simpl. f_equal. lia.
      * simpl. constructor; [|exact F].
        cbn. repeat split; try assumption. exists bbox. split; [exact Hb|reflexivity].
    + apply IH.
Qed.

Lemma itemChunks_spec (mkId : nat -> nat -> jsstring) (img : Img) (pageNum : nat)
  (items : option (list OcrItem)) :
  Forall2 (fromOcrItem mkId img pageNum)
          (itemChunks mkId img pageNum items)
          (indexed (filter (accepted img) (itemsOf items))).
Proof.
  unfold itemChunks, pushOcrItems, indexed. destruct items as [items|]; simpl.
  - destruct (pushOcrItem_fold mkId img pageNum items [] 0) as [emitted [E F]].
    rewrite E. exact F.
  - constructor.
Qed.

Lemma itemChunks_counter (mkId : nat -> nat -> jsstring) (img : Img) (pageNum : nat)
  (items : option (list OcrItem)) :
  pushOcrItems mkId img pageNum items ([], 0%nat)
  = (itemChunks mkId img pageNum items,
     List.length (itemChunks mkId img pageNum items)).
Proof.
  unfold itemChunks, pushOcrItems. destruct items as [items|]; [|reflexivity].
  destruct (pushOcrItem_fold mkId img pageNum items [] 0) as [emitted [E _]].
  rewrite E. reflexivity.
Qed.

Lemma itemChunks_empty_iff (mkId : nat -> nat -> jsstring) (img : Img) (pageNum : nat)
  (items : option (list OcrItem)) :
  (List.length (itemChunks mkId img pageNum items) =? 0)%nat
  = negb (existsb (accepted img) (itemsOf items)).
Proof.
  pose proof (itemChunks_spec mkId img pageNum items) as F.
  apply Forall2_length in F. rewrite F. unfold indexed.
  rewrite length_combine, length_seq, Nat.min_id. clear F.
  induction (itemsOf items) as [|item l IH]; [reflexivity|]. simpl.
  destruct (accepted img item); simpl; [reflexivity|exact IH].
Qed.

(** C7, as stated, fails: with an empty page text the accepted word "Hi"
    gives no chunk at all. *)
Lemma wordsEmittedWheneverAccepted_fails : ~ wordsEmittedWheneverAccepted.
Proof.
  intros H. destruct (H blankPageData img100 1%nat) as [chunks [E [N _]]].
  - vm_compute. reflexivity.
  - vm_compute in E. injection E as <-. apply N. reflexivity.
Qed.

(** C7, amended.  When no step of the collaborator fails, [performOCR]
    returns: nothing when the page text is blank; otherwise the word-level
    chunks when a word passes the acceptance filter; otherwise the line-level
    chunks when a line passes it; otherwise the single whole-page chunk.  The
    word-level (line-level) chunks are one chunk per accepted word (line), in
    order, numbered from 0. *)
Theorem performOCR_granularity_order :
  forall (data : OcrData) (img : Img) (pageNum : nat),
    let wordChunks := itemChunks ocrWordId img pageNum (OcrData.words data) in
    let lineChunks := itemChunks ocrLineId img pageNum (OcrData.lines data) in
    Forall2 (fromOcrItem ocrWordId img pageNum) wordChunks
            (indexed (filter (accepted img) (itemsOf (OcrData.words data))))
    /\ Forall2 (fromOcrItem ocrLineId img pageNum) lineChunks
               (indexed (filter (accepted img) (itemsOf (OcrData.lines data))))
    /\ performOCR (recognizing data img) pageNum
       = Ok (if negb (hasText (OcrData.text data)) then []
             else if existsb (accepted img) (itemsOf (OcrData.words data))
                  then wordChunks
             else if existsb (accepted img) (itemsOf (OcrData.lines data))
                  then lineChunks
             else [fullPageChunk pageNum (OcrData.text data)]).
Proof.
  intros data img pageNum wordChunks lineChunks. subst wordChunks lineChunks.
  split; [apply itemChunks_spec|]. split; [apply itemChunks_spec|].
  change (performOCR (recognizing data img) pageNum)
    with (Ok (recognizedChunks (Some data) img pageNum)).
  f_equal. unfold recognizedChunks. rewrite trim_nonempty.
  destruct (hasText (OcrData.text data)); [|reflexivity]. cbn [negb andb].
  rewrite andb_true_r, itemChunks_counter. cbn [fst].
  pose proof (itemChunks_empty_iff ocrWordId img pageNum (OcrData.words data)) as Zw.
  pose proof (itemChunks_empty_iff ocrLineId img pageNum (OcrData.lines data)) as Zl.
  destruct (existsb (accepted img) (itemsOf (OcrData.words data))); cbn [negb] in Zw.
  - rewrite Zw. cbn [fst]. rewrite Zw. reflexivity.
  - rewrite Zw.
    assert (Hw : itemChunks ocrWordId img pageNum (OcrData.words data) = []).
    { destruct (itemChunks ocrWordId img pageNum (OcrData.words data));
        [reflexivity|discriminate]. }
    rewrite Hw. cbn [List.length]. rewrite itemChunks_counter. cbn [fst].
    destruct (existsb (accepted img) (itemsOf (OcrData.lines data))); cbn [negb] in Zl.
    + rewrite Zl. reflexivity.
    + rewrite Zl.
      destruct (itemChunks ocrLineId img pageNum (OcrData.lines data));
        [reflexivity|discriminate].
Qed.

End OcrGranularity.

(** ** Channel arbitration *)

Section Arbitration.
Import JS PdfProcessor Spec.

(** A failing OCR call either throws or returns the empty array. *)
Lemma performOCR_failure (run : OcrRun) (pageNum : nat) :
  ocrFails run = true ->
  performOCR run pageNum = Ok [] \/ exists e, performOCR run pageNum = Throw e.
Proof.
  unfold ocrFails, performOCR, failed.
  destruct run as [cw sp rc li tm]; cbn.
  destruct cw as [[]|e]; cbn; [|intros _; right; eauto].
  destruct tm as [[]|e]; cbn; [|intros _; right; eauto].
  destruct sp as [[]|e]; cbn; [|intros _; left; reflexivity].
  destruct rc as [d|e]; cbn; [|intros _; left; reflexivity].
  destruct li as [i|e]; cbn; [discriminate|intros _; left; reflexivity].
Qed.

(** After a failing OCR call the native chunks are kept. *)
Lemma arbitrate_failure (run : OcrRun) (pageNum : nat)
  (pdfTextChunks : list TextChunk) :
  ocrFails run = true ->
  arbitrate run pageNum pdfTextChunks = Ok pdfTextChunks.
Proof.
  intros F. unfold arbitrate.
  destruct (ocrTriggered pdfTextChunks); [|reflexivity].
  destruct (performOCR_failure run pageNum F) as [E|[e E]]; rewrite E; cbn.
  - unfold ocrSelected, hasHigherQuality. cbn.
    destruct pdfTextChunks; reflexivity.
  - reflexivity.
Qed.

(** C2. On a page whose rendering and text extraction succeed, a failing
    OCR step leaves the page with the native projection as its chunk list,
    be it empty, and the page completes: no error is reported. *)
Theorem onPageLoadSuccess_ocr_failure_keeps_native :
  forall (run : PageRun) (pageNum : nat) (textContent : option (list TextItem)),
    PageRun.context run = true ->
    PageRun.render run = Ok tt ->
    PageRun.getTextContent run = Ok textContent ->
    ocrFails (PageRun.ocr run) = true ->
    onPageLoadSuccess run pageNum
    = PageDone {| PageData.pageNumber := pageNum;
                  PageData.imageUrl := PageRun.imageUrl run;
                  PageData.textChunks := nativeProjection run pageNum textContent |}.
Proof.
  intros run pageNum textContent Hc Hr Ht Hf.
  unfold onPageLoadSuccess, processPage.
  rewrite Hc, Hr, Ht. cbn [bind].
  rewrite (arbitrate_failure _ _ _ Hf). reflexivity.
Qed.

(** A scanned page (no native text) whose OCR worker cannot be created
    completes with the empty chunk list. *)
Lemma onPageLoadSuccess_ocr_failure_keeps_native_witness :
  onPageLoadSuccess scannedPageBrokenOcr 1
  = PageDone {| PageData.pageNumber := 1;
                PageData.imageUrl := PageRun.imageUrl scannedPageBrokenOcr;
                PageData.textChunks := [] |}.
Proof.
  exact (onPageLoadSuccess_ocr_failure_keeps_native
           scannedPageBrokenOcr 1 (textContent := None)
           eq_refl eq_refl eq_refl eq_refl).
Defined.

(** C4, as stated, fails: OCR is triggered on the two native tokens, it
    returns three tokens of the same average length, three is not above
    1.5 times two, and the OCR tokens are selected all the same. *)
Lemma selectionByQualityOnly_fails : ~ selectionByQualityOnly.
Proof.
  intros H.
  specialize (H (recognizing threeWordsData img100) 1%nat
                twoNativeTokens threeOcrTokens).
  assert (T : ocrTriggered twoNativeTokens = true) by reflexivity.
  assert (P : performOCR (recognizing threeWordsData img100) 1 = Ok threeOcrTokens)
    by reflexivity.
  assert (N : threeOcrTokens <> []) by (vm_compute; discriminate).
  specialize (H T P N). vm_compute in H. discriminate.
Qed.

(** C4, amended.  After a triggered OCR that returned chunks, these replace
    the native chunks exactly when there are more of them than native chunks,
    or their average text length exceeds 1.2 times the native one, or their
    count exceeds 1.5 times the native count; otherwise the native chunks are
    kept. *)
Theorem arbitrate_selection_rule :
  forall (run : OcrRun) (pageNum : nat) (pdfTextChunks ocrChunks : list TextChunk),
    ocrTriggered pdfTextChunks = true ->
    performOCR run pageNum = Ok ocrChunks ->
    ocrChunks <> [] ->
    arbitrate run pageNum pdfTextChunks
    = Ok (if (List.length pdfTextChunks <? List.length ocrChunks)%nat
             || gt (avgTextLength ocrChunks) (avgTextLength pdfTextChunks * 1.2)%float
             || gt (ofNat (List.length ocrChunks))
                   (ofNat (List.length pdfTextChunks) * 1.5)%float
          then ocrChunks else pdfTextChunks).
Proof.
  intros run pageNum pdf ocr T P N.
  unfold arbitrate. rewrite T, P. cbn [bind tryCatch]. f_equal.
  unfold ocrSelected, hasHigherQuality.
  destruct ocr as [|o ocr]; [congruence|].
  destruct pdf as [|p pdf]; [reflexivity|].
  cbn [List.length Nat.eqb]. rewrite orb_assoc. reflexivity.
Qed.

Lemma arbitrate_selection_rule_witness :
  arbitrate (recognizing threeWordsData img100) 1 twoNativeTokens
  = Ok threeOcrTokens.
Proof.
  assert (N : threeOcrTokens <> []) by (vm_compute; discriminate).
  exact (arbitrate_selection_rule (recognizing threeWordsData img100) 1
           twoNativeTokens (ocrChunks := threeOcrTokens) eq_refl eq_refl N).
Defined.

End Arbitration.

(** ** The block clusterer *)

Section BlockClusterer.
Import JS Types Enhanced Spec.

Lemma blockOf_app_lt {A : Type} (bs1 bs2 : list (list A)) :
  forall p, (p < List.length (List.concat bs1))%nat ->
            blockOf (bs1 ++ bs2) p = blockOf bs1 p.
Proof.
  induction bs1 as [|b bs1 IH]; intros p Hp; simpl in *; [lia|].
  rewrite length_app in Hp.
  destruct (p <? List.length b)%nat eqn:E; [reflexivity|].
  apply Nat.ltb_ge in E. rewrite IH; [reflexivity|lia].
Qed.

Lemma blockOf_app_ge {A : Type} (bs1 bs2 : list (list A)) :
  forall p, blockOf (bs1 ++ bs2) (List.length (List.concat bs1) + p)
            = option_map (Nat.add (List.length bs1)) (blockOf bs2 p).
Proof.
  induction bs1 as [|b bs1 IH]; intros p; simpl.
  - destruct (blockOf bs2 p); reflexivity.
  - rewrite length_app.
    replace (List.length b + List.length (List.concat bs1) + p <? List.length b)%nat
      with false by (symmetry; apply Nat.ltb_ge; lia).
    replace (List.length b + List.length (List.concat bs1) + p - List.length b)%nat
      with (List.length (List.concat bs1) + p)%nat by lia.
    rewrite IH. destruct (blockOf bs2 p); reflexivity.
Qed.

Lemma blockOf_last_block {A : Type} (blocks : list (list A)) (cur : list A) :
  forall p, (p < List.length cur)%nat ->
            blockOf (blocks ++ [cur]) (List.length (List.concat blocks) + p)
            = Some (List.length blocks).
Proof.
  intros p Hp. rewrite blockOf_app_ge. simpl.
  apply Nat.ltb_lt in Hp. rewrite Hp. simpl. f_equal. lia.
Qed.

(** The blocks are consecutive slices of the input. *)
Lemma blocksLoop_concat (rest : list Line) :
  forall blocks currentInit lastLineInBlock,
    List.concat (blocksLoop rest blocks currentInit lastLineInBlock)
    = List.concat blocks ++ currentInit ++ [lastLineInBlock] ++ rest.
Proof.
  induction rest as [|c rest IH]; intros blocks init l; simpl.
  - rewrite concat_app. simpl. rewrite !app_nil_r. reflexivity.
  - destruct (gt (verticalGap l c) blockBreakThreshold); rewrite IH.
    + rewrite concat_app. simpl. rewrite app_nil_r, <- !app_assoc. reflexivity.
    + rewrite <- !app_assoc. reflexivity.
Qed.

(** Lines of closed blocks stay where they are. *)
Lemma blocksLoop_closed (rest : list Line) :
  forall blocks currentInit lastLineInBlock p,
    (p < List.length (List.concat blocks))%nat ->
    blockOf (blocksLoop rest blocks currentInit lastLineInBlock) p
    = blockOf blocks p.
Proof.
  induction rest as [|c rest IH]; intros blocks init l p Hp; simpl.
  - apply blockOf_app_lt, Hp.
  - destruct (gt (verticalGap l c) blockBreakThreshold).
    + rewrite IH.
      * apply blockOf_app_lt, Hp.
      * rewrite concat_app, length_app. lia.
    + apply IH, Hp.
Qed.

(** Lines of the open block end up in the block that follows the closed
    ones. *)
Lemma blocksLoop_open (rest : list Line) :
  forall blocks currentInit lastLineInBlock p,
    (p < List.length (currentInit ++ [lastLineInBlock]))%nat ->
    blockOf (blocksLoop rest blocks currentInit lastLineInBlock)
            (List.length (List.concat blocks) + p)
    = Some (List.length blocks).
Proof.
  induction rest as [|c rest IH]; intros blocks init l p Hp; simpl.
  - apply blockOf_last_block, Hp.
  - destruct (gt (verticalGap l c) blockBreakThreshold).
    + rewrite blocksLoop_closed.
      * apply blockOf_last_block, Hp.
      * rewrite concat_app, length_app. simpl. rewrite app_nil_r. lia.
    + apply IH. rewrite length_app. simpl. lia.
Qed.

(** Each line after the first goes to the block of its predecessor or to
    the next one, according to the gap between the two. *)
Lemma blocksLoop_step (rest : list Line) :
  forall blocks currentInit lastLineInBlock j prev next,
    nth_error (lastLineInBlock :: rest) j = Some prev ->
    nth_error rest j = Some next ->
    exists k,
      blockOf (blocksLoop rest blocks currentInit lastLineInBlock)
              (List.length (List.concat blocks) + List.length currentInit + j)
      = Some k
      /\ blockOf (blocksLoop rest blocks currentInit lastLineInBlock)
                 (List.length (List.concat blocks) + List.length currentInit + S j)
         = Some (if gt (verticalGap prev next) blockBreakThreshold
                 then S k else k).
Proof.
  induction rest as [|c rest IH]; intros blocks init l j prev next Hprev Hnext.
  - destruct j; discriminate.
  - simpl blocksLoop.
    destruct j as [|j].
    + simpl in Hprev, Hnext. injection Hprev as <-. injection Hnext as <-.
      exists (List.length blocks).
      destruct (gt (verticalGap l c) blockBreakThreshold).
      * split.
        -- rewrite blocksLoop_closed.
           ++ rewrite Nat.add_0_r.
              apply blockOf_last_block. rewrite length_app. simpl. lia.
           ++ rewrite concat_app, length_app. simpl.
              rewrite app_nil_r, length_app. simpl. lia.
        -- pose proof (blocksLoop_open rest (blocks ++ [init ++ [l]]) [] c (p := 0)) as O.
           rewrite concat_app, !length_app in O. simpl in O.
           rewrite app_nil_r, length_app in O. simpl in O.
           replace (List.length (List.concat blocks) + List.length init + 1)%nat
             with (List.length (List.concat blocks) + (List.length init + 1) + 0)%nat
             by lia.
           rewrite O; [f_equal; lia|lia].
      * split.
        -- rewrite Nat.add_0_r.
           apply blocksLoop_open. rewrite !length_app. simpl. lia.
        -- rewrite <- Nat.add_assoc.
           apply blocksLoop_open. rewrite !length_app. simpl. lia.
    + simpl in Hprev, Hnext.
      destruct (gt (verticalGap l c) blockBreakThreshold).
      * destruct (IH (blocks ++ [init ++ [l]]) [] c j prev next Hprev Hnext)
          as [k [E1 E2]].
        rewrite concat_app, !length_app in E1, E2. simpl in E1, E2.
        rewrite app_nil_r, length_app in E1, E2. simpl in E1, E2.
        exists k. split.
        -- rewrite <- E1. f_equal. lia.
        -- rewrite <- E2. f_equal. lia.
      * destruct (IH blocks (init ++ [l]) c j prev next Hprev Hnext)
          as [k [E1 E2]].
        rewrite length_app in E1, E2. simpl in E1, E2.
        exists k. split.
        -- rewrite <- E1. f_equal. lia.
        -- rewrite <- E2. f_equal. lia.
Qed.

(** C5, as stated, fails at the threshold itself: the two lines of
    [linesAtThreshold] are exactly 0.03 apart and share one block. *)
Lemma breakAtOrAboveThreshold_fails : ~ breakAtOrAboveThreshold.
Proof.
  intros H.
  destruct (H linesAtThreshold 0%nat
              (lineAt "line-0" 0%float 0.03%float)
              (lineAt "line-1" 0.06%float 0.03%float) eq_refl eq_refl)
    as [Hge _].
  apply Hge; vm_compute; reflexivity.
Qed.

(** C5, amended.  The blocks are consecutive slices of the line list, and
    two consecutive lines are in different blocks exactly when their gap is
    strictly greater than 0.03: the next line then opens the next block, and
    otherwise joins the block of the previous line.  In particular lines
    with a gap below 0.03, or equal to it, share a block. *)
Theorem groupLinesIntoBlocks_break_rule :
  forall (lines : list Line) (i : nat) (prev next : Line),
    nth_error lines i = Some prev ->
    nth_error lines (S i) = Some next ->
    let blocks := groupLinesIntoBlocks lines in
    let gap := verticalGap prev next in
    List.concat blocks = lines
    /\ (exists k,
           blockOf blocks i = Some k
           /\ blockOf blocks (S i)
              = Some (if gt gap blockBreakThreshold then S k else k))
    /\ (gt gap blockBreakThreshold = true -> blockOf blocks i <> blockOf blocks (S i))
    /\ (le gap blockBreakThreshold = true -> blockOf blocks i = blockOf blocks (S i))
    /\ (lt gap blockBreakThreshold = true -> blockOf blocks i = blockOf blocks (S i)).
Proof.
  intros lines i prev next Hprev Hnext blocks gap.
  destruct lines as [|first rest]; [destruct i; discriminate|].
  assert (Hc : List.concat blocks = first :: rest).
  { unfold blocks. simpl. rewrite blocksLoop_concat. reflexivity. }
  assert (Hk : exists k,
             blockOf blocks i = Some k
             /\ blockOf blocks (S i)
                = Some (if gt gap blockBreakThreshold then S k else k)).
  { simpl in Hnext.
    destruct (blocksLoop_step rest [] [] first i Hprev Hnext) as [k [E1 E2]].
    exists k. split; [exact E1|exact E2]. }
  split; [exact Hc|]. split; [exact Hk|].
  destruct Hk as [k [E1 E2]]. rewrite E1, E2.
  split; [|split].
  - intros G. rewrite G. intros E. injection E as E. lia.
  - intros L. rewrite (le_not_gt L). reflexivity.
  - intros L. rewrite (lt_asym L). reflexivity.
Qed.

(** The amended statement on three lines: the second follows the first
    after a gap of 0.01, the third comes 0.17 below the second. *)
Lemma groupLinesIntoBlocks_break_rule_witness :
  let lines := [ lineAt "line-0" 0.10%float 0.02%float;
                 lineAt "line-1" 0.13%float 0.02%float;
                 lineAt "line-2" 0.32%float 0.02%float ] in
  let blocks := groupLinesIntoBlocks lines in
  List.concat blocks = lines
  /\ (exists k, blockOf blocks 1 = Some k /\ blockOf blocks 2 = Some (S k)).
Proof.
  intros lines blocks.
  destruct (groupLinesIntoBlocks_break_rule lines 1
              (prev := lineAt "line-1" 0.13%float 0.02%float)
              (next := lineAt "line-2" 0.32%float 0.02%float)
              eq_refl eq_refl) as [Hc [Hk _]].
  split; [exact Hc|exact Hk].
Defined.

End BlockClusterer.

(** ** Sorting *)

Section SortProperties.
Import JS.
Variable A : Type.
Variable comparefn : A -> A -> number.

Lemma insertSorted_perm (x : A) (sorted : list A) :
  Permutation (insertSorted comparefn x sorted) (x :: sorted).
Proof.
  induction sorted as [|h t IH]; simpl; [reflexivity|].
  destruct (gt (comparefn h x) 0%float); [reflexivity|].
  rewrite IH. apply perm_swap.
Qed.

Lemma sort_fold_perm (xs : list A) :
  forall acc,
    Permutation (fold_left (fun acc x => insertSorted comparefn x acc) xs acc)
                (xs ++ acc).
Proof.
  induction xs as [|x xs IH]; intros acc; simpl; [reflexivity|].
  rewrite IH, insertSorted_perm. symmetry. apply Permutation_middle.
Qed.

(** The sorted array holds the elements of the array, each as often. *)
Lemma sort_perm (xs : list A) : Permutation (sort comparefn xs) xs.
Proof.
  unfold sort. rewrite sort_fold_perm, app_nil_r. reflexivity.
Qed.

Lemma sort_existsb (f : A -> bool) (xs : list A) :
  existsb f (sort comparefn xs) = existsb f xs.
Proof.
  apply eq_true_iff_eq. rewrite !existsb_exists.
  split; intros [x [Hx Hf]]; exists x; split; try assumption.
  - apply (Permutation_in _ (sort_perm xs)), Hx.
  - apply (Permutation_in _ (Permutation_sym (sort_perm xs))), Hx.
Qed.

End SortProperties.

Section ListFacts.
Variable A : Type.

Lemma filter_nonempty (f : A -> bool) (xs : list A) :
  (0 <? List.length (filter f xs))%nat = existsb f xs.
Proof.
  induction xs as [|x xs IH]; [reflexivity|]. simpl.
  destruct (f x); simpl; [reflexivity|exact IH].
Qed.

Lemma hd_error_rev_last (xs : list A) (d : A) :
  xs <> [] -> hd_error (rev xs) = Some (last xs d).
Proof.
  induction xs as [|x t IH]; [congruence|]. intros _.
  destruct t as [|y t']; [reflexivity|].
  change (rev (x :: y :: t')) with (rev (y :: t') ++ [x]).
  change (last (x :: y :: t') d) with (last (y :: t') d).
  rewrite <- IH by discriminate.
  destruct (rev (y :: t')) eqn:E; [|reflexivity].
  apply (f_equal (@List.length A)) in E. rewrite length_rev in E. discriminate.
Qed.

Lemma last_in (xs : list A) (d : A) : xs <> [] -> In (last xs d) xs.
Proof.
  induction xs as [|x t IH]; [congruence|]. intros _.
  destruct t as [|y t']; [left; reflexivity|].
  right. apply IH. discriminate.
Qed.

End ListFacts.

(** ** The chunk projection *)

Section ChunkProjection.
Import JS Types Enhanced Spec.

(** Every word kept by [performEnhancedOCR] has visible text. *)
Lemma pushWord_hasText (nanoid : nat -> jsstring) (canvas : Canvas)
  (pageNumber : number) (ocrWords : list OcrWord) :
  forall st,
    Forall (fun w => hasText (Word.text w) = true) (snd st) ->
    Forall (fun w => hasText (Word.text w) = true)
           (snd (fold_left (pushWord nanoid canvas pageNumber) ocrWords st)).
Proof.
  induction ocrWords as [|o ocrWords IH]; intros [legacy words] H; [exact H|].
  simpl fold_left. apply IH. unfold pushWord.
  destruct (OcrWord.bbox o) as [bbox|]; [|exact H].
  rewrite trim_nonempty. destruct (hasText (OcrWord.text o)) eqn:E; [|exact H].
  cbn [snd]. simpl in H. apply Forall_app. split; [exact H|].
  constructor; [exact E|constructor].
Qed.

Lemma linesLoop_groups (P : Word -> Prop) (rest : list Word) :
  forall lines currentInit lastWordInLine,
    Forall P rest -> nonEmptyGroups P lines ->
    Forall P currentInit -> P lastWordInLine ->
    nonEmptyGroups P (linesLoop rest lines currentInit lastWordInLine).
Proof.
  unfold nonEmptyGroups.
  induction rest as [|c rest IH]; intros lines init l Hrest Hlines Hinit Hl; simpl.
  - apply Forall_app. split; [exact Hlines|]. constructor; [|constructor].
    split; [destruct init; discriminate|].
    apply Forall_app. split; [exact Hinit|]. constructor; [exact Hl|constructor].
  - inversion Hrest as [|? ? Hc Hrest']; subst.
    destruct (lt _ _).
    + apply IH; try assumption.
      apply Forall_app. split; [exact Hinit|]. constructor; [exact Hl|constructor].
    + apply IH; try assumption; [|constructor].
      apply Forall_app. split; [exact Hlines|]. constructor; [|constructor].
      split; [destruct init; discriminate|].
      apply Forall_app. split; [exact Hinit|]. constructor; [exact Hl|constructor].
Qed.

Lemma blocksLoop_groups (P : Line -> Prop) (rest : list Line) :
  forall blocks currentInit lastLineInBlock,
    Forall P rest -> nonEmptyGroups P blocks ->
    Forall P currentInit -> P lastLineInBlock ->
    nonEmptyGroups P (blocksLoop rest blocks currentInit lastLineInBlock).
Proof.
  unfold nonEmptyGroups.
  induction rest as [|c rest IH]; intros blocks init l Hrest Hblocks Hinit Hl; simpl.
  - apply Forall_app. split; [exact Hblocks|]. constructor; [|constructor].
    split; [destruct init; discriminate|].
    apply Forall_app. split; [exact Hinit|]. constructor; [exact Hl|constructor].
  - inversion Hrest as [|? ? Hc Hrest']; subst.
    destruct (gt _ _).
    + apply IH; try assumption; [|constructor].
      apply Forall_app. split; [exact Hblocks|]. constructor; [|constructor].
      split; [destruct init; discriminate|].
      apply Forall_app. split; [exact Hinit|]. constructor; [exact Hl|constructor].
    + apply IH; try assumption.
      apply Forall_app. split; [exact Hinit|]. constructor; [exact Hl|constructor].
Qed.

Lemma indexed_groups_map {A B : Type} (f : nat -> list A -> B)
  (groups : list (list A)) :
  Forall (fun g => g <> []) groups ->
  forall k,
    flat_map (fun '(i, g) => if (0 <? List.length g)%nat then [f i g] else [])
             (combine (seq k (List.length groups)) groups)
    = map (fun '(i, g) => f i g) (combine (seq k (List.length groups)) groups).
Proof.
  induction 1 as [|g groups Hg _ IH]; intros k; [reflexivity|].
  simpl. rewrite IH. destruct g; [congruence|reflexivity].
Qed.

Lemma nonEmptyGroups_nonempty {A : Type} (P : A -> Prop) (groups : list (list A)) :
  nonEmptyGroups P groups -> Forall (fun g => g <> []) groups.
Proof. apply Forall_impl. tauto. Qed.

Lemma makeLines_visible (groups : list (list Word)) :
  nonEmptyGroups (fun w => hasText (Word.text w) = true) groups ->
  Forall visibleLine (makeLines groups).
Proof.
  intros H. unfold makeLines, indexed.
  rewrite (indexed_groups_map
             (fun lineIndex lineWords =>
                {| Line.id := lineId lineIndex;
                   Line.words := lineWords;
                   Line.bbox := calculateBoundingBox (map Word.bbox lineWords);
                   Line.readingOrder := lineIndex;
                   Line.alignment := Some al_left |})
             (nonEmptyGroups_nonempty H)).
  apply Forall_forall. intros l Hl. apply in_map_iff in Hl.
  destruct Hl as [[i g] [<- Hin]]. apply in_combine_r in Hin.
  unfold nonEmptyGroups in H. rewrite Forall_forall in H. exact (H g Hin).
Qed.

Lemma makeBlocks_ids (groups : list (list Line)) :
  nonEmptyGroups visibleLine groups ->
  map Block.id (makeBlocks groups) = map blockId (seq 0 (List.length groups))
  /\ Forall visibleBlock (makeBlocks groups).
Proof.
  intros H. unfold makeBlocks, indexed.
  rewrite (indexed_groups_map
             (fun blockIndex blockLines =>
                {| Block.id := blockId blockIndex;
                   Block.type := bt_paragraph;
                   Block.bbox := calculateBoundingBox (map Line.bbox blockLines);
                   Block.lines := blockLines;
                   Block.confidence := blockConfidence blockLines;
                   Block.readingOrder := Some blockIndex;
                   Block.semanticRole := None |})
             (nonEmptyGroups_nonempty H)).
  split.
  - rewrite map_map. generalize 0%nat.
    induction groups as [|g groups IH]; intros k; [reflexivity|].
    simpl. f_equal. apply IH. inversion H. assumption.
  - apply Forall_forall. intros b Hb. apply in_map_iff in Hb.
    destruct Hb as [[i g] [<- Hin]]. apply in_combine_r in Hin.
    unfold nonEmptyGroups in H. rewrite Forall_forall in H. exact (H g Hin).
Qed.

Lemma hasText_join (sep : jsstring) (parts : list jsstring) :
  existsb hasText parts = true -> hasText (join sep parts) = true.
Proof.
  induction parts as [|p rest IH]; [discriminate|]. simpl existsb. intros H.
  destruct rest as [|q rest'].
  - simpl in *. rewrite orb_false_r in H. exact H.
  - change (join sep (p :: q :: rest')) with (p ++ sep ++ join sep (q :: rest'))%list.
    rewrite !hasText_app. apply orb_true_iff in H. destruct H as [H|H].
    + rewrite H. reflexivity.
    + rewrite (IH H), !orb_true_r. reflexivity.
Qed.

Lemma blockText_visible (b : Block) :
  visibleBlock b -> hasText (blockText b) = true.
Proof.
  intros [Hne Hlines]. unfold blockText. apply hasText_join.
  destruct (Block.lines b) as [|l ls]; [congruence|].
  inversion Hlines as [|? ? [Hw Hwords] _]; subst. simpl.
  rewrite (@hasText_join [space]); [reflexivity|].
  destruct (Line.words l) as [|w ws]; [congruence|].
  inversion Hwords as [|? ? Hv _]; subst. simpl. rewrite Hv. reflexivity.
Qed.

Lemma chunk_ids_of_visible_blocks (page : Page) (blocks : list Block) :
  Forall visibleBlock blocks ->
  map (@TextChunk.chunk_id number) (flat_map (chunkOfBlock page) blocks)
  = map Block.id blocks.
Proof.
  induction 1 as [|b blocks Hb _ IH]; [reflexivity|].
  cbn [flat_map]. rewrite map_app.
  change (map Block.id (b :: blocks)) with ([Block.id b] ++ map Block.id blocks)%list.
  f_equal; [|exact IH]. unfold chunkOfBlock.
  rewrite trim_nonempty, (blockText_visible Hb). reflexivity.
Qed.

(** On every page the enhanced processor builds, the blocks all have
    visible text and are named block-0, block-1, ... in order. *)
Lemma performEnhancedOCR_blocks (nanoid : nat -> jsstring) (canvas : Canvas)
  (words : option (list OcrWord)) (pageNumber : number) :
  let page := snd (performEnhancedOCR nanoid canvas words pageNumber) in
  map Block.id (Page.blocks page)
  = map blockId (seq 0 (List.length (Page.blocks page)))
  /\ Forall visibleBlock (Page.blocks page).
Proof.
  unfold performEnhancedOCR.
  set (st := match words with
             | Some ocrWords =>
                 fold_left (pushWord nanoid canvas pageNumber) ocrWords ([], [])
             | None => ([], [])
             end).
  assert (Hwords : Forall (fun w => hasText (Word.text w) = true) (snd st)).
  { unfold st. destruct words as [ocrWords|]; [|constructor].
    apply pushWord_hasText. constructor. }
  destruct st as [legacyChunks irWords]. cbn [snd] in *.
  assert (Hlines : Forall visibleLine (makeLines (groupWordsIntoLines irWords))).
  { apply makeLines_visible. unfold groupWordsIntoLines.
    pose proof (sort_perm compareWords irWords) as P.
    apply Permutation_sym in P.
    pose proof (Permutation_Forall P Hwords) as Hs.
    destruct (sort compareWords irWords) as [|first rest]; [constructor|].
    inversion Hs; subst.
    apply linesLoop_groups; try assumption; constructor. }
  assert (Hgroups : nonEmptyGroups visibleLine
                      (groupLinesIntoBlocks (makeLines (groupWordsIntoLines irWords)))).
  { unfold groupLinesIntoBlocks.
    destruct (makeLines (groupWordsIntoLines irWords)) as [|first rest];
      [constructor|].
    inversion Hlines; subst.
    apply blocksLoop_groups; try assumption; constructor. }
  destruct (makeBlocks_ids Hgroups) as [Hids Hvisible].
  cbv zeta. cbn [snd Page.blocks].
  split; [|exact Hvisible].
  rewrite Hids. f_equal. f_equal.
  apply (f_equal (@List.length jsstring)) in Hids.
  rewrite !length_map, length_seq in Hids. symmetry. exact Hids.
Qed.

(** The chunks of a page carry the identifiers block-0, block-1, ... of its
    blocks: they are unique within the page. *)
Lemma page_chunk_ids (nanoid : nat -> jsstring) (canvas : Canvas)
  (words : option (list OcrWord)) (pageNumber : number) :
  let page := snd (performEnhancedOCR nanoid canvas words pageNumber) in
  map (@TextChunk.chunk_id number) (generateTextChunks [page])
  = map blockId (seq 0 (List.length (Page.blocks page))).
Proof.
  intros page.
  destruct (performEnhancedOCR_blocks nanoid canvas words pageNumber)
    as [Hids Hvisible].
  fold page in Hids, Hvisible.
  unfold generateTextChunks. simpl. rewrite app_nil_r.
  rewrite (chunk_ids_of_visible_blocks page Hvisible). exact Hids.
Qed.

(** Hence any two pages that have a block each give two chunks named
    block-0. *)
Lemma two_pages_share_block_0
  (nanoid1 nanoid2 : nat -> jsstring) (canvas1 canvas2 : Canvas)
  (words1 words2 : option (list OcrWord)) (pageNumber1 pageNumber2 : number) :
  let page1 := snd (performEnhancedOCR nanoid1 canvas1 words1 pageNumber1) in
  let page2 := snd (performEnhancedOCR nanoid2 canvas2 words2 pageNumber2) in
  Page.blocks page1 <> [] -> Page.blocks page2 <> [] ->
  ~ chunkIdsUnique [page1; page2].
Proof.
  intros page1 page2 H1 H2. unfold chunkIdsUnique.
  assert (E : generateTextChunks [page1; page2]
              = (generateTextChunks [page1] ++ generateTextChunks [page2])%list).
  { unfold generateTextChunks. simpl. rewrite !app_nil_r. reflexivity. }
  rewrite E, map_app.
  unfold page1 at 1. unfold page2 at 1. rewrite !page_chunk_ids.
  fold page1. fold page2.
  destruct (Page.blocks page1) as [|b1 bs1]; [congruence|].
  destruct (Page.blocks page2) as [|b2 bs2]; [congruence|].
  simpl. intros N. inversion N as [|x l Hnotin _]. apply Hnotin.
  apply in_or_app. right. left. reflexivity.
Qed.

(** C1 on the two-page document: the projection emits one chunk per page,
    grounded on pages 0 and 1, and both chunks carry the identifier
    "block-0", so the identifiers of the run are not unique. *)
Theorem generateTextChunks_ids_collide_across_pages :
  map (fun chunk => (TextChunk.chunk_id chunk, TextChunk.text chunk,
                     map (@Grounding.page number) (TextChunk.grounding chunk)))
      (documentChunks twoPageDocument)
  = [ (JS.str "block-0", JS.str "Invoice", [0%float]);
      (JS.str "block-0", JS.str "Total", [1%float]) ]
  /\ ~ chunkIdsUnique twoPageDocument.
Proof.
  split; [vm_compute; reflexivity|].
  unfold chunkIdsUnique. intros H.
  assert (E : map (@TextChunk.chunk_id number) (generateTextChunks twoPageDocument)
              = [JS.str "block-0"; JS.str "block-0"]) by (vm_compute; reflexivity).
  rewrite E in H. inversion H as [|x l Hnotin _]. apply Hnotin. left. reflexivity.
Qed.

End ChunkProjection.

(* ================================================================== *)
(** * Further properties of the basic processor *)
(* ================================================================== *)

(** ** Identifiers *)

Section Identifiers.
Import JS PdfProcessor Spec.

Lemma str_injective (a b : string) : JS.str a = JS.str b -> a = b.
Proof.
  unfold JS.str. intros H.
  rewrite <- (string_of_list_ascii_of_string a), <- (string_of_list_ascii_of_string b).
  f_equal. revert H.
  generalize (list_ascii_of_string a) (list_ascii_of_string b).
  induction l as [|x l IH]; intros [|y l'] H; try discriminate; [reflexivity|].
  simpl in H. injection H as Hx Hl. f_equal; [|apply IH, Hl].
  rewrite <- (ascii_N_embedding x), <- (ascii_N_embedding y), Hx. reflexivity.
Qed.

Lemma to_uint_nonnil (n : nat) : Nat.to_uint n <> Decimal.Nil.
Proof.
  pose proof (DecimalNat.Unsigned.to_of (Nat.to_uint n)) as H.
  rewrite DecimalNat.Unsigned.of_to in H. rewrite H.
  apply DecimalFacts.unorm_nonnil.
Qed.

(** Different indices have different decimal renderings. *)
Lemma ofIndex_injective (n m : nat) : ofIndex n = ofIndex m -> n = m.
Proof.
  unfold ofIndex. intros H. apply str_injective in H.
  apply DecimalNat.Unsigned.to_uint_inj.
  pose proof (NilZero.usu _ (to_uint_nonnil n)) as Hn.
  pose proof (NilZero.usu _ (to_uint_nonnil m)) as Hm.
  rewrite H in Hn. rewrite Hn in Hm. injection Hm as Hm. exact Hm.
Qed.

Lemma string_of_uint_digits (d : Decimal.uint) :
  forallb isDigit (JS.str (NilEmpty.string_of_uint d)) = true.
Proof. induction d; simpl; try exact IHd; reflexivity. Qed.

(** A decimal rendering holds digits only, so no dash. *)
Lemma ofIndex_digits (n : nat) : forallb isDigit (ofIndex n) = true.
Proof.
  unfold ofIndex, NilZero.string_of_uint.
  destruct (Nat.to_uint n); try apply string_of_uint_digits; reflexivity.
Qed.

Lemma ofIndex_no_dash (n : nat) : ~ In dash (ofIndex n).
Proof.
  intros H. pose proof (ofIndex_digits n) as D.
  rewrite forallb_forall in D. specialize (D _ H). discriminate.
Qed.

(** Two strings cut at their first dash agree on both sides of it. *)
Lemma split_at_dash (a b r1 r2 : jsstring) :
  ~ In dash a -> ~ In dash b ->
  (a ++ dash :: r1 = b ++ dash :: r2)%list -> a = b /\ r1 = r2.
Proof.
  revert b. induction a as [|x a IH]; intros [|y b] Ha Hb H; simpl in *.
  - injection H as H. split; [reflexivity|exact H].
  - injection H as Hy _. exfalso. apply Hb. left. symmetry. exact Hy.
  - injection H as Hx _. exfalso. apply Ha. left. exact Hx.
  - injection H as Hx H. subst y.
    destruct (IH b) as [E1 E2]; try tauto. subst. split; reflexivity.
Qed.

(** An identifier belongs to one page only. *)
Lemma idOfPage_page (n m : nat) (id : jsstring) :
  idOfPage n id -> idOfPage m id -> n = m.
Proof.
  intros [r1 E1] [r2 E2]. rewrite E1 in E2.
  apply app_inv_head in E2.
  apply split_at_dash in E2; try apply ofIndex_no_dash.
  apply ofIndex_injective, E2.
Qed.

Lemma pdfChunkId_ofPage (n i : nat) : idOfPage n (pdfChunkId n i).
Proof. eexists. unfold pdfChunkId. reflexivity. Qed.

Lemma ocrWordId_ofPage (n i : nat) : idOfPage n (ocrWordId n i).
Proof. eexists. unfold ocrWordId. reflexivity. Qed.

Lemma ocrLineId_ofPage (n i : nat) : idOfPage n (ocrLineId n i).
Proof. eexists. unfold ocrLineId. reflexivity. Qed.

Lemma ocrFullId_ofPage (n : nat) : idOfPage n (ocrFullId n).
Proof. eexists. unfold ocrFullId. reflexivity. Qed.

Lemma indexed_ids_NoDup (prefix : jsstring) (start count : nat) :
  NoDup (map (fun i => (prefix ++ ofIndex i)%list) (seq start count)).
Proof.
  apply Finite.Injective_map_NoDup_in; [|apply seq_NoDup].
  intros i j _ _ H. apply app_inv_head in H. apply ofIndex_injective, H.
Qed.

End Identifiers.

(** ** The two channels *)

Section Channels.
Import JS PdfProcessor Spec.

Lemma hasText_trim (s : jsstring) : hasText (trim s) = hasText s.
Proof.
  rewrite <- (trim_nonempty (trim s)), trim_idempotent. apply trim_nonempty.
Qed.

(** The native pass appends well-placed chunks, numbered from the counter
    on, at most one per item. *)
Lemma pushPdfItem_fold (pageNum : nat) (vpWidth vpHeight : number)
  (items : list TextItem) :
  forall (pdfTextChunks : list TextChunk) (chunkIndex : nat),
  exists emitted,
    fold_left (pushPdfItem pageNum vpWidth vpHeight) items
              (pdfTextChunks, chunkIndex)
    = (pdfTextChunks ++ emitted, chunkIndex + List.length emitted)%nat
    /\ map TextChunk.id emitted
       = map (pdfChunkId pageNum) (seq chunkIndex (List.length emitted))
    /\ Forall (wellPlaced pageNum) emitted
    /\ (List.length emitted <= List.length items)%nat.
Proof.
  induction items as [|item items IH]; intros acc idx.
  - exists []. simpl. rewrite app_nil_r, Nat.add_0_r.
    repeat split; constructor.
  - simpl fold_left.
    assert (Hskip : exists emitted,
               fold_left (pushPdfItem pageNum vpWidth vpHeight) items (acc, idx)
               = (acc ++ emitted, idx + List.length emitted)%nat
               /\ map TextChunk.id emitted
                  = map (pdfChunkId pageNum) (seq idx (List.length emitted))
               /\ Forall (wellPlaced pageNum) emitted
               /\ (List.length emitted <= S (List.length items))%nat).
    { destruct (IH acc idx) as [e [E [I [W L]]]]. exists e.
      repeat split; try assumption. lia. }
    destruct (TextItem.transform item) as [transform|]; [|exact Hskip].
    destruct ((0 <? List.length (trim (TextItem.str item)))%nat
              && truthy (TextItem.width item) && truthy (TextItem.height item))
      eqn:C; [|exact Hskip].
    match goal with
    | |- context [if inPageRange ?x ?y ?w ?h then _ else _] =>
        destruct (inPageRange x y w h) eqn:R; [|exact Hskip]
    end.
    match goal with
    | |- context [fold_left _ items (?acc', S idx)] =>
        destruct (IH acc' (S idx)) as [e [E [I [W L]]]]
    end.
    apply andb_true_iff in C. destruct C as [C _].
    apply andb_true_iff in C. destruct C as [C _].
    rewrite trim_nonempty in C.
    eexists (_ :: e). split; [|split; [|split]].
    + rewrite E, <- app_assoc. simpl. f_equal. lia.
    + simpl. f_equal. exact I.
    + constructor; [|exact W].
      unfold wellPlaced, boxInPage.
      cbn [TextChunk.pageNumber TextChunk.text TextChunk.geometry
           Geometry.x Geometry.y Geometry.w Geometry.h].
      rewrite hasText_trim, trim_idempotent. repeat split; assumption.
    + simpl. lia.
Qed.

Lemma extractPdfTextChunks_ids_aux (pageNum : nat) (vpWidth vpHeight : number)
  (textContent : option (list TextItem)) :
  map TextChunk.id (extractPdfTextChunks pageNum vpWidth vpHeight textContent)
  = map (pdfChunkId pageNum)
        (seq 0 (List.length
                  (extractPdfTextChunks pageNum vpWidth vpHeight textContent)))
  /\ Forall (wellPlaced pageNum)
            (extractPdfTextChunks pageNum vpWidth vpHeight textContent).
Proof.
  unfold extractPdfTextChunks. destruct textContent as [items|].
  - destruct (pushPdfItem_fold pageNum vpWidth vpHeight items [] 0)
      as [e [E [I [W L]]]].
    rewrite E. cbn [fst app]. split; assumption.
  - split; constructor.
Qed.

(** X1. The native extraction emits at most one chunk per text item; the
    chunks carry the page number, trimmed non-blank text and a box that
    passes the range test, and are named page-N-pdf-0, page-N-pdf-1, ... in
    the order of the items. *)
Theorem extractPdfTextChunks_well_placed :
  forall (pageNum : nat) (vpWidth vpHeight : number)
         (textContent : option (list TextItem)),
    let chunks := extractPdfTextChunks pageNum vpWidth vpHeight textContent in
    map TextChunk.id chunks
    = map (pdfChunkId pageNum) (seq 0 (List.length chunks))
    /\ Forall (wellPlaced pageNum) chunks
    /\ (List.length chunks <= List.length (match textContent with
                                           | Some items => items
                                           | None => []
                                           end))%nat.
Proof.
  intros pageNum vw vh textContent chunks. subst chunks.
  unfold extractPdfTextChunks. destruct textContent as [items|].
  - destruct (pushPdfItem_fold pageNum vw vh items [] 0) as [e [E [I [W L]]]].
    rewrite E. cbn [fst app]. repeat split; assumption.
  - repeat split; constructor.
Qed.

End Channels.

Section OcrOutput.
Import JS PdfProcessor Spec.

Lemma fromOcrItem_chunks (mkId : nat -> nat -> jsstring) (img : Img) (pageNum : nat)
  (chunks : list TextChunk) (items : list OcrItem) :
  forall start,
    Forall2 (fromOcrItem mkId img pageNum) chunks
            (combine (seq start (List.length items)) items) ->
    Forall (wellPlaced pageNum) chunks
    /\ map TextChunk.id chunks
       = map (mkId pageNum) (seq start (List.length chunks)).
Proof.
  revert chunks. induction items as [|item items IH]; intros chunks start F.
  - inversion F; subst. split; constructor.
  - simpl in F. inversion F as [|c e cs es Hc Hrest]; subst.
    destruct (IH cs (S start) Hrest) as [W I].
    destruct Hc as [A [Hid [Htext [Hpage [bbox [Hb Hg]]]]]].
    split.
    + constructor; [|exact W].
      unfold wellPlaced, boxInPage. rewrite Htext, Hpage, Hg.
      rewrite hasText_trim, trim_idempotent.
      unfold accepted in A. rewrite Hb, trim_nonempty in A.
      repeat (apply andb_true_iff in A; destruct A as [A ?]).
      repeat split; assumption.
    + simpl. rewrite Hid, I. reflexivity.
Qed.

Lemma itemChunks_well_placed (mkId : nat -> nat -> jsstring) (img : Img)
  (pageNum : nat) (items : option (list OcrItem)) :
  let chunks := itemChunks mkId img pageNum items in
  Forall (wellPlaced pageNum) chunks
  /\ map TextChunk.id chunks = map (mkId pageNum) (seq 0 (List.length chunks)).
Proof.
  exact (fromOcrItem_chunks (filter (accepted img) (itemsOf items)) 0
                            (itemChunks_spec mkId img pageNum items)).
Qed.

(** The chunks of a recognised page are the word-level chunks, or the
    line-level chunks, or the whole-page chunk of a non-blank text, or
    none. *)
Lemma recognizedChunks_shape (data : option OcrData) (img : Img) (pageNum : nat) :
  let chunks := recognizedChunks data img pageNum in
  chunks = []
  \/ (exists d, data = Some d
                /\ chunks = itemChunks ocrWordId img pageNum (OcrData.words d))
  \/ (exists d, data = Some d
                /\ chunks = itemChunks ocrLineId img pageNum (OcrData.lines d))
  \/ (exists d, data = Some d /\ hasText (OcrData.text d) = true
                /\ chunks = [fullPageChunk pageNum (OcrData.text d)]).
Proof.
  destruct data as [d|]; [|left; reflexivity].
  cbv zeta. unfold recognizedChunks. rewrite trim_nonempty.
  destruct (hasText (OcrData.text d)) eqn:T; [|left; reflexivity].
  rewrite andb_true_r, itemChunks_counter. cbn [fst].
  destruct (List.length (itemChunks ocrWordId img pageNum (OcrData.words d)) =? 0)%nat
    eqn:Zw.
  - assert (Hw : itemChunks ocrWordId img pageNum (OcrData.words d) = []).
    { destruct (itemChunks ocrWordId img pageNum (OcrData.words d));
        [reflexivity|discriminate]. }
    rewrite Hw. cbn [List.length]. rewrite itemChunks_counter. cbn [fst].
    destruct (List.length (itemChunks ocrLineId img pageNum (OcrData.lines d)) =? 0)%nat
      eqn:Zl.
    + right. right. right. exists d. repeat split; try assumption.
      destruct (itemChunks ocrLineId img pageNum (OcrData.lines d));
        [reflexivity|discriminate].
    + right. right. left. exists d. split; reflexivity.
  - cbn [fst]. rewrite Zw. right. left. exists d. split; reflexivity.
Qed.

Lemma performOCR_results (run : OcrRun) (pageNum : nat) (chunks : list TextChunk) :
  performOCR run pageNum = Ok chunks ->
  chunks = [] \/ exists data img, chunks = recognizedChunks data img pageNum.
Proof.
  unfold performOCR. destruct run as [cw sp rc li tm]; cbn.
  destruct cw as [[]|e]; cbn; [|discriminate].
  destruct tm as [[]|e]; cbn; [|discriminate].
  destruct sp as [[]|e]; cbn; [|intros H; injection H as <-; left; reflexivity].
  destruct rc as [d|e]; cbn; [|intros H; injection H as <-; left; reflexivity].
  destruct li as [i|e]; cbn; [|intros H; injection H as <-; left; reflexivity].
  intros H. injection H as <-. right. exists d, i. reflexivity.
Qed.

Lemma fullPageChunk_well_placed (pageNum : nat) (text : jsstring) :
  hasText text = true -> wellPlaced pageNum (fullPageChunk pageNum text).
Proof.
  intros T. unfold wellPlaced, fullPageChunk.
  cbn [TextChunk.pageNumber TextChunk.text TextChunk.geometry].
  rewrite hasText_trim, trim_idempotent. repeat split; try assumption.
Qed.

Lemma recognizedChunks_well_placed (data : option OcrData) (img : Img)
  (pageNum : nat) :
  Forall (wellPlaced pageNum) (recognizedChunks data img pageNum).
Proof.
  destruct (recognizedChunks_shape data img pageNum)
    as [E|[[d [_ E]]|[[d [_ E]]|[d [_ [T E]]]]]]; rewrite E.
  - constructor.
  - apply itemChunks_well_placed.
  - apply itemChunks_well_placed.
  - constructor; [apply fullPageChunk_well_placed, T|constructor].
Qed.

(** X2. Whatever the OCR collaborator does, every chunk [performOCR]
    returns carries the page number, has trimmed non-blank text and a box
    that passes the range test; this holds of the word-level, line-level
    and whole-page chunks alike. *)
Theorem performOCR_well_placed :
  forall (run : OcrRun) (pageNum : nat) (chunks : list TextChunk),
    performOCR run pageNum = Ok chunks ->
    Forall (wellPlaced pageNum) chunks.
Proof.
  intros run pageNum chunks H.
  destruct (performOCR_results run pageNum H) as [->|[data [img ->]]].
  - constructor.
  - apply recognizedChunks_well_placed.
Qed.

Lemma performOCR_well_placed_witness :
  Forall (wellPlaced 1) threeOcrTokens.
Proof.
  exact (performOCR_well_placed (recognizing threeWordsData img100) 1
                                (chunks := threeOcrTokens) eq_refl).
Defined.

End OcrOutput.

Section ArbitrationOutcome.
Import JS PdfProcessor Spec.

(** Arbitration always returns, with the native list or with the list OCR
    returned. *)
Lemma arbitrate_cases (run : OcrRun) (pageNum : nat)
  (pdfTextChunks : list TextChunk) :
  arbitrate run pageNum pdfTextChunks = Ok pdfTextChunks
  \/ exists ocrChunks,
       performOCR run pageNum = Ok ocrChunks
       /\ arbitrate run pageNum pdfTextChunks = Ok ocrChunks.
Proof.
  unfold arbitrate. destruct (ocrTriggered pdfTextChunks); [|left; reflexivity].
  destruct (performOCR run pageNum) as [ocr|e]; cbn; [|left; reflexivity].
  destruct (ocrSelected ocr pdfTextChunks); [|left; reflexivity].
  right. exists ocr. split; reflexivity.
Qed.

(** X3. Arbitration never throws and never blends the channels: its result
    is the native list, or the very list OCR returned.  It is the native
    list when OCR is not triggered, and the OCR list when there is no native
    chunk. *)
Theorem arbitrate_picks_one_channel :
  forall (run : OcrRun) (pageNum : nat) (pdfTextChunks : list TextChunk),
    exists finalTextChunks,
      arbitrate run pageNum pdfTextChunks = Ok finalTextChunks
      /\ (finalTextChunks = pdfTextChunks
          \/ performOCR run pageNum = Ok finalTextChunks)
      /\ (ocrTriggered pdfTextChunks = false -> finalTextChunks = pdfTextChunks)
      /\ (pdfTextChunks = [] ->
          forall ocrChunks, performOCR run pageNum = Ok ocrChunks ->
                            finalTextChunks = ocrChunks).
Proof.
  intros run pageNum pdf.
  unfold arbitrate. destruct (ocrTriggered pdf) eqn:T.
  - destruct (performOCR run pageNum) as [ocr|e] eqn:P; cbn.
    + destruct (ocrSelected ocr pdf) eqn:Hsel.
      * exists ocr. repeat split; try (right; reflexivity); try discriminate.
        intros _ ocr' E. injection E as <-. reflexivity.
      * exists pdf. repeat split; try (left; reflexivity); try discriminate.
        intros -> ocr' E. injection E as <-.
        unfold ocrSelected, hasHigherQuality in Hsel.
        destruct ocr; [reflexivity|discriminate].
    + exists pdf. repeat split; try (left; reflexivity); try discriminate.
  - exists pdf. repeat split; try (left; reflexivity).
    intros -> ocr _. discriminate.
Qed.

(** X4. The error channel of a page is insulated from OCR: two runs of a
    page that differ only in what the OCR collaborator does report the same
    error, or both complete; when they complete, the page records carry the
    same page number and image, and can differ in their chunks only. *)
Theorem page_failure_independent_of_ocr :
  forall (run : PageRun) (ocr : OcrRun) (pageNum : nat),
    (forall errorMessage,
        onPageLoadSuccess run pageNum = PageError errorMessage
        <-> onPageLoadSuccess (withOcr run ocr) pageNum = PageError errorMessage)
    /\ (forall pageData,
           onPageLoadSuccess run pageNum = PageDone pageData ->
           exists pageData',
             onPageLoadSuccess (withOcr run ocr) pageNum = PageDone pageData'
             /\ PageData.pageNumber pageData' = PageData.pageNumber pageData
             /\ PageData.imageUrl pageData' = PageData.imageUrl pageData).
Proof.
  intros run ocr pageNum. unfold onPageLoadSuccess, processPage, withOcr.
  cbn [PageRun.context PageRun.render PageRun.getTextContent PageRun.imageUrl
       PageRun.viewportWidth PageRun.viewportHeight PageRun.ocr].
  destruct (PageRun.context run); cbn [bind];
    [|split; [intros e; reflexivity|discriminate]].
  destruct (PageRun.render run) as [[]|e1]; cbn [bind];
    [|split; [intros e; reflexivity|discriminate]].
  destruct (PageRun.getTextContent run) as [tc|e2]; cbn [bind];
    [|split; [intros e; reflexivity|discriminate]].
  set (pdf := extractPdfTextChunks pageNum (PageRun.viewportWidth run)
                                   (PageRun.viewportHeight run) tc).
  assert (A1 : exists chunks, arbitrate (PageRun.ocr run) pageNum pdf = Ok chunks).
  { destruct (arbitrate_cases (PageRun.ocr run) pageNum pdf) as [E|[c [_ E]]];
      eexists; exact E. }
  assert (A2 : exists chunks, arbitrate ocr pageNum pdf = Ok chunks).
  { destruct (arbitrate_cases ocr pageNum pdf) as [E|[c [_ E]]];
      eexists; exact E. }
  destruct A1 as [c1 E1], A2 as [c2 E2]. rewrite E1, E2. cbn [bind]. split.
  - intros e. split; discriminate.
  - intros pageData H. injection H as <-. eexists. split; [reflexivity|].
    split; reflexivity.
Qed.

End ArbitrationOutcome.

(** ** What grouping keeps *)

Section GroupingKeeps.
Import JS PdfProcessor Spec.

Lemma groupStep_groupsOf (st : list TextChunk * TextChunk) (chunk : TextChunk) :
  (shouldMerge (snd st) chunk = true
   /\ groupStep st chunk = (fst st, mergeInto (snd st) chunk))
  \/ (shouldMerge (snd st) chunk = false
      /\ groupsOf (groupStep st chunk) = (groupsOf st ++ [chunk])%list).
Proof.
  destruct st as [closed lastGroup]. unfold groupStep, groupsOf. cbn [fst snd].
  destruct (shouldMerge lastGroup chunk).
  - left. split; reflexivity.
  - right. split; [reflexivity|]. cbn [fst snd]. reflexivity.
Qed.

Lemma groupSorted_fold (first : TextChunk) (rest : list TextChunk) :
  groupSorted (first :: rest) = groupsOf (fold_left groupStep rest ([], first)).
Proof.
  unfold groupSorted, groupsOf.
  destruct (fold_left groupStep rest ([], first)). reflexivity.
Qed.

(** A reading of chunks that a merge takes from the group merged into. *)
Section Keys.
Variable B : Type.
Variable key : TextChunk -> B.
Hypothesis key_merge :
  forall lastGroup chunk, key (mergeInto lastGroup chunk) = key lastGroup.

Lemma groupFold_keys (rest : list TextChunk) :
  forall st,
    let result := groupsOf (fold_left groupStep rest st) in
    incl (map key result) (map key (groupsOf st) ++ map key rest)
    /\ (List.length result <= List.length (groupsOf st) + List.length rest)%nat
    /\ (NoDup (map key (groupsOf st) ++ map key rest) -> NoDup (map key result)).
Proof.
  induction rest as [|chunk rest IH]; intros st; cbv zeta.
  - simpl fold_left. rewrite app_nil_r, Nat.add_0_r.
    split; [apply incl_refl|]. split; [lia|trivial].
  - simpl fold_left. destruct (IH (groupStep st chunk)) as [I [L N]].
    destruct (groupStep_groupsOf st chunk) as [[_ E]|[_ E]].
    + assert (K : map key (groupsOf (groupStep st chunk)) = map key (groupsOf st)).
      { rewrite E. unfold groupsOf. cbn [fst snd].
        rewrite !map_app. simpl. rewrite key_merge. reflexivity. }
      assert (Len : List.length (groupsOf (groupStep st chunk))
                    = List.length (groupsOf st)).
      { rewrite <- (length_map key), K, length_map. reflexivity. }
      rewrite K in I, N. rewrite Len in L.
      split; [|split].
      * intros x Hx. apply I in Hx. apply in_app_or in Hx.
        apply in_or_app. destruct Hx as [Hx|Hx]; [left; exact Hx|].
        right. right. exact Hx.
      * simpl. lia.
      * intros ND. apply N. simpl in ND.
        apply NoDup_remove_1 in ND. exact ND.
    + rewrite E in I, L, N. rewrite map_app, <- app_assoc in I, N.
      rewrite length_app in L. simpl in *.
      split; [exact I|]. split; [lia|exact N].
Qed.

Lemma groupSorted_keys (sorted : list TextChunk) :
  incl (map key (groupSorted sorted)) (map key sorted)
  /\ (List.length (groupSorted sorted) <= List.length sorted)%nat
  /\ (NoDup (map key sorted) -> NoDup (map key (groupSorted sorted))).
Proof.
  destruct sorted as [|first rest].
  - split; [apply incl_refl|]. split; [simpl; lia|trivial].
  - rewrite groupSorted_fold.
    destruct (groupFold_keys rest ([], first)) as [I [L N]].
    split; [exact I|]. split; [simpl in *; lia|exact N].
Qed.

Hypothesis key_clean : forall chunk, key (cleanText chunk) = key chunk.

Lemma filter_keys_NoDup (keep : TextChunk -> bool) (l : list TextChunk) :
  NoDup (map key l) -> NoDup (map key (filter keep l)).
Proof.
  induction l as [|c l IH]; intros ND; [constructor|].
  simpl in *. inversion ND as [|? ? Hn ND']; subst.
  destruct (keep c); [|apply IH, ND'].
  simpl. constructor; [|apply IH, ND'].
  intros Hin. apply Hn. apply in_map_iff in Hin. destruct Hin as [c' [E Hc']].
  apply filter_In in Hc'. apply in_map_iff. exists c'. tauto.
Qed.

(** The keys of the chunks returned are keys of chunks given, no more of
    them, and different when those were. *)
Lemma groupNearbyTextChunks_keys (chunks : list TextChunk) :
  incl (map key (groupNearbyTextChunks chunks)) (map key chunks)
  /\ (List.length (groupNearbyTextChunks chunks) <= List.length chunks)%nat
  /\ (NoDup (map key chunks) -> NoDup (map key (groupNearbyTextChunks chunks))).
Proof.
  assert (E : groupNearbyTextChunks chunks
              = map cleanText (filter keepGroup
                                 (groupSorted (sort compareByPosition chunks)))).
  { unfold groupNearbyTextChunks. destruct chunks; reflexivity. }
  assert (K : map key (groupNearbyTextChunks chunks)
              = map key (filter keepGroup
                           (groupSorted (sort compareByPosition chunks)))).
  { rewrite E, map_map. apply map_ext. exact key_clean. }
  pose proof (sort_perm compareByPosition chunks) as P.
  destruct (groupSorted_keys (sort compareByPosition chunks)) as [I [L N]].
  split; [|split].
  - rewrite K. intros x Hx. apply in_map_iff in Hx.
    destruct Hx as [c [<- Hc]]. apply filter_In in Hc. destruct Hc as [Hc _].
    apply (Permutation_in _ (Permutation_map key P)).
    apply I. apply in_map. exact Hc.
  - rewrite E, length_map.
    pose proof (filter_length_le keepGroup
                  (groupSorted (sort compareByPosition chunks))) as F.
    rewrite (Permutation_length P) in L. lia.
  - intros ND. rewrite K. apply filter_keys_NoDup. apply N.
    apply (Permutation_NoDup (Permutation_sym (Permutation_map key P))), ND.
Qed.

End Keys.

(** X5. The line clusterer creates no chunk: it returns at most as many
    chunks as it is given, and each chunk returned carries the identifier,
    the page number and the left edge of a chunk given (a merged group
    keeps those of its first token). *)
Theorem groupNearbyTextChunks_creates_nothing :
  forall chunks : list TextChunk,
    (List.length (groupNearbyTextChunks chunks) <= List.length chunks)%nat
    /\ Forall (fun c =>
                 exists c0,
                   In c0 chunks
                   /\ TextChunk.id c = TextChunk.id c0
                   /\ TextChunk.pageNumber c = TextChunk.pageNumber c0
                   /\ Geometry.x (TextChunk.geometry c)
                      = Geometry.x (TextChunk.geometry c0))
              (groupNearbyTextChunks chunks).
Proof.
  intros chunks.
  destruct (@groupNearbyTextChunks_keys _
              (fun c => (TextChunk.id c, TextChunk.pageNumber c,
                         Geometry.x (TextChunk.geometry c)))
              (fun _ _ => eq_refl) (fun _ => eq_refl) chunks) as [I [L _]].
  split; [exact L|].
  apply Forall_forall. intros c Hc.
  assert (Hk : In (TextChunk.id c, TextChunk.pageNumber c,
                   Geometry.x (TextChunk.geometry c))
                  (map (fun c => (TextChunk.id c, TextChunk.pageNumber c,
                                  Geometry.x (TextChunk.geometry c))) chunks)).
  { apply I. apply (in_map (fun c => (TextChunk.id c, TextChunk.pageNumber c,
                                      Geometry.x (TextChunk.geometry c)))), Hc. }
  apply in_map_iff in Hk. destruct Hk as [c0 [E H0]].
  injection E as E1 E2 E3. exists c0. repeat split; try assumption; congruence.
Qed.

End GroupingKeeps.

Section GroupingText.
Import JS PdfProcessor Spec.

Lemma visible_app (a b : jsstring) : visible (a ++ b) = (visible a ++ visible b)%list.
Proof. apply filter_app. Qed.

Lemma visible_trimStart (s : jsstring) : visible (trimStart s) = visible s.
Proof.
  induction s as [|c t IH]; [reflexivity|]. simpl.
  destruct (isWhiteSpace c) eqn:E; simpl; [exact IH|].
  rewrite E. reflexivity.
Qed.

Lemma visible_trim (s : jsstring) : visible (trim s) = visible s.
Proof.
  unfold trim, trimEnd, visible.
  rewrite filter_rev. fold (visible (trimStart (rev (trimStart s)))).
  rewrite visible_trimStart. unfold visible. rewrite filter_rev, rev_involutive.
  apply visible_trimStart.
Qed.

Lemma visible_replaceWsRuns (inRun : bool) (s : jsstring) :
  visible (replaceWsRuns inRun s) = visible s.
Proof.
  revert inRun. induction s as [|c t IH]; intros inRun; [reflexivity|]. simpl.
  destruct (isWhiteSpace c) eqn:E.
  - destruct inRun; simpl; apply IH.
  - simpl. rewrite E. simpl. f_equal. apply IH.
Qed.

Lemma visible_merge (lastGroup chunk : TextChunk) :
  visible (TextChunk.text (mergeInto lastGroup chunk))
  = (visible (TextChunk.text lastGroup) ++ visible (TextChunk.text chunk))%list.
Proof.
  unfold mergeInto. cbn [TextChunk.text]. rewrite !visible_app.
  destruct (gt _ 1%float); reflexivity.
Qed.

Lemma groupFold_visible (rest : list TextChunk) :
  forall st,
    visible (flat_map TextChunk.text (groupsOf (fold_left groupStep rest st)))
    = (visible (flat_map TextChunk.text (groupsOf st))
       ++ visible (flat_map TextChunk.text rest))%list.
Proof.
  induction rest as [|chunk rest IH]; intros st.
  - simpl. rewrite app_nil_r. reflexivity.
  - simpl fold_left. rewrite IH. cbn [flat_map]. rewrite visible_app, app_assoc.
    f_equal.
    destruct (groupStep_groupsOf st chunk) as [[_ E]|[_ E]].
    + rewrite E. unfold groupsOf. cbn [fst snd].
      rewrite !flat_map_app, !visible_app. cbn [flat_map].
      rewrite !app_nil_r, visible_merge, app_assoc. reflexivity.
    + rewrite E, flat_map_app, visible_app. cbn [flat_map].
      rewrite app_nil_r. reflexivity.
Qed.

(** X6. Grouping and cleaning only touch white space, whatever order the
    sort leaves the tokens in: the result is the cleaned and filtered groups
    of the loop run on some order of the given chunks; for every order the
    loop is run on, the visible code units of its groups, read in order, are
    those of the tokens in that order; and cleaning a group keeps its
    visible code units. *)
Theorem grouping_keeps_visible_text :
  forall chunks : list TextChunk,
    (exists sortedChunks,
        Permutation sortedChunks chunks
        /\ groupNearbyTextChunks chunks
           = map cleanText (filter keepGroup (groupSorted sortedChunks)))
    /\ (forall sortedChunks : list TextChunk,
           visible (flat_map TextChunk.text (groupSorted sortedChunks))
           = visible (flat_map TextChunk.text sortedChunks))
    /\ (forall group : TextChunk,
           visible (TextChunk.text (cleanText group))
           = visible (TextChunk.text group)).
Proof.
  intros chunks. split; [|split].
  - exists (sort compareByPosition chunks). split; [apply sort_perm|].
    unfold groupNearbyTextChunks. destruct chunks; reflexivity.
  - intros sortedChunks. destruct sortedChunks as [|first rest]; [reflexivity|].
    rewrite groupSorted_fold, groupFold_visible.
    unfold groupsOf. cbn [fst snd app flat_map].
    rewrite app_nil_r, visible_app. reflexivity.
  - intros group. unfold cleanText. cbn [TextChunk.text].
    rewrite visible_trim. apply visible_replaceWsRuns.
Qed.

Lemma shouldMerge_lengths (lastGroup chunk : TextChunk) :
  shouldMerge lastGroup chunk = true ->
  (List.length (TextChunk.text chunk) < 50)%nat
  /\ (List.length (TextChunk.text lastGroup) < 200)%nat.
Proof.
  unfold shouldMerge. intros H.
  apply andb_true_iff in H. destruct H as [_ H].
  apply andb_true_iff in H. destruct H as [H1 H2].
  apply Nat.ltb_lt in H1, H2. split; assumption.
Qed.

Lemma mergeInto_length (lastGroup chunk : TextChunk) :
  (List.length (TextChunk.text (mergeInto lastGroup chunk))
   <= List.length (TextChunk.text lastGroup) + 1
      + List.length (TextChunk.text chunk))%nat.
Proof.
  unfold mergeInto. cbn [TextChunk.text]. rewrite !length_app.
  destruct (gt _ 1%float); simpl; lia.
Qed.

Lemma groupFold_short (input rest : list TextChunk) :
  forall st,
    incl rest input ->
    Forall (fun g => In g input \/ (List.length (TextChunk.text g) < 250)%nat)
           (groupsOf st) ->
    Forall (fun g => In g input \/ (List.length (TextChunk.text g) < 250)%nat)
           (groupsOf (fold_left groupStep rest st)).
Proof.
  induction rest as [|chunk rest IH]; intros st Hin Hst; [exact Hst|].
  simpl fold_left. apply IH.
  - intros x Hx. apply Hin. right. exact Hx.
  - destruct (groupStep_groupsOf st chunk) as [[M E]|[_ E]]; rewrite E.
    + unfold groupsOf in *. cbn [fst snd].
      apply Forall_app in Hst. destruct Hst as [Hc _].
      apply Forall_app. split; [exact Hc|]. constructor; [|constructor].
      right. destruct (shouldMerge_lengths _ _ M) as [L1 L2].
      pose proof (mergeInto_length (snd st) chunk). lia.
    + apply Forall_app. split; [exact Hst|]. constructor; [|constructor].
      left. apply Hin. left. reflexivity.
Qed.

(** X7. A chunk the line clusterer returns is the cleaned form of a chunk
    it was given, or has fewer than 250 code units: a group is only merged
    into while it is under 200 code units, and only with a token under 50. *)
Theorem groupNearbyTextChunks_merged_length :
  forall chunks : list TextChunk,
    Forall (fun c =>
              (exists c0, In c0 chunks /\ c = cleanText c0)
              \/ (List.length (TextChunk.text c) < 250)%nat)
           (groupNearbyTextChunks chunks).
Proof.
  intros chunks.
  assert (E : groupNearbyTextChunks chunks
              = map cleanText (filter keepGroup
                                 (groupSorted (sort compareByPosition chunks)))).
  { unfold groupNearbyTextChunks. destruct chunks; reflexivity. }
  pose proof (sort_perm compareByPosition chunks) as P.
  assert (G : Forall (fun g => In g chunks
                               \/ (List.length (TextChunk.text g) < 250)%nat)
                     (groupSorted (sort compareByPosition chunks))).
  { destruct (sort compareByPosition chunks) as [|first rest] eqn:Hs;
      [constructor|].
    rewrite groupSorted_fold. apply groupFold_short.
    - intros x Hx. apply (Permutation_in _ P). right. exact Hx.
    - constructor; [|constructor]. left.
      apply (Permutation_in _ P). left. reflexivity. }
  rewrite E. apply Forall_forall. intros c Hc.
  apply in_map_iff in Hc. destruct Hc as [g [<- Hg]].
  apply filter_In in Hg. destruct Hg as [Hg _].
  rewrite Forall_forall in G. destruct (G g Hg) as [H|H].
  - left. exists g. split; [exact H|reflexivity].
  - right. unfold cleanText. cbn [TextChunk.text].
    pose proof (trim_length (collapseWhiteSpace (TextChunk.text g))).
    pose proof (replaceWsRuns_length false (TextChunk.text g)).
    unfold collapseWhiteSpace in *. lia.
Qed.

End GroupingText.

Section UniqueIdentifiers.
Import JS PdfProcessor Spec.

Lemma numbered_ids (mkId : nat -> nat -> jsstring) (prefix : jsstring)
  (pageNum count : nat) :
  (forall i, mkId pageNum i = (prefix ++ ofIndex i)%list) ->
  (forall i, idOfPage pageNum (mkId pageNum i)) ->
  NoDup (map (mkId pageNum) (seq 0 count))
  /\ Forall (idOfPage pageNum) (map (mkId pageNum) (seq 0 count)).
Proof.
  intros Hform Hpage. split.
  - rewrite (map_ext _ _ Hform). apply indexed_ids_NoDup.
  - apply Forall_forall. intros id Hid. apply in_map_iff in Hid.
    destruct Hid as [i [<- _]]. apply Hpage.
Qed.

Lemma pdf_ids (pageNum count : nat) :
  NoDup (map (pdfChunkId pageNum) (seq 0 count))
  /\ Forall (idOfPage pageNum) (map (pdfChunkId pageNum) (seq 0 count)).
Proof.
  apply (numbered_ids pdfChunkId
           (JS.str "page-" ++ ofIndex pageNum ++ JS.str "-pdf-")%list).
  - intros i. unfold pdfChunkId. rewrite <- !app_assoc. reflexivity.
  - apply pdfChunkId_ofPage.
Qed.

Lemma ocr_word_ids (pageNum count : nat) :
  NoDup (map (ocrWordId pageNum) (seq 0 count))
  /\ Forall (idOfPage pageNum) (map (ocrWordId pageNum) (seq 0 count)).
Proof.
  apply (numbered_ids ocrWordId
           (JS.str "page-" ++ ofIndex pageNum ++ JS.str "-ocr-")%list).
  - intros i. unfold ocrWordId. rewrite <- !app_assoc. reflexivity.
  - apply ocrWordId_ofPage.
Qed.

Lemma ocr_line_ids (pageNum count : nat) :
  NoDup (map (ocrLineId pageNum) (seq 0 count))
  /\ Forall (idOfPage pageNum) (map (ocrLineId pageNum) (seq 0 count)).
Proof.
  apply (numbered_ids ocrLineId
           (JS.str "page-" ++ ofIndex pageNum ++ JS.str "-ocr-line-")%list).
  - intros i. unfold ocrLineId. rewrite <- !app_assoc. reflexivity.
  - apply ocrLineId_ofPage.
Qed.

Lemma recognizedChunks_ids (data : option OcrData) (img : Img) (pageNum : nat) :
  NoDup (map TextChunk.id (recognizedChunks data img pageNum))
  /\ Forall (idOfPage pageNum)
            (map TextChunk.id (recognizedChunks data img pageNum)).
Proof.
  destruct (recognizedChunks_shape data img pageNum)
    as [E|[[d [_ E]]|[[d [_ E]]|[d [_ [_ E]]]]]]; rewrite E.
  - split; constructor.
  - destruct (itemChunks_well_placed ocrWordId img pageNum (OcrData.words d))
      as [_ I].
    rewrite I. apply ocr_word_ids.
  - destruct (itemChunks_well_placed ocrLineId img pageNum (OcrData.lines d))
      as [_ I].
    rewrite I. apply ocr_line_ids.
  - simpl. split.
    + constructor; [intros []|constructor].
    + constructor; [apply ocrFullId_ofPage|constructor].
Qed.

Lemma arbitrate_ids (run : PageRun) (pageNum : nat)
  (textContent : option (list TextItem)) (finalTextChunks : list TextChunk) :
  arbitrate (PageRun.ocr run) pageNum
            (extractPdfTextChunks pageNum (PageRun.viewportWidth run)
                                  (PageRun.viewportHeight run) textContent)
  = Ok finalTextChunks ->
  NoDup (map TextChunk.id finalTextChunks)
  /\ Forall (idOfPage pageNum) (map TextChunk.id finalTextChunks).
Proof.
  intros H.
  match type of H with
  | arbitrate ?r ?n ?p = _ =>
      destruct (arbitrate_cases r n p) as [E|[ocr [P E]]];
        rewrite E in H; injection H as <-
  end.
  - destruct (extractPdfTextChunks_ids_aux pageNum (PageRun.viewportWidth run)
                (PageRun.viewportHeight run) textContent) as [I _].
    rewrite I. apply pdf_ids.
  - destruct (performOCR_results _ _ P) as [->|[data [img ->]]].
    + split; constructor.
    + apply recognizedChunks_ids.
Qed.

(** The identifiers of a completed page are pairwise different and all of
    that page. *)
Lemma page_ids (run : PageRun) (pageNum : nat) :
  NoDup (pageChunkIds (onPageLoadSuccess run pageNum))
  /\ Forall (idOfPage pageNum) (pageChunkIds (onPageLoadSuccess run pageNum)).
Proof.
  unfold onPageLoadSuccess, processPage.
  destruct (PageRun.context run); cbn [bind]; [|split; constructor].
  destruct (PageRun.render run) as [[]|e1]; cbn [bind]; [|split; constructor].
  destruct (PageRun.getTextContent run) as [tc|e2]; cbn [bind];
    [|split; constructor].
  match goal with
  | |- context [arbitrate ?r ?n ?p] => destruct (arbitrate r n p) as [final|e] eqn:A
  end; cbn [bind]; [|split; constructor].
  cbn [pageChunkIds PageData.textChunks].
  destruct (arbitrate_ids run pageNum tc A) as [ND F].
  destruct (@groupNearbyTextChunks_keys _ TextChunk.id
              (fun _ _ => eq_refl) (fun _ => eq_refl) final) as [I [_ N]].
  split; [apply N, ND|].
  rewrite Forall_forall in *. intros id Hid. apply F, I, Hid.
Qed.

(** X8. The basic processor names its chunks uniquely: the identifiers of
    the chunks of one page are pairwise different, and no identifier occurs
    on two pages with different numbers, whatever the two pages hold and
    whichever channel each one took its chunks from. *)
Theorem basic_processor_ids_unique :
  forall (run1 run2 : PageRun) (pageNum1 pageNum2 : nat),
    NoDup (pageChunkIds (onPageLoadSuccess run1 pageNum1))
    /\ (pageNum1 <> pageNum2 ->
        forall id,
          In id (pageChunkIds (onPageLoadSuccess run1 pageNum1)) ->
          ~ In id (pageChunkIds (onPageLoadSuccess run2 pageNum2))).
Proof.
  intros run1 run2 n m.
  destruct (page_ids run1 n) as [ND F1]. destruct (page_ids run2 m) as [_ F2].
  split; [exact ND|].
  intros Hnm id H1 H2. rewrite Forall_forall in F1, F2.
  apply Hnm. exact (idOfPage_page (F1 id H1) (F2 id H2)).
Qed.

End UniqueIdentifiers.

(* ================================================================== *)
(** * Properties of the viewer components *)
(* ================================================================== *)

Section ViewerSelection.
Import JS PdfProcessor Spec Viewer.

Lemma sameString_true (a b : jsstring) : sameString a b = true <-> a = b.
Proof.
  unfold sameString. destruct (list_eq_dec N.eq_dec a b); split;
    congruence.
Qed.

Lemma holdsChunk_In (chunkId : jsstring) (page : PageData) :
  holdsChunk chunkId page = true
  <-> In chunkId (map TextChunk.id (PageData.textChunks page)).
Proof.
  unfold holdsChunk. rewrite existsb_exists, in_map_iff. split.
  - intros [c [Hc E]]. apply sameString_true in E. exists c. split; assumption.
  - intros [c [E Hc]]. exists c. split; [exact Hc|]. apply sameString_true, E.
Qed.

(** With unique identifiers, the pages that hold an identifier are one
    page. *)
Lemma unique_holder (pages : list PageData) (id : jsstring) (p q : PageData) :
  NoDup (allChunkIds pages) -> In p pages -> In q pages ->
  In id (map TextChunk.id (PageData.textChunks p)) ->
  In id (map TextChunk.id (PageData.textChunks q)) ->
  p = q.
Proof.
  unfold allChunkIds.
  induction pages as [|r pages IH]; intros ND Hp Hq Ip Iq; [destruct Hp|].
  simpl in ND.
  assert (Hdisj : forall x, In x (map TextChunk.id (PageData.textChunks r)) ->
                            forall s, In s pages ->
                            In x (map TextChunk.id (PageData.textChunks s)) ->
                            False).
  { intros x Hx s Hs Hxs.
    apply in_split in Hx. destruct Hx as [l1 [l2 E]]. rewrite E in ND.
    rewrite <- app_assoc in ND. simpl in ND.
    apply NoDup_remove_2 in ND. apply ND.
    apply in_or_app. right. apply in_or_app. right.
    apply in_flat_map. exists s. split; assumption. }
  destruct Hp as [->|Hp], Hq as [->|Hq].
  - reflexivity.
  - exfalso. exact (Hdisj _ Ip q Hq Iq).
  - exfalso. exact (Hdisj _ Iq p Hp Ip).
  - apply IH; try assumption. apply NoDup_app_remove_l in ND. exact ND.
Qed.

(** X9. When the chunk identifiers of the document are pairwise different,
    selecting a chunk by its identifier shows the page that holds the chunk
    and marks the chunk as selected; an identifier no page holds, and the
    empty identifier, leave the page as it is. *)
Theorem handleChunkSelect_goes_to_page :
  forall (pages : list PageData) (st : Selection),
    NoDup (allChunkIds pages) ->
    (forall (page : PageData) (chunk : TextChunk),
        In page pages -> In chunk (PageData.textChunks page) ->
        TextChunk.id chunk <> [] ->
        handleChunkSelect pages (TextChunk.id chunk) st
        = {| Selection.currentPage := PageData.pageNumber page;
             Selection.selectedChunk := TextChunk.id chunk |})
    /\ (forall chunkId,
           ~ In chunkId (allChunkIds pages) ->
           handleChunkSelect pages chunkId st
           = {| Selection.currentPage := Selection.currentPage st;
                Selection.selectedChunk := chunkId |}).
Proof.
  intros pages st ND. split.
  - intros page chunk Hpage Hchunk Hid. unfold handleChunkSelect.
    destruct (TextChunk.id chunk) as [|c0 cs] eqn:Eid; [congruence|].
    cbn [List.length Nat.ltb Nat.leb]. rewrite <- Eid.
    assert (Hin : In (TextChunk.id chunk)
                     (map TextChunk.id (PageData.textChunks page))).
    { apply in_map, Hchunk. }
    destruct (find (holdsChunk (TextChunk.id chunk)) pages) as [target|] eqn:F.
    + apply find_some in F. destruct F as [Ht Hh]. apply holdsChunk_In in Hh.
      rewrite (@unique_holder pages _ _ _ ND Ht Hpage Hh Hin).
      destruct (PageData.pageNumber page =? Selection.currentPage st)%nat eqn:E;
        cbn [negb]; [|reflexivity].
      apply Nat.eqb_eq in E. rewrite E. reflexivity.
    + exfalso. pose proof (find_none _ _ F page Hpage) as N.
      apply holdsChunk_In in Hin. congruence.
  - intros chunkId Hnot. unfold handleChunkSelect.
    destruct (0 <? List.length chunkId)%nat; [|reflexivity].
    destruct (find (holdsChunk chunkId) pages) as [target|] eqn:F; [|reflexivity].
    exfalso. apply find_some in F. destruct F as [Ht Hh].
    apply holdsChunk_In in Hh. apply Hnot. unfold allChunkIds.
    apply in_flat_map. exists target. split; assumption.
Qed.

Lemma handleChunkSelect_goes_to_page_witness :
  handleChunkSelect twoViewerPages (pdfChunkId 2 0)
                    {| Selection.currentPage := 1; Selection.selectedChunk := [] |}
  = {| Selection.currentPage := 2; Selection.selectedChunk := pdfChunkId 2 0 |}.
Proof.
  assert (ND : NoDup (allChunkIds twoViewerPages)).
  { vm_compute. repeat constructor; simpl; intuition discriminate. }
  refine (proj1 (@handleChunkSelect_goes_to_page twoViewerPages
                   {| Selection.currentPage := 1; Selection.selectedChunk := [] |} ND)
                {| PageData.pageNumber := 2;
                   PageData.imageUrl := [];
                   PageData.textChunks :=
                     [ token (pdfChunkId 2 0) 2 "cd" 10%float 10%float 10%float 5%float ] |}
                (token (pdfChunkId 2 0) 2 "cd" 10%float 10%float 10%float 5%float)
                _ _ _).
  - right. left. reflexivity.
  - left. reflexivity.
  - vm_compute. discriminate.
Defined.

End ViewerSelection.

Section ViewerControls.
Import JS Spec Viewer.
Local Open Scope Z_scope.

(** X10. Whatever sequence of zoom-in and zoom-out clicks is made from the
    initial factor 1, the zoom factor is one of the eleven quarter steps
    0.5, 0.75, ..., 3: the quarter steps are computed without rounding error
    and the factor never leaves the range from 0.5 to 3. *)
Theorem zoom_stays_on_quarter_steps :
  forall z : number,
    zoomReachable z ->
    In z zoomLevels /\ le 0.5%float z = true /\ le z 3%float = true.
Proof.
  assert (Hlevels : forall z, In z zoomLevels ->
                              le 0.5%float z = true /\ le z 3%float = true).
  { intros z H. unfold zoomLevels in H. simpl in H.
    repeat (destruct H as [<-|H]; [split; vm_compute; reflexivity|]).
    destruct H. }
  assert (Hstep : forall z, In z zoomLevels ->
                            In (handleZoomIn z) zoomLevels
                            /\ In (handleZoomOut z) zoomLevels).
  { intros z H. unfold zoomLevels in H. simpl in H.
    repeat (destruct H as [<-|H];
            [split; vm_compute;
             repeat (first [left; reflexivity | right])|]).
    destruct H. }
  assert (Hreach : forall z, zoomReachable z -> In z zoomLevels).
  { induction 1 as [|z _ IH|z _ IH].
    - vm_compute. right. right. left. reflexivity.
    - exact (proj1 (Hstep z IH)).
    - exact (proj2 (Hstep z IH)). }
  intros z H. split; [exact (Hreach z H)|exact (Hlevels z (Hreach z H))].
Qed.

Lemma zoom_stays_on_quarter_steps_witness :
  In (handleZoomOut (handleZoomIn 1%float)) zoomLevels
  /\ le 0.5%float (handleZoomOut (handleZoomIn 1%float)) = true
  /\ le (handleZoomOut (handleZoomIn 1%float)) 3%float = true.
Proof.
  apply (@zoom_stays_on_quarter_steps (handleZoomOut (handleZoomIn 1%float))).
  apply zoom_out, zoom_in, zoom_initial.
Defined.

(** X11. With at least one search result and the result index at -1 (no
    result chosen yet) or at a result, the next and previous buttons always
    land on a valid index of the result list; from a result, each button
    undoes the other, so the results form a cycle. *)
Theorem result_navigation_cycles :
  forall resultCount currentResultIndex : Z,
    0 < resultCount ->
    -1 <= currentResultIndex < resultCount ->
    0 <= handleNextResult resultCount currentResultIndex < resultCount
    /\ 0 <= handlePrevResult resultCount currentResultIndex < resultCount
    /\ (0 <= currentResultIndex ->
        handlePrevResult resultCount
                         (handleNextResult resultCount currentResultIndex)
        = currentResultIndex
        /\ handleNextResult resultCount
                            (handlePrevResult resultCount currentResultIndex)
           = currentResultIndex).
Proof.
  intros n i Hn Hi. unfold handleNextResult, handlePrevResult.
  destruct (Z.ltb_spec 0 n) as [_|]; [|lia].
  assert (Hrem : 0 <= Z.rem (i + 1) n < n) by (apply Z.rem_bound_pos; lia).
  split; [exact Hrem|]. split.
  - destruct (Z.leb_spec i 0); lia.
  - intros Hi0. split.
    + destruct (Z.eq_dec (i + 1) n) as [E|E].
      * rewrite E, Z.rem_same by lia. simpl. lia.
      * rewrite Z.rem_small by lia.
        destruct (Z.leb_spec (i + 1) 0); lia.
    + destruct (Z.leb_spec i 0).
      * replace (n - 1 + 1) with n by lia. rewrite Z.rem_same by lia. lia.
      * replace (i - 1 + 1) with i by lia. apply Z.rem_small. lia.
Qed.

Lemma result_navigation_cycles_witness :
  0 <= handleNextResult 3 2 < 3
  /\ 0 <= handlePrevResult 3 2 < 3
  /\ (0 <= 2 ->
      handlePrevResult 3 (handleNextResult 3 2) = 2
      /\ handleNextResult 3 (handlePrevResult 3 2) = 2).
Proof.
  apply (@result_navigation_cycles 3 2); lia.
Defined.

End ViewerControls.

(* ================================================================== *)
(** * Further properties of the enhanced processor *)
(* ================================================================== *)

Section EnhancedWords.
Import JS Types Enhanced Spec.

Lemma pushWord_fold (nanoid : nat -> jsstring) (canvas : Canvas)
  (pageNumber : number) (ocrWords : list OcrWord) :
  forall (st : list (LegacyTextChunk number) * list Word) (done : list OcrWord),
    Forall2 (sameWord canvas pageNumber) (fst st) (snd st) ->
    map (@LegacyTextChunk.id number) (fst st)
    = map nanoid (seq 0 (List.length (fst st))) ->
    map (@LegacyTextChunk.text number) (fst st)
    = map OcrWord.text (filter keptWord done) ->
    let st' := fold_left (pushWord nanoid canvas pageNumber) ocrWords st in
    Forall2 (sameWord canvas pageNumber) (fst st') (snd st')
    /\ map (@LegacyTextChunk.id number) (fst st')
       = map nanoid (seq 0 (List.length (fst st')))
    /\ map (@LegacyTextChunk.text number) (fst st')
       = map OcrWord.text (filter keptWord (done ++ ocrWords)).
Proof.
  induction ocrWords as [|o ocrWords IH]; intros [legacy words] done H2 Hid Htext.
  - cbn. rewrite app_nil_r. repeat split; assumption.
  - cbn [fold_left]. cbn zeta.
    replace (done ++ o :: ocrWords)%list with ((done ++ [o]) ++ ocrWords)%list
      by (rewrite <- app_assoc; reflexivity).
    assert (Hkept : keptWord o
                    = match OcrWord.bbox o with
                      | Some _ => (0 <? List.length (trim (OcrWord.text o)))%nat
                      | None => false
                      end).
    { unfold keptWord. rewrite trim_nonempty. reflexivity. }
    cbn [fst snd] in *.
    apply IH; unfold pushWord; rewrite ?filter_app; cbn [filter];
      rewrite ?Hkept; destruct (OcrWord.bbox o) as [bbox|];
      try destruct (0 <? List.length (trim (OcrWord.text o)))%nat;
      cbn [fst snd]; rewrite ?app_nil_r; try assumption.
    + apply Forall2_app; [exact H2|]. constructor; [|constructor].
      repeat split.
    + rewrite length_app, seq_app, !map_app. f_equal. exact Hid.
    + rewrite !map_app. f_equal. exact Htext.
Qed.

(** X12. The legacy chunks and the IR words [performEnhancedOCR] returns
    describe the same OCR words in the same order: the words that have a box
    and text that is not blank.  Each pair carries the same text, the legacy
    chunk the page number, and the box of the IR word is the pixel geometry
    of the legacy chunk divided by the canvas width and height.  The legacy
    identifiers are the results of the successive [nanoid()] calls. *)
Theorem performEnhancedOCR_words_aligned :
  forall (nanoid : nat -> jsstring) (canvas : Canvas)
         (ocrWords : list OcrWord) (pageNumber : number),
    let result := performEnhancedOCR nanoid canvas (Some ocrWords) pageNumber in
    let legacyChunks := fst result in
    let irPage := snd result in
    Forall2 (sameWord canvas pageNumber) legacyChunks (Page.words irPage)
    /\ map (@LegacyTextChunk.id number) legacyChunks
       = map nanoid (seq 0 (List.length legacyChunks))
    /\ map (@LegacyTextChunk.text number) legacyChunks
       = map OcrWord.text (filter keptWord ocrWords)
    /\ Coverage.ocrWords (Page.coverage irPage) = List.length legacyChunks.
Proof.
  intros nanoid canvas ocrWords pageNumber.
  unfold performEnhancedOCR.
  pose proof (@pushWord_fold nanoid canvas pageNumber ocrWords ([], []) []
                (Forall2_nil _) eq_refl eq_refl) as H.
  cbn zeta in H. cbn [app] in H.
  destruct (fold_left (pushWord nanoid canvas pageNumber) ocrWords ([], []))
    as [legacy words].
  cbn [fst snd] in *. cbn zeta. cbn [fst snd Page.words Page.coverage Coverage.ocrWords].
  destruct H as [H2 [Hid Htext]].
  repeat split; try assumption.
  symmetry. exact (Forall2_length H2).
Qed.

End EnhancedWords.

(** ** The clustering loop *)

Section ClusteringLoop.
Import JS Types Enhanced Spec.
Variable A : Type.
Variable breaks : A -> A -> bool.

(** The groups are consecutive slices of the input. *)
Lemma splitLoop_concat (rest : list A) :
  forall groups currentInit last,
    List.concat (splitLoop breaks rest groups currentInit last)
    = List.concat groups ++ currentInit ++ [last] ++ rest.
Proof.
  induction rest as [|c rest IH]; intros groups init l; simpl.
  - rewrite concat_app. simpl. rewrite !app_nil_r. reflexivity.
  - destruct (breaks l c); rewrite IH.
    + rewrite concat_app. simpl. rewrite app_nil_r, <- !app_assoc. reflexivity.
    + rewrite <- !app_assoc. reflexivity.
Qed.

Lemma splitLoop_closed (rest : list A) :
  forall groups currentInit last p,
    (p < List.length (List.concat groups))%nat ->
    blockOf (splitLoop breaks rest groups currentInit last) p
    = blockOf groups p.
Proof.
  induction rest as [|c rest IH]; intros groups init l p Hp; simpl.
  - apply blockOf_app_lt, Hp.
  - destruct (breaks l c).
    + rewrite IH.
      * apply blockOf_app_lt, Hp.
      * rewrite concat_app, length_app. lia.
    + apply IH, Hp.
Qed.

Lemma splitLoop_open (rest : list A) :
  forall groups currentInit last p,
    (p < List.length (currentInit ++ [last]))%nat ->
    blockOf (splitLoop breaks rest groups currentInit last)
            (List.length (List.concat groups) + p)
    = Some (List.length groups).
Proof.
  induction rest as [|c rest IH]; intros groups init l p Hp; simpl.
  - apply blockOf_last_block, Hp.
  - destruct (breaks l c).
    + rewrite splitLoop_closed.
      * apply blockOf_last_block, Hp.
      * rewrite concat_app, length_app. simpl. rewrite app_nil_r. lia.
    + apply IH. rewrite length_app. simpl. lia.
Qed.

(** Each element after the first goes to the group of its predecessor or to
    the next one. *)
Lemma splitLoop_step (rest : list A) :
  forall groups currentInit last j prev next,
    nth_error (last :: rest) j = Some prev ->
    nth_error rest j = Some next ->
    exists k,
      blockOf (splitLoop breaks rest groups currentInit last)
              (List.length (List.concat groups) + List.length currentInit + j)
      = Some k
      /\ blockOf (splitLoop breaks rest groups currentInit last)
                 (List.length (List.concat groups) + List.length currentInit + S j)
         = Some (if breaks prev next then S k else k).
Proof.
  induction rest as [|c rest IH]; intros groups init l j prev next Hprev Hnext.
  - destruct j; discriminate.
  - simpl splitLoop.
    destruct j as [|j].
    + simpl in Hprev, Hnext. injection Hprev as <-. injection Hnext as <-.
      exists (List.length groups).
      destruct (breaks l c).
      * split.
        -- rewrite splitLoop_closed.
           ++ rewrite Nat.add_0_r.
              apply blockOf_last_block. rewrite length_app. simpl. lia.
           ++ rewrite concat_app, length_app. simpl.
              rewrite app_nil_r, length_app. simpl. lia.
        -- pose proof (splitLoop_open rest (groups ++ [init ++ [l]]) [] c (p := 0)) as O.
           rewrite concat_app, !length_app in O. simpl in O.
           rewrite app_nil_r, length_app in O. simpl in O.
           replace (List.length (List.concat groups) + List.length init + 1)%nat
             with (List.length (List.concat groups) + (List.length init + 1) + 0)%nat
             by lia.
           rewrite O; [f_equal; lia|lia].
      * split.
        -- rewrite Nat.add_0_r.
           apply splitLoop_open. rewrite !length_app. simpl. lia.
        -- rewrite <- Nat.add_assoc.
           apply splitLoop_open. rewrite !length_app. simpl. lia.
    + simpl in Hprev, Hnext.
      destruct (breaks l c).
      * destruct (IH (groups ++ [init ++ [l]]) [] c j prev next Hprev Hnext)
          as [k [E1 E2]].
        rewrite concat_app, !length_app in E1, E2. simpl in E1, E2.
        rewrite app_nil_r, length_app in E1, E2. simpl in E1, E2.
        exists k. split.
        -- rewrite <- E1. f_equal. lia.
        -- rewrite <- E2. f_equal. lia.
      * destruct (IH groups (init ++ [l]) c j prev next Hprev Hnext)
          as [k [E1 E2]].
        rewrite length_app in E1, E2. simpl in E1, E2.
        exists k. split.
        -- rewrite <- E1. f_equal. lia.
        -- rewrite <- E2. f_equal. lia.
Qed.

(** No group is empty. *)
Lemma splitLoop_nonempty (rest : list A) :
  forall groups currentInit last,
    Forall (fun g => g <> []) groups ->
    Forall (fun g => g <> []) (splitLoop breaks rest groups currentInit last).
Proof.
  induction rest as [|c rest IH]; intros groups init l H; simpl.
  - apply Forall_app. split; [exact H|].
    constructor; [destruct init; discriminate|constructor].
  - destruct (breaks l c); apply IH; [|exact H].
    apply Forall_app. split; [exact H|].
    constructor; [destruct init; discriminate|constructor].
Qed.

End ClusteringLoop.

Section EnhancedHierarchy.
Import JS Types Enhanced Spec.

Lemma linesLoop_splitLoop (rest : list Word) :
  forall lines currentInit lastWordInLine,
    linesLoop rest lines currentInit lastWordInLine
    = splitLoop (fun l c => negb (onSameLine l c)) rest lines currentInit
                lastWordInLine.
Proof.
  induction rest as [|c rest IH]; intros lines init l; [reflexivity|].
  simpl. unfold onSameLine at 1.
  destruct (lt _ _); simpl; apply IH.
Qed.

Lemma blocksLoop_splitLoop (rest : list Line) :
  forall blocks currentInit lastLineInBlock,
    blocksLoop rest blocks currentInit lastLineInBlock
    = splitLoop (fun l c => gt (verticalGap l c) blockBreakThreshold)
                rest blocks currentInit lastLineInBlock.
Proof.
  induction rest as [|c rest IH]; intros blocks init l; [reflexivity|].
  simpl. destruct (gt _ _); apply IH.
Qed.

Lemma groupWordsIntoLines_concat (words : list Word) :
  List.concat (groupWordsIntoLines words) = sort compareWords words.
Proof.
  unfold groupWordsIntoLines.
  destruct (sort compareWords words) as [|first rest]; [reflexivity|].
  rewrite linesLoop_splitLoop, splitLoop_concat. reflexivity.
Qed.

Lemma groupWordsIntoLines_nonempty (words : list Word) :
  Forall (fun g => g <> []) (groupWordsIntoLines words).
Proof.
  unfold groupWordsIntoLines.
  destruct (sort compareWords words) as [|first rest]; [constructor|].
  rewrite linesLoop_splitLoop. apply splitLoop_nonempty. constructor.
Qed.

Lemma groupLinesIntoBlocks_concat (lines : list Line) :
  List.concat (groupLinesIntoBlocks lines) = lines.
Proof.
  unfold groupLinesIntoBlocks.
  destruct lines as [|first rest]; [reflexivity|].
  rewrite blocksLoop_splitLoop, splitLoop_concat. reflexivity.
Qed.

Lemma groupLinesIntoBlocks_nonempty (lines : list Line) :
  Forall (fun g => g <> []) (groupLinesIntoBlocks lines).
Proof.
  unfold groupLinesIntoBlocks.
  destruct lines as [|first rest]; [constructor|].
  rewrite blocksLoop_splitLoop. apply splitLoop_nonempty. constructor.
Qed.

Lemma indexed_map_snd {A B : Type} (f : nat -> A -> B) (g : B -> A)
  (xs : list A) :
  (forall i x, g (f i x) = x) ->
  forall k, map g (map (fun '(i, x) => f i x)
                       (combine (seq k (List.length xs)) xs)) = xs.
Proof.
  intros H. induction xs as [|x xs IH]; intros k; [reflexivity|].
  simpl. rewrite H, IH. reflexivity.
Qed.

Lemma indexed_map_fst {A B C : Type} (f : nat -> A -> B) (g : B -> C)
  (h : nat -> C) (xs : list A) :
  (forall i x, g (f i x) = h i) ->
  forall k, map g (map (fun '(i, x) => f i x)
                       (combine (seq k (List.length xs)) xs))
            = map h (seq k (List.length xs)).
Proof.
  intros H. induction xs as [|x xs IH]; intros k; [reflexivity|].
  simpl. rewrite H, IH. reflexivity.
Qed.

Lemma makeLines_fields (groups : list (list Word)) :
  Forall (fun g => g <> []) groups ->
  map Line.words (makeLines groups) = groups
  /\ map Line.id (makeLines groups) = map lineId (seq 0 (List.length groups))
  /\ map Line.readingOrder (makeLines groups) = seq 0 (List.length groups).
Proof.
  intros H. unfold makeLines, indexed.
  rewrite (indexed_groups_map
             (fun lineIndex lineWords =>
                {| Line.id := lineId lineIndex;
                   Line.words := lineWords;
                   Line.bbox := calculateBoundingBox (map Word.bbox lineWords);
                   Line.readingOrder := lineIndex;
                   Line.alignment := Some al_left |}) H).
  split; [|split].
  - apply indexed_map_snd. reflexivity.
  - apply indexed_map_fst. reflexivity.
  - etransitivity; [|apply map_id].
    apply (@indexed_map_fst _ _ _ _ Line.readingOrder (fun i => i)).
    reflexivity.
Qed.

Lemma makeBlocks_fields (groups : list (list Line)) :
  Forall (fun g => g <> []) groups ->
  map Block.lines (makeBlocks groups) = groups
  /\ map Block.id (makeBlocks groups) = map blockId (seq 0 (List.length groups))
  /\ map Block.type (makeBlocks groups)
     = map (fun _ => bt_paragraph) (seq 0 (List.length groups)).
Proof.
  intros H. unfold makeBlocks, indexed.
  rewrite (indexed_groups_map
             (fun blockIndex blockLines =>
                {| Block.id := blockId blockIndex;
                   Block.type := bt_paragraph;
                   Block.bbox := calculateBoundingBox (map Line.bbox blockLines);
                   Block.lines := blockLines;
                   Block.confidence := blockConfidence blockLines;
                   Block.readingOrder := Some blockIndex;
                   Block.semanticRole := None |}) H).
  split; [|split].
  - apply indexed_map_snd. reflexivity.
  - apply indexed_map_fst. reflexivity.
  - apply indexed_map_fst. reflexivity.
Qed.

Lemma map_nonempty {A B : Type} (f : A -> list B) (xs : list A) :
  Forall (fun g => g <> []) (map f xs) -> Forall (fun x => f x <> []) xs.
Proof.
  induction xs as [|x xs IH]; intros H; [constructor|].
  inversion H; subst. constructor; [assumption|apply IH; assumption].
Qed.

(** X13. The page [performEnhancedOCR] returns is a hierarchy over its
    words: the words of the lines are the words of the page, each as often,
    so every word is in exactly one line; the lines of the blocks, read
    block after block, are the lines of the page in order; no line and no
    block is empty; and the lines are named line-0, line-1, ... with their
    position as reading order. *)
Theorem performEnhancedOCR_hierarchy :
  forall (nanoid : nat -> jsstring) (canvas : Canvas)
         (words : option (list OcrWord)) (pageNumber : number),
    let page := snd (performEnhancedOCR nanoid canvas words pageNumber) in
    Permutation (flat_map Line.words (Page.lines page)) (Page.words page)
    /\ flat_map Block.lines (Page.blocks page) = Page.lines page
    /\ Forall (fun l => Line.words l <> []) (Page.lines page)
    /\ Forall (fun b => Block.lines b <> []) (Page.blocks page)
    /\ map Line.id (Page.lines page)
       = map lineId (seq 0 (List.length (Page.lines page)))
    /\ map Line.readingOrder (Page.lines page)
       = seq 0 (List.length (Page.lines page)).
Proof.
  intros nanoid canvas words pageNumber. unfold performEnhancedOCR.
  destruct (match words with
            | Some ocrWords =>
                fold_left (pushWord nanoid canvas pageNumber) ocrWords ([], [])
            | None => ([], [])
            end) as [legacyChunks irWords].
  cbv zeta. cbn [snd Page.lines Page.words Page.blocks].
  destruct (makeLines_fields (groupWordsIntoLines_nonempty irWords))
    as [Hwords [Hids Horder]].
  set (lines := makeLines (groupWordsIntoLines irWords)) in *.
  destruct (makeBlocks_fields (groupLinesIntoBlocks_nonempty lines))
    as [Hlines _].
  assert (Hlen : List.length lines = List.length (groupWordsIntoLines irWords)).
  { apply (f_equal (@List.length (list Word))) in Hwords.
    rewrite length_map in Hwords. exact Hwords. }
  assert (Hflat : flat_map Line.words lines = sort compareWords irWords).
  { rewrite flat_map_concat_map, Hwords. apply groupWordsIntoLines_concat. }
  split; [rewrite Hflat; apply sort_perm|].
  split; [rewrite flat_map_concat_map, Hlines; apply groupLinesIntoBlocks_concat|].
  split; [apply map_nonempty; rewrite Hwords;
          apply groupWordsIntoLines_nonempty|].
  split; [apply map_nonempty; rewrite Hlines;
          apply groupLinesIntoBlocks_nonempty|].
  rewrite Hlen. split; assumption.
Qed.

(** X14. The loop of [groupWordsIntoLines] cuts the order the sort left
    the words in into consecutive slices, whatever that order is: two words
    that follow each other in it are on the same line exactly when their
    tops differ by less than 0.02; the next word then joins the line of the
    previous one, and otherwise opens the next line.  The result of
    [groupWordsIntoLines] is this loop run on some order of the words. *)
Theorem groupWordsIntoLines_break_rule :
  forall (sortedWords : list Word) (i : nat) (prev next : Word),
    nth_error sortedWords i = Some prev ->
    nth_error sortedWords (S i) = Some next ->
    let lines := linesOfSorted sortedWords in
    List.concat lines = sortedWords
    /\ (exists k,
           blockOf lines i = Some k
           /\ blockOf lines (S i)
              = Some (if lt (Math_abs (BoundingBox.y (Word.bbox next)
                                       - BoundingBox.y (Word.bbox prev))%float)
                            0.02%float
                      then k else S k))
    /\ (forall words,
           exists order,
             Permutation order words
             /\ groupWordsIntoLines words = linesOfSorted order).
Proof.
  intros sortedWords i prev next Hprev Hnext lines. subst lines.
  destruct sortedWords as [|first rest]; [destruct i; discriminate|].
  unfold linesOfSorted. rewrite linesLoop_splitLoop.
  split; [rewrite splitLoop_concat; reflexivity|]. split.
  - simpl in Hnext.
    destruct (splitLoop_step (fun l c => negb (onSameLine l c)) rest [] []
                             first i Hprev Hnext) as [k [E1 E2]].
    exists k. split; [exact E1|]. simpl in E2. rewrite E2.
    unfold onSameLine. destruct (lt _ _); reflexivity.
  - intros words. exists (sort compareWords words).
    split; [apply sort_perm|reflexivity].
Qed.

Lemma groupWordsIntoLines_break_rule_witness :
  let sortedWords := [ wordAt "a" 0.1%float 0.1%float;
                       wordAt "b" 0.5%float 0.105%float;
                       wordAt "c" 0.1%float 0.2%float ] in
  map (map Word.text) (linesOfSorted sortedWords)
  = [ [JS.str "a"; JS.str "b"]; [JS.str "c"] ]
  /\ exists k, blockOf (linesOfSorted sortedWords) 1 = Some k
               /\ blockOf (linesOfSorted sortedWords) 2 = Some (S k).
Proof.
  intros sortedWords. split; [vm_compute; reflexivity|].
  destruct (@groupWordsIntoLines_break_rule sortedWords 1
              (wordAt "b" 0.5%float 0.105%float)
              (wordAt "c" 0.1%float 0.2%float)
              eq_refl eq_refl) as [_ [Hk _]].
  exact Hk.
Defined.

End EnhancedHierarchy.

(** ** The chunks of the enhanced processor *)

Section EnhancedChunks.
Import JS Types Enhanced Spec.

Lemma chunkOfBlock_projected (page : Page) (block : Block) :
  chunkOfBlock page block
  = if hasText (blockText block) then [projectedChunk page block] else [].
Proof.
  unfold chunkOfBlock. rewrite trim_nonempty. reflexivity.
Qed.

Lemma generateTextChunks_In (irPages : list Page) (chunk : TextChunk number) :
  In chunk (generateTextChunks irPages) <->
  exists page block,
    In page irPages /\ In block (Page.blocks page)
    /\ hasText (blockText block) = true
    /\ chunk = projectedChunk page block.
Proof.
  unfold generateTextChunks. rewrite in_flat_map. split.
  - intros [page [Hpage Hin]]. apply in_flat_map in Hin.
    destruct Hin as [block [Hblock Hin]].
    rewrite chunkOfBlock_projected in Hin.
    destruct (hasText (blockText block)) eqn:E; [|destruct Hin].
    destruct Hin as [<-|[]]. exists page, block. repeat split; assumption.
  - intros [page [block [Hpage [Hblock [E ->]]]]].
    exists page. split; [exact Hpage|]. apply in_flat_map.
    exists block. split; [exact Hblock|].
    rewrite chunkOfBlock_projected, E. left. reflexivity.
Qed.

(** X15. Every chunk [generateTextChunks] emits comes from a block of one of
    the pages: it has the identifier of the block, the text of the block
    trimmed, which is not blank, and exactly one grounding, on the page
    number minus one.  So [transformGroundingToLegacy] never throws on an
    emitted chunk, and the legacy chunk keeps the identifier and the text. *)
Theorem generateTextChunks_chunks_grounded :
  forall (irPages : list Page) (chunk : TextChunk number),
    In chunk (generateTextChunks irPages) ->
    exists page block,
      In page irPages /\ In block (Page.blocks page)
      /\ TextChunk.chunk_id chunk = Block.id block
      /\ TextChunk.text chunk = trim (blockText block)
      /\ hasText (TextChunk.text chunk) = true
      /\ trim (TextChunk.text chunk) = TextChunk.text chunk
      /\ (exists box,
             TextChunk.grounding chunk
             = [ {| Grounding.page := (Page.pageNumber page - 1)%float;
                    Grounding.box := box |} ])
      /\ (forall pageWidth pageHeight : number,
             exists legacyChunk,
               transformGroundingToLegacy chunk pageWidth pageHeight
               = Ok legacyChunk
               /\ LegacyTextChunk.id legacyChunk = TextChunk.chunk_id chunk
               /\ LegacyTextChunk.text legacyChunk = TextChunk.text chunk
               /\ LegacyTextChunk.pageNumber legacyChunk
                  = (Page.pageNumber page - 1 + 1)%float).
Proof.
  intros irPages chunk H. apply generateTextChunks_In in H.
  destruct H as [page [block [Hpage [Hblock [E ->]]]]].
  exists page, block.
  split; [exact Hpage|]. split; [exact Hblock|].
  split; [reflexivity|]. split; [reflexivity|].
  cbn [projectedChunk TextChunk.text TextChunk.grounding TextChunk.chunk_id].
  split; [rewrite hasText_trim; exact E|].
  split; [apply trim_idempotent|].
  split; [eexists; reflexivity|].
  intros pageWidth pageHeight. eexists. split; [reflexivity|].
  repeat split.
Qed.

Lemma generateTextChunks_chunks_grounded_witness :
  exists chunk legacyChunk,
    In chunk (generateTextChunks twoPageDocument)
    /\ transformGroundingToLegacy chunk 1000%float 1000%float = Ok legacyChunk
    /\ LegacyTextChunk.id legacyChunk = TextChunk.chunk_id chunk.
Proof.
  assert (E : exists chunk rest,
             generateTextChunks twoPageDocument = chunk :: rest).
  { vm_compute. eexists. eexists. reflexivity. }
  destruct E as [chunk [rest E]].
  assert (Hin : In chunk (generateTextChunks twoPageDocument)).
  { rewrite E. left. reflexivity. }
  destruct (@generateTextChunks_chunks_grounded twoPageDocument chunk Hin)
    as [page [block [_ [_ [_ [_ [_ [_ [_ Hlegacy]]]]]]]]].
  destruct (Hlegacy 1000%float 1000%float) as [legacyChunk [Hok [Hid _]]].
  exists chunk, legacyChunk. repeat split; assumption.
Defined.

Lemma makeBlocks_paragraphs (groups : list (list Line)) :
  Forall (fun b => Block.type b = bt_paragraph) (makeBlocks groups).
Proof.
  apply Forall_forall. intros b Hb. unfold makeBlocks in Hb.
  apply in_flat_map in Hb. destruct Hb as [[i g] [_ Hb]].
  destruct (0 <? List.length g)%nat; [|destruct Hb].
  destruct Hb as [<-|[]]. reflexivity.
Qed.

Lemma processorPage_paragraphs (page : Page) :
  processorPage page ->
  Forall (fun b => Block.type b = bt_paragraph) (Page.blocks page).
Proof.
  intros [nanoid [canvas [words [pageNumber ->]]]].
  unfold performEnhancedOCR.
  destruct (match words with
            | Some ocrWords =>
                fold_left (pushWord nanoid canvas pageNumber) ocrWords ([], [])
            | None => ([], [])
            end) as [legacyChunks irWords].
  cbv zeta. cbn [snd Page.blocks]. apply makeBlocks_paragraphs.
Qed.

Lemma visible_blocks_projected (page : Page) (blocks : list Block) :
  Forall visibleBlock blocks ->
  flat_map (chunkOfBlock page) blocks = map (projectedChunk page) blocks.
Proof.
  induction 1 as [|b blocks Hb _ IH]; [reflexivity|].
  cbn [flat_map map]. rewrite IH, chunkOfBlock_projected, (blockText_visible Hb).
  reflexivity.
Qed.

Lemma blockId_NoDup (count : nat) : NoDup (map blockId (seq 0 count)).
Proof. apply (indexed_ids_NoDup (JS.str "block-")). Qed.

(** X16. On a page built by [performEnhancedOCR], the projection emits one
    chunk per block, in the order of the blocks: the chunks carry the
    identifiers block-0, block-1, ..., pairwise different within the page,
    the trimmed texts of the blocks, and all have the type [text]. *)
Theorem processor_page_chunks :
  forall (nanoid : nat -> jsstring) (canvas : Canvas)
         (words : option (list OcrWord)) (pageNumber : number),
    let page := snd (performEnhancedOCR nanoid canvas words pageNumber) in
    let chunks := generateTextChunks [page] in
    chunks = map (projectedChunk page) (Page.blocks page)
    /\ map (@TextChunk.chunk_id number) chunks
       = map blockId (seq 0 (List.length (Page.blocks page)))
    /\ NoDup (map (@TextChunk.chunk_id number) chunks)
    /\ Forall (fun chunk => TextChunk.chunk_type chunk = ct_text) chunks.
Proof.
  intros nanoid canvas words pageNumber page chunks.
  destruct (performEnhancedOCR_blocks nanoid canvas words pageNumber)
    as [Hids Hvisible].
  fold page in Hids, Hvisible.
  assert (E : chunks = map (projectedChunk page) (Page.blocks page)).
  { unfold chunks, generateTextChunks. cbn [flat_map].
    rewrite app_nil_r. apply visible_blocks_projected, Hvisible. }
  assert (Eids : map (@TextChunk.chunk_id number) chunks
                 = map blockId (seq 0 (List.length (Page.blocks page)))).
  { rewrite E, map_map. exact Hids. }
  split; [exact E|]. split; [exact Eids|].
  split; [rewrite Eids; apply blockId_NoDup|].
  rewrite E. apply Forall_forall. intros chunk Hin.
  apply in_map_iff in Hin. destruct Hin as [b [<- Hb]].
  assert (P : processorPage page).
  { exists nanoid, canvas, words, pageNumber. reflexivity. }
  pose proof (processorPage_paragraphs P) as Hpar.
  rewrite Forall_forall in Hpar.
  cbn [projectedChunk TextChunk.chunk_type]. rewrite (Hpar b Hb). reflexivity.
Qed.

(** X17. For a document whose pages were built by [performEnhancedOCR],
    the markdown of the extraction result is the chunk texts separated by
    blank lines: every chunk has the type [text], so no heading or list
    markup is ever produced. *)
Theorem generateMarkdown_of_processor_pages :
  forall irPages : list Page,
    Forall processorPage irPages ->
    generateMarkdown (documentChunks irPages)
    = join [newline; newline]
           (map (@TextChunk.text number) (documentChunks irPages)).
Proof.
  intros irPages H. unfold generateMarkdown. f_equal.
  apply map_ext_in. intros chunk Hin. unfold documentChunks in Hin.
  apply generateTextChunks_In in Hin.
  destruct Hin as [page [block [Hpage [Hblock [_ ->]]]]].
  apply (Permutation_in _ (sort_perm comparePages irPages)) in Hpage.
  rewrite Forall_forall in H.
  pose proof (processorPage_paragraphs (H page Hpage)) as Hpar.
  rewrite Forall_forall in Hpar.
  unfold markdownOfChunk. cbn [projectedChunk TextChunk.chunk_type TextChunk.text].
  rewrite (Hpar block Hblock). reflexivity.
Qed.

Lemma generateMarkdown_of_processor_pages_witness :
  generateMarkdown (documentChunks twoPageDocument)
  = join [newline; newline]
         (map (@TextChunk.text number) (documentChunks twoPageDocument)).
Proof.
  apply generateMarkdown_of_processor_pages.
  repeat constructor; eexists; eexists; eexists; eexists; reflexivity.
Defined.

End EnhancedChunks.

(** ** The order of the numbers *)

Section NumberOrder.
Import JS.

Lemma SFcompare_refl (x : spec_float) :
  x <> S754_nan -> SFcompare x x = Some Eq.
Proof.
  destruct x as [s|s| |s m e]; intros H; simpl; try reflexivity;
    try (destruct s; reflexivity); [congruence|].
  change PosDef.Pos.compare_cont with Pos.compare_cont.
  change (Pos.compare_cont Eq m m) with (Pos.compare m m).
  destruct s; rewrite Z.compare_refl, Pos.compare_refl; reflexivity.
Qed.

Lemma SFleb_trans (x y z : spec_float) :
  SFleb x y = true -> SFleb y z = true -> SFleb x z = true.
Proof.
  unfold SFleb.
  destruct x as [s1|s1| |s1 m1 e1], y as [s2|s2| |s2 m2 e2],
           z as [s3|s3| |s3 m3 e3]; simpl;
    try discriminate; try reflexivity;
    try (destruct s1; simpl; try discriminate; try reflexivity; fail);
    try (destruct s2; simpl; try discriminate; try reflexivity; fail);
    try (destruct s3; simpl; try discriminate; try reflexivity; fail);
    try (destruct s1, s2; simpl; try discriminate; try reflexivity; fail);
    try (destruct s1, s3; simpl; try discriminate; try reflexivity; fail);
    try (destruct s2, s3; simpl; try discriminate; try reflexivity; fail);
    try (destruct s1, s2, s3; simpl; try discriminate; try reflexivity; fail).
  all: change PosDef.Pos.compare_cont with Pos.compare_cont.
  all: change (Pos.compare_cont Eq m1 m2) with (Pos.compare m1 m2).
  all: change (Pos.compare_cont Eq m2 m3) with (Pos.compare m2 m3).
  all: change (Pos.compare_cont Eq m1 m3) with (Pos.compare m1 m3).
  all: destruct s1, s2, s3; simpl; try discriminate; try reflexivity.
  all: destruct (Z.compare_spec e1 e2), (Z.compare_spec e2 e3),
         (Z.compare_spec e1 e3); simpl; try discriminate; try reflexivity;
       try lia; subst.
  all: destruct (Pos.compare_spec m1 m2), (Pos.compare_spec m2 m3),
         (Pos.compare_spec m1 m3); simpl; try discriminate; try reflexivity;
       try lia.
Qed.

(** A number that is not NaN compares equal to itself. *)
Lemma number_compare_refl (a : number) :
  PrimFloat.is_nan a = false -> SFcompare (Prim2SF a) (Prim2SF a) = Some Eq.
Proof.
  unfold PrimFloat.is_nan. rewrite FloatAxioms.eqb_spec. unfold SFeqb.
  destruct (SFcompare (Prim2SF a) (Prim2SF a)) as [[]|] eqn:E;
    simpl; intros H; try discriminate; reflexivity.
Qed.

Lemma number_le_refl (a : number) :
  PrimFloat.is_nan a = false -> le a a = true.
Proof.
  intros H. unfold le. rewrite FloatAxioms.leb_spec. unfold SFleb.
  rewrite (number_compare_refl a H). reflexivity.
Qed.

Lemma number_le_trans (a b c : number) :
  le a b = true -> le b c = true -> le a c = true.
Proof.
  unfold le. rewrite !FloatAxioms.leb_spec. apply SFleb_trans.
Qed.

Lemma number_lt_le (a b : number) : lt a b = true -> le a b = true.
Proof.
  unfold lt, le. rewrite FloatAxioms.ltb_spec, FloatAxioms.leb_spec.
  unfold SFltb, SFleb.
  destruct (SFcompare (Prim2SF a) (Prim2SF b)) as [[]|]; congruence.
Qed.

(** Two numbers, none of them NaN and none below the other, are below or
    equal to each other. *)
Lemma number_le_of_not_lt (a b : number) :
  PrimFloat.is_nan a = false -> PrimFloat.is_nan b = false ->
  lt a b = false -> lt b a = false ->
  le a b = true /\ le b a = true.
Proof.
  intros Ha Hb. unfold lt, le.
  rewrite !FloatAxioms.ltb_spec, !FloatAxioms.leb_spec. unfold SFltb, SFleb.
  rewrite (SFcompare_antisym (Prim2SF a) (Prim2SF b)).
  pose proof (number_compare_refl a Ha) as Ra.
  pose proof (number_compare_refl b Hb) as Rb.
  destruct (Prim2SF a) as [s1|s1| |s1 m1 e1] eqn:Ea,
           (Prim2SF b) as [s2|s2| |s2 m2 e2] eqn:Eb;
    try discriminate;
    match goal with
    | |- context [SFcompare ?x ?y] =>
        destruct (SFcompare x y) as [[]|] eqn:E; simpl; try congruence;
        try (split; reflexivity)
    end;
    simpl in E; try discriminate;
    try (destruct s1; discriminate); try (destruct s2; discriminate);
    try (destruct s1, s2; discriminate).
Qed.

Lemma Math_min_not_nan (a b : number) :
  PrimFloat.is_nan (Math_min a b) = false ->
  PrimFloat.is_nan a = false /\ PrimFloat.is_nan b = false.
Proof.
  unfold Math_min.
  destruct (PrimFloat.is_nan a), (PrimFloat.is_nan b); simpl;
    try (vm_compute; discriminate). split; reflexivity.
Qed.

Lemma Math_max_not_nan (a b : number) :
  PrimFloat.is_nan (Math_max a b) = false ->
  PrimFloat.is_nan a = false /\ PrimFloat.is_nan b = false.
Proof.
  unfold Math_max.
  destruct (PrimFloat.is_nan a), (PrimFloat.is_nan b); simpl;
    try (vm_compute; discriminate). split; reflexivity.
Qed.

Lemma Math_min_le (a b : number) :
  PrimFloat.is_nan a = false -> PrimFloat.is_nan b = false ->
  le (Math_min a b) a = true /\ le (Math_min a b) b = true.
Proof.
  intros Ha Hb. unfold Math_min. rewrite Ha, Hb. simpl.
  destruct (PrimFloat.ltb a b) eqn:L1.
  - split; [apply number_le_refl, Ha|apply number_lt_le, L1].
  - destruct (PrimFloat.ltb b a) eqn:L2.
    + split; [apply number_lt_le, L2|apply number_le_refl, Hb].
    + destruct (number_le_of_not_lt Ha Hb L1 L2) as [Hab Hba].
      destruct (isNegZero a).
      * split; [apply number_le_refl, Ha|exact Hab].
      * split; [exact Hba|apply number_le_refl, Hb].
Qed.

Lemma Math_max_ge (a b : number) :
  PrimFloat.is_nan a = false -> PrimFloat.is_nan b = false ->
  le a (Math_max a b) = true /\ le b (Math_max a b) = true.
Proof.
  intros Ha Hb. unfold Math_max. rewrite Ha, Hb. simpl.
  destruct (PrimFloat.ltb a b) eqn:L1.
  - split; [apply number_lt_le, L1|apply number_le_refl, Hb].
  - destruct (PrimFloat.ltb b a) eqn:L2.
    + split; [apply number_le_refl, Ha|apply number_lt_le, L2].
    + destruct (number_le_of_not_lt Ha Hb L1 L2) as [Hab Hba].
      destruct (isNegZero a).
      * split; [exact Hab|apply number_le_refl, Hb].
      * split; [apply number_le_refl, Ha|exact Hba].
Qed.

(** [Math.min(...xs)], when it is not NaN, is below or equal to every
    argument. *)
Lemma Math_min_fold_le (xs : list number) :
  forall acc,
    PrimFloat.is_nan (fold_left Math_min xs acc) = false ->
    le (fold_left Math_min xs acc) acc = true
    /\ forall x, In x xs -> le (fold_left Math_min xs acc) x = true.
Proof.
  induction xs as [|y xs IH]; intros acc H; simpl in *.
  - split; [|intros x []].
    apply number_le_refl, H.
  - destruct (IH _ H) as [Hacc Hxs].
    assert (Hm : PrimFloat.is_nan (Math_min acc y) = false).
    { destruct (PrimFloat.is_nan (Math_min acc y)) eqn:E; [|reflexivity].
      exfalso. clear - H E. revert H. generalize (Math_min acc y) E.
      induction xs as [|z xs IHxs]; intros m Em Hf; simpl in Hf; [congruence|].
      apply (IHxs (Math_min m z)); [|exact Hf].
      unfold Math_min. rewrite Em. reflexivity. }
    destruct (Math_min_not_nan acc y Hm) as [Ha Hy].
    destruct (@Math_min_le acc y Ha Hy) as [L1 L2].
    split; [exact (number_le_trans Hacc L1)|].
    intros x [<-|Hx]; [exact (number_le_trans Hacc L2)|exact (Hxs x Hx)].
Qed.

Lemma Math_max_fold_ge (xs : list number) :
  forall acc,
    PrimFloat.is_nan (fold_left Math_max xs acc) = false ->
    le acc (fold_left Math_max xs acc) = true
    /\ forall x, In x xs -> le x (fold_left Math_max xs acc) = true.
Proof.
  induction xs as [|y xs IH]; intros acc H; simpl in *.
  - split; [|intros x []].
    apply number_le_refl, H.
  - destruct (IH _ H) as [Hacc Hxs].
    assert (Hm : PrimFloat.is_nan (Math_max acc y) = false).
    { destruct (PrimFloat.is_nan (Math_max acc y)) eqn:E; [|reflexivity].
      exfalso. clear - H E. revert H. generalize (Math_max acc y) E.
      induction xs as [|z xs IHxs]; intros m Em Hf; simpl in Hf; [congruence|].
      apply (IHxs (Math_max m z)); [|exact Hf].
      unfold Math_max. rewrite Em. reflexivity. }
    destruct (Math_max_not_nan acc y Hm) as [Ha Hy].
    destruct (@Math_max_ge acc y Ha Hy) as [L1 L2].
    split; [exact (number_le_trans L1 Hacc)|].
    intros x [<-|Hx]; [exact (number_le_trans L2 Hacc)|exact (Hxs x Hx)].
Qed.

End NumberOrder.

(** ** Binary64 arithmetic

    Facts about the rounding of the binary64 operations, from the
    specification of the primitive floats. *)

Section FloatFormat.
Import Binary64.
Local Open Scope Z_scope.


Lemma fexp_spec (z : Z) : SpecFloat.fexp prec emax z = Z.max (z - 53) (-1074).
Proof. reflexivity. Qed.

(** *** Digits *)

Lemma digits2_pos_bounds (p : positive) :
  2 ^ (Zpos (digits2_pos p) - 1) <= Zpos p < 2 ^ Zpos (digits2_pos p).
Proof.
  induction p as [p IH|p IH|]; cbn [digits2_pos].
  - rewrite Pos2Z.inj_succ, (Pos2Z.inj_xI p).
    replace (Z.succ (Zpos (digits2_pos p)) - 1) with (Z.succ (Zpos (digits2_pos p) - 1)) by lia.
    rewrite !Z.pow_succ_r by lia.
    revert IH. generalize (2 ^ (Zpos (digits2_pos p) - 1)) (2 ^ Zpos (digits2_pos p)). lia.
  - rewrite Pos2Z.inj_succ, (Pos2Z.inj_xO p).
    replace (Z.succ (Zpos (digits2_pos p)) - 1) with (Z.succ (Zpos (digits2_pos p) - 1)) by lia.
    rewrite !Z.pow_succ_r by lia.
    revert IH. generalize (2 ^ (Zpos (digits2_pos p) - 1)) (2 ^ Zpos (digits2_pos p)). lia.
  - simpl. lia.
Qed.

(** *** Right shifts *)

Lemma shr_1_m (mrs : shr_record) :
  0 <= shr_m mrs -> shr_m (shr_1 mrs) = shr_m mrs / 2.
Proof.
  destruct mrs as [m r s]. cbn [shr_m]. intros H.
  destruct m as [|[p|p|]|p]; cbn [shr_1 shr_m]; try lia.
  - reflexivity.
  - rewrite (Pos2Z.inj_xI p). apply Z.div_unique with 1; lia.
  - rewrite (Pos2Z.inj_xO p). apply Z.div_unique with 0; lia.
  - reflexivity.
Qed.

Lemma iter_pos_shr_1 (p : positive) :
  forall mrs : shr_record,
    0 <= shr_m mrs ->
    shr_m (SpecFloat.iter_pos shr_1 p mrs) = shr_m mrs / 2 ^ Zpos p.
Proof.
  induction p as [p IH|p IH|]; intros mrs H; cbn [SpecFloat.iter_pos].
  - assert (H1 : 0 <= shr_m (shr_1 mrs)).
    { rewrite shr_1_m by exact H. apply Z.div_pos; lia. }
    assert (H2 : 0 <= shr_m (SpecFloat.iter_pos shr_1 p (shr_1 mrs))).
    { rewrite IH by exact H1. apply Z.div_pos; [exact H1|apply Z.pow_pos_nonneg; lia]. }
    rewrite IH by exact H2. rewrite IH by exact H1. rewrite shr_1_m by exact H.
    rewrite !Z.div_div by (try lia; apply Z.pow_pos_nonneg; lia).
    f_equal. rewrite (Pos2Z.inj_xI p).
    replace (2 * Zpos p + 1) with (1 + Zpos p + Zpos p) by lia.
    rewrite !Z.pow_add_r by lia. change (2 ^ 1) with 2. ring.
  - assert (H2 : 0 <= shr_m (SpecFloat.iter_pos shr_1 p mrs)).
    { rewrite IH by exact H. apply Z.div_pos; [exact H|apply Z.pow_pos_nonneg; lia]. }
    rewrite IH by exact H2. rewrite IH by exact H.
    rewrite !Z.div_div by (try lia; apply Z.pow_pos_nonneg; lia).
    f_equal. rewrite (Pos2Z.inj_xO p).
    replace (2 * Zpos p) with (Zpos p + Zpos p) by lia.
    rewrite Z.pow_add_r by lia. ring.
  - rewrite shr_1_m by exact H. reflexivity.
Qed.

Lemma shr_record_of_loc_m (m : Z) (l : location) :
  shr_m (shr_record_of_loc m l) = m.
Proof. destruct l as [|[]]; reflexivity. Qed.

(** The mantissa and the exponent [shr] gives. *)
Lemma shr_spec (mrs : shr_record) (e n : Z) :
  0 <= shr_m mrs ->
  shr_m (fst (shr mrs e n)) = shr_m mrs / 2 ^ Z.max n 0
  /\ snd (shr mrs e n) = e + Z.max n 0.
Proof.
  intros H. destruct n as [|p|p]; cbn [shr fst snd].
  - rewrite Z.div_1_r. split; lia.
  - rewrite iter_pos_shr_1 by exact H.
    replace (Z.max (Zpos p) 0) with (Zpos p) by lia. split; reflexivity.
  - replace (Z.max (Zneg p) 0) with 0 by lia. rewrite Z.div_1_r. split; lia.
Qed.

(** What [shr_fexp] gives on a positive mantissa: the shift count is the
    number of digits above the precision, or the distance to the least
    exponent. *)
Lemma shr_fexp_spec (p : positive) (e : Z) (l : location) :
  let n := Z.max (SpecFloat.fexp prec emax (Zpos (digits2_pos p) + e) - e) 0 in
  shr_m (fst (shr_fexp prec emax (Zpos p) e l)) = Zpos p / 2 ^ n
  /\ snd (shr_fexp prec emax (Zpos p) e l) = e + n.
Proof.
  intros n. unfold shr_fexp. cbn [Zdigits2].
  pose proof (@shr_spec (shr_record_of_loc (Zpos p) l) e
                (SpecFloat.fexp prec emax (Zpos (digits2_pos p) + e) - e)) as H.
  rewrite shr_record_of_loc_m in H. apply H. lia.
Qed.

(** Above the least exponent a right shift leaves a positive mantissa. *)
Lemma shr_fexp_pos (p : positive) (e : Z) (l : location) :
  (-1074) <= e ->
  0 < shr_m (fst (shr_fexp prec emax (Zpos p) e l))
  /\ (-1074) <= snd (shr_fexp prec emax (Zpos p) e l).
Proof.
  intros He.
  destruct (shr_fexp_spec p e l) as [Hm Hs]. cbv zeta in Hm, Hs.
  rewrite Hm, Hs. clear Hm Hs.
  pose proof (digits2_pos_bounds p) as [Hlo Hhi].
  set (d := Zpos (digits2_pos p)) in *.
  assert (Hd : 0 < d) by (unfold d; lia).
  rewrite fexp_spec.
  split; [|lia].
  assert (E : Z.max (Z.max (d + e - 53) (-1074) - e) 0 = 0
              \/ (Z.max (Z.max (d + e - 53) (-1074) - e) 0 = d - 53
                  /\ 0 < d - 53)) by lia.
  destruct E as [E|[E Hpos]]; rewrite E.
  - change (2 ^ 0) with 1. rewrite Z.div_1_r. lia.
  - apply Z.div_str_pos. split; [apply Z.pow_pos_nonneg; lia|].
    eapply Z.le_trans; [|exact Hlo].
    apply Z.pow_le_mono_r; lia.
Qed.

Lemma round_nearest_even_pos (m : Z) (l : location) :
  0 < m -> 0 < round_nearest_even m l.
Proof.
  intros H. destruct l as [|[]]; cbn [round_nearest_even]; try lia.
  destruct (Z.even m); lia.
Qed.

(** Rounding a positive mantissa above the least exponent gives a number
    of the same sign: finite and not zero, or infinite. *)
Lemma binary_round_aux_sign (s : bool) (p : positive) (e : Z) (l : location) :
  (-1074) <= e ->
  (exists m' e', binary_round_aux prec emax s (Zpos p) e l = S754_finite s m' e')
  \/ binary_round_aux prec emax s (Zpos p) e l = S754_infinity s.
Proof.
  intros He. unfold binary_round_aux.
  destruct (@shr_fexp_pos p e l He) as [Hm He'].
  destruct (shr_fexp prec emax (Zpos p) e l) as [mrs' e'].
  cbn [fst snd] in Hm, He'.
  pose proof (@round_nearest_even_pos (shr_m mrs') (loc_of_shr_record mrs') Hm) as Hr.
  destruct (round_nearest_even (shr_m mrs') (loc_of_shr_record mrs')) as [|q|q];
    try lia.
  destruct (@shr_fexp_pos q e' loc_Exact He') as [Hm2 _].
  destruct (shr_fexp prec emax (Zpos q) e' loc_Exact) as [mrs'' e''].
  cbn [fst] in Hm2.
  destruct (shr_m mrs'') as [|m2|m2]; try lia.
  destruct (e'' <=? emax - prec); [left; eauto|right; reflexivity].
Qed.

Lemma shl_align_exponent (m : positive) (e e' : Z) :
  snd (shl_align m e e') = Z.min e e'.
Proof.
  unfold shl_align. destruct (e' - e) as [|d|d] eqn:E; cbn [snd]; lia.
Qed.

Lemma iter_xO (d : positive) :
  forall m : positive, Zpos (Pos.iter xO m d) = Zpos m * 2 ^ Zpos d.
Proof.
  induction d as [|d IH] using Pos.peano_ind; intros m.
  - cbn [Pos.iter]. rewrite (Pos2Z.inj_xO m). change (2 ^ 1) with 2. lia.
  - rewrite Pos.iter_succ, (Pos2Z.inj_xO (Pos.iter xO m d)), IH, Pos2Z.inj_succ.
    rewrite Z.pow_succ_r by lia. ring.
Qed.

Lemma shl_align_mantissa (m : positive) (e e' : Z) :
  Zpos (fst (shl_align m e e')) = Zpos m * 2 ^ (e - Z.min e e').
Proof.
  unfold shl_align. destruct (e' - e) as [|d|d] eqn:E; cbn [fst].
  - replace (e - Z.min e e') with 0 by lia. lia.
  - replace (e - Z.min e e') with 0 by lia. lia.
  - rewrite iter_xO. replace (e - Z.min e e') with (Zpos d) by lia. reflexivity.
Qed.

Lemma binary_round_sign (s : bool) (p : positive) (e : Z) :
  (-1074) <= e ->
  (exists m' e', binary_round prec emax s p e = S754_finite s m' e')
  \/ binary_round prec emax s p e = S754_infinity s.
Proof.
  intros He. unfold binary_round.
  pose proof (shl_align_exponent p e (SpecFloat.fexp prec emax (Zpos (digits2_pos p) + e))) as Hs.
  destruct (shl_align p e (SpecFloat.fexp prec emax (Zpos (digits2_pos p) + e))) as [mz ez].
  cbn [snd] in Hs. apply binary_round_aux_sign.
  rewrite Hs, fexp_spec. lia.
Qed.

(** *** Canonical numbers *)

Lemma bounded_spec (m : positive) (e : Z) :
  SpecFloat.bounded prec emax m e = true ->
  -1074 <= e <= 971
  /\ Zpos (digits2_pos m) <= 53
  /\ (-1074 < e -> Zpos (digits2_pos m) = 53).
Proof.
  unfold bounded, canonical_mantissa. intros H.
  apply andb_true_iff in H. destruct H as [H1 H2].
  apply Z.eqb_eq in H1. apply Z.leb_le in H2.
  rewrite fexp_spec in H1. change (emax - prec) with 971 in H2. lia.
Qed.

(** The order of two finite numbers is the order of their mantissas once
    they are brought to the smaller exponent. *)
Lemma mantissa_lt_of_exponent_lt (mx my : positive) (ex ey : Z) :
  SpecFloat.bounded prec emax mx ex = true -> SpecFloat.bounded prec emax my ey = true ->
  ex < ey ->
  Zpos mx < Zpos my * 2 ^ (ey - ex).
Proof.
  intros Bx By Hlt.
  destruct (@bounded_spec _ _ Bx) as [Hex [Hdx _]].
  destruct (@bounded_spec _ _ By) as [Hey [_ Hdy]].
  pose proof (digits2_pos_bounds mx) as [_ Hx].
  pose proof (digits2_pos_bounds my) as [Hy _].
  rewrite Hdy in Hy by lia. change (2 ^ (53 - 1)) with (2 ^ 52) in Hy.
  assert (Hx' : Zpos mx < 2 ^ 53).
  { eapply Z.lt_le_trans; [exact Hx|]. apply Z.pow_le_mono_r; lia. }
  assert (Hp : 2 ^ 1 <= 2 ^ (ey - ex)) by (apply Z.pow_le_mono_r; lia).
  change (2 ^ 1) with 2 in Hp.
  assert (Hm : 2 ^ 52 * 2 <= Zpos my * 2 ^ (ey - ex)).
  { apply Z.mul_le_mono_nonneg; lia. }
  change (2 ^ 52 * 2) with (2 ^ 53) in Hm. lia.
Qed.

Lemma SFcompare_aligned (sx sy : bool) (mx my : positive) (ex ey : Z) :
  SpecFloat.bounded prec emax mx ex = true -> SpecFloat.bounded prec emax my ey = true ->
  SFcompare (S754_finite sx mx ex) (S754_finite sy my ey)
  = Some (alignedValue sx mx ex (Z.min ex ey)
          ?= alignedValue sy my ey (Z.min ex ey)).
Proof.
  intros Bx By. unfold alignedValue. cbn [SFcompare]. f_equal.
  assert (Px : 0 < Zpos mx * 2 ^ (ex - Z.min ex ey)).
  { apply Z.mul_pos_pos; [lia|apply Z.pow_pos_nonneg; lia]. }
  assert (Py : 0 < Zpos my * 2 ^ (ey - Z.min ex ey)).
  { apply Z.mul_pos_pos; [lia|apply Z.pow_pos_nonneg; lia]. }
  assert (Hsame :
            match ex ?= ey with
            | Eq => Pos.compare_cont Eq mx my
            | Lt => Lt
            | Gt => Gt
            end
            = (Zpos mx * 2 ^ (ex - Z.min ex ey)
               ?= Zpos my * 2 ^ (ey - Z.min ex ey))).
  { destruct (Z.compare_spec ex ey) as [E|L|G].
    - subst ey. rewrite Z.min_id, Z.sub_diag. change (2 ^ 0) with 1.
      rewrite !Z.mul_1_r. reflexivity.
    - replace (Z.min ex ey) with ex by lia. rewrite Z.sub_diag.
      change (2 ^ 0) with 1. rewrite Z.mul_1_r. symmetry.
      apply Z.compare_lt_iff. apply mantissa_lt_of_exponent_lt; assumption.
    - replace (Z.min ex ey) with ey by lia. rewrite Z.sub_diag.
      change (2 ^ 0) with 1. rewrite Z.mul_1_r. symmetry.
      apply Z.compare_gt_iff. apply mantissa_lt_of_exponent_lt; assumption. }
  destruct sx, sy; cbn [cond_Zopp].
  - rewrite Z.compare_opp.
    rewrite (Z.compare_antisym (Zpos mx * 2 ^ (ex - Z.min ex ey))
                               (Zpos my * 2 ^ (ey - Z.min ex ey))).
    rewrite <- Hsame. destruct (ex ?= ey); reflexivity.
  - symmetry. apply Z.compare_lt_iff. lia.
  - symmetry. apply Z.compare_gt_iff. lia.
  - exact Hsame.
Qed.

(** *** The sign of a difference *)

Lemma binary_normalize_sign (m e : Z) :
  -1074 <= e ->
  positiveSF (binary_normalize prec emax m e false) = (0 <? m)
  /\ negativeSF (binary_normalize prec emax m e false) = (m <? 0).
Proof.
  intros He. destruct m as [|p|p]; cbn [binary_normalize].
  - split; reflexivity.
  - destruct (@binary_round_sign false p e He) as [[m' [e' E]]|E]; rewrite E;
      split; reflexivity.
  - destruct (@binary_round_sign true p e He) as [[m' [e' E]]|E]; rewrite E;
      split; reflexivity.
Qed.

Lemma SFsub_sign (x y : spec_float) :
  valid_binary x = true -> valid_binary y = true ->
  x <> S754_nan -> y <> S754_nan ->
  positiveSF (SF64sub x y) = SFltb y x
  /\ negativeSF (SF64sub x y) = SFltb x y.
Proof.
  intros Vx Vy Nx Ny.
  destruct x as [sx|sx| |sx mx ex], y as [sy|sy| |sy my ey];
    try congruence;
    try (destruct sx, sy; split; reflexivity);
    try (destruct sx; split; reflexivity);
    try (destruct sy; split; reflexivity).
  cbn [valid_binary] in Vx, Vy.
  destruct (@bounded_spec _ _ Vx) as [Hex _]. destruct (@bounded_spec _ _ Vy) as [Hey _].
  unfold SF64sub, SFsub.
  change (IntDef.Z.min ex ey) with (Z.min ex ey).
  rewrite !shl_align_mantissa.
  replace (Z.min ex (Z.min ex ey)) with (Z.min ex ey) by lia.
  replace (Z.min ey (Z.min ex ey)) with (Z.min ex ey) by lia.
  destruct (@binary_normalize_sign
              (cond_Zopp sx (Zpos mx * 2 ^ (ex - Z.min ex ey))
               - cond_Zopp sy (Zpos my * 2 ^ (ey - Z.min ex ey)))
              (Z.min ex ey)) as [Hp Hn]; [lia|].
  rewrite Hp, Hn. unfold SFltb.
  rewrite (@SFcompare_aligned sy sx _ _ _ _ Vy Vx), (@SFcompare_aligned sx sy _ _ _ _ Vx Vy).
  unfold alignedValue. rewrite (Z.min_comm ey ex).
  set (X := cond_Zopp sx (Zpos mx * 2 ^ (ex - Z.min ex ey))).
  set (Y := cond_Zopp sy (Zpos my * 2 ^ (ey - Z.min ex ey))).
  split.
  - destruct (Z.compare_spec Y X), (Z.ltb_spec 0 (X - Y)); (reflexivity || lia).
  - destruct (Z.compare_spec X Y), (Z.ltb_spec (X - Y) 0); (reflexivity || lia).
Qed.

End FloatFormat.

(** ** The sign of a difference of two numbers *)

Section Numbers.
Local Open Scope float_scope.

Lemma not_nan_spec (a : float) :
  PrimFloat.is_nan a = false -> Prim2SF a <> S754_nan.
Proof.
  unfold PrimFloat.is_nan. rewrite FloatAxioms.eqb_spec. intros H E.
  rewrite E in H. discriminate.
Qed.

(** The sign of a difference is the order of its operands. *)
Lemma sub_sign (a b : float) :
  PrimFloat.is_nan a = false -> PrimFloat.is_nan b = false ->
  PrimFloat.ltb 0 (a - b) = PrimFloat.ltb b a
  /\ PrimFloat.ltb (a - b) 0 = PrimFloat.ltb a b.
Proof.
  intros Ha Hb. rewrite !FloatAxioms.ltb_spec, FloatAxioms.sub_spec.
  exact (@SFsub_sign _ _ (Prim2SF_valid a) (Prim2SF_valid b)
                    (@not_nan_spec a Ha) (@not_nan_spec b Hb)).
Qed.

End Numbers.

(** ** Powers of two *)

Section PowersOfTwo.
Import Binary64.
Local Open Scope R_scope.

Lemma pow2_pos (e : Z) : 0 < pow2 e.
Proof. apply powerRZ_lt. lra. Qed.

Lemma pow2_add (a b : Z) : pow2 (a + b) = pow2 a * pow2 b.
Proof. apply powerRZ_add. lra. Qed.

Lemma pow2_IZR (n : Z) : (0 <= n)%Z -> pow2 n = IZR (2 ^ n).
Proof.
  intros H. unfold pow2. rewrite <- (Z2Nat.id n H).
  rewrite <- pow_powerRZ, pow_IZR. reflexivity.
Qed.

Lemma pow2_ge_1 (n : Z) : (0 <= n)%Z -> 1 <= pow2 n.
Proof.
  intros H. rewrite (pow2_IZR H). apply IZR_le.
  pose proof (Z.pow_pos_nonneg 2 n). lia.
Qed.

Lemma pow2_le (a b : Z) : (a <= b)%Z -> pow2 a <= pow2 b.
Proof.
  intros H. replace b with (a + (b - a))%Z by lia. rewrite pow2_add.
  pose proof (pow2_pos a). pose proof (@pow2_ge_1 (b - a) ltac:(lia)). nra.
Qed.

Lemma pow2_lt (a b : Z) : (a < b)%Z -> pow2 a < pow2 b.
Proof.
  intros H. replace b with (a + 1 + (b - a - 1))%Z by lia. rewrite !pow2_add.
  pose proof (pow2_pos a). pose proof (@pow2_ge_1 (b - a - 1) ltac:(lia)).
  change (pow2 1) with (2 * 1). nra.
Qed.

Lemma pow2_lt_inv (a b : Z) : pow2 a < pow2 b -> (a < b)%Z.
Proof.
  intros H. destruct (Z_lt_le_dec a b) as [L|L]; [exact L|].
  apply pow2_le in L. lra.
Qed.

Lemma pow2_le_inv (a b : Z) : pow2 a <= pow2 b -> (a <= b)%Z.
Proof.
  intros H. destruct (Z_le_gt_dec a b) as [L|L]; [exact L|].
  assert (L' : (b < a)%Z) by lia. apply pow2_lt in L'. lra.
Qed.

End PowersOfTwo.

(** ** The two steps of a rounding *)

Section RoundingSteps.
Import Binary64.
Local Open Scope Z_scope.

Lemma digits2_pos_unique (p : positive) (k : Z) :
  2 ^ (k - 1) <= Zpos p < 2 ^ k -> Zpos (digits2_pos p) = k.
Proof.
  intros [L U]. pose proof (digits2_pos_bounds p) as [L' U'].
  destruct (Z.lt_trichotomy (Zpos (digits2_pos p)) k) as [H|[H|H]]; [|exact H|].
  - assert (2 ^ Zpos (digits2_pos p) <= 2 ^ (k - 1)) by (apply Z.pow_le_mono_r; lia).
    lia.
  - assert (2 ^ k <= 2 ^ (Zpos (digits2_pos p) - 1)).
    { destruct (Z_lt_le_dec k 0) as [N|N].
      - rewrite (Z.pow_neg_r 2 k N). apply Z.pow_nonneg. lia.
      - apply Z.pow_le_mono_r; lia. }
    lia.
Qed.

Lemma round_nearest_even_cases (m : Z) (l : location) :
  round_nearest_even m l = m \/ round_nearest_even m l = m + 1.
Proof.
  destruct l as [|[]]; cbn [round_nearest_even]; auto.
  destruct (Z.even m); auto.
Qed.

(** Rounding a mantissa of at least 53 bits, away from underflow and
    overflow: the result is finite and its mantissa is the mantissa cut to
    53 bits, or the next one. *)
Lemma binary_round_aux_normal (s : bool) (p : positive) (e : Z) (l : location) :
  let d := Zpos (digits2_pos p) in
  let N := d - 53 in
  let q := Zpos p / 2 ^ N in
  2 ^ 52 <= Zpos p ->
  -1074 <= e + N <= 970 ->
  exists (m1 : Z) (m' : positive) (e' : Z),
    (m1 = q \/ m1 = q + 1)
    /\ 2 ^ 52 <= q < 2 ^ 53
    /\ 0 <= N
    /\ binary_round_aux prec emax s (Zpos p) e l = S754_finite s m' e'
    /\ e + N <= e'
    /\ Zpos m' * 2 ^ (e' - (e + N)) = m1.
Proof.
  intros d N q Hp He.
  pose proof (digits2_pos_bounds p) as [Ld Ud]. fold d in Ld, Ud.
  assert (Hd : 53 <= d).
  { destruct (Z_lt_le_dec d 53) as [H|H]; [|exact H].
    assert (2 ^ d <= 2 ^ 52) by (apply Z.pow_le_mono_r; lia). lia. }
  assert (HN : 0 <= N) by (unfold N; lia).
  assert (Hpow : 2 ^ d = 2 ^ N * 2 ^ 53).
  { rewrite <- Z.pow_add_r by lia. f_equal. unfold N. lia. }
  assert (Hpow' : 2 ^ (d - 1) = 2 ^ N * 2 ^ 52).
  { rewrite <- Z.pow_add_r by lia. f_equal. unfold N. lia. }
  assert (HNpos : 0 < 2 ^ N) by (apply Z.pow_pos_nonneg; lia).
  assert (Hq : 2 ^ 52 <= q < 2 ^ 53).
  { unfold q. split.
    - apply Z.div_le_lower_bound; [exact HNpos|]. lia.
    - apply Z.div_lt_upper_bound; [exact HNpos|]. lia. }
  unfold binary_round_aux.
  destruct (shr_fexp_spec p e l) as [Hm Hs]. cbv zeta in Hm, Hs.
  rewrite fexp_spec in Hm, Hs. fold d in Hm, Hs.
  replace (Z.max (Z.max (d + e - 53) (-1074) - e) 0) with N in Hm, Hs
    by (unfold N; lia).
  fold q in Hm.
  destruct (shr_fexp prec emax (Zpos p) e l) as [mrs' e1]. cbn [fst snd] in Hm, Hs.
  subst e1.
  set (m1 := round_nearest_even (shr_m mrs') (loc_of_shr_record mrs')).
  assert (Hm1 : m1 = q \/ m1 = q + 1).
  { unfold m1. rewrite <- Hm. apply round_nearest_even_cases. }
  destruct m1 as [|p1|p1] eqn:Em1; [lia| |lia].
  destruct (shr_fexp_spec p1 (e + N) loc_Exact) as [Hm2 Hs2]. cbv zeta in Hm2, Hs2.
  rewrite fexp_spec in Hm2, Hs2.
  destruct (shr_fexp prec emax (Zpos p1) (e + N) loc_Exact) as [mrs'' e2].
  cbn [fst snd] in Hm2, Hs2.
  destruct (Z_lt_le_dec (Zpos p1) (2 ^ 53)) as [Hlt|Hge].
  - assert (Hd1 : Zpos (digits2_pos p1) = 53).
    { apply digits2_pos_unique. change (2 ^ (53 - 1)) with (2 ^ 52). lia. }
    rewrite Hd1 in Hm2, Hs2.
    replace (Z.max (Z.max (53 + (e + N) - 53) (-1074) - (e + N)) 0) with 0 in Hm2, Hs2
      by lia.
    change (2 ^ 0) with 1 in Hm2. rewrite Z.div_1_r in Hm2.
    rewrite Hm2. subst e2.
    replace (e + N + 0 <=? emax - prec) with true
      by (symmetry; apply Z.leb_le; change (emax - prec) with 971; lia).
    exists (Zpos p1), p1, (e + N + 0).
    split; [exact Hm1|]. split; [exact Hq|]. split; [exact HN|].
    split; [reflexivity|]. split; [lia|].
    replace (e + N + 0 - (e + N)) with 0 by lia. change (2 ^ 0) with 1. lia.
  - assert (Hp1 : Zpos p1 = 2 ^ 53) by lia.
    assert (Hd1 : Zpos (digits2_pos p1) = 54).
    { apply digits2_pos_unique. rewrite Hp1. change (54 - 1) with 53.
      split; [lia|]. apply Z.pow_lt_mono_r; lia. }
    rewrite Hd1 in Hm2, Hs2.
    replace (Z.max (Z.max (54 + (e + N) - 53) (-1074) - (e + N)) 0) with 1 in Hm2, Hs2
      by lia.
    rewrite Hp1 in Hm2. change (2 ^ 53 / 2 ^ 1) with (2 ^ 52) in Hm2.
    rewrite Hm2. subst e2.
    change (2 ^ 52) with (Zpos (Pos.pow 2 52)).
    replace (e + N + 1 <=? emax - prec) with true
      by (symmetry; apply Z.leb_le; change (emax - prec) with 971; lia).
    exists (Zpos p1), (Pos.pow 2 52), (e + N + 1).
    split; [exact Hm1|]. split; [exact Hq|]. split; [exact HN|].
    split; [reflexivity|]. split; [lia|].
    replace (e + N + 1 - (e + N)) with 1 by lia. rewrite Hp1. reflexivity.
Qed.

(** A mantissa of at most 53 bits at an exponent of the format is not
    rounded. *)
Lemma binary_round_aux_exact (s : bool) (p : positive) (e : Z) :
  Zpos (digits2_pos p) <= 53 -> -1074 <= e <= 971 ->
  binary_round_aux prec emax s (Zpos p) e loc_Exact = S754_finite s p e.
Proof.
  intros Hd He. unfold binary_round_aux, shr_fexp. cbn [Zdigits2].
  rewrite fexp_spec.
  assert (Hn : Z.max (Zpos (digits2_pos p) + e - 53) (-1074) - e <= 0) by lia.
  destruct (Z.max (Zpos (digits2_pos p) + e - 53) (-1074) - e) as [|n|n] eqn:En;
    [| lia |].
  - cbn [shr shr_record_of_loc loc_of_shr_record shr_m round_nearest_even Zdigits2].
    rewrite fexp_spec, En.
    cbn [shr shr_record_of_loc loc_of_shr_record shr_m round_nearest_even].
    replace (e <=? emax - prec) with true
      by (symmetry; apply Z.leb_le; change (emax - prec) with 971; lia).
    reflexivity.
  - cbn [shr shr_record_of_loc loc_of_shr_record shr_m round_nearest_even Zdigits2].
    rewrite fexp_spec, En.
    cbn [shr shr_record_of_loc loc_of_shr_record shr_m round_nearest_even].
    replace (e <=? emax - prec) with true
      by (symmetry; apply Z.leb_le; change (emax - prec) with 971; lia).
    reflexivity.
Qed.

End RoundingSteps.

(** ** The error of a rounding *)

Section RoundingError.
Import Binary64.
Local Open Scope R_scope.

Lemma pow2_minus_52 : pow2 (-52) * IZR (2 ^ 52) = 1.
Proof.
  rewrite <- (@pow2_IZR 52) by lia. rewrite <- pow2_add. reflexivity.
Qed.

(** Rounding a mantissa of at least 53 bits that stands, with its
    location, for the real [X]: away from underflow and overflow the result
    is within [2^-52 * X] of [X]. *)
Lemma binary_round_aux_error (s : bool) (p : positive) (e : Z) (l : location) (X : R) :
  (2 ^ 52 <= Zpos p)%Z ->
  IZR (Zpos p) * pow2 e <= X < (IZR (Zpos p) + 1) * pow2 e ->
  pow2 (-1022) <= X <= pow2 1022 ->
  exists (m' : positive) (e' : Z),
    binary_round_aux prec emax s (Zpos p) e l = S754_finite s m' e'
    /\ Rabs (IZR (Zpos m') * pow2 e' - X) <= pow2 (-52) * X.
Proof.
  intros Hp [HX1 HX2] [Hlo Hhi].
  pose proof (digits2_pos_bounds p) as [Ld Ud].
  set (d := Zpos (digits2_pos p)) in *.
  pose proof (pow2_pos e) as Pe.
  assert (Hd1 : (1 <= d)%Z) by (unfold d; lia).
  assert (HdU : X < pow2 (d + e)).
  { rewrite pow2_add, (@pow2_IZR d) by lia.
    assert (IZR (Zpos p) + 1 <= IZR (2 ^ d)).
    { rewrite <- plus_IZR. apply IZR_le. lia. }
    nra. }
  assert (HdL : pow2 (d - 1 + e) <= X).
  { rewrite pow2_add, (@pow2_IZR (d - 1)) by lia.
    assert (IZR (2 ^ (d - 1)) <= IZR (Zpos p)) by (apply IZR_le; lia).
    nra. }
  assert (H1 : (-1022 < d + e)%Z) by (apply pow2_lt_inv; lra).
  assert (H2 : (d - 1 + e <= 1022)%Z) by (apply pow2_le_inv; lra).
  destruct (@binary_round_aux_normal s p e l Hp) as
      [m1 [m' [e' [Hm1 [Hq [HN [Hres [He' Hval]]]]]]]]; [fold d; lia|].
  fold d in Hm1, Hq, HN, Hres, He', Hval.
  set (N := (d - 53)%Z) in *.
  set (q := (Zpos p / 2 ^ N)%Z) in *.
  exists m', e'. split; [exact Hres|].
  set (P := pow2 (e + N)).
  assert (PP : 0 < P) by apply pow2_pos.
  assert (HV : IZR (Zpos m') * pow2 e' = IZR m1 * P).
  { rewrite <- Hval, mult_IZR. rewrite <- (@pow2_IZR (e' - (e + N))) by lia.
    unfold P. rewrite Rmult_assoc, <- pow2_add. f_equal. f_equal. lia. }
  assert (HNpos : (0 < 2 ^ N)%Z) by (apply Z.pow_pos_nonneg; lia).
  assert (HqL : IZR q * P <= X).
  { unfold P. rewrite pow2_add, (@pow2_IZR N) by lia.
    assert (IZR q * IZR (2 ^ N) <= IZR (Zpos p)).
    { rewrite <- mult_IZR. apply IZR_le. unfold q.
      rewrite Z.mul_comm. apply Z.mul_div_le. exact HNpos. }
    nra. }
  assert (HqU : X < (IZR q + 1) * P).
  { unfold P. rewrite pow2_add, (@pow2_IZR N) by lia.
    assert (IZR (Zpos p) + 1 <= (IZR q + 1) * IZR (2 ^ N)).
    { rewrite <- !plus_IZR, <- mult_IZR. apply IZR_le. unfold q.
      pose proof (Z.mul_succ_div_gt (Zpos p) (2 ^ N) HNpos). lia. }
    nra. }
  assert (Hq52 : IZR (2 ^ 52) <= IZR q) by (apply IZR_le; lia).
  pose proof pow2_minus_52 as H52. pose proof (pow2_pos (-52)) as P52.
  rewrite HV.
  assert (HP : P <= pow2 (-52) * X).
  { assert (P = pow2 (-52) * (IZR (2 ^ 52) * P)) by (rewrite <- Rmult_assoc, H52; ring).
    assert (IZR (2 ^ 52) * P <= X) by nra. nra. }
  apply Rabs_le. destruct Hm1 as [E|E]; rewrite E; [|rewrite plus_IZR]; split; nra.
Qed.

End RoundingError.

(** ** The error of one operation

    Each operation of the format returns the real result within the
    relative error [2^-52], as long as that result is zero or well inside
    the range of the normal numbers.  The bound is the one of a faithful
    rounding, twice the one of rounding to nearest; it is all the
    tolerance of the round trip needs. *)

Section OperationErrors.
Import Binary64.
Local Open Scope R_scope.

Lemma IZR_cond_Zopp (s : bool) (z : Z) :
  IZR (cond_Zopp s z) = (if s then -1 else 1) * IZR z.
Proof. destruct s; cbn [cond_Zopp]; [rewrite opp_IZR|]; ring. Qed.

Lemma SF2R_finite (s : bool) (m : positive) (e : Z) :
  SF2R (S754_finite s m e) = (if s then -1 else 1) * (IZR (Zpos m) * pow2 e).
Proof. unfold SF2R. rewrite IZR_cond_Zopp. ring. Qed.

Lemma signed_error (s : bool) (V X eps : R) :
  0 <= X ->
  Rabs (V - X) <= eps * X ->
  Rabs ((if s then -1 else 1) * V - (if s then -1 else 1) * X)
  <= eps * Rabs ((if s then -1 else 1) * X).
Proof.
  intros HX H.
  replace ((if s then -1 else 1) * V - (if s then -1 else 1) * X)
    with ((if s then -1 else 1) * (V - X)) by ring.
  rewrite !Rabs_mult.
  assert (Hs : Rabs (if s then -1 else 1) = 1).
  { destruct s; [rewrite Rabs_left|rewrite Rabs_right]; lra. }
  rewrite Hs, !Rmult_1_l. rewrite (Rabs_right X) by lra. exact H.
Qed.

(** The mantissa of a number of the format above the subnormal exponent
    has 53 bits. *)
Lemma bounded_mantissa (m : positive) (e : Z) :
  SpecFloat.bounded prec emax m e = true ->
  (Zpos m < 2 ^ 53)%Z /\ ((-1074 < e)%Z -> (2 ^ 52 <= Zpos m)%Z).
Proof.
  intros B. destruct (@bounded_spec _ _ B) as [He [Hd Hn]].
  pose proof (digits2_pos_bounds m) as [L U]. split.
  - assert (2 ^ Zpos (digits2_pos m) <= 2 ^ 53)%Z by (apply Z.pow_le_mono_r; lia).
    lia.
  - intros H. rewrite (Hn H) in L. exact L.
Qed.

(** *** Multiplication *)

Lemma SFmul_error (x y : spec_float) :
  valid_binary x = true -> valid_binary y = true ->
  SFfinite x = true -> SFfinite y = true ->
  let X := SF2R x * SF2R y in
  (X = 0 \/ pow2 (-1000) <= Rabs X <= pow2 1000) ->
  SFfinite (SF64mul x y) = true
  /\ Rabs (SF2R (SF64mul x y) - X) <= pow2 (-52) * Rabs X.
Proof.
  intros Vx Vy Fx Fy X HX.
  destruct x as [sx|sx| |sx mx ex]; try discriminate;
    destruct y as [sy|sy| |sy my ey]; try discriminate;
    try (split; [reflexivity|]; subst X; cbn [SF64mul SFmul SF2R];
         rewrite ?Rmult_0_l, ?Rmult_0_r, Rminus_diag, Rabs_R0; lra).
  cbn [valid_binary] in Vx, Vy.
  destruct (@bounded_spec _ _ Vx) as [Hex _].
  destruct (@bounded_spec _ _ Vy) as [Hey _].
  destruct (@bounded_mantissa _ _ Vx) as [Ux Nx].
  destruct (@bounded_mantissa _ _ Vy) as [Uy Ny].
  pose proof (pow2_pos (ex + ey)) as Pe.
  set (Xabs := IZR (Zpos (mx * my)) * pow2 (ex + ey)).
  assert (HXabs : 0 < Xabs).
  { unfold Xabs. apply Rmult_lt_0_compat; [apply IZR_lt; lia|exact Pe]. }
  assert (EX : X = (if xorb sx sy then -1 else 1) * Xabs).
  { unfold X, Xabs. rewrite !SF2R_finite, Pos2Z.inj_mul, mult_IZR, pow2_add.
    destruct sx, sy; cbn [xorb]; ring. }
  assert (EA : Rabs X = Xabs).
  { rewrite EX, Rabs_mult, (Rabs_right Xabs) by lra.
    destruct (xorb sx sy); [rewrite Rabs_left|rewrite Rabs_right]; lra. }
  destruct HX as [HX|[Hlo Hhi]]; [rewrite EX in HX; destruct (xorb sx sy); lra|].
  rewrite EA in Hlo, Hhi.
  assert (Hm : (2 ^ 52 <= Zpos (mx * my))%Z).
  { rewrite Pos2Z.inj_mul.
    destruct (Z_lt_le_dec (-1074) ex) as [Hx|Hx].
    - specialize (Nx Hx). nia.
    - destruct (Z_lt_le_dec (-1074) ey) as [Hy|Hy].
      + specialize (Ny Hy). nia.
      + exfalso. assert (ex = (-1074)%Z) by lia. assert (ey = (-1074)%Z) by lia.
        subst ex ey. unfold Xabs in Hlo.
        assert (IZR (Zpos (mx * my)) <= IZR (2 ^ 106)).
        { apply IZR_le. rewrite Pos2Z.inj_mul.
          change (2 ^ 106)%Z with (2 ^ 53 * 2 ^ 53)%Z. nia. }
        rewrite <- (@pow2_IZR 106) in H by lia.
        assert (Xabs <= pow2 (106 + (-1074 + -1074))).
        { rewrite pow2_add. unfold Xabs. nra. }
        assert (pow2 (106 + (-1074 + -1074)) < pow2 (-1000)) by (apply pow2_lt; lia).
        unfold Xabs in *. lra. }
  destruct (@binary_round_aux_error (xorb sx sy) (mx * my) (ex + ey) loc_Exact Xabs Hm)
    as [m' [e' [Hres Herr]]].
  { unfold Xabs. split; nra. }
  { split.
    - apply Rle_trans with (2 := Hlo). apply pow2_le. lia.
    - apply Rle_trans with (1 := Hhi). apply pow2_le. lia. }
  cbn [SF64mul SFmul]. unfold SF64mul. cbn [SFmul]. rewrite Hres.
  split; [reflexivity|]. rewrite SF2R_finite, EX.
  apply signed_error; [lra|exact Herr].
Qed.

(** *** Addition and subtraction *)

Lemma aligned_value (s : bool) (m : positive) (e ez : Z) :
  (ez <= e)%Z ->
  IZR (cond_Zopp s (Zpos m * 2 ^ (e - ez))) * pow2 ez = SF2R (S754_finite s m e).
Proof.
  intros H. rewrite SF2R_finite, IZR_cond_Zopp, mult_IZR.
  rewrite <- (@pow2_IZR (e - ez)) by lia.
  replace (pow2 e) with (pow2 (e - ez) * pow2 ez)
    by (rewrite <- pow2_add; f_equal; lia).
  ring.
Qed.

Lemma binary_round_error (s : bool) (p : positive) (ez : Z) :
  (-1074 <= ez <= 971)%Z ->
  IZR (Zpos p) * pow2 ez <= pow2 1000 ->
  exists (m' : positive) (e' : Z),
    binary_round prec emax s p ez = S754_finite s m' e'
    /\ Rabs (IZR (Zpos m') * pow2 e' - IZR (Zpos p) * pow2 ez)
       <= pow2 (-52) * (IZR (Zpos p) * pow2 ez).
Proof.
  intros Hez Hhi. unfold binary_round.
  set (f := SpecFloat.fexp prec emax (Zpos (digits2_pos p) + ez)).
  assert (Hf : (-1074 <= f)%Z) by (unfold f; rewrite fexp_spec; lia).
  pose proof (shl_align_exponent p ez f) as He.
  pose proof (shl_align_mantissa p ez f) as Hm.
  destruct (shl_align p ez f) as [mz ez']. cbn [fst snd] in He, Hm. subst ez'.
  assert (Hval : IZR (Zpos mz) * pow2 (Z.min ez f) = IZR (Zpos p) * pow2 ez).
  { rewrite Hm, mult_IZR, <- (@pow2_IZR (ez - Z.min ez f)) by lia.
    rewrite Rmult_assoc, <- pow2_add. f_equal. f_equal. lia. }
  pose proof (pow2_pos (-52)) as P52.
  assert (Hpos : 0 < IZR (Zpos p) * pow2 ez).
  { apply Rmult_lt_0_compat; [apply IZR_lt; lia|apply pow2_pos]. }
  destruct (Z_le_gt_dec (Zpos (digits2_pos mz)) 53) as [Hd|Hd].
  - exists mz, (Z.min ez f). split.
    + apply binary_round_aux_exact; [exact Hd|lia].
    + rewrite Hval, Rminus_diag, Rabs_R0. nra.
  - assert (Hmz : (2 ^ 52 <= Zpos mz)%Z).
    { pose proof (digits2_pos_bounds mz) as [L _].
      assert (2 ^ 52 <= 2 ^ (Zpos (digits2_pos mz) - 1))%Z
        by (apply Z.pow_le_mono_r; lia).
      lia. }
    rewrite <- Hval in *.
    apply (@binary_round_aux_error s mz (Z.min ez f) loc_Exact _ Hmz).
    + pose proof (pow2_pos (Z.min ez f)). split; nra.
    + split.
      * assert (IZR (2 ^ 52) <= IZR (Zpos mz)) by (apply IZR_le; exact Hmz).
        rewrite <- (@pow2_IZR 52) in H by lia.
        assert (pow2 (-1074) <= pow2 (Z.min ez f)) by (apply pow2_le; lia).
        replace (pow2 (-1022)) with (pow2 52 * pow2 (-1074))
          by (rewrite <- pow2_add; reflexivity).
        pose proof (pow2_pos 52). pose proof (pow2_pos (-1074)).
        apply Rmult_le_compat; lra.
      * apply Rle_trans with (1 := Hhi). apply pow2_le. lia.
Qed.

Lemma binary_normalize_error (total : Z) (ez : Z) :
  (-1074 <= ez <= 971)%Z ->
  Rabs (IZR total * pow2 ez) <= pow2 1000 ->
  SFfinite (binary_normalize prec emax total ez false) = true
  /\ Rabs (SF2R (binary_normalize prec emax total ez false) - IZR total * pow2 ez)
     <= pow2 (-52) * Rabs (IZR total * pow2 ez).
Proof.
  intros Hez Hhi. pose proof (pow2_pos ez) as Pe.
  destruct total as [|p|p]; cbn [binary_normalize].
  - split; [reflexivity|]. cbn [SF2R]. rewrite Rmult_0_l, Rminus_diag, Rabs_R0. lra.
  - assert (Hpos : 0 < IZR (Zpos p) * pow2 ez).
    { apply Rmult_lt_0_compat; [apply IZR_lt; lia|exact Pe]. }
    rewrite (Rabs_right (IZR (Zpos p) * pow2 ez)) in * by lra.
    destruct (@binary_round_error false p ez Hez Hhi) as [m' [e' [Hres Herr]]].
    rewrite Hres. split; [reflexivity|].
    rewrite SF2R_finite, Rmult_1_l. exact Herr.
  - assert (Hpos : 0 < IZR (Zpos p) * pow2 ez).
    { apply Rmult_lt_0_compat; [apply IZR_lt; lia|exact Pe]. }
    assert (EN : IZR (Zneg p) * pow2 ez = -1 * (IZR (Zpos p) * pow2 ez)).
    { change (Zneg p) with (- Zpos p)%Z. rewrite opp_IZR. ring. }
    rewrite EN in *.
    assert (EA : Rabs (-1 * (IZR (Zpos p) * pow2 ez)) = IZR (Zpos p) * pow2 ez).
    { rewrite Rabs_left; lra. }
    rewrite EA in Hhi.
    destruct (@binary_round_error true p ez Hez Hhi) as [m' [e' [Hres Herr]]].
    rewrite Hres. split; [reflexivity|].
    rewrite SF2R_finite.
    apply (@signed_error true); [lra|exact Herr].
Qed.

Lemma SFadd_error (x y : spec_float) :
  valid_binary x = true -> valid_binary y = true ->
  SFfinite x = true -> SFfinite y = true ->
  let X := SF2R x + SF2R y in
  Rabs X <= pow2 1000 ->
  SFfinite (SF64add x y) = true
  /\ Rabs (SF2R (SF64add x y) - X) <= pow2 (-52) * Rabs X.
Proof.
  intros Vx Vy Fx Fy X HX. pose proof (pow2_pos (-52)) as P52.
  assert (Hexact : forall z, SF64add x y = z -> SFfinite z = true -> SF2R z = X ->
                             SFfinite (SF64add x y) = true
                             /\ Rabs (SF2R (SF64add x y) - X) <= pow2 (-52) * Rabs X).
  { intros z Ez Fz Rz. rewrite Ez. split; [exact Fz|].
    rewrite Rz, Rminus_diag, Rabs_R0. pose proof (Rabs_pos X). nra. }
  destruct x as [sx|sx| |sx mx ex]; try discriminate;
    destruct y as [sy|sy| |sy my ey]; try discriminate.
  - apply (Hexact (S754_zero (if Bool.eqb sx sy then sx else false))).
    + destruct sx, sy; reflexivity.
    + reflexivity.
    + unfold X. cbn [SF2R]. lra.
  - apply (Hexact (S754_finite sy my ey)); [reflexivity|reflexivity|].
    unfold X. cbn [SF2R]. lra.
  - apply (Hexact (S754_finite sx mx ex)); [reflexivity|reflexivity|].
    unfold X. cbn [SF2R]. lra.
  - clear Hexact. cbn [valid_binary] in Vx, Vy.
    destruct (@bounded_spec _ _ Vx) as [Hex _].
    destruct (@bounded_spec _ _ Vy) as [Hey _].
    unfold SF64add, SFadd.
    change (IntDef.Z.min ex ey) with (Z.min ex ey).
    rewrite !shl_align_mantissa.
    replace (Z.min ex (Z.min ex ey)) with (Z.min ex ey) by lia.
    replace (Z.min ey (Z.min ex ey)) with (Z.min ex ey) by lia.
    set (ez := Z.min ex ey).
    set (total := (cond_Zopp sx (Zpos mx * 2 ^ (ex - ez))
               + cond_Zopp sy (Zpos my * 2 ^ (ey - ez)))%Z).
    assert (ES : IZR total * pow2 ez = X).
    { unfold total, X. rewrite plus_IZR, Rmult_plus_distr_r.
      rewrite !aligned_value by (unfold ez; lia). reflexivity. }
    rewrite <- ES in *.
    apply binary_normalize_error; [unfold ez; lia|exact HX].
Qed.

Lemma SFsub_error (x y : spec_float) :
  valid_binary x = true -> valid_binary y = true ->
  SFfinite x = true -> SFfinite y = true ->
  let X := SF2R x - SF2R y in
  Rabs X <= pow2 1000 ->
  SFfinite (SF64sub x y) = true
  /\ Rabs (SF2R (SF64sub x y) - X) <= pow2 (-52) * Rabs X.
Proof.
  intros Vx Vy Fx Fy X HX. pose proof (pow2_pos (-52)) as P52.
  assert (Hexact : forall z, SF64sub x y = z -> SFfinite z = true -> SF2R z = X ->
                             SFfinite (SF64sub x y) = true
                             /\ Rabs (SF2R (SF64sub x y) - X) <= pow2 (-52) * Rabs X).
  { intros z Ez Fz Rz. rewrite Ez. split; [exact Fz|].
    rewrite Rz, Rminus_diag, Rabs_R0. pose proof (Rabs_pos X). nra. }
  destruct x as [sx|sx| |sx mx ex]; try discriminate;
    destruct y as [sy|sy| |sy my ey]; try discriminate.
  - apply (Hexact (S754_zero (if Bool.eqb sx sy then false else sx))).
    + destruct sx, sy; reflexivity.
    + reflexivity.
    + unfold X. cbn [SF2R]. lra.
  - apply (Hexact (S754_finite (negb sy) my ey)); [reflexivity|reflexivity|].
    unfold X. rewrite !SF2R_finite. cbn [SF2R]. destruct sy; cbn [negb]; lra.
  - apply (Hexact (S754_finite sx mx ex)); [reflexivity|reflexivity|].
    unfold X. cbn [SF2R]. lra.
  - clear Hexact. cbn [valid_binary] in Vx, Vy.
    destruct (@bounded_spec _ _ Vx) as [Hex _].
    destruct (@bounded_spec _ _ Vy) as [Hey _].
    unfold SF64sub, SFsub.
    change (IntDef.Z.min ex ey) with (Z.min ex ey).
    rewrite !shl_align_mantissa.
    replace (Z.min ex (Z.min ex ey)) with (Z.min ex ey) by lia.
    replace (Z.min ey (Z.min ex ey)) with (Z.min ex ey) by lia.
    set (ez := Z.min ex ey).
    set (total := (cond_Zopp sx (Zpos mx * 2 ^ (ex - ez))
               - cond_Zopp sy (Zpos my * 2 ^ (ey - ez)))%Z).
    assert (ES : IZR total * pow2 ez = X).
    { unfold total, X. rewrite minus_IZR, Rmult_minus_distr_r.
      rewrite !aligned_value by (unfold ez; lia). reflexivity. }
    rewrite <- ES in *.
    apply binary_normalize_error; [unfold ez; lia|exact HX].
Qed.

(** *** Division *)

Lemma SFdiv_core_normal (mx my : positive) (ex ey : Z) :
  let dx := Zpos (digits2_pos mx) in
  let dy := Zpos (digits2_pos my) in
  let s := (53 - dx + dy)%Z in
  let q := (Zpos mx * 2 ^ s / Zpos my)%Z in
  (dx <= 53)%Z ->
  (-1021 <= (dx + ex) - (dy + ey))%Z ->
  exists l : location,
    SFdiv_core_binary prec emax (Zpos mx) ex (Zpos my) ey
    = (q, (ex - ey - s)%Z, l).
Proof.
  intros dx dy s q Hdx HE. unfold SFdiv_core_binary. cbn [Zdigits2].
  fold dx dy. rewrite fexp_spec.
  assert (Hdy : (1 <= dy)%Z) by (unfold dy; lia).
  replace (Z.min (Z.max (dx + ex - (dy + ey) - 53) (-1074)) (ex - ey))
    with (ex - ey - s)%Z by (unfold s; lia).
  replace (ex - ey - (ex - ey - s))%Z with s by lia.
  assert (Hs : (0 < s)%Z) by (unfold s; lia).
  destruct s as [|ps|ps] eqn:Es; [lia| |lia].
  rewrite Z.shiftl_mul_pow2 by lia.
  unfold q, Z.div.
  destruct (Z.div_eucl (Zpos mx * 2 ^ Zpos ps) (Zpos my)) as [q0 r0].
  cbn [fst]. eexists. reflexivity.
Qed.

Lemma SFdiv_error (x y : spec_float) :
  valid_binary x = true -> valid_binary y = true ->
  SFfinite x = true -> SFfinite y = true ->
  SF2R y <> 0 ->
  let X := SF2R x / SF2R y in
  (X = 0 \/ pow2 (-1000) <= Rabs X <= pow2 1000) ->
  SFfinite (SF64div x y) = true
  /\ Rabs (SF2R (SF64div x y) - X) <= pow2 (-52) * Rabs X.
Proof.
  intros Vx Vy Fx Fy Hy X HX.
  destruct x as [sx|sx| |sx mx ex]; try discriminate;
    destruct y as [sy|sy| |sy my ey]; try discriminate;
    try (exfalso; apply Hy; reflexivity).
  { split; [reflexivity|]. subst X. cbn [SF64div SFdiv SF2R].
    unfold Rdiv. rewrite Rmult_0_l, Rminus_diag, Rabs_R0. lra. }
  cbn [valid_binary] in Vx, Vy.
  destruct (@bounded_spec _ _ Vx) as [Hex [Hdx _]].
  destruct (@bounded_spec _ _ Vy) as [Hey [Hdy _]].
  pose proof (digits2_pos_bounds mx) as [Lx Ux].
  pose proof (digits2_pos_bounds my) as [Ly Uy].
  set (dx := Zpos (digits2_pos mx)) in *.
  set (dy := Zpos (digits2_pos my)) in *.
  assert (Hdx1 : (1 <= dx)%Z) by (unfold dx; lia).
  assert (Hdy1 : (1 <= dy)%Z) by (unfold dy; lia).
  set (A := IZR (Zpos mx) * pow2 ex).
  set (B := IZR (Zpos my) * pow2 ey).
  assert (HA : 0 < A).
  { apply Rmult_lt_0_compat; [apply IZR_lt; lia|apply pow2_pos]. }
  assert (HB : 0 < B).
  { apply Rmult_lt_0_compat; [apply IZR_lt; lia|apply pow2_pos]. }
  set (Xabs := A / B).
  assert (HXabs : 0 < Xabs) by (apply Rdiv_lt_0_compat; assumption).
  assert (EX : X = (if xorb sx sy then -1 else 1) * Xabs).
  { unfold X, Xabs. rewrite !SF2R_finite. fold A B.
    destruct sx, sy; cbn [xorb]; field; lra. }
  assert (EA : Rabs X = Xabs).
  { rewrite EX, Rabs_mult, (Rabs_right Xabs) by lra.
    destruct (xorb sx sy); [rewrite Rabs_left|rewrite Rabs_right]; lra. }
  destruct HX as [HX|[Hlo Hhi]]; [rewrite EX in HX; destruct (xorb sx sy); lra|].
  rewrite EA in Hlo, Hhi.
  (* magnitude of the quotient *)
  assert (HAU : A < pow2 (dx + ex)).
  { unfold A. rewrite pow2_add, (@pow2_IZR dx) by lia.
    assert (IZR (Zpos mx) < IZR (2 ^ dx)) by (apply IZR_lt; lia).
    pose proof (pow2_pos ex). nra. }
  assert (HBL : pow2 (dy - 1 + ey) <= B).
  { unfold B. rewrite pow2_add, (@pow2_IZR (dy - 1)) by lia.
    assert (IZR (2 ^ (dy - 1)) <= IZR (Zpos my)) by (apply IZR_le; lia).
    pose proof (pow2_pos ey). nra. }
  assert (HE : (-1021 <= (dx + ex) - (dy + ey))%Z).
  { assert (Hlt : pow2 (-1000 + (dy - 1 + ey)) < pow2 (dx + ex)).
    { rewrite pow2_add.
      assert (Xabs * B = A) by (unfold Xabs; field; lra).
      pose proof (pow2_pos (-1000)). pose proof (pow2_pos (dy - 1 + ey)). nra. }
    apply pow2_lt_inv in Hlt. lia. }
  destruct (@SFdiv_core_normal mx my ex ey Hdx HE) as [l Hcore].
  fold dx dy in Hcore.
  set (s := (53 - dx + dy)%Z) in *.
  set (q := (Zpos mx * 2 ^ s / Zpos my)%Z) in *.
  assert (Hs : (0 < s)%Z) by (unfold s; lia).
  assert (Hspos : (0 < 2 ^ s)%Z) by (apply Z.pow_pos_nonneg; lia).
  assert (Hq52 : (2 ^ 52 <= q)%Z).
  { unfold q. apply Z.div_le_lower_bound; [lia|].
    assert (2 ^ (dx - 1) * 2 ^ s = 2 ^ 52 * 2 ^ dy)%Z.
    { rewrite <- !Z.pow_add_r by lia. f_equal. unfold s. lia. }
    nia. }
  assert (HqL : (q * Zpos my <= Zpos mx * 2 ^ s)%Z).
  { unfold q. rewrite Z.mul_comm. apply Z.mul_div_le. lia. }
  assert (HqU : (Zpos mx * 2 ^ s < (q + 1) * Zpos my)%Z).
  { unfold q. pose proof (Z.mul_succ_div_gt (Zpos mx * 2 ^ s) (Zpos my)). lia. }
  destruct q as [|pq|pq] eqn:Eq; [lia| |lia].
  set (e' := (ex - ey - s)%Z) in *.
  assert (HXe : Xabs * IZR (Zpos my) = IZR (Zpos mx * 2 ^ s) * pow2 e').
  { unfold Xabs, A, B. rewrite mult_IZR, <- (@pow2_IZR s) by lia.
    replace (pow2 ex) with (pow2 s * pow2 e' * pow2 ey).
    - field. split; [pose proof (pow2_pos ey); lra|].
      apply not_0_IZR. lia.
    - rewrite <- !pow2_add. f_equal. unfold e'. lia. }
  assert (Hmy : 0 < IZR (Zpos my)) by (apply IZR_lt; lia).
  pose proof (pow2_pos e') as Pe'.
  destruct (@binary_round_aux_error (xorb sx sy) pq e' l Xabs Hq52)
    as [m' [e'' [Hres Herr]]].
  { split.
    - apply Rmult_le_reg_r with (IZR (Zpos my)); [exact Hmy|].
      rewrite HXe.
      assert (IZR (Zpos pq) * IZR (Zpos my) <= IZR (Zpos mx * 2 ^ s)).
      { rewrite <- mult_IZR. apply IZR_le. exact HqL. }
      nra.
    - apply Rmult_lt_reg_r with (IZR (Zpos my)); [exact Hmy|].
      rewrite HXe.
      assert (IZR (Zpos mx * 2 ^ s) < (IZR (Zpos pq) + 1) * IZR (Zpos my)).
      { rewrite <- plus_IZR, <- mult_IZR. apply IZR_lt. exact HqU. }
      nra. }
  { split.
    - apply Rle_trans with (2 := Hlo). apply pow2_le. lia.
    - apply Rle_trans with (1 := Hhi). apply pow2_le. lia. }
  unfold SF64div, SFdiv. rewrite Hcore, Hres.
  split; [reflexivity|]. rewrite SF2R_finite, EX.
  apply signed_error; [lra|exact Herr].
Qed.

End OperationErrors.

(** ** The order of the values *)

Section OrderOfValues.
Import Binary64.
Local Open Scope R_scope.

Lemma SF2R_finite_sign (s : bool) (m : positive) (e : Z) :
  if s then SF2R (S754_finite s m e) < 0 else 0 < SF2R (S754_finite s m e).
Proof.
  rewrite SF2R_finite.
  assert (0 < IZR (Zpos m) * pow2 e).
  { apply Rmult_lt_0_compat; [apply IZR_lt; lia|apply pow2_pos]. }
  destruct s; lra.
Qed.

(** The order of two finite numbers is the order of the reals they stand
    for. *)
Lemma SFcompare_R (x y : spec_float) :
  valid_binary x = true -> valid_binary y = true ->
  SFfinite x = true -> SFfinite y = true ->
  match SFcompare x y with
  | Some Lt => SF2R x < SF2R y
  | Some Eq => SF2R x = SF2R y
  | Some Gt => SF2R y < SF2R x
  | None => False
  end.
Proof.
  intros Vx Vy Fx Fy.
  destruct x as [sx|sx| |sx mx ex]; try discriminate;
    destruct y as [sy|sy| |sy my ey]; try discriminate.
  - cbn. reflexivity.
  - pose proof (SF2R_finite_sign sy my ey) as H.
    cbn [SFcompare]. destruct sy; cbn [SF2R] in *; lra.
  - pose proof (SF2R_finite_sign sx mx ex) as H.
    cbn [SFcompare]. destruct sx; cbn [SF2R] in *; lra.
  - cbn [valid_binary] in Vx, Vy.
    rewrite (@SFcompare_aligned sx sy _ _ _ _ Vx Vy). unfold alignedValue.
    rewrite <- (@aligned_value sx mx ex (Z.min ex ey)) by lia.
    rewrite <- (@aligned_value sy my ey (Z.min ex ey)) by lia.
    pose proof (pow2_pos (Z.min ex ey)) as P.
    set (a := cond_Zopp sx (Zpos mx * 2 ^ (ex - Z.min ex ey))).
    set (b := cond_Zopp sy (Zpos my * 2 ^ (ey - Z.min ex ey))).
    destruct (Z.compare_spec a b) as [E|L|G].
    + rewrite E. reflexivity.
    + apply IZR_lt in L. nra.
    + apply IZR_lt in G. nra.
Qed.

Lemma SFabs_R (x : spec_float) : SF2R (SFabs x) = Rabs (SF2R x).
Proof.
  destruct x as [s|s| |s m e]; cbn [SFabs SF2R]; try (rewrite Rabs_R0; reflexivity).
  pose proof (SF2R_finite_sign s m e) as H.
  pose proof (SF2R_finite_sign false m e) as H'. cbn [SF2R] in *.
  destruct s.
  - rewrite Rabs_left by exact H. cbn [cond_Zopp]. rewrite opp_IZR. ring.
  - rewrite Rabs_right by lra. reflexivity.
Qed.

Lemma SFabs_finite (x : spec_float) : SFfinite (SFabs x) = SFfinite x.
Proof. destruct x; reflexivity. Qed.

(** A number between two finite numbers is finite. *)
Lemma SFfinite_between (lo x hi : spec_float) :
  SFfinite lo = true -> SFfinite hi = true ->
  SFleb lo x = true -> SFleb x hi = true -> SFfinite x = true.
Proof.
  unfold SFleb.
  destruct lo as [sl|sl| |sl ml el]; try discriminate;
    destruct hi as [sh|sh| |sh mh eh]; try discriminate;
    destruct x as [s|s| |s m e]; try reflexivity; cbn [SFcompare];
    try discriminate; destruct s; try discriminate;
    try (destruct sl; discriminate); try (destruct sh; discriminate).
Qed.

End OrderOfValues.

(** ** The numbers of the program as reals *)

Section NumbersAsReals.
Import Binary64.
Local Open Scope R_scope.

Lemma lt_value (a b : float) :
  finite a -> finite b -> (PrimFloat.ltb a b = true <-> valueOf a < valueOf b).
Proof.
  intros Fa Fb. rewrite FloatAxioms.ltb_spec. unfold SFltb, valueOf.
  pose proof (@SFcompare_R _ _ (Prim2SF_valid a) (Prim2SF_valid b) Fa Fb) as H.
  destruct (SFcompare (Prim2SF a) (Prim2SF b)) as [[]|]; split; intros; try lra;
    try discriminate; try reflexivity; try contradiction.
Qed.

Lemma le_value (a b : float) :
  finite a -> finite b -> (PrimFloat.leb a b = true <-> valueOf a <= valueOf b).
Proof.
  intros Fa Fb. rewrite FloatAxioms.leb_spec. unfold SFleb, valueOf.
  pose proof (@SFcompare_R _ _ (Prim2SF_valid a) (Prim2SF_valid b) Fa Fb) as H.
  destruct (SFcompare (Prim2SF a) (Prim2SF b)) as [[]|]; split; intros; try lra;
    try discriminate; try reflexivity; try contradiction.
Qed.

Lemma eqb_value (a b : float) :
  finite a -> finite b -> (PrimFloat.eqb a b = true <-> valueOf a = valueOf b).
Proof.
  intros Fa Fb. rewrite FloatAxioms.eqb_spec. unfold SFeqb, valueOf.
  pose proof (@SFcompare_R _ _ (Prim2SF_valid a) (Prim2SF_valid b) Fa Fb) as H.
  destruct (SFcompare (Prim2SF a) (Prim2SF b)) as [[]|]; split; intros; try lra;
    try discriminate; try reflexivity; try contradiction.
Qed.

Lemma finite_between (lo a hi : float) :
  finite lo -> finite hi ->
  PrimFloat.leb lo a = true -> PrimFloat.leb a hi = true -> finite a.
Proof.
  unfold finite. rewrite !FloatAxioms.leb_spec. apply SFfinite_between.
Qed.

Lemma abs_value (a : float) : valueOf (PrimFloat.abs a) = Rabs (valueOf a).
Proof. unfold valueOf. rewrite FloatAxioms.abs_spec. apply SFabs_R. Qed.

Lemma abs_finite (a : float) : finite a -> finite (PrimFloat.abs a).
Proof.
  unfold finite. rewrite FloatAxioms.abs_spec, SFabs_finite. exact (fun H => H).
Qed.

Lemma mul_error (a b : float) :
  finite a -> finite b ->
  inRange (valueOf a * valueOf b) ->
  finite (a * b)
  /\ Rabs (valueOf (a * b) - valueOf a * valueOf b)
     <= pow2 (-52) * Rabs (valueOf a * valueOf b).
Proof.
  intros Fa Fb H. unfold finite, valueOf. rewrite FloatAxioms.mul_spec.
  exact (@SFmul_error _ _ (Prim2SF_valid a) (Prim2SF_valid b) Fa Fb H).
Qed.

Lemma div_error (a b : float) :
  finite a -> finite b -> valueOf b <> 0 ->
  inRange (valueOf a / valueOf b) ->
  finite (a / b)
  /\ Rabs (valueOf (a / b) - valueOf a / valueOf b)
     <= pow2 (-52) * Rabs (valueOf a / valueOf b).
Proof.
  intros Fa Fb Hb H. unfold finite, valueOf. rewrite FloatAxioms.div_spec.
  exact (@SFdiv_error _ _ (Prim2SF_valid a) (Prim2SF_valid b) Fa Fb Hb H).
Qed.

Lemma add_error (a b : float) :
  finite a -> finite b ->
  Rabs (valueOf a + valueOf b) <= pow2 1000 ->
  finite (a + b)
  /\ Rabs (valueOf (a + b) - (valueOf a + valueOf b))
     <= pow2 (-52) * Rabs (valueOf a + valueOf b).
Proof.
  intros Fa Fb H. unfold finite, valueOf. rewrite FloatAxioms.add_spec.
  exact (@SFadd_error _ _ (Prim2SF_valid a) (Prim2SF_valid b) Fa Fb H).
Qed.

Lemma sub_error (a b : float) :
  finite a -> finite b ->
  Rabs (valueOf a - valueOf b) <= pow2 1000 ->
  finite (a - b)
  /\ Rabs (valueOf (a - b) - (valueOf a - valueOf b))
     <= pow2 (-52) * Rabs (valueOf a - valueOf b).
Proof.
  intros Fa Fb H. unfold finite, valueOf. rewrite FloatAxioms.sub_spec.
  exact (@SFsub_error _ _ (Prim2SF_valid a) (Prim2SF_valid b) Fa Fb H).
Qed.

(** Adding a zero to a number that is not zero returns the number. *)
Lemma add_zero_r (a b : float) :
  finite a -> finite b -> valueOf a <> 0 -> valueOf b = 0 -> (a + b)%float = a.
Proof.
  unfold finite, valueOf. intros Fa Fb Ha Hb. apply Prim2SF_inj.
  rewrite FloatAxioms.add_spec.
  destruct (Prim2SF a) as [sa|sa| |sa ma ea]; try discriminate;
    [exfalso; apply Ha; reflexivity|].
  destruct (Prim2SF b) as [sb|sb| |sb mb eb]; try discriminate; [reflexivity|].
  exfalso. pose proof (SF2R_finite_sign sb mb eb) as H. destruct sb; lra.
Qed.

End NumbersAsReals.

(** ** Errors through a computation *)

Section ErrorPropagation.
Import Binary64.
Local Open Scope R_scope.

Lemma ulp_value : pow2 (-52) * 4503599627370496 = 1.
Proof. exact pow2_minus_52. Qed.

Lemma Rabs_bounds (a b : R) : Rabs a <= b -> - b <= a <= b.
Proof. unfold Rabs. destruct (Rcase_abs a); lra. Qed.

Lemma pow2_succ (e : Z) : pow2 (e + 1) = 2 * pow2 e.
Proof. rewrite pow2_add. change (pow2 1) with (2 * 1). ring. Qed.

Lemma pow2_pred (e : Z) : pow2 (e - 1) = pow2 e / 2.
Proof.
  replace e with (e - 1 + 1)%Z at 2 by lia. rewrite pow2_succ. field.
Qed.

Lemma sized_weaken (lo hi lo' hi' : Z) (x : R) :
  sized lo hi x -> (lo' <= lo)%Z -> (hi <= hi')%Z -> sized lo' hi' x.
Proof.
  intros [H|[H1 H2]] Hlo Hhi; [left; exact H|right].
  apply pow2_le in Hlo, Hhi. lra.
Qed.

Lemma sized_inRange (lo hi : Z) (x : R) :
  sized lo hi x -> (-1000 <= lo)%Z -> (hi <= 1000)%Z -> inRange x.
Proof.
  intros H Hlo Hhi. destruct (@sized_weaken _ _ _ _ _ H Hlo Hhi) as [E|[H1 H2]];
    [left; exact E|right].
  pose proof (pow2_pos (-1000)). rewrite Rabs_right by lra. lra.
Qed.

Lemma small_factor (k K : R) :
  0 <= k <= K -> K * pow2 (-52) <= 1 -> 0 <= k * pow2 (-52) <= 1.
Proof.
  intros [H0 HK] H. pose proof (pow2_pos (-52)). split; nra.
Qed.

Lemma approximates_exact (a : float) :
  finite a -> 0 <= valueOf a -> approximates 0 a (valueOf a).
Proof.
  intros F H. split; [exact F|]. split; [exact H|].
  rewrite Rminus_diag, Rabs_R0. lra.
Qed.

Lemma approximates_weaken (k k' : R) (a : float) (x : R) :
  approximates k a x -> k <= k' -> approximates k' a x.
Proof.
  intros [F [Hx H]] Hk. split; [exact F|]. split; [exact Hx|].
  pose proof (pow2_pos (-52)). apply Rle_trans with (1 := H).
  apply Rmult_le_compat_r; [exact Hx|]. apply Rmult_le_compat_r; lra.
Qed.

(** The value of an approximation lies between half and twice the real. *)
Lemma approximates_value (k : R) (a : float) (x : R) :
  approximates k a x -> 0 <= k <= 1099511627776 ->
  x / 2 <= valueOf a <= 2 * x /\ (x = 0 -> valueOf a = 0).
Proof.
  intros [F [Hx H]] Hk. pose proof ulp_value as U. pose proof (pow2_pos (-52)) as P.
  assert (Ht : 0 <= k * pow2 (-52) <= / 2) by (split; nra).
  apply Rabs_bounds in H.
  assert (k * pow2 (-52) * x <= / 2 * x) by nra.
  split; [split; lra|]. intros E. subst x. lra.
Qed.

Lemma approximates_sized (k : R) (a : float) (x : R) (lo hi : Z) :
  approximates k a x -> 0 <= k <= 1099511627776 -> sized lo hi x ->
  0 <= valueOf a /\ sized (lo - 1) (hi + 1) (valueOf a).
Proof.
  intros H Hk Hs. destruct (@approximates_value _ _ _ H Hk) as [[L U] Z0].
  destruct H as [F [Hx _]]. split; [lra|].
  destruct Hs as [E|[H1 H2]]; [left; apply Z0, E|right].
  rewrite pow2_pred, pow2_succ. lra.
Qed.

(** One more rounding on an approximation. *)
Lemma round_compose (t u z P f : R) :
  0 <= z -> 0 <= t <= 1 -> 0 <= u ->
  Rabs (P - z) <= t * z -> Rabs (f - P) <= u * Rabs P ->
  Rabs (f - z) <= (t + 2 * u) * z.
Proof.
  intros Hz Ht Hu HP Hf. apply Rabs_bounds in HP.
  assert (HP0 : 0 <= P) by nra.
  rewrite (Rabs_right P) in Hf by lra. apply Rabs_bounds in Hf.
  assert (H1 : u * P <= u * ((1 + t) * z)) by (apply Rmult_le_compat_l; lra).
  assert (H2 : u * (t * z) <= u * z).
  { apply Rmult_le_compat_l; [lra|]. nra. }
  apply Rabs_le. split; nra.
Qed.

Lemma near_bounds (k P z : R) :
  0 <= z -> Rabs (P - z) <= k * pow2 (-52) * z -> 0 <= k <= 1099511627776 ->
  z / 2 <= P <= 2 * z.
Proof.
  intros Hz H Hk. pose proof ulp_value as U. pose proof (pow2_pos (-52)) as P52.
  assert (Ht : 0 <= k * pow2 (-52) <= / 2) by (split; nra).
  apply Rabs_bounds in H.
  assert (k * pow2 (-52) * z <= / 2 * z) by nra.
  lra.
Qed.

Lemma near_inRange (k P z : R) (lo hi : Z) :
  0 <= z -> Rabs (P - z) <= k * pow2 (-52) * z -> 0 <= k <= 1099511627776 ->
  sized lo hi z -> (-990 <= lo)%Z -> (hi <= 990)%Z ->
  inRange P.
Proof.
  intros Hz H Hk Hs Hlo Hhi. pose proof (@near_bounds _ _ _ Hz H Hk) as [L U].
  destruct Hs as [E|[H1 H2]]; [left; subst z; lra|right].
  assert (pow2 (-1000) <= pow2 (lo - 1)) by (apply pow2_le; lia).
  assert (pow2 (hi + 1) <= pow2 1000) by (apply pow2_le; lia).
  rewrite pow2_pred in *. rewrite pow2_succ in *.
  pose proof (pow2_pos lo). rewrite Rabs_right by lra. lra.
Qed.

Lemma approximates_rounded (k : R) (c : float) (P z : R) :
  finite c -> Rabs (valueOf c - P) <= pow2 (-52) * Rabs P ->
  0 <= z -> Rabs (P - z) <= k * pow2 (-52) * z -> 0 <= k <= 1099511627776 ->
  approximates (k + 2) c z.
Proof.
  intros F Hc Hz HP Hk. split; [exact F|]. split; [exact Hz|].
  pose proof ulp_value as U. pose proof (pow2_pos (-52)) as P52.
  assert (Ht : 0 <= k * pow2 (-52) <= 1) by (split; nra).
  replace ((k + 2) * pow2 (-52) * z) with ((k * pow2 (-52) + 2 * pow2 (-52)) * z)
    by ring.
  apply round_compose with (P := P); try assumption. lra.
Qed.

Lemma approximates_mul (k : R) (a b : float) (x : R) (lo hi : Z) :
  approximates k a x -> finite b -> 0 < valueOf b ->
  sized lo hi (x * valueOf b) -> (-990 <= lo)%Z -> (hi <= 990)%Z ->
  0 <= k <= 1099511627776 ->
  approximates (k + 2) (a * b) (x * valueOf b).
Proof.
  intros [Fa [Hx Ha]] Fb Hb Hs Hlo Hhi Hk.
  assert (Hz : 0 <= x * valueOf b) by nra.
  assert (HP : Rabs (valueOf a * valueOf b - x * valueOf b)
               <= k * pow2 (-52) * (x * valueOf b)).
  { replace (valueOf a * valueOf b - x * valueOf b)
      with ((valueOf a - x) * valueOf b) by ring.
    rewrite Rabs_mult, (Rabs_right (valueOf b)) by lra.
    rewrite <- Rmult_assoc. apply Rmult_le_compat_r; lra. }
  destruct (@mul_error a b Fa Fb (@near_inRange _ _ _ _ _ Hz HP Hk Hs Hlo Hhi)) as [F E].
  exact (@approximates_rounded _ _ _ _ F E Hz HP Hk).
Qed.

Lemma approximates_div (k : R) (a b : float) (x : R) (lo hi : Z) :
  approximates k a x -> finite b -> 0 < valueOf b ->
  sized lo hi (x / valueOf b) -> (-990 <= lo)%Z -> (hi <= 990)%Z ->
  0 <= k <= 1099511627776 ->
  approximates (k + 2) (a / b) (x / valueOf b).
Proof.
  intros [Fa [Hx Ha]] Fb Hb Hs Hlo Hhi Hk.
  assert (Hi : 0 < / valueOf b) by (apply Rinv_0_lt_compat; exact Hb).
  assert (Hz : 0 <= x / valueOf b) by (unfold Rdiv; nra).
  assert (HP : Rabs (valueOf a / valueOf b - x / valueOf b)
               <= k * pow2 (-52) * (x / valueOf b)).
  { replace (valueOf a / valueOf b - x / valueOf b)
      with ((valueOf a - x) * / valueOf b) by (unfold Rdiv; ring).
    rewrite Rabs_mult, (Rabs_right (/ valueOf b)) by lra.
    unfold Rdiv. rewrite <- Rmult_assoc. apply Rmult_le_compat_r; lra. }
  assert (Hne : valueOf b <> 0) by lra.
  destruct (@div_error a b Fa Fb Hne (@near_inRange _ _ _ _ _ Hz HP Hk Hs Hlo Hhi)) as [F E].
  exact (@approximates_rounded _ _ _ _ F E Hz HP Hk).
Qed.

Lemma approximates_add (k : R) (a b : float) (x y : R) :
  approximates k a x -> approximates k b y ->
  x + y <= pow2 990 ->
  0 <= k <= 1099511627776 ->
  approximates (k + 2) (a + b) (x + y).
Proof.
  intros [Fa [Hx Ha]] [Fb [Hy Hb]] Hhi Hk.
  assert (Hz : 0 <= x + y) by lra.
  assert (HP : Rabs (valueOf a + valueOf b - (x + y))
               <= k * pow2 (-52) * (x + y)).
  { replace (valueOf a + valueOf b - (x + y))
      with ((valueOf a - x) + (valueOf b - y)) by ring.
    apply Rle_trans with (1 := Rabs_triang _ _). lra. }
  pose proof (@near_bounds _ _ _ Hz HP Hk) as [L U].
  assert (Hr : Rabs (valueOf a + valueOf b) <= pow2 1000).
  { rewrite Rabs_right by lra.
    assert (pow2 991 <= pow2 1000) by (apply pow2_le; lia).
    change 991%Z with (990 + 1)%Z in H. rewrite pow2_succ in H. lra. }
  destruct (@add_error a b Fa Fb Hr) as [F E].
  exact (@approximates_rounded _ _ _ _ F E Hz HP Hk).
Qed.

(** A difference that is not small against its first operand: the errors
    of the operands grow by the factor [2^23]. *)
Lemma approximates_sub (k : R) (a b : float) (x y : R) :
  approximates k a x -> approximates k b y ->
  y <= x -> pow2 (-22) * x <= x - y ->
  x <= pow2 990 ->
  0 <= k <= 1024 ->
  approximates (k * 8388608 + 2) (a - b) (x - y).
Proof.
  intros [Fa [Hx Ha]] [Fb [Hy Hb]] Hyx Hwide Hhi Hk.
  pose proof ulp_value as U. pose proof (pow2_pos (-52)) as P52.
  assert (Hz : 0 <= x - y) by lra.
  assert (H22 : pow2 (-22) * 4194304 = 1).
  { change 4194304 with (IZR (2 ^ 22)). rewrite <- (@pow2_IZR 22) by lia.
    rewrite <- pow2_add. reflexivity. }
  assert (Hx22 : x <= 4194304 * (x - y)) by nra.
  assert (HP : Rabs (valueOf a - valueOf b - (x - y))
               <= k * 8388608 * pow2 (-52) * (x - y)).
  { replace (valueOf a - valueOf b - (x - y))
      with ((valueOf a - x) + - (valueOf b - y)) by ring.
    apply Rle_trans with (1 := Rabs_triang _ _). rewrite Rabs_Ropp.
    assert (k * pow2 (-52) * x + k * pow2 (-52) * y
            <= k * pow2 (-52) * (2 * x)).
    { assert (0 <= k * pow2 (-52)) by nra. nra. }
    assert (k * pow2 (-52) * (2 * x)
            <= k * pow2 (-52) * (2 * (4194304 * (x - y)))).
    { apply Rmult_le_compat_l; [nra|lra]. }
    lra. }
  assert (Hk' : 0 <= k * 8388608 <= 1099511627776) by lra.
  pose proof (@near_bounds _ _ _ Hz HP Hk') as [L Up].
  assert (Hr : Rabs (valueOf a - valueOf b) <= pow2 1000).
  { rewrite Rabs_right by lra.
    assert (pow2 991 <= pow2 1000) by (apply pow2_le; lia).
    change 991%Z with (990 + 1)%Z in H. rewrite pow2_succ in H. lra. }
  destruct (@sub_error a b Fa Fb Hr) as [F E].
  exact (@approximates_rounded _ _ _ _ F E Hz HP Hk').
Qed.

(** The difference of two numbers, rounded. *)
Lemma approximates_difference (a b : float) :
  finite a -> finite b -> valueOf b <= valueOf a -> valueOf a <= pow2 990 ->
  0 <= valueOf b ->
  approximates 2 (a - b) (valueOf a - valueOf b).
Proof.
  intros Fa Fb Hba Hhi Hb.
  assert (Hz : 0 <= valueOf a - valueOf b) by lra.
  assert (Hr : Rabs (valueOf a - valueOf b) <= pow2 1000).
  { rewrite Rabs_right by lra.
    assert (pow2 990 <= pow2 1000) by (apply pow2_le; lia). lra. }
  destruct (@sub_error a b Fa Fb Hr) as [F E].
  replace 2 with (0 + 2) by ring.
  apply (@approximates_rounded 0 _ _ _ F E Hz); [|lra].
  rewrite Rminus_diag, Rabs_R0. lra.
Qed.

End ErrorPropagation.

(** ** The round trip of the coordinate transforms *)

Section RoundTrip.
Import JS Types Spec Binary64.
Local Open Scope R_scope.

Lemma pow2_inverse (n : Z) : (0 <= n)%Z -> pow2 (- n) * IZR (2 ^ n) = 1.
Proof.
  intros H. rewrite <- (@pow2_IZR n H), <- pow2_add.
  replace (- n + n)%Z with 0%Z by lia. reflexivity.
Qed.

(** A power of two of the normal range, as a number of the program. *)
Lemma power_of_two_value (a : number) (e : Z) :
  Prim2SF a = S754_finite false 4503599627370496 e ->
  finite a /\ valueOf a = pow2 (e + 52).
Proof.
  intros E. unfold finite, valueOf. rewrite E. split; [reflexivity|].
  rewrite SF2R_finite, Rmult_1_l, Z.add_comm, pow2_add.
  rewrite (@pow2_IZR 52) by lia. reflexivity.
Qed.

Lemma zero_value : finite 0%float /\ valueOf 0%float = 0.
Proof. split; reflexivity. Qed.

Lemma one_value : finite 1%float /\ valueOf 1%float = 1.
Proof.
  destruct (@power_of_two_value 1%float (-52) eq_refl) as [F V].
  split; [exact F|]. rewrite V. reflexivity.
Qed.

Lemma tolerance_value :
  finite 1e-6%float /\ pow2 (-20) <= valueOf 1e-6%float <= 1.
Proof.
  assert (E : Prim2SF 1e-6%float = S754_finite false 4722366482869645 (-72))
    by (vm_compute; reflexivity).
  unfold finite, valueOf. rewrite E. split; [reflexivity|].
  rewrite SF2R_finite, Rmult_1_l.
  pose proof (pow2_pos (-72)) as P.
  assert (H20 : pow2 (-20) = 4503599627370496 * pow2 (-72)).
  { change 4503599627370496 with (IZR (2 ^ 52)).
    rewrite <- (@pow2_IZR 52) by lia. rewrite <- pow2_add. reflexivity. }
  assert (H1 : 1 = 4722366482869645213696 * pow2 (-72)).
  { change 4722366482869645213696 with (IZR (2 ^ 72)).
    rewrite Rmult_comm. symmetry. apply (@pow2_inverse 72). lia. }
  split; [rewrite H20|rewrite H1]; apply Rmult_le_compat_r; lra.
Qed.

Lemma pow2_opp (n : Z) : (0 <= n)%Z -> pow2 (- n) = / IZR (2 ^ n).
Proof.
  intros H. assert (0 < IZR (2 ^ n)).
  { apply IZR_lt. apply Z.pow_pos_nonneg; lia. }
  apply Rmult_eq_reg_r with (IZR (2 ^ n)); [|lra].
  rewrite (pow2_inverse H). field. lra.
Qed.

(** The value of an approximation, to one part in 1024. *)
Lemma near_tight (k P z : R) :
  0 <= z -> Rabs (P - z) <= k * pow2 (-52) * z -> 0 <= k <= 1099511627776 ->
  (1 - / 1024) * z <= P <= (1 + / 1024) * z.
Proof.
  intros Hz H Hk. pose proof ulp_value as U. pose proof (pow2_pos (-52)) as P52.
  assert (Ht : 0 <= k * pow2 (-52) <= / 1024) by (split; nra).
  apply Rabs_bounds in H.
  assert (k * pow2 (-52) * z <= / 1024 * z) by nra.
  lra.
Qed.

Lemma approximates_tight (k : R) (a : number) (x : R) :
  approximates k a x -> 0 <= k <= 1099511627776 ->
  (1 - / 1024) * x <= valueOf a <= (1 + / 1024) * x.
Proof.
  intros [F [Hx H]] Hk. exact (@near_tight _ _ _ Hx H Hk).
Qed.

(** *** The hypotheses, on the reals *)

Lemma inUnitInterval_value (v : number) :
  inUnitInterval v = true -> finite v /\ 0 <= valueOf v <= 1.
Proof.
  unfold inUnitInterval, le. intros H. apply andb_true_iff in H.
  destruct H as [H0 H1].
  destruct zero_value as [F0 V0]. destruct one_value as [F1 V1].
  assert (F : finite v) by exact (@finite_between _ _ _ F0 F1 H0 H1).
  split; [exact F|].
  apply (le_value F0 F) in H0. apply (le_value F F1) in H1. lra.
Qed.

Lemma awayFromUnderflow_value (v : number) :
  finite v -> 0 <= valueOf v <= 1 -> awayFromUnderflow v = true ->
  sized (-300) 0 (valueOf v).
Proof.
  unfold awayFromUnderflow, le. intros F Hv H. apply orb_true_iff in H.
  destruct zero_value as [F0 V0].
  destruct (@power_of_two_value 0x1p-300%float (-352) eq_refl) as [Fp Vp].
  destruct H as [H|H].
  - apply (eqb_value F F0) in H. left. lra.
  - apply (le_value Fp F) in H. right. rewrite Vp in H.
    change (-352 + 52)%Z with (-300)%Z in H. change (pow2 0) with 1. lra.
Qed.

Lemma usualDimension_value (d : number) :
  usualDimension d = true ->
  finite d /\ pow2 (-300) <= valueOf d <= pow2 300.
Proof.
  unfold usualDimension, le. intros H. apply andb_true_iff in H.
  destruct H as [H0 H1].
  destruct (@power_of_two_value 0x1p-300%float (-352) eq_refl) as [Fl Vl].
  destruct (@power_of_two_value 0x1p300%float 248 eq_refl) as [Fh Vh].
  assert (F : finite d) by exact (@finite_between _ _ _ Fl Fh H0 H1).
  split; [exact F|].
  apply (le_value Fl F) in H0. apply (le_value F Fh) in H1.
  rewrite Vl in H0. rewrite Vh in H1. exact (conj H0 H1).
Qed.

Lemma noHairline_value (lo hi : number) :
  finite lo -> finite hi -> 0 <= valueOf lo ->
  sized (-300) 0 (valueOf hi) ->
  noHairline lo hi = true ->
  valueOf lo <= valueOf hi
  /\ (valueOf lo = valueOf hi
      \/ pow2 (-21) * valueOf hi <= valueOf hi - valueOf lo).
Proof.
  unfold noHairline, le. intros Flo Fhi Hlo Hs H. apply andb_true_iff in H.
  destruct H as [Hle H]. apply (le_value Flo Fhi) in Hle.
  split; [exact Hle|]. apply orb_true_iff in H. destruct H as [H|H].
  - left. apply (eqb_value Flo Fhi). exact H.
  - right.
    destruct (@power_of_two_value 0x1p-20%float (-72) eq_refl) as [Fc Vc].
    change (-72 + 52)%Z with (-20)%Z in Vc.
    assert (Hhi0 : 0 <= valueOf hi) by lra.
    assert (Hhi1 : valueOf hi <= pow2 990).
    { destruct Hs as [E|[_ U]]; [rewrite E; apply Rlt_le, pow2_pos|].
      apply Rle_trans with (1 := U). apply pow2_le. lia. }
    assert (Ac : approximates 2 (hi * 0x1p-20)%float (valueOf hi * pow2 (-20))).
    { rewrite <- Vc. replace 2 with (0 + 2) by ring.
      apply (@approximates_mul 0 hi 0x1p-20%float (valueOf hi) (-320) (-20)).
      - apply approximates_exact; assumption.
      - exact Fc.
      - rewrite Vc. apply pow2_pos.
      - rewrite Vc. destruct Hs as [E|[L U]]; [left; rewrite E; ring|right].
        pose proof (pow2_pos (-20)) as P20. change (pow2 0) with 1 in U.
        replace (pow2 (-320)) with (pow2 (-300) * pow2 (-20))
          by (rewrite <- pow2_add; reflexivity).
        split; [apply Rmult_le_compat_r; lra|].
        rewrite <- (Rmult_1_l (pow2 (-20))) at 2.
        apply Rmult_le_compat_r; lra.
      - lia.
      - lia.
      - lra. }
    assert (Ad : approximates 2 (hi - lo)%float (valueOf hi - valueOf lo)).
    { apply approximates_difference; assumption. }
    assert (Fm : finite (hi * 0x1p-20)%float) by apply Ac.
    assert (Fd : finite (hi - lo)%float) by apply Ad.
    apply (le_value Fm Fd) in H.
    pose proof (@approximates_tight _ _ _ Ac ltac:(lra)) as [Lc _].
    pose proof (@approximates_tight _ _ _ Ad ltac:(lra)) as [_ Ud].
    assert (E20 : pow2 (-20) = / 1048576) by exact (@pow2_opp 20 ltac:(lia)).
    assert (E21 : pow2 (-21) = / 2097152) by exact (@pow2_opp 21 ltac:(lia)).
    rewrite E20 in Lc. rewrite E21. lra.
Qed.

(** *** The tolerance test *)

(** A number that approximates [original] to [2^30] roundings passes the
    test of the tolerance 1e-6. *)
Lemma withinTolerance_approximates (k : R) (original reproduced : number) :
  finite original -> 0 <= valueOf original ->
  sized (-900) 900 (valueOf original) ->
  approximates k reproduced (valueOf original) ->
  0 <= k <= 1073741824 ->
  withinTolerance original reproduced = true.
Proof.
  intros Fo Ho Hs [Fr [_ Herr]] Hk.
  pose proof ulp_value as U. pose proof (pow2_pos (-52)) as P52.
  set (vo := valueOf original) in *. set (vr := valueOf reproduced) in *.
  assert (Ht : 0 <= k * pow2 (-52) <= / 4194304) by (split; nra).
  assert (Hd : Rabs (vr - vo) <= / 4194304 * vo).
  { apply Rle_trans with (1 := Herr). apply Rmult_le_compat_r; lra. }
  assert (Hvo : vo <= pow2 900).
  { destruct Hs as [E|[_ Up]]; [rewrite E; apply Rlt_le, pow2_pos|exact Up]. }
  assert (H9 : pow2 900 <= pow2 1000) by (apply pow2_le; lia).
  assert (Hr : Rabs (vr - vo) <= pow2 1000) by lra.
  destruct (@sub_error reproduced original Fr Fo Hr) as [FD ED].
  fold vr vo in ED.
  set (vD := valueOf (reproduced - original)%float) in *.
  assert (HD : Rabs vD <= 2 * (/ 4194304 * vo)).
  { replace vD with ((vD - (vr - vo)) + (vr - vo)) by ring.
    apply Rle_trans with (1 := Rabs_triang _ _).
    pose proof (Rabs_pos (vr - vo)). nra. }
  destruct tolerance_value as [Fc [Lc Uc]].
  set (c := valueOf 1e-6%float) in *.
  assert (E20 : pow2 (-20) = / 1048576) by exact (@pow2_opp 20 ltac:(lia)).
  assert (Fa : finite (PrimFloat.abs original)) by (apply abs_finite; exact Fo).
  assert (Va : valueOf (PrimFloat.abs original) = vo).
  { rewrite abs_value. apply Rabs_right. fold vo. lra. }
  assert (Hz : 0 <= c * vo) by nra.
  assert (Hin : inRange (valueOf 1e-6%float * valueOf (PrimFloat.abs original))).
  { rewrite Va. fold c. destruct Hs as [E|[Lo Up]]; [left; fold vo in E; rewrite E; ring|].
    right. fold vo in Lo, Up. rewrite Rabs_right by lra.
    assert (pow2 (-1000) <= pow2 (-20) * pow2 (-900)).
    { rewrite <- pow2_add. apply pow2_le. lia. }
    pose proof (pow2_pos (-900)). pose proof (pow2_pos (-20)).
    split.
    - apply Rle_trans with (1 := H). apply Rmult_le_compat; lra.
    - apply Rle_trans with (2 := H9). rewrite <- (Rmult_1_l (pow2 900)).
      apply Rmult_le_compat; lra. }
  destruct (@mul_error 1e-6%float (PrimFloat.abs original) Fc Fa Hin) as [FT ET].
  rewrite Va in ET. fold c in ET. rewrite (Rabs_right (c * vo)) in ET by lra.
  set (vT := valueOf (1e-6 * PrimFloat.abs original)%float) in *.
  apply Rabs_bounds in ET.
  assert (HT : / 2 * (/ 1048576 * vo) <= vT).
  { assert (pow2 (-52) * (c * vo) <= / 2 * (c * vo)).
    { apply Rmult_le_compat_r; lra. }
    assert (/ 1048576 * vo <= c * vo) by (apply Rmult_le_compat_r; lra).
    lra. }
  unfold withinTolerance, le, Math_abs.
  apply (le_value (abs_finite FD) FT).
  rewrite abs_value. fold vD vT. lra.
Qed.

(** *** One axis of the round trip *)

Lemma sized_mul_dimension (lo hi : Z) (x d : R) :
  sized lo hi x -> pow2 (-300) <= d <= pow2 300 ->
  sized (lo - 300) (hi + 300) (x * d).
Proof.
  intros [E|[L U]] [Ld Ud]; [left; rewrite E; ring|right].
  pose proof (pow2_pos lo). pose proof (pow2_pos (-300)).
  replace (lo - 300)%Z with (lo + -300)%Z by lia. rewrite !pow2_add.
  split; apply Rmult_le_compat; lra.
Qed.

Lemma sized_div_dimension (lo hi : Z) (x d : R) :
  sized lo hi x -> pow2 (-300) <= d <= pow2 300 ->
  sized (lo - 300) (hi + 300) (x / d).
Proof.
  intros H [Ld Ud]. pose proof (pow2_pos (-300)) as P. unfold Rdiv.
  apply sized_mul_dimension; [exact H|].
  assert (E1 : pow2 (-300) = / pow2 300).
  { apply Rmult_eq_reg_r with (pow2 300); [|pose proof (pow2_pos 300); lra].
    rewrite <- pow2_add. rewrite Rinv_l; [reflexivity|].
    pose proof (pow2_pos 300); lra. }
  assert (E2 : pow2 300 = / pow2 (-300)).
  { rewrite E1, Rinv_inv. reflexivity. }
  split.
  - rewrite E1. apply Rinv_le_contravar; lra.
  - rewrite E2. apply Rinv_le_contravar; lra.
Qed.

Lemma sized_add (lo hi : Z) (x y : R) :
  sized lo hi x -> sized lo hi y -> sized lo (hi + 1) (x + y).
Proof.
  pose proof (pow2_pos lo) as P. pose proof (pow2_succ hi) as E. unfold sized.
  intros [Ex|[Lx Ux]] [Ey|[Ly Uy]]; [left; lra|right; lra..].
Qed.

Lemma approximates_eq (k : R) (a : number) (x y : R) :
  approximates k a x -> x = y -> approximates k a y.
Proof. intros H E. rewrite <- E. exact H. Qed.

Lemma approximates_zero (k : R) (a : number) :
  approximates k a 0 -> valueOf a = 0.
Proof.
  intros [_ [_ H]]. rewrite Rmult_0_r in H. apply Rabs_bounds in H. lra.
Qed.

(** The coordinates [lo] and [hi] of one axis, on a page of dimension
    [d]: to pixels and back, and for the pixels, to the page and back. *)
Lemma axis_round_trip (lo hi d : number) :
  inUnitInterval lo = true -> inUnitInterval hi = true ->
  awayFromUnderflow lo = true -> awayFromUnderflow hi = true ->
  noHairline lo hi = true -> usualDimension d = true ->
  let start := (lo * d)%float in
  let extent := ((hi - lo) * d)%float in
  withinTolerance lo (start / d)%float = true
  /\ withinTolerance hi ((start + extent) / d)%float = true
  /\ withinTolerance start (start / d * d)%float = true
  /\ withinTolerance extent (((start + extent) / d - start / d) * d)%float = true.
Proof.
  intros Hlo Hhi Ulo Uhi Hair Hd start extent.
  destruct (inUnitInterval_value lo Hlo) as [Flo Vlo].
  destruct (inUnitInterval_value hi Hhi) as [Fhi Vhi].
  pose proof (@awayFromUnderflow_value lo Flo Vlo Ulo) as Slo.
  pose proof (@awayFromUnderflow_value hi Fhi Vhi Uhi) as Shi.
  destruct (usualDimension_value d Hd) as [Fd Vd].
  destruct (@noHairline_value lo hi Flo Fhi (proj1 Vlo) Shi Hair) as [Hle Hwide].
  set (L := valueOf lo) in *. set (H := valueOf hi) in *. set (D := valueOf d) in *.
  pose proof (pow2_pos (-300)) as P300.
  assert (PD : 0 < D) by lra.
  assert (ND : D <> 0) by lra.
  assert (E21 : pow2 (-21) = / 2097152) by exact (@pow2_opp 21 ltac:(lia)).
  assert (E22 : pow2 (-22) = / 4194304) by exact (@pow2_opp 22 ltac:(lia)).
  assert (H990 : forall e x, (e <= 990)%Z -> x <= pow2 e -> x <= pow2 990).
  { intros e x He Hx. apply Rle_trans with (1 := Hx). apply pow2_le. exact He. }
  assert (Sdiff : sized (-321) 0 (H - L)).
  { destruct Hwide as [E|Hw]; [left; lra|].
    destruct Shi as [E|[Lh Uh]]; [left; lra|right].
    replace (pow2 (-321)) with (pow2 (-21) * pow2 (-300))
      by (rewrite <- pow2_add; reflexivity).
    change (pow2 0) with 1 in *. split; [|lra].
    apply Rle_trans with (2 := Hw). apply Rmult_le_compat_l; [lra|exact Lh]. }
  (* to pixels *)
  assert (Astart : approximates 2 start (L * D)).
  { apply approximates_weaken with (k := 0 + 2); [|lra].
    apply (@approximates_mul 0 lo d L (-300 - 300) (0 + 300));
      [apply approximates_exact; [exact Flo|apply Vlo]|exact Fd|exact PD| |lia|lia|lra].
    fold D. apply sized_mul_dimension; assumption. }
  assert (Adiff : approximates 2 (hi - lo)%float (H - L)).
  { apply approximates_difference; try assumption; [|apply Vlo].
    apply (H990 0%Z); [lia|apply Vhi]. }
  assert (Aextent : approximates 4 extent ((H - L) * D)).
  { apply approximates_weaken with (k := 2 + 2); [|lra].
    apply (@approximates_mul 2 (hi - lo)%float d (H - L) (-321 - 300) (0 + 300));
      [exact Adiff|exact Fd|exact PD| |lia|lia|lra].
    fold D. apply sized_mul_dimension; assumption. }
  assert (Send : sized (-600) 300 (H * D)).
  { apply (@sized_mul_dimension (-300) 0); assumption. }
  assert (Aend : approximates 6 (start + extent)%float (H * D)).
  { apply approximates_eq with (x := L * D + (H - L) * D); [|ring].
    apply approximates_weaken with (k := 4 + 2); [|lra].
    apply approximates_add;
      [apply approximates_weaken with (1 := Astart); lra|exact Aextent| |lra].
    replace (L * D + (H - L) * D) with (H * D) by ring.
    destruct Send as [E|[_ U]]; [rewrite E; apply Rlt_le, pow2_pos|].
    apply (H990 300%Z); [lia|exact U]. }
  (* and back *)
  assert (Alo : approximates 4 (start / d)%float L).
  { apply approximates_eq with (x := L * D / D); [|field; exact ND].
    apply approximates_weaken with (k := 2 + 2); [|lra].
    apply (@approximates_div 2 start d (L * D) (-300) 0);
      [exact Astart|exact Fd|exact PD| |lia|lia|lra].
    fold D. replace (L * D / D) with L by (field; exact ND). exact Slo. }
  assert (Ahi : approximates 8 ((start + extent) / d)%float H).
  { apply approximates_eq with (x := H * D / D); [|field; exact ND].
    apply approximates_weaken with (k := 6 + 2); [|lra].
    apply (@approximates_div 6 (start + extent)%float d (H * D) (-300) 0);
      [exact Aend|exact Fd|exact PD| |lia|lia|lra].
    fold D. replace (H * D / D) with H by (field; exact ND). exact Shi. }
  split.
  { apply (@withinTolerance_approximates 4);
      [exact Flo|apply Vlo| |exact Alo|lra].
    apply sized_weaken with (1 := Slo); lia. }
  split.
  { apply (@withinTolerance_approximates 8);
      [exact Fhi|apply Vhi| |exact Ahi|lra].
    apply sized_weaken with (1 := Shi); lia. }
  (* the pixels, to the page and back *)
  assert (Fstart : finite start) by apply Astart.
  assert (Fextent : finite extent) by apply Aextent.
  destruct (@approximates_sized 2 start (L * D) (-600) 300 Astart ltac:(lra))
    as [HX SX]; [apply (@sized_mul_dimension (-300) 0); assumption|].
  destruct (@approximates_sized 4 extent ((H - L) * D) (-621) 300 Aextent ltac:(lra))
    as [HY SY]; [apply (@sized_mul_dimension (-321) 0); assumption|].
  set (X := valueOf start) in *. set (Y := valueOf extent) in *.
  change (-600 - 1)%Z with (-601)%Z in SX. change (300 + 1)%Z with 301%Z in SX, SY.
  change (-621 - 1)%Z with (-622)%Z in SY.
  assert (Bquot : approximates 2 (start / d)%float (X / D)).
  { apply approximates_weaken with (k := 0 + 2); [|lra].
    apply (@approximates_div 0 start d X (-601 - 300) (301 + 300));
      [apply approximates_exact; assumption|exact Fd|exact PD| |lia|lia|lra].
    fold D. apply sized_div_dimension; assumption. }
  split.
  { apply (@withinTolerance_approximates 4);
      [exact Fstart|exact HX|apply sized_weaken with (1 := SX); lia| |lra].
    fold X. apply approximates_eq with (x := X / D * D); [|field; exact ND].
    apply approximates_weaken with (k := 2 + 2); [|lra].
    apply (@approximates_mul 2 (start / d)%float d (X / D) (-601) 301);
      [exact Bquot|exact Fd|exact PD| |lia|lia|lra].
    fold D. replace (X / D * D) with X by (field; exact ND). exact SX. }
  assert (Cases : pow2 (-22) * (X + Y) <= Y \/ (Y = 0 /\ X <> 0)).
  { pose proof (@approximates_tight _ _ _ Astart ltac:(lra)) as [LX UX].
    pose proof (@approximates_tight _ _ _ Aextent ltac:(lra)) as [LY UY].
    fold X in LX, UX. fold Y in LY, UY.
    destruct Hwide as [E|Hw].
    - assert (EY : Y = 0).
      { apply (@approximates_zero 4). replace 0 with ((H - L) * D) by (rewrite <- E; ring).
        exact Aextent. }
      destruct (Req_dec X 0) as [EX|NX]; [left; rewrite EX, EY; lra|right].
      split; assumption.
    - left. assert (Hp : pow2 (-21) * H * D <= (H - L) * D).
      { apply Rmult_le_compat_r; lra. }
      rewrite E21 in Hp. rewrite E22.
      assert (0 <= H * D) by (apply Rmult_le_pos; lra).
      replace (/ 2097152 * H * D) with (/ 2097152 * (H * D)) in Hp by ring.
      replace ((H - L) * D) with (H * D - L * D) in * by ring.
      lra. }
  assert (SXY : sized (-622) 302 (X + Y)).
  { apply (@sized_add (-622) 301); [apply sized_weaken with (1 := SX); lia|exact SY]. }
  destruct Cases as [Hw|[EY NX]].
  - assert (Bsum : approximates 2 (start + extent)%float (X + Y)).
    { apply approximates_weaken with (k := 0 + 2); [|lra].
      apply approximates_add; [apply approximates_exact; assumption..| |lra].
      destruct SXY as [E|[_ U]]; [rewrite E; apply Rlt_le, pow2_pos|].
      apply (H990 302%Z); [lia|exact U]. }
    assert (Bend : approximates 4 ((start + extent) / d)%float ((X + Y) / D)).
    { apply approximates_weaken with (k := 2 + 2); [|lra].
      apply (@approximates_div 2 (start + extent)%float d (X + Y) (-622 - 300) (302 + 300));
        [exact Bsum|exact Fd|exact PD| |lia|lia|lra].
      fold D. apply sized_div_dimension; assumption. }
    assert (PI : 0 < / D) by (apply Rinv_0_lt_compat; exact PD).
    assert (Bdiff : approximates (4 * 8388608 + 2)
                      ((start + extent) / d - start / d)%float
                      ((X + Y) / D - X / D)).
    { apply approximates_sub;
        [exact Bend|apply approximates_weaken with (1 := Bquot); lra| | | |lra].
      - unfold Rdiv. apply Rmult_le_compat_r; lra.
      - replace ((X + Y) / D - X / D) with (Y * / D) by (unfold Rdiv; ring).
        unfold Rdiv. rewrite <- Rmult_assoc. apply Rmult_le_compat_r; lra.
      - destruct (@sized_div_dimension (-622) 302 (X + Y) D SXY Vd) as [E|[_ U]];
          [rewrite E; apply Rlt_le, pow2_pos|].
        apply (H990 (302 + 300)%Z); [lia|exact U]. }
    apply (@withinTolerance_approximates (4 * 8388608 + 2 + 2));
      [exact Fextent|exact HY|apply sized_weaken with (1 := SY); lia| |lra].
    fold Y. apply approximates_eq with (x := ((X + Y) / D - X / D) * D); [|field; exact ND].
    apply (@approximates_mul (4 * 8388608 + 2) _ d ((X + Y) / D - X / D) (-622) 301);
      [exact Bdiff|exact Fd|exact PD| |lia|lia|lra].
    fold D. replace (((X + Y) / D - X / D) * D) with Y by (field; exact ND). exact SY.
  - assert (Esum : (start + extent)%float = start).
    { apply add_zero_r; assumption. }
    rewrite Esum.
    assert (Fq : finite (start / d)%float) by apply Bquot.
    set (q := (start / d)%float) in *.
    assert (Hr : Rabs (valueOf q - valueOf q) <= pow2 1000).
    { rewrite Rminus_diag, Rabs_R0. apply Rlt_le, pow2_pos. }
    destruct (@sub_error q q Fq Fq Hr) as [Fz Ez].
    rewrite Rminus_diag, Rabs_R0, Rmult_0_r in Ez.
    assert (Vz : valueOf (q - q)%float = 0).
    { apply Rabs_bounds in Ez. lra. }
    assert (Hin : inRange (valueOf (q - q)%float * valueOf d)).
    { left. rewrite Vz. ring. }
    destruct (@mul_error (q - q)%float d Fz Fd Hin) as [Fp Ep].
    rewrite Vz, Rmult_0_l, Rminus_0_r, Rabs_R0, Rmult_0_r in Ep.
    apply (@withinTolerance_approximates 0);
      [exact Fextent|exact HY|apply sized_weaken with (1 := SY); lia| |lra].
    split; [exact Fp|]. split; [exact HY|].
    fold Y. rewrite EY, Rminus_0_r, Rmult_0_r. exact Ep.
Qed.

(** C3, amended.  On binary64 numbers the round trip stays within the
    relative tolerance 1e-6 away from underflow and from cancellation: for
    every normalized box with ordered edges, whose coordinates are zero or
    at least 2^-300 and whose width and height are zero or at least 2^-20
    of the right and bottom edge, and for page dimensions between 2^-300
    and 2^300, the grounding-legacy-grounding composition gives back [l],
    [t], [r], [b] and the legacy-grounding-legacy composition gives back
    the [x], [y], [w], [h] of the legacy form of the box, each within the
    tolerance. *)
Theorem round_trip_within_tolerance :
  forall (page : number) (box : GroundingBox number) (pageWidth pageHeight : number),
    roundTripBox box = true ->
    usualDimension pageWidth = true -> usualDimension pageHeight = true ->
    (exists box',
        groundingRoundTrip (chunkOfBox page box) pageWidth pageHeight = Some box'
        /\ boxWithinTolerance box box' = true)
    /\ (forall legacy,
           transformGroundingToLegacy (chunkOfBox page box) pageWidth pageHeight
           = Ok legacy ->
           exists geometry',
             legacyRoundTrip legacy pageWidth pageHeight = Some geometry'
             /\ geometryWithinTolerance (LegacyTextChunk.geometry legacy)
                                        geometry' = true).
Proof.
  intros page [l t r b] pageWidth pageHeight Hbox HW HH.
  unfold roundTripBox, normalizedBox in Hbox.
  cbn [GroundingBox.l GroundingBox.t GroundingBox.r GroundingBox.b] in Hbox.
  do 9 (apply andb_true_iff in Hbox;
        let H := fresh "Hyp" in destruct Hbox as [Hbox H]).
  destruct (@axis_round_trip l r pageWidth) as [X1 [X2 [X3 X4]]]; try assumption.
  destruct (@axis_round_trip t b pageHeight) as [Y1 [Y2 [Y3 Y4]]]; try assumption.
  split.
  - eexists. split; [reflexivity|].
    cbv -[withinTolerance PrimFloat.mul PrimFloat.div PrimFloat.add PrimFloat.sub].
    rewrite X1, Y1, X2, Y2. reflexivity.
  - intros legacy E. injection E as <-.
    eexists. split; [reflexivity|].
    cbv -[withinTolerance PrimFloat.mul PrimFloat.div PrimFloat.add PrimFloat.sub].
    rewrite X3, Y3, X4, Y4. reflexivity.
Qed.

(** The amended statement at the box (1/4, 1/4, 3/4, 1/2) on a 612 x 792
    page. *)
Lemma round_trip_within_tolerance_witness :
  roundTripBox quarterBox = true
  /\ usualDimension 612%float = true /\ usualDimension 792%float = true
  /\ exists box',
      groundingRoundTrip (chunkOfBox 0%float quarterBox) 612%float 792%float
      = Some box'
      /\ boxWithinTolerance quarterBox box' = true.
Proof.
  split; [reflexivity|]. split; [reflexivity|]. split; [reflexivity|].
  exact (proj1 (@round_trip_within_tolerance 0%float quarterBox 612%float 792%float
                  eq_refl eq_refl eq_refl)).
Defined.

End RoundTrip.

(** ** The semantic region classifier *)

Section SortedByTop.
Import JS Types Enhanced Spec.

Lemma number_le_total (a b : number) :
  PrimFloat.is_nan a = false -> PrimFloat.is_nan b = false ->
  lt b a = false -> le a b = true.
Proof.
  intros Ha Hb H. destruct (lt a b) eqn:E.
  - apply number_lt_le, E.
  - apply (@number_le_of_not_lt a b Ha Hb E H).
Qed.

(** On tops that are numbers the comparator of the sort is positive exactly
    when its first block starts below the second: the comparator is
    consistent, and every stable sort gives the same array. *)
Lemma compareBlocks_positive (a b : Block) :
  PrimFloat.is_nan (topOf a) = false -> PrimFloat.is_nan (topOf b) = false ->
  gt (compareBlocks a b) 0%float = gt (topOf a) (topOf b).
Proof.
  intros Ha Hb. unfold gt, compareBlocks.
  apply (proj1 (@sub_sign (topOf a) (topOf b) Ha Hb)).
Qed.

Lemma insertSorted_sorted (x : Block) (sorted : list Block) :
  topsAreNumbers (x :: sorted) ->
  StronglySorted notBelow sorted ->
  StronglySorted notBelow (insertSorted compareBlocks x sorted).
Proof.
  unfold topsAreNumbers.
  induction sorted as [|h t IH]; intros Hnum Hsorted; simpl.
  - constructor; constructor.
  - inversion Hnum as [|? ? Hx Hrest]; subst.
    inversion Hrest as [|? ? Hh Ht]; subst.
    inversion Hsorted as [|? ? Hst Hht]; subst.
    rewrite (@compareBlocks_positive h x Hh Hx).
    destruct (gt (topOf h) (topOf x)) eqn:E.
    + assert (Hxh : notBelow x h) by (apply number_lt_le; exact E).
      constructor; [exact Hsorted|].
      constructor; [exact Hxh|].
      eapply Forall_impl; [|exact Hht].
      intros b Hb. exact (@number_le_trans _ _ _ Hxh Hb).
    + constructor.
      * apply IH; [constructor; assumption|exact Hst].
      * apply Forall_forall. intros b Hb.
        apply (Permutation_in _ (insertSorted_perm compareBlocks x t)) in Hb.
        destruct Hb as [Hb|Hb].
        -- subst b. apply number_le_total; assumption.
        -- revert b Hb. apply Forall_forall. exact Hht.
Qed.

Lemma insertSorted_numbers (x : Block) (sorted : list Block) :
  topsAreNumbers (x :: sorted) ->
  topsAreNumbers (insertSorted compareBlocks x sorted).
Proof.
  unfold topsAreNumbers. intros H.
  eapply Permutation_Forall; [|exact H].
  apply Permutation_sym, insertSorted_perm.
Qed.

Lemma filter_none {A : Type} (f : A -> bool) (xs : list A) :
  (forall x, In x xs -> f x = false) -> filter f xs = [].
Proof.
  induction xs as [|x xs IH]; intros H; [reflexivity|]. simpl.
  rewrite (H x (or_introl eq_refl)). apply IH.
  intros y Hy. apply H. right. exact Hy.
Qed.

(** A block at or below one that starts below [x] does not start where [x]
    starts. *)
Lemma startsAt_below (t : number) (x h b : Block) :
  startsAt t x = true -> gt (topOf h) (topOf x) = true -> notBelow h b ->
  startsAt t b = false.
Proof.
  unfold startsAt, notBelow. intros Hx Hh Hb.
  apply andb_true_iff in Hx. destruct Hx as [Hxt Htx].
  destruct (le (topOf b) t) eqn:E; [|reflexivity].
  pose proof (@number_le_trans _ _ _ Hb (@number_le_trans _ _ _ E Htx)) as Hhx.
  apply le_not_gt in Hhx. congruence.
Qed.

Lemma insertSorted_stable (t : number) (x : Block) (sorted : list Block) :
  topsAreNumbers (x :: sorted) ->
  StronglySorted notBelow sorted ->
  filter (startsAt t) (insertSorted compareBlocks x sorted)
  = filter (startsAt t) sorted ++ (if startsAt t x then [x] else []).
Proof.
  unfold topsAreNumbers.
  induction sorted as [|h rest IH]; intros Hnum Hsorted.
  - simpl. destruct (startsAt t x); reflexivity.
  - inversion Hnum as [|? ? Hx Hrest]; subst.
    inversion Hrest as [|? ? Hh Ht]; subst.
    inversion Hsorted as [|? ? Hst Hht]; subst.
    cbn [insertSorted]. rewrite (@compareBlocks_positive h x Hh Hx).
    destruct (gt (topOf h) (topOf x)) eqn:E.
    + cbn [filter]. destruct (startsAt t x) eqn:Px.
      * assert (Hnone : filter (startsAt t) (h :: rest) = []).
        { apply filter_none. intros b [Hb|Hb].
          - subst b. apply (@startsAt_below t x h _ Px E).
            apply number_le_refl, Hh.
          - apply (@startsAt_below t x h _ Px E).
            revert b Hb. apply Forall_forall. exact Hht. }
        change (filter (startsAt t) (h :: rest))
          with (if startsAt t h then h :: filter (startsAt t) rest
                else filter (startsAt t) rest) in Hnone |- *.
        rewrite Hnone. reflexivity.
      * rewrite app_nil_r. reflexivity.
    + cbn [filter]. rewrite IH; [|constructor; assumption|exact Hst].
      destruct (startsAt t h); reflexivity.
Qed.

Lemma sort_fold_sorted (xs : list Block) :
  forall acc,
    topsAreNumbers xs -> topsAreNumbers acc -> StronglySorted notBelow acc ->
    let sorted := fold_left (fun acc x => insertSorted compareBlocks x acc) xs acc in
    StronglySorted notBelow sorted
    /\ (forall t, filter (startsAt t) sorted
                  = filter (startsAt t) acc ++ filter (startsAt t) xs).
Proof.
  induction xs as [|x xs IH]; intros acc Hxs Hacc Hsorted; cbn [fold_left].
  - split; [exact Hsorted|]. intros t. rewrite app_nil_r. reflexivity.
  - inversion Hxs as [|? ? Hx Hrest]; subst.
    assert (Hnum : topsAreNumbers (x :: acc)) by (constructor; assumption).
    destruct (IH (insertSorted compareBlocks x acc) Hrest
                 (insertSorted_numbers Hnum)
                 (insertSorted_sorted Hnum Hsorted)) as [S1 S2].
    split; [exact S1|]. intros t. rewrite S2.
    rewrite (insertSorted_stable t Hnum Hsorted), <- app_assoc.
    f_equal. cbn [filter]. destruct (startsAt t x); reflexivity.
Qed.

(** Sorting blocks whose tops are numbers puts them in the order of their
    tops and keeps the blocks that start at the same height in the order
    they had. *)
Lemma sort_by_top (blocks : list Block) :
  topsAreNumbers blocks ->
  StronglySorted notBelow (sort compareBlocks blocks)
  /\ (forall t, filter (startsAt t) (sort compareBlocks blocks)
                = filter (startsAt t) blocks).
Proof.
  intros H.
  destruct (@sort_fold_sorted blocks [] H (Forall_nil _) (SSorted_nil _))
    as [S1 S2].
  split; [exact S1|exact S2].
Qed.

Lemma sorted_first (first : Block) (rest : list Block) :
  topsAreNumbers (first :: rest) ->
  StronglySorted notBelow (first :: rest) ->
  forall b, In b (first :: rest) -> notBelow first b.
Proof.
  intros Hnum Hsorted b Hb.
  inversion Hnum as [|? ? Hf _]; subst.
  inversion Hsorted as [|? ? _ Hall]; subst.
  destruct Hb as [Hb|Hb].
  - subst b. apply number_le_refl, Hf.
  - revert b Hb. apply Forall_forall. exact Hall.
Qed.

Lemma sorted_last (sorted : list Block) (d : Block) :
  topsAreNumbers sorted ->
  StronglySorted notBelow sorted ->
  forall b, In b sorted -> notBelow b (last sorted d).
Proof.
  induction sorted as [|h t IH]; intros Hnum Hsorted b Hb; [destruct Hb|].
  inversion Hnum as [|? ? Hh Ht]; subst.
  inversion Hsorted as [|? ? Hst Hall]; subst.
  destruct t as [|h' t'].
  - destruct Hb as [Hb|[]]. subst b. apply number_le_refl, Hh.
  - change (last (h :: h' :: t') d) with (last (h' :: t') d).
    destruct Hb as [Hb|Hb].
    + subst b.
      assert (Hin : In (last (h' :: t') d) (h' :: t')).
      { apply last_in. discriminate. }
      revert Hin. generalize (last (h' :: t') d). apply Forall_forall. exact Hall.
    + apply IH; assumption.
Qed.

End SortedByTop.

Section SemanticRegions.
Import JS Types Enhanced Spec.

(** C8. For a non-empty block list whose tops are numbers, let
    [sortedBlocks] be the blocks in the order of their tops, blocks that
    start at the same height keeping their order, [topBlock] its first and
    [bottomBlock] its last block: no block starts above [topBlock], none
    below [bottomBlock].  The regions hold a header exactly when the top of
    [topBlock] is below 0.2, a footer exactly when the bottom of
    [bottomBlock] is above 0.8, each with confidence 0.7 and the box and
    identifier of its block; and one main_content region exactly when some
    block has its top above 0.2 and its bottom below 0.8, with confidence
    0.8, the identifiers of exactly these blocks and the box around them.
    No other region is produced. *)
Theorem generateSemanticRegions_classification :
  forall (block : Block) (others : list Block),
    let blocks := block :: others in
    let regions := generateSemanticRegions blocks in
    topsAreNumbers blocks ->
    exists (sortedBlocks : list Block) (topBlock bottomBlock : Block),
      let mainBlocks := filter strictlyInside sortedBlocks in
      Permutation sortedBlocks blocks
      /\ StronglySorted notBelow sortedBlocks
      /\ (forall t, filter (startsAt t) sortedBlocks = filter (startsAt t) blocks)
      /\ hd_error sortedBlocks = Some topBlock
      /\ hd_error (rev sortedBlocks) = Some bottomBlock
      /\ In topBlock blocks
      /\ (forall b, In b blocks -> le (topOf topBlock) (topOf b) = true)
      /\ In bottomBlock blocks
      /\ (forall b, In b blocks -> le (topOf b) (topOf bottomBlock) = true)
      /\ regionsOfType rt_header regions
         = (if lt (topOf topBlock) 0.2%float
            then [ {| SemanticRegion.id := JS.str "semantic-header-0";
                      SemanticRegion.type := rt_header;
                      SemanticRegion.bbox := Block.bbox topBlock;
                      SemanticRegion.confidence := 0.7%float;
                      SemanticRegion.blockIds := [Block.id topBlock] |} ]
            else [])
      /\ regionsOfType rt_footer regions
         = (if gt (bottomOf bottomBlock) 0.8%float
            then [ {| SemanticRegion.id := JS.str "semantic-footer-0";
                      SemanticRegion.type := rt_footer;
                      SemanticRegion.bbox := Block.bbox bottomBlock;
                      SemanticRegion.confidence := 0.7%float;
                      SemanticRegion.blockIds := [Block.id bottomBlock] |} ]
            else [])
      /\ regionsOfType rt_main_content regions
         = (if existsb strictlyInside blocks
            then [ {| SemanticRegion.id := JS.str "semantic-main-0";
                      SemanticRegion.type := rt_main_content;
                      SemanticRegion.bbox :=
                        calculateBoundingBox (map Block.bbox mainBlocks);
                      SemanticRegion.confidence := 0.8%float;
                      SemanticRegion.blockIds := map Block.id mainBlocks |} ]
            else [])
      /\ (forall b, In b mainBlocks <-> In b blocks /\ strictlyInside b = true)
      /\ List.length regions
         = (List.length (regionsOfType rt_header regions)
            + List.length (regionsOfType rt_footer regions)
            + List.length (regionsOfType rt_main_content regions))%nat.
Proof.
  intros block others blocks regions Hnum.
  pose proof (sort_perm compareBlocks blocks) as P.
  destruct (sort_by_top Hnum) as [Hsorted Hstable].
  assert (Hnum' : topsAreNumbers (sort compareBlocks blocks)).
  { eapply Permutation_Forall; [apply Permutation_sym, P|exact Hnum]. }
  destruct (sort compareBlocks blocks) as [|topBlock rest] eqn:Hsort.
  { apply Permutation_nil in P. discriminate. }
  exists (topBlock :: rest), topBlock, (last (topBlock :: rest) topBlock).
  cbv zeta.
  assert (Hin : forall b, In b (topBlock :: rest) <-> In b blocks).
  { intros b. split; apply Permutation_in; [exact P|apply Permutation_sym, P]. }
  assert (Hmain : (0 <? List.length (filter inMainBand (topBlock :: rest)))%nat
                  = existsb inMainBand blocks).
  { rewrite filter_nonempty, <- Hsort. apply sort_existsb. }
  assert (Hregions :
            regions
            = (if inTopBand topBlock then [headerRegion topBlock] else [])
              ++ (if inBottomBand (last (topBlock :: rest) topBlock)
                  then [footerRegion (last (topBlock :: rest) topBlock)] else [])
              ++ (if existsb inMainBand blocks
                  then [mainRegion (filter inMainBand (topBlock :: rest))]
                  else [])).
  { unfold regions, generateSemanticRegions. rewrite Hsort, <- Hmain. reflexivity. }
  change strictlyInside with inMainBand.
  change (lt (topOf topBlock) 0.2%float) with (inTopBand topBlock).
  change (gt (bottomOf (last (topBlock :: rest) topBlock)) 0.8%float)
    with (inBottomBand (last (topBlock :: rest) topBlock)).
  rewrite Hregions.
  split; [exact P|]. split; [exact Hsorted|]. split; [exact Hstable|].
  split; [reflexivity|].
  split; [apply hd_error_rev_last; discriminate|].
  split; [apply Hin; left; reflexivity|].
  split; [intros b Hb; apply (sorted_first Hnum' Hsorted), Hin, Hb|].
  split; [apply Hin, last_in; discriminate|].
  split; [intros b Hb; apply (sorted_last topBlock Hnum' Hsorted), Hin, Hb|].
  split; [|split; [|split; [|split]]].
  - destruct (inTopBand topBlock), (inBottomBand (last (topBlock :: rest) topBlock)),
      (existsb inMainBand blocks); reflexivity.
  - destruct (inTopBand topBlock), (inBottomBand (last (topBlock :: rest) topBlock)),
      (existsb inMainBand blocks); reflexivity.
  - destruct (inTopBand topBlock), (inBottomBand (last (topBlock :: rest) topBlock)),
      (existsb inMainBand blocks); reflexivity.
  - intros b. rewrite filter_In, Hin. tauto.
  - destruct (inTopBand topBlock), (inBottomBand (last (topBlock :: rest) topBlock)),
      (existsb inMainBand blocks); reflexivity.
Qed.

Lemma generateSemanticRegions_classification_witness :
  topsAreNumbers threeBlocks
  /\ exists (sortedBlocks : list Block) (topBlock bottomBlock : Block),
      Permutation sortedBlocks threeBlocks
      /\ hd_error sortedBlocks = Some topBlock
      /\ hd_error (rev sortedBlocks) = Some bottomBlock
      /\ (forall b, In b threeBlocks -> le (topOf topBlock) (topOf b) = true)
      /\ (forall b, In b threeBlocks -> le (topOf b) (topOf bottomBlock) = true)
      /\ List.length (regionsOfType rt_header (generateSemanticRegions threeBlocks))
         = (if lt (topOf topBlock) 0.2%float then 1 else 0)%nat.
Proof.
  assert (Hnum : topsAreNumbers threeBlocks).
  { repeat constructor. }
  split; [exact Hnum|].
  destruct (@generateSemanticRegions_classification
              (blockAt "block-0" 0.4%float 0.3%float)
              [ blockAt "block-1" 0.05%float 0.05%float;
                blockAt "block-2" 0.9%float 0.05%float ] Hnum)
    as [sortedBlocks [topBlock [bottomBlock
         [P [_ [_ [Hfirst [Hlast [_ [Hmin [_ [Hmax [Hheader _]]]]]]]]]]]]].
  exists sortedBlocks, topBlock, bottomBlock.
  split; [exact P|]. split; [exact Hfirst|]. split; [exact Hlast|].
  split; [exact Hmin|]. split; [exact Hmax|].
  unfold threeBlocks. rewrite Hheader.
  destruct (lt (topOf topBlock) 0.2%float); reflexivity.
Defined.

End SemanticRegions.


(** ** Bounding boxes *)

Section BoundingBoxes.
Import JS Types Enhanced Spec.
Local Open Scope float_scope.

(** X18. The box [calculateBoundingBox] returns starts at or before every
    given box and is measured up to an edge at or after every given box:
    unless it is NaN, its left edge is below or equal to the left edge of
    each box and its top to the top of each box; its width and height are
    the differences between these and the greatest right and bottom edge,
    which, unless NaN, are above or equal to the right and bottom edge of
    each box. *)
Theorem calculateBoundingBox_bounds :
  forall (bboxes : list BoundingBox) (b : BoundingBox),
    In b bboxes ->
    let box := calculateBoundingBox bboxes in
    let maxX := Math_max_all (map rightEdge bboxes) in
    let maxY := Math_max_all (map bottomEdge bboxes) in
    BoundingBox.width box = maxX - BoundingBox.x box
    /\ BoundingBox.height box = maxY - BoundingBox.y box
    /\ (PrimFloat.is_nan (BoundingBox.x box) = false ->
        le (BoundingBox.x box) (BoundingBox.x b) = true)
    /\ (PrimFloat.is_nan (BoundingBox.y box) = false ->
        le (BoundingBox.y box) (BoundingBox.y b) = true)
    /\ (PrimFloat.is_nan maxX = false -> le (rightEdge b) maxX = true)
    /\ (PrimFloat.is_nan maxY = false -> le (bottomEdge b) maxY = true).
Proof.
  intros bboxes b Hb box maxX maxY. subst box maxX maxY.
  destruct bboxes as [|b0 bs]; [destruct Hb|].
  unfold calculateBoundingBox. cbv zeta.
  cbn [BoundingBox.x BoundingBox.y BoundingBox.width BoundingBox.height].
  split; [reflexivity|]. split; [reflexivity|].
  revert Hb. generalize (b0 :: bs). intros bboxes Hb.
  unfold Math_min_all, Math_max_all.
  split; [|split; [|split]]; intros H.
  - apply (proj2 (Math_min_fold_le _ _ H)), in_map, Hb.
  - apply (proj2 (Math_min_fold_le _ _ H)), in_map, Hb.
  - apply (proj2 (Math_max_fold_ge _ _ H)).
    apply (in_map rightEdge), Hb.
  - apply (proj2 (Math_max_fold_ge _ _ H)).
    apply (in_map bottomEdge), Hb.
Qed.

Lemma calculateBoundingBox_bounds_witness :
  let bboxes := [boxAt 0.05 0.05; boxAt 0.12 0.1] in
  let box := calculateBoundingBox bboxes in
  le (BoundingBox.x box) 0.12 = true
  /\ le (rightEdge (boxAt 0.12 0.1)) (Math_max_all (map rightEdge bboxes)) = true.
Proof.
  intros bboxes box.
  destruct (@calculateBoundingBox_bounds bboxes (boxAt 0.12 0.1)
              (or_intror (or_introl eq_refl)))
    as [_ [_ [Hx [_ [Hr _]]]]].
  split; [apply Hx|apply Hr]; vm_compute; reflexivity.
Defined.

(** The right edge of the returned box, computed again as [x + width], can
    fall short of a given box by one rounding step: for words spanning
    [0.05, 0.1] and [0.12, 0.22] it is 0.21999999999999997. *)
Lemma calculateBoundingBox_right_edge_rounds :
  let box := calculateBoundingBox [boxAt 0.05 0.05; boxAt 0.12 0.1] in
  rightEdge (boxAt 0.12 0.1) = 0.22
  /\ rightEdge box = 0.21999999999999997
  /\ lt (rightEdge box) (rightEdge (boxAt 0.12 0.1)) = true.
Proof. vm_compute. repeat split. Qed.

End BoundingBoxes.

(** ** Markdown *)

Section Markdown.
Import JS Types Enhanced Spec.

Lemma split_nonempty (sep : codeunit) (s : jsstring) : split sep s <> [].
Proof.
  destruct s as [|c t]; simpl; [discriminate|].
  destruct (c =? sep)%N; [discriminate|].
  destruct (split sep t); discriminate.
Qed.

Lemma split_pieces (sep : codeunit) (s : jsstring) :
  Forall (fun piece => ~ In sep piece) (split sep s).
Proof.
  induction s as [|c t IH]; simpl.
  - constructor; [intros []|constructor].
  - destruct (N.eqb_spec c sep) as [->|Hc].
    + constructor; [intros []|exact IH].
    + destruct (split sep t) as [|piece pieces].
      * constructor; [|constructor]. intros [E|[]]. congruence.
      * inversion IH as [|? ? Hp Hps]; subst. constructor; [|exact Hps].
        intros [E|Hin]; [congruence|exact (Hp Hin)].
Qed.

Lemma split_app_sep (sep : codeunit) (p t : jsstring) :
  ~ In sep p -> split sep (p ++ sep :: t) = p :: split sep t.
Proof.
  induction p as [|c p IH]; intros Hp; simpl.
  - rewrite N.eqb_refl. reflexivity.
  - destruct (N.eqb_spec c sep) as [->|Hc]; [exfalso; apply Hp; left; reflexivity|].
    rewrite IH; [reflexivity|]. intros Hin. apply Hp. right. exact Hin.
Qed.

Lemma split_no_sep (sep : codeunit) (p : jsstring) :
  ~ In sep p -> split sep p = [p].
Proof.
  induction p as [|c p IH]; intros Hp; simpl; [reflexivity|].
  destruct (N.eqb_spec c sep) as [->|Hc]; [exfalso; apply Hp; left; reflexivity|].
  rewrite IH; [reflexivity|]. intros Hin. apply Hp. right. exact Hin.
Qed.

(** Splitting what was joined gives the pieces back. *)
Lemma split_join (sep : codeunit) (items : list jsstring) :
  items <> [] -> Forall (fun piece => ~ In sep piece) items ->
  split sep (join [sep] items) = items.
Proof.
  induction items as [|p items IH]; intros Hne H; [congruence|].
  inversion H as [|? ? Hp Hitems]; subst.
  destruct items as [|q items'].
  - simpl. apply split_no_sep, Hp.
  - change (join [sep] (p :: q :: items'))
      with (p ++ sep :: join [sep] (q :: items'))%list.
    rewrite split_app_sep by exact Hp.
    rewrite IH; [reflexivity|discriminate|exact Hitems].
Qed.

(** X19. The markdown of a chunk of type [list] has one line per line of
    the chunk text, in order, each being the text line after a dash and a
    space: no line is lost, merged or split. *)
Theorem markdown_list_items :
  forall chunk : TextChunk number,
    TextChunk.chunk_type chunk = ct_list ->
    split newline (markdownOfChunk chunk)
    = map (fun item => (JS.str "- " ++ item)%list)
          (split newline (TextChunk.text chunk)).
Proof.
  intros chunk H. unfold markdownOfChunk. rewrite H.
  apply split_join.
  - pose proof (split_nonempty newline (TextChunk.text chunk)) as Hne.
    destruct (split newline (TextChunk.text chunk)); [congruence|discriminate].
  - pose proof (split_pieces newline (TextChunk.text chunk)) as Hp.
    apply Forall_forall. intros piece Hin. apply in_map_iff in Hin.
    destruct Hin as [item [<- Hitem]].
    rewrite Forall_forall in Hp. intros Hin. apply in_app_or in Hin.
    destruct Hin as [Hin|Hin]; [|exact (Hp item Hitem Hin)].
    vm_compute in Hin. destruct Hin as [E|[E|[]]]; discriminate.
Qed.

Lemma markdown_list_items_witness :
  split newline
        (markdownOfChunk
           {| TextChunk.text := JS.str "milk" ++ [newline] ++ JS.str "eggs";
              TextChunk.chunk_id := JS.str "block-0";
              TextChunk.chunk_type := ct_list;
              TextChunk.grounding := [];
              TextChunk.confidence := None;
              TextChunk.semantic_role := None |})
  = [JS.str "- milk"; JS.str "- eggs"].
Proof.
  exact (@markdown_list_items
           {| TextChunk.text := JS.str "milk" ++ [newline] ++ JS.str "eggs";
              TextChunk.chunk_id := JS.str "block-0";
              TextChunk.chunk_type := ct_list;
              TextChunk.grounding := [];
              TextChunk.confidence := None;
              TextChunk.semantic_role := None |} eq_refl).
Defined.

End Markdown.

(** ** The extraction result *)

Section DocumentMetrics.
Import JS Types Enhanced Spec.

Lemma fold_sum {A : Type} (f : A -> nat) (xs : list A) :
  forall acc, fold_left (fun sum p => sum + f p) xs acc
              = acc + list_sum (map f xs).
Proof.
  induction xs as [|x xs IH]; intros acc; simpl; [lia|].
  rewrite IH. lia.
Qed.

Lemma list_sum_perm (xs ys : list nat) :
  Permutation xs ys -> list_sum xs = list_sum ys.
Proof. induction 1; simpl; lia. Qed.

Lemma list_sum_pairs {A B : Type} (f : A -> nat) (g : B -> nat)
  (xs : list A) (ys : list B) :
  Forall2 (fun x y => f x = g y) xs ys ->
  list_sum (map f xs) = list_sum (map g ys).
Proof. induction 1; simpl; lia. Qed.

Lemma list_sum_le {A : Type} (f g : A -> nat) (xs : list A) :
  Forall (fun x => f x <= g x) xs ->
  list_sum (map f xs) <= list_sum (map g xs).
Proof. induction 1; simpl; lia. Qed.

Lemma concat_length_ge {A : Type} (groups : list (list A)) :
  Forall (fun g => g <> []) groups ->
  List.length groups <= List.length (List.concat groups).
Proof.
  induction 1 as [|g groups Hg _ IH]; simpl; [lia|].
  rewrite length_app. destruct g; [congruence|]. simpl. lia.
Qed.

(** The counts of one page: as many legacy chunks as words, at most as many
    lines as words and at most as many blocks as lines. *)
Lemma performEnhancedOCR_counts (nanoid : nat -> jsstring) (canvas : Canvas)
  (words : option (list OcrWord)) (pageNumber : number) :
  let result := performEnhancedOCR nanoid canvas words pageNumber in
  List.length (fst result) = List.length (Page.words (snd result))
  /\ List.length (Page.lines (snd result))
     <= List.length (Page.words (snd result))
  /\ List.length (Page.blocks (snd result))
     <= List.length (Page.lines (snd result)).
Proof.
  unfold performEnhancedOCR.
  assert (Hlen : let st := match words with
                           | Some ocrWords =>
                               fold_left (pushWord nanoid canvas pageNumber)
                                         ocrWords ([], [])
                           | None => ([], [])
                           end in
                 List.length (fst st) = List.length (snd st)).
  { destruct words as [ocrWords|]; [|reflexivity].
    destruct (@pushWord_fold nanoid canvas pageNumber ocrWords ([], []) []
                (Forall2_nil _) eq_refl eq_refl) as [H2 _].
    exact (Forall2_length H2). }
  cbv zeta in Hlen.
  destruct (match words with
            | Some ocrWords =>
                fold_left (pushWord nanoid canvas pageNumber) ocrWords ([], [])
            | None => ([], [])
            end) as [legacyChunks irWords].
  cbv zeta. cbn [fst snd Page.words Page.lines Page.blocks] in *.
  split; [exact Hlen|].
  destruct (makeLines_fields (groupWordsIntoLines_nonempty irWords))
    as [Hwords _].
  set (lines := makeLines (groupWordsIntoLines irWords)) in *.
  destruct (makeBlocks_fields (groupLinesIntoBlocks_nonempty lines))
    as [Hlines _].
  split.
  - pose proof (concat_length_ge (groupWordsIntoLines_nonempty irWords)) as L.
    rewrite groupWordsIntoLines_concat in L.
    rewrite (Permutation_length (sort_perm compareWords irWords)) in L.
    apply (f_equal (@List.length (list Word))) in Hwords.
    rewrite length_map in Hwords.
    exact (Nat.le_trans _ _ _ (Nat.eq_le_incl _ _ Hwords) L).
  - pose proof (concat_length_ge (groupLinesIntoBlocks_nonempty lines)) as L.
    rewrite groupLinesIntoBlocks_concat in L.
    apply (f_equal (@List.length (list Line))) in Hlines.
    rewrite length_map in Hlines.
    exact (Nat.le_trans _ _ _ (Nat.eq_le_incl _ _ Hlines) L).
Qed.

Lemma processorPage_visible (page : Page) :
  processorPage page -> Forall visibleBlock (Page.blocks page).
Proof.
  intros [nanoid [canvas [words [pageNumber ->]]]].
  exact (proj2 (performEnhancedOCR_blocks nanoid canvas words pageNumber)).
Qed.

Lemma generateTextChunks_count (irPages : list Page) :
  Forall processorPage irPages ->
  List.length (generateTextChunks irPages)
  = list_sum (map (fun p => List.length (Page.blocks p)) irPages).
Proof.
  induction 1 as [|page irPages Hp _ IH]; [reflexivity|].
  unfold generateTextChunks in *. cbn [flat_map map list_sum].
  rewrite length_app, IH.
  rewrite (visible_blocks_projected page (processorPage_visible Hp)), length_map.
  reflexivity.
Qed.

Lemma samePage_processorPage (pages : list LegacyPageData) (irPages : list Page) :
  Forall2 samePage pages irPages -> Forall processorPage irPages.
Proof.
  induction 1 as [|p ip pages irPages Hp _ IH]; constructor; [|exact IH].
  destruct Hp as [nanoid [canvas [words [pageNumber E]]]].
  exists nanoid, canvas, words, pageNumber.
  rewrite <- E. reflexivity.
Qed.

(** X20. When the document completes and every legacy page record was
    built with its IR page by [performEnhancedOCR], the pages handed on are
    the collected pages reordered, and the metrics agree with the content:
    [word_count] and [totalWords] are the number of legacy text chunks of
    all pages, the number of chunks is [totalBlocks], and
    [totalBlocks <= totalLines <= totalWords].  [has_text] is true whatever
    the counts are. *)
Theorem completeDocument_metrics :
  forall (allPages : list LegacyPageData) (irPages : list Page)
         (pageData : LegacyPageData) (irPage : Page) (numPages : number),
    Forall2 samePage (allPages ++ [pageData]) (irPages ++ [irPage]) ->
    let finalPages :=
      fst (completeDocument allPages irPages pageData irPage numPages) in
    let result :=
      snd (completeDocument allPages irPages pageData irPage numPages) in
    Permutation finalPages (allPages ++ [pageData])
    /\ Permutation (ExtractionResult.pages result) (irPages ++ [irPage])
    /\ ExtractionResult.word_count result = ExtractionResult.totalWords result
    /\ ExtractionResult.totalWords result
       = list_sum (map (fun p => List.length (LegacyPageData.textChunks p))
                       finalPages)
    /\ List.length (ExtractionResult.chunks result)
       = ExtractionResult.totalBlocks result
    /\ ExtractionResult.totalBlocks result <= ExtractionResult.totalLines result
    /\ ExtractionResult.totalLines result <= ExtractionResult.totalWords result
    /\ ExtractionResult.has_text result = true.
Proof.
  intros allPages irPages pageData irPage numPages H finalPages result.
  subst finalPages result. unfold completeDocument. cbv zeta.
  cbn [fst snd ExtractionResult.pages ExtractionResult.word_count
       ExtractionResult.totalWords ExtractionResult.totalLines
       ExtractionResult.totalBlocks ExtractionResult.chunks
       ExtractionResult.has_text].
  set (legacy := (allPages ++ [pageData])%list) in *.
  set (ir := (irPages ++ [irPage])%list) in *.
  pose proof (sort_perm compareLegacyPages legacy) as PL.
  pose proof (sort_perm comparePages ir) as PI.
  pose proof (samePage_processorPage H) as HP.
  assert (HPs : Forall processorPage (sort comparePages ir)).
  { exact (Permutation_Forall (Permutation_sym PI) HP). }
  assert (Hcounts : Forall (fun p =>
                              List.length (Page.blocks p) <= List.length (Page.lines p)
                              /\ List.length (Page.lines p) <= List.length (Page.words p))
                           (sort comparePages ir)).
  { apply Forall_forall. intros p Hp. rewrite Forall_forall in HPs.
    destruct (HPs p Hp) as [nanoid [canvas [words [pageNumber ->]]]].
    destruct (performEnhancedOCR_counts nanoid canvas words pageNumber)
      as [_ [L1 L2]].
    split; assumption. }
  rewrite !fold_sum. cbn [Nat.add].
  split; [exact PL|]. split; [exact PI|]. split; [reflexivity|].
  split; [|split; [|split; [|split]]].
  - rewrite (list_sum_perm (Permutation_map _ PI)).
    rewrite (list_sum_perm (Permutation_map _ PL)).
    symmetry. apply list_sum_pairs.
    eapply Forall2_impl; [|exact H].
    intros p ip [nanoid [canvas [words [pageNumber E]]]].
    pose proof (performEnhancedOCR_counts nanoid canvas words pageNumber)
      as [L _].
    rewrite <- E in L. exact L.
  - apply generateTextChunks_count, HPs.
  - apply list_sum_le. eapply Forall_impl; [|exact Hcounts].
    intros p [L1 L2]. exact L1.
  - apply list_sum_le. eapply Forall_impl; [|exact Hcounts].
    intros p [L1 L2]. exact L2.
  - reflexivity.
Qed.

Lemma completeDocument_metrics_witness :
  let result :=
    snd (completeDocument [oneWordLegacyPage 1%float "Invoice"]
                          [oneWordPage 1%float "Invoice"]
                          (oneWordLegacyPage 2%float "Total")
                          (oneWordPage 2%float "Total") 2%float) in
  ExtractionResult.word_count result = 2
  /\ List.length (ExtractionResult.chunks result)
     = ExtractionResult.totalBlocks result.
Proof.
  intros result.
  assert (H : Forall2 samePage
                ([oneWordLegacyPage 1%float "Invoice"]
                 ++ [oneWordLegacyPage 2%float "Total"])
                ([oneWordPage 1%float "Invoice"]
                 ++ [oneWordPage 2%float "Total"])).
  { assert (Hsame : forall n t, samePage (oneWordLegacyPage n t) (oneWordPage n t)).
    { intros n t. eexists. eexists. eexists. eexists.
      unfold oneWordLegacyPage, oneWordPage.
      cbn [LegacyPageData.textChunks]. symmetry. apply surjective_pairing. }
    cbn [app]. apply Forall2_cons; [apply Hsame|].
    apply Forall2_cons; [apply Hsame|apply Forall2_nil]. }
  destruct (@completeDocument_metrics
              [oneWordLegacyPage 1%float "Invoice"]
              [oneWordPage 1%float "Invoice"]
              (oneWordLegacyPage 2%float "Total")
              (oneWordPage 2%float "Total") 2%float H)
    as [_ [_ [Hwc [_ [Hchunks _]]]]].
  split; [vm_compute; reflexivity|exact Hchunks].
Defined.

End DocumentMetrics.

(** ** The search results by page *)

Section ResultsByPage.
Import JS PdfProcessor Spec Viewer.

Lemma lookup_setGroup_same (k : nat) (v : list TextChunk)
  (groups : list (nat * list TextChunk)) :
  lookupGroup k (setGroup k v groups) = Some v.
Proof.
  induction groups as [|[k' w] groups IH]; simpl.
  - rewrite Nat.eqb_refl. reflexivity.
  - destruct (k' =? k) eqn:E; simpl; rewrite E; [reflexivity|exact IH].
Qed.

Lemma lookup_setGroup_other (k k' : nat) (v : list TextChunk)
  (groups : list (nat * list TextChunk)) :
  k <> k' -> lookupGroup k' (setGroup k v groups) = lookupGroup k' groups.
Proof.
  intros Hk. induction groups as [|[j w] groups IH]; simpl.
  - destruct (Nat.eqb_spec k k'); [congruence|reflexivity].
  - destruct (Nat.eqb_spec j k) as [->|Hj]; simpl.
    + destruct (Nat.eqb_spec k k'); [congruence|reflexivity].
    + destruct (j =? k'); [reflexivity|exact IH].
Qed.

Lemma lookupGroup_None (k : nat) (groups : list (nat * list TextChunk)) :
  lookupGroup k groups = None <-> ~ In k (map fst groups).
Proof.
  induction groups as [|[j w] groups IH]; simpl; [tauto|].
  destruct (Nat.eqb_spec j k) as [->|Hj].
  - split; [discriminate|]. intros H. exfalso. apply H. left. reflexivity.
  - rewrite IH. tauto.
Qed.

Lemma setGroup_keys (k : nat) (v : list TextChunk)
  (groups : list (nat * list TextChunk)) :
  map fst (setGroup k v groups)
  = match lookupGroup k groups with
    | None => (map fst groups ++ [k])%list
    | Some _ => map fst groups
    end.
Proof.
  induction groups as [|[j w] groups IH]; simpl; [reflexivity|].
  destruct (j =? k); simpl; [reflexivity|].
  rewrite IH. destruct (lookupGroup k groups); reflexivity.
Qed.

Lemma setGroup_sizes (k : nat) (v : list TextChunk)
  (groups : list (nat * list TextChunk)) :
  list_sum (map (fun g => List.length (snd g)) (setGroup k v groups))
  + match lookupGroup k groups with
    | None => 0
    | Some entry => List.length entry
    end
  = list_sum (map (fun g => List.length (snd g)) groups) + List.length v.
Proof.
  induction groups as [|[j w] groups IH]; simpl; [lia|].
  destruct (j =? k); simpl; lia.
Qed.

(** What the grouping holds after the chunks [done]. *)
Lemma groupChunk_fold (chunks : list TextChunk) :
  forall (groups : list (nat * list TextChunk)) (done : list TextChunk),
    NoDup (map fst groups) ->
    (forall k, lookupGroup k groups = entryOfPage k done) ->
    list_sum (map (fun g => List.length (snd g)) groups) = List.length done ->
    let groups' := fold_left groupChunk chunks groups in
    NoDup (map fst groups')
    /\ (forall k, lookupGroup k groups' = entryOfPage k (done ++ chunks))
    /\ list_sum (map (fun g => List.length (snd g)) groups')
       = List.length (done ++ chunks).
Proof.
  induction chunks as [|c chunks IH]; intros groups done ND Hl Hs.
  - cbn. rewrite app_nil_r. repeat split; assumption.
  - cbn [fold_left]. cbv zeta.
    replace (done ++ c :: chunks)%list with ((done ++ [c]) ++ chunks)%list
      by (rewrite <- app_assoc; reflexivity).
    set (pn := TextChunk.pageNumber c).
    assert (Hentry : forall k,
               entryOfPage k (done ++ [c])
               = if (pn =? k)%nat
                 then Some (chunksOfPage k done ++ [c])%list
                 else entryOfPage k done).
    { intros k. unfold entryOfPage.
      assert (E : chunksOfPage k (done ++ [c])
                  = (chunksOfPage k done
                     ++ (if (pn =? k)%nat then [c] else []))%list).
      { unfold chunksOfPage. rewrite filter_app. reflexivity. }
      rewrite E. destruct (pn =? k)%nat.
      - destruct (chunksOfPage k done); reflexivity.
      - rewrite app_nil_r. reflexivity. }
    assert (Hold : match lookupGroup pn groups with
                   | None => chunksOfPage pn done = []
                   | Some entry => chunksOfPage pn done = entry
                   end).
    { rewrite Hl. unfold entryOfPage.
      destruct (chunksOfPage pn done); reflexivity. }
    apply IH; unfold groupChunk; fold pn.
    + destruct (lookupGroup pn groups) as [entry|] eqn:L;
        rewrite setGroup_keys, L; [exact ND|].
      apply NoDup_app; [exact ND|repeat constructor; intros []|].
      intros k Hin [<-|[]]. apply lookupGroup_None in L. exact (L Hin).
    + intros k. rewrite Hentry.
      destruct (Nat.eqb_spec pn k) as [<-|Hk].
      * destruct (lookupGroup pn groups) as [entry|] eqn:L;
          rewrite lookup_setGroup_same, Hold; reflexivity.
      * destruct (lookupGroup pn groups) as [entry|] eqn:L;
          rewrite lookup_setGroup_other by exact Hk; apply Hl.
    + rewrite length_app. cbn [List.length].
      destruct (lookupGroup pn groups) as [entry|] eqn:L.
      * pose proof (setGroup_sizes pn (entry ++ [c]) groups) as Hsize.
        rewrite L, length_app in Hsize. cbn [List.length] in Hsize.
        unfold TextChunk in *. lia.
      * pose proof (setGroup_sizes pn ([] ++ [c]) groups) as Hsize.
        rewrite L in Hsize. cbn [List.length app] in Hsize. cbn [app].
        unfold TextChunk in *. lia.
Qed.

(** X21. The search results grouped by page are a partition of the
    results: the entry of a page holds exactly the results of that page, in
    their order; a page without result has no entry; no page has two
    entries; the entries together hold as many chunks as there are
    results; and the page count shown is the number of different pages
    among the results. *)
Theorem groupedChunks_partition :
  forall (filteredChunks : list TextChunk),
    let groups := groupedChunks filteredChunks in
    (forall pageNumber,
        lookupGroup pageNumber groups = entryOfPage pageNumber filteredChunks)
    /\ NoDup (map fst groups)
    /\ (forall pageNumber,
           In pageNumber (map fst groups)
           <-> In pageNumber (map TextChunk.pageNumber filteredChunks))
    /\ list_sum (map (fun g => List.length (snd g)) groups)
       = List.length filteredChunks
    /\ pageCount filteredChunks
       = List.length (nodup Nat.eq_dec
                            (map TextChunk.pageNumber filteredChunks)).
Proof.
  intros filteredChunks groups.
  destruct (@groupChunk_fold filteredChunks [] [] (NoDup_nil _)
              (fun k => eq_refl) eq_refl) as [ND [Hl Hs]].
  cbn [app] in Hl, Hs. fold (groupedChunks filteredChunks) in ND, Hl, Hs.
  fold groups in ND, Hl, Hs.
  assert (Hkeys : forall pageNumber,
             In pageNumber (map fst groups)
             <-> In pageNumber (map TextChunk.pageNumber filteredChunks)).
  2: { split; [exact Hl|]. split; [exact ND|]. split; [exact Hkeys|].
       split; [exact Hs|].
       unfold pageCount. fold groups.
       rewrite <- (length_map fst groups).
       apply Permutation_length, NoDup_Permutation;
         [exact ND|apply NoDup_nodup|].
       intros k. rewrite nodup_In. apply Hkeys. }
  intros pn. split.
  - intros Hin. destruct (lookupGroup pn groups) as [entry|] eqn:L.
    + rewrite Hl in L. unfold entryOfPage in L.
      destruct (chunksOfPage pn filteredChunks) as [|c cs] eqn:F; [discriminate|].
      assert (Hc : In c (chunksOfPage pn filteredChunks)) by (rewrite F; left; reflexivity).
      apply filter_In in Hc. destruct Hc as [Hc E]. apply Nat.eqb_eq in E.
      rewrite <- E. apply in_map, Hc.
    + apply lookupGroup_None in L. contradiction.
  - intros Hin. apply in_map_iff in Hin. destruct Hin as [c [E Hc]].
    destruct (in_dec Nat.eq_dec pn (map fst groups)) as [Y|N]; [exact Y|].
    apply lookupGroup_None in N. rewrite Hl in N. unfold entryOfPage in N.
    assert (Hf : In c (chunksOfPage pn filteredChunks)).
    { apply filter_In. split; [exact Hc|]. apply Nat.eqb_eq, E. }
    destruct (chunksOfPage pn filteredChunks); [destruct Hf|discriminate].
Qed.

End ResultsByPage.

(* ================================================================== *)
(** * Properties of the first processor *)
(* ================================================================== *)

Section SimpleGrouping.
Import JS PdfProcessor Spec.

Lemma join_snoc (sep : jsstring) (parts : list jsstring) (p : jsstring) :
  join sep (parts ++ [p])
  = match parts with
    | [] => p
    | _ => (join sep parts ++ sep ++ p)%list
    end.
Proof.
  induction parts as [|q parts IH]; [reflexivity|].
  destruct parts as [|r parts'].
  - reflexivity.
  - change (join sep ((q :: r :: parts') ++ [p]))
      with (q ++ sep ++ join sep ((r :: parts') ++ [p]))%list.
    rewrite IH.
    change (join sep (q :: r :: parts'))
      with (q ++ sep ++ join sep (r :: parts'))%list.
    rewrite <- !app_assoc. reflexivity.
Qed.

(** Merging two neighbours with the separator does not change the joined
    text. *)
Lemma join_merge (sep : jsstring) (parts : list jsstring) (a b : jsstring) :
  join sep (parts ++ [(a ++ sep ++ b)%list]) = join sep (parts ++ [a; b]).
Proof.
  replace (parts ++ [a; b])%list with ((parts ++ [a]) ++ [b])%list
    by (rewrite <- app_assoc; reflexivity).
  rewrite (join_snoc sep (parts ++ [a]) b), !join_snoc.
  destruct parts as [|q parts]; simpl app.
  - reflexivity.
  - destruct (parts ++ [a])%list eqn:E.
    + destruct parts; discriminate.
    + rewrite <- !app_assoc. reflexivity.
Qed.

Lemma join_snoc_nonempty (sep : jsstring) (parts : list jsstring)
  (p : jsstring) :
  parts <> [] -> join sep (parts ++ [p]) = (join sep parts ++ sep ++ p)%list.
Proof.
  intros H. rewrite join_snoc. destruct parts; [congruence|reflexivity].
Qed.

Lemma join_merge_inside (sep : jsstring) (pre post : list jsstring)
  (a b : jsstring) :
  join sep (pre ++ [(a ++ sep ++ b)%list] ++ post)
  = join sep (pre ++ [a; b] ++ post).
Proof.
  induction post as [|t post IH] using rev_ind.
  - rewrite !app_nil_r. apply join_merge.
  - rewrite !app_assoc.
    rewrite !join_snoc_nonempty by (destruct pre; discriminate).
    f_equal. rewrite <- !app_assoc. exact IH.
Qed.

Lemma simple_groupStep_fold (rest : list TextChunk) :
  forall (closed : list TextChunk) (lastGroup : TextChunk),
    let st := fold_left SimpleProcessor.groupStep rest (closed, lastGroup) in
    join [space] (map TextChunk.text (fst st ++ [snd st]))
    = join [space] (map TextChunk.text (closed ++ lastGroup :: rest))
    /\ List.length (fst st ++ [snd st])
       <= List.length (closed ++ lastGroup :: rest)
    /\ Forall (fun g =>
                 exists c, In c (closed ++ lastGroup :: rest)
                           /\ TextChunk.id g = TextChunk.id c
                           /\ TextChunk.pageNumber g = TextChunk.pageNumber c
                           /\ Geometry.x (TextChunk.geometry g)
                              = Geometry.x (TextChunk.geometry c)
                           /\ Geometry.y (TextChunk.geometry g)
                              = Geometry.y (TextChunk.geometry c))
              (fst st ++ [snd st]).
Proof.
  induction rest as [|c rest IH]; intros closed lastGroup.
  - cbn. split; [reflexivity|]. split; [lia|].
    apply Forall_forall. intros g Hg. exists g. repeat split. exact Hg.
  - cbv zeta. cbn [fold_left].
    change (SimpleProcessor.groupStep (closed, lastGroup) c)
      with (if SimpleProcessor.shouldMerge lastGroup c
            then (closed, SimpleProcessor.mergeInto lastGroup c)
            else ((closed ++ [lastGroup])%list, c)).
    destruct (SimpleProcessor.shouldMerge lastGroup c).
    + destruct (IH closed (SimpleProcessor.mergeInto lastGroup c))
        as [Ht [Hl Hg]].
      cbv zeta in Ht, Hl, Hg. split; [|split].
      * etransitivity; [exact Ht|]. rewrite !map_app.
        exact (join_merge_inside [space] (map TextChunk.text closed)
                                 (map TextChunk.text rest)
                                 (TextChunk.text lastGroup) (TextChunk.text c)).
      * rewrite !length_app in *. cbn [List.length] in *. lia.
      * eapply Forall_impl; [|exact Hg].
        intros g [c0 [Hin [H1 [H2 [H3 H4]]]]].
        apply in_app_or in Hin. destruct Hin as [Hin|[<-|Hin]].
        -- exists c0. repeat split; try assumption.
           apply in_or_app. left. exact Hin.
        -- exists lastGroup. repeat split; try assumption.
           apply in_or_app. right. left. reflexivity.
        -- exists c0. repeat split; try assumption.
           apply in_or_app. right. right. right. exact Hin.
    + destruct (IH (closed ++ [lastGroup])%list c) as [Ht [Hl Hg]].
      cbv zeta in Ht, Hl, Hg. rewrite <- !app_assoc in Ht, Hl, Hg.
      cbn [app] in Ht, Hl, Hg.
      split; [exact Ht|]. split; [exact Hl|exact Hg].
Qed.

(** X22. The line clusterer of the first processor only regroups, whatever
    order the sort leaves the chunks in: for every order the loop is run on,
    the texts of its groups joined by single spaces are the texts of the
    chunks in that order joined by single spaces; the result is the loop run
    on some order of the given chunks; it holds at most as many chunks as
    given, at least one when one is given; and every group carries the
    identifier, the page number and the top-left corner of one of the given
    chunks. *)
Theorem simple_grouping_regroups :
  forall chunks : list TextChunk,
    let groups := SimpleProcessor.groupNearbyTextChunks chunks in
    (forall sortedChunks : list TextChunk,
        join [space] (map TextChunk.text (SimpleProcessor.groupSorted sortedChunks))
        = join [space] (map TextChunk.text sortedChunks))
    /\ (exists sortedChunks,
           Permutation sortedChunks chunks
           /\ groups = SimpleProcessor.groupSorted sortedChunks)
    /\ List.length groups <= List.length chunks
    /\ (chunks <> [] -> groups <> [])
    /\ Forall (fun g =>
                 exists c, In c chunks
                           /\ TextChunk.id g = TextChunk.id c
                           /\ TextChunk.pageNumber g = TextChunk.pageNumber c
                           /\ Geometry.x (TextChunk.geometry g)
                              = Geometry.x (TextChunk.geometry c)
                           /\ Geometry.y (TextChunk.geometry g)
                              = Geometry.y (TextChunk.geometry c))
              groups.
Proof.
  intros chunks groups. subst groups.
  assert (Hloop : forall sortedChunks : list TextChunk,
             join [space] (map TextChunk.text (SimpleProcessor.groupSorted sortedChunks))
             = join [space] (map TextChunk.text sortedChunks)
             /\ List.length (SimpleProcessor.groupSorted sortedChunks)
                <= List.length sortedChunks
             /\ (sortedChunks <> [] -> SimpleProcessor.groupSorted sortedChunks <> [])
             /\ Forall (fun g =>
                          exists c, In c sortedChunks
                                    /\ TextChunk.id g = TextChunk.id c
                                    /\ TextChunk.pageNumber g = TextChunk.pageNumber c
                                    /\ Geometry.x (TextChunk.geometry g)
                                       = Geometry.x (TextChunk.geometry c)
                                    /\ Geometry.y (TextChunk.geometry g)
                                       = Geometry.y (TextChunk.geometry c))
                       (SimpleProcessor.groupSorted sortedChunks)).
  { intros [|first rest].
    - cbn. repeat split; try constructor. congruence.
    - unfold SimpleProcessor.groupSorted.
      destruct (simple_groupStep_fold rest [] first) as [Ht [Hl Hg]].
      cbv zeta in Ht, Hl, Hg. cbn [app] in Ht, Hl, Hg.
      destruct (fold_left SimpleProcessor.groupStep rest ([], first))
        as [closed lastGroup].
      cbn [fst snd] in *.
      split; [exact Ht|]. split; [exact Hl|]. split; [|exact Hg].
      intros _. destruct closed; discriminate. }
  pose proof (sort_perm SimpleProcessor.compareByPosition chunks) as P.
  assert (E : SimpleProcessor.groupNearbyTextChunks chunks
              = SimpleProcessor.groupSorted
                  (sort SimpleProcessor.compareByPosition chunks)).
  { unfold SimpleProcessor.groupNearbyTextChunks. destruct chunks; reflexivity. }
  destruct (Hloop (sort SimpleProcessor.compareByPosition chunks))
    as [_ [Hl [Hne Hg]]].
  split; [intros sortedChunks; apply Hloop|].
  split; [eexists; split; [exact P|exact E]|].
  rewrite E. split; [|split].
  - rewrite <- (Permutation_length P). exact Hl.
  - intros Hc. apply Hne. intros Hs. rewrite Hs in P.
    apply Permutation_nil in P. congruence.
  - eapply Forall_impl; [|exact Hg].
    intros g [c [Hin H]]. exists c. split; [|exact H].
    exact (Permutation_in _ P Hin).
Qed.

End SimpleGrouping.
